(** * BPMN auto-layout and connector collision resolution

    A shallow embedding of the layout engine of the BPMN editor
    (layout.types, layout.collision, layout.graph, layout.geometry,
    layout.waypoints and bpmn-layout.service) together with the properties
    stated about it.

    Conventions of the embedding.
    - A TypeScript [number] that carries a coordinate, a size or a spacing is
      an exact rational ([Q]); [Math.abs], [Math.max] and [Math.min] are
      [Qabs], [Qmax] and [Qmin].  Equalities between computed numbers are
      therefore stated with [==].
    - Array indices, lengths and ranks are natural numbers; where the source
      subtracts from a length the subtraction is carried out in [Z].
    - A JavaScript [Map] is an insertion-ordered association list with unique
      keys ([JsMap]).
    - Element objects owned by the diagram editor are referred to by their
      identifier. *)

From Stdlib Require Import QArith Qabs Qminmax ZArith Lia Lqa Sorted.
From stdpp Require Import base relations list strings.

Open Scope Q_scope.

(* ================================================================== *)
(** ** Numbers *)

Module Num.

(** [a < b] *)
Definition ltb (a b : Q) : bool :=
  match a ?= b with Lt => true | _ => false end.

(** [a > b] *)
Definition gtb (a b : Q) : bool := ltb b a.

(** [a >= b] *)
Definition geb (a b : Q) : bool := Qle_bool b a.

(** [a === b] and [a !== b] on numbers *)
Definition eqb (a b : Q) : bool := Qeq_bool a b.

(** [a === b] where either side may be [undefined] *)
Definition opt_eqb (a b : option Q) : bool :=
  match a, b with
  | Some u, Some v => eqb u v
  | None, None => true
  | _, _ => false
  end.

(** [a ?? d] *)
Definition orElse {A} (a : option A) (d : A) : A :=
  match a with Some v => v | None => d end.

Definition ofNat (n : nat) : Q := inject_Z (Z.of_nat n).

End Num.

Infix "??" := Num.orElse (at level 45, left associativity).

(* ================================================================== *)
(** ** JavaScript [Map] and [Array] helpers *)

Module JsMap.

(** Entries in insertion order, at most one per key. *)
Definition t (K V : Type) : Type := list (K * V).

Section Ops.
Context {K V : Type} `{EqDecision K}.

Definition empty : t K V := [].

Fixpoint get (m : t K V) (k : K) : option V :=
  match m with
  | [] => None
  | (k', v) :: m' => if decide (k = k') then Some v else get m' k
  end.

Definition has (m : t K V) (k : K) : bool :=
  match get m k with Some _ => true | None => false end.

(** [m.set(k, v)]: an existing key keeps its position. *)
Fixpoint set (m : t K V) (k : K) (v : V) : t K V :=
  match m with
  | [] => [(k, v)]
  | (k', v') :: m' =>
      if decide (k = k') then (k, v) :: m' else (k', v') :: set m' k v
  end.

Definition keys (m : t K V) : list K := map fst m.
Definition values (m : t K V) : list V := map snd m.
Definition size (m : t K V) : nat := length m.

(** [m.forEach((v, k) => ...)] over a threaded state. *)
Definition forEach {S : Type} (m : t K V) (body : V -> K -> S -> S) (s : S) : S :=
  fold_left (fun s kv => body (snd kv) (fst kv) s) m s.
End Ops.

End JsMap.

(** [Array.prototype.sort] is stable: an element is placed after every
    element already present that does not compare greater than it.
    [neg a b] tells whether the comparator's result on [(a, b)] is
    negative. *)
Fixpoint sort_insert {A} (neg : A -> A -> bool) (a : A) (sorted : list A) : list A :=
  match sorted with
  | [] => [a]
  | b :: sorted' =>
      if neg a b then a :: b :: sorted' else b :: sort_insert neg a sorted'
  end.

Definition sort {A} (neg : A -> A -> bool) (l : list A) : list A :=
  fold_left (fun sorted a => sort_insert neg a sorted) l [].

(** [array.findIndex(pred)], [-1] when nothing satisfies [pred]. *)
Fixpoint findIndex_from {A} (i : Z) (pred : A -> bool) (l : list A) : Z :=
  match l with
  | [] => (-1)%Z
  | a :: l' => if pred a then i else findIndex_from (i + 1)%Z pred l'
  end.

Definition findIndex {A} (pred : A -> bool) (l : list A) : Z :=
  findIndex_from 0%Z pred l.

(** [for (let i = lo; i < hi; i++) body(i)] over a threaded state. *)
Definition forRange {S : Type} (lo : nat) (hi : Z) (body : nat -> S -> S) (s : S) : S :=
  fold_left (fun s i => body i s) (seq lo (Z.to_nat (hi - Z.of_nat lo))) s.

(* ================================================================== *)
(** ** layout.types *)

Module Point.
Record t := mk { x : Q; y : Q }.
End Point.

Inductive Orientation := horizontal | vertical | diagonal.

Definition Orientation_eqb (a b : Orientation) : bool :=
  match a, b with
  | horizontal, horizontal | vertical, vertical | diagonal, diagonal => true
  | _, _ => false
  end.

Module Segment.
Record t := mk {
  connectionId : string;
  p1 : Point.t;
  p2 : Point.t;
  orientation : Orientation
}.
End Segment.

Module CollisionConflict.
Record t := mk {
  connections : string * string;
  reason : string;
  segment1 : Segment.t;
  segment2 : Segment.t
}.
End CollisionConflict.

(** A diagram element as the editor's registry holds it
    ([BpmnElementLike], with the fields of [BpmnConnectionLike] that a
    sequence flow carries).  [outgoing] lists the outgoing connections by
    identifier, [source] and [target] refer to shapes by identifier;
    [businessObject] tells whether the field is non-null. *)
Module Element.
Record t := mk {
  id : string;
  type : string;
  parent : option string;
  x : option Q;
  y : option Q;
  width : option Q;
  height : option Q;
  outgoing : option (list string);
  hidden : bool;
  businessObject : bool;
  waypoints : list Point.t;
  source : option string;
  target : option string
}.
End Element.

(** The element type that [buildGraphFromElements] declares for its
    input, with the [x] and [y] that [computeLayout] reads from
    [node.element]; an outgoing connection is given by its target's
    identifier. *)
Module FlowElement.
Record t := mk {
  id : string;
  parent_id : string;
  x : Q;
  y : Q;
  width : Q;
  height : Q;
  outgoing : option (list string)
}.
End FlowElement.

Module LayoutNode.
Record t := mk {
  id : string;
  element : FlowElement.t;
  rank : nat;
  laneId : string;
  width : Q;
  height : Q
}.
Definition setRank (n : t) (r : nat) : t :=
  mk (id n) (element n) r (laneId n) (width n) (height n).
End LayoutNode.

Module LaneMeta.
Record t := mk {
  id : string;
  element : Element.t;
  maxStack : Q;
  y : Q;
  height : Q;
  nodesByRank : JsMap.t nat (list LayoutNode.t)
}.
Definition setHeight (m : t) (h : Q) : t :=
  mk (id m) (element m) (maxStack m) (y m) h (nodesByRank m).
Definition setY (m : t) (v : Q) : t :=
  mk (id m) (element m) (maxStack m) v (height m) (nodesByRank m).
Definition setNodesByRank (m : t) (n : JsMap.t nat (list LayoutNode.t)) : t :=
  mk (id m) (element m) (maxStack m) (y m) (height m) n.
End LaneMeta.

Module LayoutConstants.
Record t := mk {
  colSpacing : Q;
  rowSpacing : Q;
  lanePadding : Q;
  startXOffset : Q;
  collisionThreshold : Q;
  parallelOffset : Q
}.
End LayoutConstants.

Definition DEFAULT_LAYOUT_CONSTANTS : LayoutConstants.t :=
  {| LayoutConstants.colSpacing := 80;
     LayoutConstants.rowSpacing := 30;
     LayoutConstants.lanePadding := 80;
     LayoutConstants.startXOffset := 150;
     LayoutConstants.collisionThreshold := 5;
     LayoutConstants.parallelOffset := 18 |}.

(* ================================================================== *)
(** ** layout.collision: orientation and segment collision *)

Definition getOrientation (p1 p2 : Point.t) : Orientation :=
  if Num.ltb (Qabs (Point.x p1 - Point.x p2)) 2 then vertical
  else if Num.ltb (Qabs (Point.y p1 - Point.y p2)) 2 then horizontal
  else diagonal.

Definition checkIntervalOverlap (min1 max1 min2 max2 : Q) : bool :=
  Num.ltb (Qmax min1 min2) (Qmin max1 max2 - 2).

Definition checkSegmentCollision (seg1 seg2 : Segment.t) (threshold : Q) : bool :=
  if negb (Orientation_eqb (Segment.orientation seg1) (Segment.orientation seg2))
  then false
  else
    let a1 := Segment.p1 seg1 in let a2 := Segment.p2 seg1 in
    let b1 := Segment.p1 seg2 in let b2 := Segment.p2 seg2 in
    match Segment.orientation seg1 with
    | horizontal =>
        if Num.gtb (Qabs (Point.y a1 - Point.y b1)) threshold then false
        else checkIntervalOverlap
               (Qmin (Point.x a1) (Point.x a2)) (Qmax (Point.x a1) (Point.x a2))
               (Qmin (Point.x b1) (Point.x b2)) (Qmax (Point.x b1) (Point.x b2))
    | vertical =>
        if Num.gtb (Qabs (Point.x a1 - Point.x b1)) threshold then false
        else checkIntervalOverlap
               (Qmin (Point.y a1) (Point.y a2)) (Qmax (Point.y a1) (Point.y a2))
               (Qmin (Point.y b1) (Point.y b2)) (Qmax (Point.y b1) (Point.y b2))
    | diagonal => false
    end.

(** [for (i = 0; i < waypoints.length - 1; i++) segments.push(...)]: one
    segment per pair of consecutive waypoints. *)
Fixpoint extractSegments (connectionId : string) (waypoints : list Point.t)
  : list Segment.t :=
  match waypoints with
  | p :: (q :: _) as rest =>
      {| Segment.connectionId := connectionId;
         Segment.p1 := p; Segment.p2 := q;
         Segment.orientation := getOrientation p q |}
      :: extractSegments connectionId rest
  | _ => []
  end.

(** The inner loop of [detectCollisions]: [seg1] against every later
    segment. *)
Fixpoint detectCollisions_inner (seg1 : Segment.t) (later : list Segment.t)
    (threshold : Q) : list CollisionConflict.t :=
  match later with
  | [] => []
  | seg2 :: later' =>
      if String.eqb (Segment.connectionId seg1) (Segment.connectionId seg2)
      then detectCollisions_inner seg1 later' threshold
      else if checkSegmentCollision seg1 seg2 threshold
      then {| CollisionConflict.connections :=
                (Segment.connectionId seg1, Segment.connectionId seg2);
              CollisionConflict.reason := "Overlap or near-collision detected";
              CollisionConflict.segment1 := seg1;
              CollisionConflict.segment2 := seg2 |}
           :: detectCollisions_inner seg1 later' threshold
      else detectCollisions_inner seg1 later' threshold
  end.

Fixpoint detectCollisions (allSegments : list Segment.t) (threshold : Q)
  : list CollisionConflict.t :=
  match allSegments with
  | [] => []
  | seg1 :: later =>
      detectCollisions_inner seg1 later threshold ++ detectCollisions later threshold
  end.

(** Length of the common part of the intervals [[min1,max1]] and
    [[min2,max2]] (negative when they are apart). *)
Definition overlapLength (min1 max1 min2 max2 : Q) : Q :=
  Qmin max1 max2 - Qmax min1 min2.

(** Projection of a segment on the axis it is aligned with, as
    [checkSegmentCollision] passes it to [checkIntervalOverlap]. *)
Definition alignedLow (o : Orientation) (s : Segment.t) : Q :=
  match o with
  | horizontal => Qmin (Point.x (Segment.p1 s)) (Point.x (Segment.p2 s))
  | _ => Qmin (Point.y (Segment.p1 s)) (Point.y (Segment.p2 s))
  end.

Definition alignedHigh (o : Orientation) (s : Segment.t) : Q :=
  match o with
  | horizontal => Qmax (Point.x (Segment.p1 s)) (Point.x (Segment.p2 s))
  | _ => Qmax (Point.y (Segment.p1 s)) (Point.y (Segment.p2 s))
  end.

(* ================================================================== *)
(** ** layout.collision: line drift *)

Definition shiftX (offset : Q) (p : Point.t) : Point.t :=
  Point.mk (Point.x p + offset) (Point.y p).

Definition shiftY (offset : Q) (p : Point.t) : Point.t :=
  Point.mk (Point.x p) (Point.y p + offset).

(** The waypoint list handed to the drift functions is always the fresh
    copy made by [computeResolvedWaypoints], whose points are pairwise
    distinct objects; updating the point at an index is then an update of
    that list position.  ([Heap] below keeps the objects and their
    identities.) *)
Definition applySegmentDrift (waypoints : list Point.t) (segmentIndex : Z)
    (offset : Q) (orientation : Orientation) : list Point.t :=
  if ((segmentIndex <? 0) || (segmentIndex >=? Z.of_nat (length waypoints) - 1))%Z
  then waypoints
  else
    let i := Z.to_nat segmentIndex in
    match orientation with
    | horizontal => alter (shiftY offset) (S i) (alter (shiftY offset) i waypoints)
    | _ => alter (shiftX offset) (S i) (alter (shiftX offset) i waypoints)
    end.

Definition applyDriftToWaypoints (waypoints : list Point.t) (offset : Q)
  : list Point.t :=
  forRange 2 (Z.of_nat (length waypoints) - 1)
    (fun i w => alter (shiftY offset) i w) waypoints.

Module ConnectionLike.
(** [source] and [target] are references to diagram elements, compared
    with [===]; [None] is an absent reference.  [W] is what [waypoints]
    holds: the points themselves ([Connection]), or a reference to the
    array object in [Heap]. *)
Record t (W : Type) := mk {
  id : string;
  waypoints : W;
  source : option string;
  target : option string
}.
Arguments mk {W} _ _ _ _.
Arguments id {W} _.
Arguments waypoints {W} _.
Arguments source {W} _.
Arguments target {W} _.
End ConnectionLike.

Abbreviation Connection := (ConnectionLike.t (list Point.t)).

Module Overlap.
Record t := mk {
  segmentIndex : Z;
  orientation : Orientation;
  isPositiveDirection : bool
}.
End Overlap.

(** Inner loop of [checkConnectionOverlapDetails]: the segment [(p1,p2)] of
    the first connection, which is its [i]-th, against the segments of the
    second one that are still to be visited. *)
Fixpoint overlap_inner (i : nat) (p1 p2 : Point.t) (orientation : Orientation)
    (waypoints2 : list Point.t)
    (checkCollision : Segment.t -> Segment.t -> bool) : option Overlap.t :=
  match waypoints2 with
  | q1 :: (q2 :: _) as rest =>
      let otherOrientation := getOrientation q1 q2 in
      if negb (Orientation_eqb orientation otherOrientation)
      then overlap_inner i p1 p2 orientation rest checkCollision
      else
        let seg1 := Segment.mk "" p1 p2 orientation in
        let seg2 := Segment.mk "" q1 q2 otherOrientation in
        if negb (checkCollision seg1 seg2)
        then overlap_inner i p1 p2 orientation rest checkCollision
        else
          match orientation with
          | diagonal => overlap_inner i p1 p2 orientation rest checkCollision
          | horizontal =>
              let center1 := (Point.y p1 + Point.y p2) / 2 in
              let center2 := (Point.y q1 + Point.y q2) / 2 in
              Some (Overlap.mk (Z.of_nat i) orientation (Num.geb center1 center2))
          | vertical =>
              let center1 := (Point.x p1 + Point.x p2) / 2 in
              let center2 := (Point.x q1 + Point.x q2) / 2 in
              Some (Overlap.mk (Z.of_nat i) orientation (Num.geb center1 center2))
          end
  | _ => None
  end.

(** Outer loop, from segment index [i] on. *)
Fixpoint overlap_outer (i : nat) (waypoints1 waypoints2 : list Point.t)
    (checkCollision : Segment.t -> Segment.t -> bool) : option Overlap.t :=
  match waypoints1 with
  | p1 :: (p2 :: _) as rest =>
      match overlap_inner i p1 p2 (getOrientation p1 p2) waypoints2 checkCollision with
      | Some r => Some r
      | None => overlap_outer (S i) rest waypoints2 checkCollision
      end
  | _ => None
  end.

Definition checkConnectionOverlapDetails (conn1_waypoints : list Point.t)
    (conn2 : Connection)
    (checkCollision : Segment.t -> Segment.t -> bool) : option Overlap.t :=
  overlap_outer 0 conn1_waypoints (ConnectionLike.waypoints conn2) checkCollision.

(** [a === b] on element references. *)
Definition ref_eqb (a b : option string) : bool :=
  match a, b with
  | Some u, Some v => String.eqb u v
  | None, None => true
  | _, _ => false
  end.

Definition isParallel {W} (targetConnection other : ConnectionLike.t W) : bool :=
  (ref_eqb (ConnectionLike.source targetConnection) (ConnectionLike.source other)
   && ref_eqb (ConnectionLike.target targetConnection) (ConnectionLike.target other))
  || (ref_eqb (ConnectionLike.source targetConnection) (ConnectionLike.target other)
      && ref_eqb (ConnectionLike.target targetConnection) (ConnectionLike.source other)).

Section Resolver.

(** [String.prototype.localeCompare] depends on the host's collation; it
    is a parameter of the development.  A negative result places the
    receiver first. *)
Variable localeCompare : string -> string -> Z.

(** [a] sorts strictly before [b], whichever way the two are compared. *)
Definition precedes (a b : string) : Prop :=
  (localeCompare a b < 0)%Z /\ (0 < localeCompare b a)%Z.

(** [(index - (n - 1) / 2) * constants.parallelOffset] *)
Definition fanOffset (index n : Z) (constants : LayoutConstants.t) : Q :=
  (inject_Z index - (inject_Z n - 1) / 2) * LayoutConstants.parallelOffset constants.

(** The offset given to [targetConnection] inside its parallel group,
    [None] when the group is empty. *)
Definition parallelGroupOffset {W} (targetConnection : ConnectionLike.t W)
    (otherConnections : list (ConnectionLike.t W))
    (constants : LayoutConstants.t) : option Q :=
  let parallelGroup :=
    List.filter (fun other => isParallel targetConnection other) otherConnections in
  if (Z.of_nat (length parallelGroup) >? 0)%Z then
    let allParallel :=
      sort (fun a b =>
              (localeCompare (ConnectionLike.id a) (ConnectionLike.id b) <? 0)%Z)
           (targetConnection :: parallelGroup) in
    let index :=
      findIndex (fun c => String.eqb (ConnectionLike.id c)
                                     (ConnectionLike.id targetConnection))
                allParallel in
    let n := Z.of_nat (length allParallel) in
    Some (fanOffset index n constants)
  else None.

(** One iteration of [for (const other of otherConnections)]. *)
Definition nudgeAgainst (targetConnection : Connection)
    (checkCollision : Segment.t -> Segment.t -> bool)
    (constants : LayoutConstants.t)
    (st : list Point.t * bool) (other : Connection)
  : list Point.t * bool :=
  let '(waypoints, updated) := st in
  if isParallel targetConnection other then st
  else
    match checkConnectionOverlapDetails waypoints other checkCollision with
    | Some overlap =>
        let direction : Q := if Overlap.isPositiveDirection overlap then 1 else -1 in
        (applySegmentDrift waypoints (Overlap.segmentIndex overlap)
           (LayoutConstants.parallelOffset constants * direction)
           (Overlap.orientation overlap),
         true)
    | None => st
    end.

Definition computeResolvedWaypoints (targetConnection : Connection)
    (otherConnections : list Connection)
    (constants : LayoutConstants.t) : list Point.t * bool :=
  let waypoints :=
    map (fun w => Point.mk (Point.x w) (Point.y w))
        (ConnectionLike.waypoints targetConnection) in
  if (Z.of_nat (length waypoints) <? 2)%Z then (waypoints, false)
  else
    let checkCollision := fun s1 s2 =>
      checkSegmentCollision s1 s2 (LayoutConstants.collisionThreshold constants) in
    let updated := false in
    let '(waypoints, updated) :=
      match parallelGroupOffset targetConnection otherConnections constants with
      | Some offset =>
          if Num.gtb (Qabs offset) 1
          then (applyDriftToWaypoints waypoints offset, true)
          else (waypoints, updated)
      | None => (waypoints, updated)
      end in
    fold_left (nudgeAgainst targetConnection checkCollision constants)
              otherConnections (waypoints, updated).

End Resolver.

(* ================================================================== *)
(** ** layout.collision on a heap of objects

    The functions of the resolver once more, with waypoint arrays and
    points as objects in a heap, so that sharing and in-place updates are
    visible.  A connection holds a reference to its waypoint array, the
    array holds references to its points. *)

Module Heap.

(** References are positions in the heap. *)
Abbreviation loc := nat.

Inductive obj :=
| OPoint (p : Point.t)
| OArray (items : list loc).

(** A heap: the objects allocated so far. *)
Abbreviation t := (list obj).

(** A computation on the heap; [None] when a reference does not lead to an
    object of the expected kind. *)
Definition M (A : Type) : Type := t -> option (A * t).

Definition ret {A} (a : A) : M A := fun h => Some (a, h).

Definition bind {A B} (m : M A) (k : A -> M B) : M B :=
  fun h => match m h with Some (a, h') => k a h' | None => None end.

Notation "x <- m ;; k" := (bind m (fun x => k))
  (at level 100, m at next level, right associativity).
Notation "m ;;; k" := (bind m (fun _ => k))
  (at level 100, right associativity).

(** [{ x: ..., y: ... }] *)
Definition newPoint (p : Point.t) : M loc :=
  fun h => Some (length h, h ++ [OPoint p]).

(** A new array object with the given items. *)
Definition newArray (items : list loc) : M loc :=
  fun h => Some (length h, h ++ [OArray items]).

Definition getPoint (l : loc) : M Point.t :=
  fun h => match h !! l with Some (OPoint p) => Some (p, h) | _ => None end.

Definition getArray (l : loc) : M (list loc) :=
  fun h => match h !! l with Some (OArray items) => Some (items, h) | _ => None end.

Definition setPoint (l : loc) (p : Point.t) : M unit :=
  fun h =>
    match h !! l with
    | Some (OPoint _) => Some (tt, <[l := OPoint p]> h)
    | _ => None
    end.

Fixpoint mapM {A B} (f : A -> M B) (l : list A) : M (list B) :=
  match l with
  | [] => ret []
  | a :: l' => b <- f a ;; r <- mapM f l' ;; ret (b :: r)
  end.

Fixpoint forEachM {A} (f : A -> M unit) (l : list A) : M unit :=
  match l with
  | [] => ret tt
  | a :: l' => f a ;;; forEachM f l'
  end.

Fixpoint foldM {A S} (f : S -> A -> M S) (l : list A) (s : S) : M S :=
  match l with
  | [] => ret s
  | a :: l' => s' <- f s a ;; foldM f l' s'
  end.

(** The coordinates of the points of a waypoint array. *)
Definition readWaypoints (waypoints : loc) : M (list Point.t) :=
  items <- getArray waypoints ;; mapM getPoint items.

(** [p.y += offset] and [p.x += offset] *)
Definition addY (offset : Q) (l : loc) : M unit :=
  p <- getPoint l ;; setPoint l (shiftY offset p).

Definition addX (offset : Q) (l : loc) : M unit :=
  p <- getPoint l ;; setPoint l (shiftX offset p).

Definition applySegmentDrift (waypoints : loc) (segmentIndex : Z)
    (offset : Q) (orientation : Orientation) : M unit :=
  items <- getArray waypoints ;;
  if ((segmentIndex <? 0) || (segmentIndex >=? Z.of_nat (length items) - 1))%Z
  then ret tt
  else
    match items !! Z.to_nat segmentIndex, items !! S (Z.to_nat segmentIndex) with
    | Some p1, Some p2 =>
        match orientation with
        | horizontal => addY offset p1 ;;; addY offset p2
        | _ => addX offset p1 ;;; addX offset p2
        end
    | _, _ => ret tt
    end.

Definition applyDriftToWaypoints (waypoints : loc) (offset : Q) : M unit :=
  items <- getArray waypoints ;;
  forEachM
    (fun i => match items !! i with
              | Some p => addY offset p
              | None => ret tt
              end)
    (seq 2 (Z.to_nat (Z.of_nat (length items) - 1 - Z.of_nat 2))).

(** The search reads coordinates only; it is the search of
    [overlap_outer] on the coordinates found in the heap. *)
Definition checkConnectionOverlapDetails (conn1_waypoints : loc)
    (conn2 : ConnectionLike.t loc)
    (checkCollision : Segment.t -> Segment.t -> bool) : M (option Overlap.t) :=
  points1 <- readWaypoints conn1_waypoints ;;
  points2 <- readWaypoints (ConnectionLike.waypoints conn2) ;;
  ret (overlap_outer 0 points1 points2 checkCollision).

Section Resolver.

Variable localeCompare : string -> string -> Z.

Definition nudgeAgainst (targetConnection : ConnectionLike.t loc)
    (checkCollision : Segment.t -> Segment.t -> bool)
    (constants : LayoutConstants.t) (waypoints : loc)
    (updated : bool) (other : ConnectionLike.t loc) : M bool :=
  if isParallel targetConnection other then ret updated
  else
    overlap <- checkConnectionOverlapDetails waypoints other checkCollision ;;
    match overlap with
    | Some overlap =>
        let direction : Q := if Overlap.isPositiveDirection overlap then 1 else -1 in
        applySegmentDrift waypoints (Overlap.segmentIndex overlap)
          (LayoutConstants.parallelOffset constants * direction)
          (Overlap.orientation overlap) ;;;
        ret true
    | None => ret updated
    end.

(** The result is the reference to the new waypoint array and [updated]. *)
Definition computeResolvedWaypoints (targetConnection : ConnectionLike.t loc)
    (otherConnections : list (ConnectionLike.t loc))
    (constants : LayoutConstants.t) : M (loc * bool) :=
  items <- getArray (ConnectionLike.waypoints targetConnection) ;;
  copies <- mapM (fun w => p <- getPoint w ;;
                           newPoint (Point.mk (Point.x p) (Point.y p))) items ;;
  waypoints <- newArray copies ;;
  if (Z.of_nat (length copies) <? 2)%Z then ret (waypoints, false)
  else
    let checkCollision := fun s1 s2 =>
      checkSegmentCollision s1 s2 (LayoutConstants.collisionThreshold constants) in
    updated <-
      match parallelGroupOffset localeCompare targetConnection otherConnections
              constants with
      | Some offset =>
          if Num.gtb (Qabs offset) 1
          then applyDriftToWaypoints waypoints offset ;;; ret true
          else ret false
      | None => ret false
      end ;;
    updated <- foldM (nudgeAgainst targetConnection checkCollision constants waypoints)
                     otherConnections updated ;;
    ret (waypoints, updated).

End Resolver.

(** A connection with the coordinates of its waypoints in place of the
    reference to them. *)
Definition view (c : ConnectionLike.t loc) (points : list Point.t) : Connection :=
  ConnectionLike.mk (ConnectionLike.id c) points
    (ConnectionLike.source c) (ConnectionLike.target c).

(** [v] is [o] seen through the coordinates of some waypoints. *)
Definition viewed (o : ConnectionLike.t loc) (v : Connection) : Prop :=
  exists points, v = view o points.

(** The heap [h] followed by new points with coordinates [points] and a
    new array that refers to them in order. *)
Definition extended (h : t) (points : list Point.t) : t :=
  h ++ map OPoint points ++ [OArray (seq (length h) (length points))].

(** The waypoint reference of [c] leads to an array of points. *)
Definition readable (h : t) (c : ConnectionLike.t loc) : Prop :=
  exists points, readWaypoints (ConnectionLike.waypoints c) h = Some (points, h).

(** Two connections whose waypoint arrays share two points. *)
Definition sharedHeap : t :=
  [ OPoint (Point.mk 0 0); OPoint (Point.mk 10 0); OPoint (Point.mk 10 90);
    OPoint (Point.mk 60 90); OPoint (Point.mk 60 200);
    OArray [0; 1; 2; 3; 4]%nat;
    OPoint (Point.mk 10 300);
    OArray [6; 2; 3]%nat ].

Definition sharedTarget : ConnectionLike.t loc :=
  ConnectionLike.mk "Flow_1" 5%nat (Some "Task_A") (Some "Task_B").

Definition sharedOther : ConnectionLike.t loc :=
  ConnectionLike.mk "Flow_2" 7%nat (Some "Task_C") (Some "Task_D").

End Heap.

(** A sample collation for concrete runs: comparison by code units. *)
Definition codeUnitCompare (a b : string) : Z :=
  match String.compare a b with Lt => -1 | Eq => 0 | Gt => 1 end%Z.

(* ================================================================== *)
(** ** layout.graph *)

Module Graph.
Record t := mk {
  nodeMap : JsMap.t string LayoutNode.t;
  adjacency : JsMap.t string (list string);
  inDegree : JsMap.t string Z
}.
End Graph.

(** First loop of [buildGraphFromElements]. *)
Definition buildGraph_addNode (g : Graph.t) (el : FlowElement.t) : Graph.t :=
  {| Graph.nodeMap :=
       JsMap.set (Graph.nodeMap g) (FlowElement.id el)
         {| LayoutNode.id := FlowElement.id el;
            LayoutNode.element := el;
            LayoutNode.rank := 0;
            LayoutNode.laneId := FlowElement.parent_id el;
            LayoutNode.width := FlowElement.width el;
            LayoutNode.height := FlowElement.height el |};
     Graph.adjacency := JsMap.set (Graph.adjacency g) (FlowElement.id el) [];
     Graph.inDegree := JsMap.set (Graph.inDegree g) (FlowElement.id el) 0%Z |}.

(** [adjacency.get(id)!.push(targetId)] *)
Definition pushNeighbor (adjacency : JsMap.t string (list string))
    (fromId targetId : string) : JsMap.t string (list string) :=
  match JsMap.get adjacency fromId with
  | Some neighbors => JsMap.set adjacency fromId (neighbors ++ [targetId])
  | None => adjacency
  end.

(** Body of the second loop, for one outgoing connection of [el]. *)
Definition buildGraph_addEdge (el : FlowElement.t) (g : Graph.t) (targetId : string)
  : Graph.t :=
  if JsMap.has (Graph.nodeMap g) targetId then
    {| Graph.nodeMap := Graph.nodeMap g;
       Graph.adjacency := pushNeighbor (Graph.adjacency g) (FlowElement.id el) targetId;
       Graph.inDegree :=
         JsMap.set (Graph.inDegree g) targetId
           ((JsMap.get (Graph.inDegree g) targetId ?? 0) + 1)%Z |}
  else g.

Definition buildGraphFromElements (elements : list FlowElement.t) : Graph.t :=
  let g := fold_left buildGraph_addNode elements
             (Graph.mk JsMap.empty JsMap.empty JsMap.empty) in
  fold_left
    (fun g el => fold_left (buildGraph_addEdge el) (FlowElement.outgoing el ?? []) g)
    elements g.

(** How a run ends: normally, with a [TypeError] from a property read on
    [undefined], not within the given number of loop iterations, or
    ([IllTyped]) on elements that lack a field which a cast in the code
    asserts to be there. *)
Inductive outcome (A : Type) :=
| Done (a : A)
| Throws
| OutOfFuel
| IllTyped.
Arguments Done {A} a.
Arguments Throws {A}.
Arguments OutOfFuel {A}.
Arguments IllTyped {A}.

Definition outcome_bind {A B} (o : outcome A) (k : A -> outcome B) : outcome B :=
  match o with
  | Done a => k a
  | Throws => Throws
  | OutOfFuel => OutOfFuel
  | IllTyped => IllTyped
  end.

(** The in-degree table that [assignRanks] recomputes. *)
Definition rankInDegree (nodeMap : JsMap.t string LayoutNode.t)
    (adjacency : JsMap.t string (list string)) : JsMap.t string Z :=
  let inDegree := JsMap.forEach nodeMap (fun _ id m => JsMap.set m id 0%Z) JsMap.empty in
  JsMap.forEach adjacency
    (fun neighbors _ m =>
       fold_left (fun m toId => JsMap.set m toId ((JsMap.get m toId ?? 0) + 1)%Z)
                 neighbors m)
    inDegree.

(** The queue before the main loop: the nodes without incoming edge, or the
    first node of the map when there is none. *)
Definition initialQueue (nodeMap : JsMap.t string LayoutNode.t)
    (adjacency : JsMap.t string (list string)) : list string :=
  let inDegree := rankInDegree nodeMap adjacency in
  let queue :=
    JsMap.forEach nodeMap
      (fun node _ q =>
         match JsMap.get inDegree (LayoutNode.id node) with
         | Some 0%Z => q ++ [LayoutNode.id node]
         | _ => q
         end) [] in
  match queue, JsMap.keys nodeMap with
  | [], first :: _ => [first]
  | _, _ => queue
  end.

(** The [for (const nextId of neighbors)] loop for the node [currId] just
    taken from the queue.  Both nodes are read from the map at every
    iteration, as the loop reads [currNode.rank] through the object.
    [None] is the [TypeError] of reading [rank] of a missing node. *)
Fixpoint relaxNeighbors (currId : string) (neighbors : list string)
    (nodeMap : JsMap.t string LayoutNode.t) (queue : list string)
  : option (JsMap.t string LayoutNode.t * list string) :=
  match neighbors with
  | [] => Some (nodeMap, queue)
  | nextId :: neighbors' =>
      match JsMap.get nodeMap nextId, JsMap.get nodeMap currId with
      | Some nextNode, Some currNode =>
          if (LayoutNode.rank nextNode <=? LayoutNode.rank currNode)%nat then
            relaxNeighbors currId neighbors'
              (JsMap.set nodeMap nextId
                 (LayoutNode.setRank nextNode (LayoutNode.rank currNode + 1)))
              (queue ++ [nextId])
          else relaxNeighbors currId neighbors' nodeMap queue
      | _, _ => None
      end
  end.

(** [while (queue.length > 0)], at most [fuel] iterations. *)
Fixpoint assignRanks_loop (fuel : nat) (adjacency : JsMap.t string (list string))
    (nodeMap : JsMap.t string LayoutNode.t) (queue : list string)
  : outcome (JsMap.t string LayoutNode.t) :=
  match queue with
  | [] => Done nodeMap
  | currId :: queue' =>
      match fuel with
      | O => OutOfFuel
      | S fuel' =>
          let neighbors := JsMap.get adjacency currId ?? [] in
          match relaxNeighbors currId neighbors nodeMap queue' with
          | Some (nodeMap', queue'') =>
              assignRanks_loop fuel' adjacency nodeMap' queue''
          | None => Throws
          end
      end
  end.

(** [assignRanks] updates the ranks inside [nodeMap]; the updated map is
    the result. *)
Definition assignRanks (fuel : nat) (nodeMap : JsMap.t string LayoutNode.t)
    (adjacency : JsMap.t string (list string))
  : outcome (JsMap.t string LayoutNode.t) :=
  assignRanks_loop fuel adjacency nodeMap (initialQueue nodeMap adjacency).

(** *** Vocabulary for statements about ranks *)

(** The rank recorded for [id], [0] when the map has no such node. *)
Definition rankOf (nodeMap : JsMap.t string LayoutNode.t) (id : string) : nat :=
  match JsMap.get nodeMap id with
  | Some node => LayoutNode.rank node
  | None => 0
  end.

(** [v] is listed among the successors of [u]. *)
Definition edge (adjacency : JsMap.t string (list string)) (u v : string) : Prop :=
  exists neighbors, JsMap.get adjacency u = Some neighbors /\ v ∈ neighbors.

(** [u] can be reached along edges from a node of [seeds]. *)
Definition reachableFrom (adjacency : JsMap.t string (list string))
    (seeds : list string) (u : string) : Prop :=
  exists s, s ∈ seeds /\ rtc (edge adjacency) s u.

(** Every successor of [u] has a strictly greater rank than [u], and [u]
    is a node of the map as soon as it has a successor. *)
Definition settled (adjacency : JsMap.t string (list string))
    (nodeMap : JsMap.t string LayoutNode.t) (u : string) : Prop :=
  forall v, edge adjacency u v ->
    is_Some (JsMap.get nodeMap u) /\ (rankOf nodeMap u < rankOf nodeMap v)%nat.

(** Loop invariant of [assignRanks]: a node that was ever queued (a seed,
    or a node whose rank was raised) is waiting in the queue or settled. *)
Definition ranksInvariant (adjacency : JsMap.t string (list string))
    (seeds : list string) (nodeMap : JsMap.t string LayoutNode.t)
    (queue : list string) : Prop :=
  forall u, u ∈ seeds \/ (0 < rankOf nodeMap u)%nat ->
    u ∈ queue \/ settled adjacency nodeMap u.

(** A numbering of the nodes that grows along every edge; a graph has one
    exactly when it has no cycle. *)
Definition increasingAlongEdges (adjacency : JsMap.t string (list string))
    (depth : string -> nat) : Prop :=
  forall u v, edge adjacency u v -> (depth u < depth v)%nat.

(** What the loop of [assignRanks] can still do: the queue entries to take,
    plus the room left between each rank and the node's [depth]. *)
Definition ranksPotential (depth : string -> nat)
    (nodeMap : JsMap.t string LayoutNode.t) (queue : list string) : nat :=
  (length queue
   + sum_list (map (fun kn => depth (fst kn) - LayoutNode.rank (snd kn)) nodeMap))%nat.

(** No node is ranked beyond its [depth]. *)
Definition ranksWithin (depth : string -> nat)
    (nodeMap : JsMap.t string LayoutNode.t) : Prop :=
  forall k node, (k, node) ∈ nodeMap -> (LayoutNode.rank node <= depth k)%nat.

(** Every successor listed in [adjacency] is a node of [nodeMap], and so is
    every queue entry: the property reads of the loop then find their
    objects. *)
Definition graphClosed (adjacency : JsMap.t string (list string))
    (nodeMap : JsMap.t string LayoutNode.t) (queue : list string) : Prop :=
  (forall u v, edge adjacency u v -> is_Some (JsMap.get nodeMap v))
  /\ (forall u, u ∈ queue -> is_Some (JsMap.get nodeMap u)).

(** Every node is stored under its own identifier. *)
Definition keyedById (nodeMap : JsMap.t string LayoutNode.t) : Prop :=
  forall k node, (k, node) ∈ nodeMap -> LayoutNode.id node = k.

(** Two tasks that send work to each other. *)
Definition cycleElements : list FlowElement.t :=
  [ FlowElement.mk "Task_A" "Lane_1" 100 100 100 80 (Some ["Task_B"]);
    FlowElement.mk "Task_B" "Lane_1" 300 100 100 80 (Some ["Task_A"]) ].

Definition cycleAdjacency : JsMap.t string (list string) :=
  [("Task_A", ["Task_B"]); ("Task_B", ["Task_A"])].

(** The node map of [cycleElements] with ranks [a] and [b]. *)
Definition cycleNodeMap (a b : nat) : JsMap.t string LayoutNode.t :=
  [ ("Task_A",
     LayoutNode.mk "Task_A"
       (FlowElement.mk "Task_A" "Lane_1" 100 100 100 80 (Some ["Task_B"]))
       a "Lane_1" 100 80);
    ("Task_B",
     LayoutNode.mk "Task_B"
       (FlowElement.mk "Task_B" "Lane_1" 300 100 100 80 (Some ["Task_A"]))
       b "Lane_1" 100 80) ].

(** An end event registered first, fed by a task that sits on a cycle. *)
Definition strandedElements : list FlowElement.t :=
  [ FlowElement.mk "End_1" "Lane_1" 500 100 36 36 None;
    FlowElement.mk "Task_A" "Lane_1" 100 100 100 80 (Some ["Task_B"; "End_1"]);
    FlowElement.mk "Task_B" "Lane_1" 300 100 100 80 (Some ["Task_A"]) ].

(** A start event followed by two tasks in sequence. *)
Definition chainElements : list FlowElement.t :=
  [ FlowElement.mk "Start_1" "Lane_1" 0 100 36 36 (Some ["Task_A"]);
    FlowElement.mk "Task_A" "Lane_1" 100 100 100 80 (Some ["Task_B"]);
    FlowElement.mk "Task_B" "Lane_1" 300 100 100 80 None ].

(* ================================================================== *)
(** ** layout.geometry *)

Module LaneInput.
Record t := mk {
  id : string;
  y : Q;
  height : Q;
  element : Element.t
}.
End LaneInput.

(** Body of [nodeMap.forEach] in [buildLaneData]. *)
Definition buildLaneData_addNode (node : LayoutNode.t)
    (st : JsMap.t string LaneMeta.t * nat) : JsMap.t string LaneMeta.t * nat :=
  let '(laneData, maxGlobalRank) := st in
  let maxGlobalRank :=
    if (maxGlobalRank <? LayoutNode.rank node)%nat then LayoutNode.rank node
    else maxGlobalRank in
  match JsMap.get laneData (LayoutNode.laneId node) with
  | None => (laneData, maxGlobalRank)
  | Some meta =>
      let nodesByRank :=
        if JsMap.has (LaneMeta.nodesByRank meta) (LayoutNode.rank node)
        then LaneMeta.nodesByRank meta
        else JsMap.set (LaneMeta.nodesByRank meta) (LayoutNode.rank node) [] in
      let nodesByRank :=
        JsMap.set nodesByRank (LayoutNode.rank node)
          ((JsMap.get nodesByRank (LayoutNode.rank node) ?? []) ++ [node]) in
      (JsMap.set laneData (LayoutNode.laneId node)
         (LaneMeta.setNodesByRank meta nodesByRank),
       maxGlobalRank)
  end.

Definition buildLaneData (lanes : list LaneInput.t)
    (nodeMap : JsMap.t string LayoutNode.t) : JsMap.t string LaneMeta.t * nat :=
  let laneData :=
    fold_left
      (fun laneData lane =>
         JsMap.set laneData (LaneInput.id lane)
           {| LaneMeta.id := LaneInput.id lane;
              LaneMeta.element := LaneInput.element lane;
              LaneMeta.maxStack := 1;
              LaneMeta.y := LaneInput.y lane;
              LaneMeta.height := LaneInput.height lane;
              LaneMeta.nodesByRank := JsMap.empty |})
      lanes JsMap.empty in
  JsMap.forEach nodeMap (fun node _ st => buildLaneData_addNode node st) (laneData, 0%nat).

Definition computeRankWidths (laneData : JsMap.t string LaneMeta.t)
    (maxGlobalRank : nat) : JsMap.t nat Q :=
  forRange 0 (Z.of_nat maxGlobalRank + 1)
    (fun r rankWidths =>
       let maxWidth :=
         JsMap.forEach laneData
           (fun meta _ maxWidth =>
              let nodes := JsMap.get (LaneMeta.nodesByRank meta) r ?? [] in
              fold_left
                (fun maxWidth n =>
                   if Num.gtb (LayoutNode.width n) maxWidth then LayoutNode.width n
                   else maxWidth)
                nodes maxWidth)
           100 in
       JsMap.set rankWidths r maxWidth)
    JsMap.empty.

(** [nodes.reduce((sum, n) => sum + n.height, 0) + (nodes.length - 1) * rowSpacing] *)
Definition stackHeight (constants : LayoutConstants.t) (nodes : list LayoutNode.t) : Q :=
  fold_left (fun sum n => sum + LayoutNode.height n) nodes 0
  + (Num.ofNat (length nodes) - 1) * LayoutConstants.rowSpacing constants.

(** The [for (let r = 0; r <= maxGlobalRank; r++)] loop of
    [computeLaneHeights] for one lane. *)
Definition maxStackHeight (constants : LayoutConstants.t) (meta : LaneMeta.t)
    (maxGlobalRank : nat) : Q :=
  forRange 0 (Z.of_nat maxGlobalRank + 1)
    (fun r maxStackHeight =>
       let nodes := JsMap.get (LaneMeta.nodesByRank meta) r ?? [] in
       let stackHeight := stackHeight constants nodes in
       if Num.gtb stackHeight maxStackHeight then stackHeight else maxStackHeight)
    0.

(** Body of [laneData.forEach] in [computeLaneHeights]: the lane with its
    [height] reassigned. *)
Definition computeLaneHeight (constants : LayoutConstants.t) (maxGlobalRank : nat)
    (meta : LaneMeta.t) : LaneMeta.t :=
  let requiredHeight :=
    maxStackHeight constants meta maxGlobalRank
    + LayoutConstants.lanePadding constants * 2 in
  LaneMeta.setHeight meta
    (Qmax (Element.height (LaneMeta.element meta) ?? 0) requiredHeight).

(** [computeLaneHeights] assigns [meta.height] of every lane of the map; the
    updated map is the result. *)
Definition computeLaneHeights (laneData : JsMap.t string LaneMeta.t)
    (maxGlobalRank : nat) (constants : LayoutConstants.t) : JsMap.t string LaneMeta.t :=
  map (fun kv => (fst kv, computeLaneHeight constants maxGlobalRank (snd kv))) laneData.

Module NodePosition.
Record t := mk {
  nodeId : string;
  x : Q;
  y : Q;
  dx : Q;
  dy : Q;
  laneId : string
}.
End NodePosition.

Module LaneResize.
Record t := mk {
  laneId : string;
  y : Q;
  height : Q;
  element : Element.t;
  isRoot : bool
}.
End LaneResize.

(** [(meta.element as { id?: string }).id === rootElementId] *)
Definition isRootLane (meta : LaneMeta.t) (rootElementId : option string) : bool :=
  match rootElementId with
  | Some rootId => String.eqb (Element.id (LaneMeta.element meta)) rootId
  | None => false
  end.

Definition laneElementY (meta : LaneMeta.t) : Q :=
  Element.y (LaneMeta.element meta) ?? 0.

(** Body of [for (const meta of laneList)]: the lane stored under [key] gets
    its [y], and a resize record is appended. *)
Definition computeLayout_placeLane (rootElementId : option string)
    (st : JsMap.t string LaneMeta.t * list LaneResize.t * Q)
    (entry : string * LaneMeta.t)
  : JsMap.t string LaneMeta.t * list LaneResize.t * Q :=
  let '(laneData, laneResizes, currentLaneY) := st in
  let '(key, meta) := entry in
  let isRoot := isRootLane meta rootElementId in
  if negb isRoot then
    (JsMap.set laneData key (LaneMeta.setY meta currentLaneY),
     laneResizes ++ [ {| LaneResize.laneId := LaneMeta.id meta;
                         LaneResize.y := currentLaneY;
                         LaneResize.height := LaneMeta.height meta;
                         LaneResize.element := LaneMeta.element meta;
                         LaneResize.isRoot := false |} ],
     currentLaneY + LaneMeta.height meta)
  else
    (JsMap.set laneData key (LaneMeta.setY meta 0),
     laneResizes ++ [ {| LaneResize.laneId := LaneMeta.id meta;
                         LaneResize.y := 0;
                         LaneResize.height := LaneMeta.height meta;
                         LaneResize.element := LaneMeta.element meta;
                         LaneResize.isRoot := true |} ],
     currentLaneY).

(** Body of [nodeMap.forEach] in [computeLayout].  [siblings.indexOf(node)]
    looks the node object up; the nodes of a node map are told apart by
    their identifier. *)
Definition computeLayout_placeNode (laneData : JsMap.t string LaneMeta.t)
    (rankWidths : JsMap.t nat Q) (constants : LayoutConstants.t)
    (rootElementId : option string) (node : LayoutNode.t)
    (nodePositions : list NodePosition.t) : list NodePosition.t :=
  match JsMap.get laneData (LayoutNode.laneId node) with
  | None => nodePositions
  | Some meta =>
      let isRoot := isRootLane meta rootElementId in
      let startX :=
        if isRoot then LayoutConstants.startXOffset constants
        else (Element.x (LaneMeta.element meta) ?? 0)
             + LayoutConstants.lanePadding constants in
      let newX :=
        forRange 0 (Z.of_nat (LayoutNode.rank node))
          (fun i newX =>
             newX + ((JsMap.get rankWidths i ?? 100)
                     + LayoutConstants.colSpacing constants))
          startX in
      let siblings :=
        JsMap.get (LaneMeta.nodesByRank meta) (LayoutNode.rank node) ?? [] in
      let index :=
        findIndex (fun n => String.eqb (LayoutNode.id n) (LayoutNode.id node)) siblings in
      let totalStackHeight :=
        fold_left (fun sum n => sum + LayoutNode.height n) siblings 0
        + Qmax 0 (Num.ofNat (length siblings) - 1)
          * LayoutConstants.rowSpacing constants in
      let laneCenterY := LaneMeta.y meta + LaneMeta.height meta / 2 in
      let startStackY := laneCenterY - totalStackHeight / 2 in
      let stackOffset :=
        forRange 0 index
          (fun i stackOffset =>
             match siblings !! i with
             | Some sibling =>
                 stackOffset + (LayoutNode.height sibling
                                + LayoutConstants.rowSpacing constants)
             | None => stackOffset
             end)
          0 in
      let newY := startStackY + stackOffset in
      let elem := LayoutNode.element node in
      nodePositions ++
        [ {| NodePosition.nodeId := LayoutNode.id node;
             NodePosition.x := newX;
             NodePosition.y := newY;
             NodePosition.dx := newX - FlowElement.x elem;
             NodePosition.dy := newY - FlowElement.y elem;
             NodePosition.laneId := LayoutNode.laneId node |} ]
  end.

(** [None] is the [TypeError] of reading [y] of [laneList[0]?.element] when
    there is no lane. *)
Definition computeLayout (laneData : JsMap.t string LaneMeta.t)
    (nodeMap : JsMap.t string LayoutNode.t) (rankWidths : JsMap.t nat Q)
    (constants : LayoutConstants.t) (rootElementId : option string)
  : option (list NodePosition.t * list LaneResize.t) :=
  let laneList :=
    sort (fun a b => Num.ltb (laneElementY (snd a) - laneElementY (snd b)) 0)
         laneData in
  match laneList with
  | [] => None
  | first :: _ =>
      let currentLaneY := laneElementY (snd first) in
      let '(laneData, laneResizes, _) :=
        fold_left (computeLayout_placeLane rootElementId) laneList
                  (laneData, [], currentLaneY) in
      let nodePositions :=
        JsMap.forEach nodeMap
          (fun node _ nodePositions =>
             computeLayout_placeNode laneData rankWidths constants rootElementId
               node nodePositions)
          [] in
      Some (nodePositions, laneResizes)
  end.

(* ================================================================== *)
(** ** layout.waypoints *)

Definition computeManhattanWaypoints
    (sourceX sourceY sourceWidth sourceHeight
     targetX targetY targetWidth targetHeight : Q) : list Point.t :=
  let sourceCenter :=
    Point.mk (sourceX + sourceWidth / 2) (sourceY + sourceHeight / 2) in
  let targetCenter :=
    Point.mk (targetX + targetWidth / 2) (targetY + targetHeight / 2) in
  let waypoints := [] in
  let waypoints := waypoints ++ [Point.mk (sourceX + sourceWidth) (Point.y sourceCenter)] in
  let midX := (sourceX + sourceWidth + targetX) / 2 in
  let waypoints :=
    if Num.gtb targetX (sourceX + sourceWidth + 20) then
      (waypoints ++ [Point.mk midX (Point.y sourceCenter)])
        ++ [Point.mk midX (Point.y targetCenter)]
    else
      (waypoints ++ [Point.mk (targetX - 20) (Point.y sourceCenter)])
        ++ [Point.mk (targetX - 20) (Point.y targetCenter)] in
  let waypoints := waypoints ++ [Point.mk targetX (Point.y targetCenter)] in
  waypoints.

(** *** Vocabulary for statements about lanes *)

(** The recorded height of every lane is its element's height. *)
Definition heightsFromElements (laneData : JsMap.t string LaneMeta.t) : Prop :=
  forall k meta, JsMap.get laneData k = Some meta ->
    LaneMeta.height meta = Element.height (LaneMeta.element meta) ?? 0.

(** No lane holds a rank above [maxGlobalRank]. *)
Definition ranksBounded (laneData : JsMap.t string LaneMeta.t) (maxGlobalRank : nat)
  : Prop :=
  forall k meta r nodes, JsMap.get laneData k = Some meta ->
    JsMap.get (LaneMeta.nodesByRank meta) r = Some nodes -> (r <= maxGlobalRank)%nat.

(* ================================================================== *)
(** ** bpmn-layout.service *)

Module Bounds.
Record t := mk { x : Q; y : Q; width : Q; height : Q }.
End Bounds.

(** The three mutation commands of the editor's [modeling] service, with
    the elements they name given by identifier. *)
Inductive Command :=
| MoveElements (elements : list string) (delta : Point.t) (target : option string)
| ResizeShape (shape : string) (bounds : Bounds.t)
| UpdateWaypoints (connection : string) (waypoints : list Point.t).

(** [BpmnLayoutContext]: the registry's elements in registry order and the
    identifier of the canvas root, if any. *)
Module Context.
Record t := mk {
  elementRegistry : list Element.t;
  rootElement : option string
}.
End Context.

(** What an operation leaves behind: the registry as the editor keeps it
    after the commands, and the commands issued, oldest first. *)
Module World.
Record t := mk {
  registry : list Element.t;
  issued : list Command
}.
End World.

(** [registry.filter(predicate)] *)
Definition registry_filter (registry : list Element.t) (predicate : Element.t -> bool)
  : list Element.t :=
  List.filter predicate registry.

Definition getLanes (registry : list Element.t) : list Element.t :=
  let lanes := registry_filter registry
                 (fun e => String.eqb (Element.type e) "bpmn:Lane") in
  let lanes :=
    if (length lanes =? 0)%nat
    then registry_filter registry
           (fun e => String.eqb (Element.type e) "bpmn:Participant")
    else lanes in
  let lanes :=
    if (length lanes =? 0)%nat
    then registry_filter registry
           (fun e => String.eqb (Element.type e) "bpmn:Process")
    else lanes in
  lanes.

Definition getFlowElements (registry : list Element.t) : list Element.t :=
  registry_filter registry
    (fun e =>
       negb (String.eqb (Element.type e) "bpmn:Lane")
       && negb (String.eqb (Element.type e) "bpmn:Participant")
       && negb (String.eqb (Element.type e) "bpmn:Process")
       && negb (String.eqb (Element.type e) "bpmn:SequenceFlow")
       && negb (String.eqb (Element.type e) "bpmn:Association")
       && negb (String.eqb (Element.type e) "label")
       && negb (Element.hidden e)
       && Element.businessObject e).

(** The object that an identifier refers to. *)
Definition findElement (registry : list Element.t) (id : string) : option Element.t :=
  List.find (fun e => String.eqb (Element.id e) id) registry.

(** The present state of an element object obtained earlier: the registry
    entry with its identifier, or the object as it was when the registry no
    longer has it. *)
Definition live (registry : list Element.t) (e : Element.t) : Element.t :=
  findElement registry (Element.id e) ?? e.

(** [option] sequencing for the casts. *)
Fixpoint allSome {A} (l : list (option A)) : option (list A) :=
  match l with
  | [] => Some []
  | Some a :: l' =>
      match allSome l' with Some r => Some (a :: r) | None => None end
  | None :: _ => None
  end.

(** [elements as Parameters<typeof buildGraphFromElements>[0]], together
    with [node.element as { x: number; y: number }]: the view of a flow
    element that the graph and geometry functions work on.  [None] when a
    field asserted by the casts is missing. *)
Definition asFlowElement (registry : list Element.t) (e : Element.t)
  : option FlowElement.t :=
  match Element.parent e, Element.x e, Element.y e,
        Element.width e, Element.height e with
  | Some parent, Some x, Some y, Some width, Some height =>
      let outgoing :=
        match Element.outgoing e with
        | None => Some None
        | Some conns =>
            match allSome (map (fun c =>
                                  match findElement registry c with
                                  | Some conn => Element.target conn
                                  | None => None
                                  end) conns) with
            | Some targets => Some (Some targets)
            | None => None
            end
        end in
      match outgoing with
      | Some outgoing =>
          Some (FlowElement.mk (Element.id e) parent x y width height outgoing)
      | None => None
      end
  | _, _, _, _, _ => None
  end.

(** [lanes.map((lane) => ({ id, y: lane.y ?? 0, height: lane.height ?? 0,
    element: lane }))] *)
Definition laneInputOf (lane : Element.t) : LaneInput.t :=
  {| LaneInput.id := Element.id lane;
     LaneInput.y := Element.y lane ?? 0;
     LaneInput.height := Element.height lane ?? 0;
     LaneInput.element := lane |}.

(** [set.add(c)] on a [Set] kept in insertion order. *)
Definition set_add (s : list string) (c : string) : list string :=
  if existsb (String.eqb c) s then s else s ++ [c].

Section Service.

(** The editor's reaction to a command is not part of the layout engine:
    it is a parameter, any function from the registry before the command
    to the registry after it. *)
Variable host : Command -> list Element.t -> list Element.t.

Variable localeCompare : string -> string -> Z.

Definition issue (c : Command) (w : World.t) : World.t :=
  {| World.registry := host c (World.registry w);
     World.issued := World.issued w ++ [c] |}.

(** Body of [for (const resize of laneResizes)] *)
Definition applyLaneResize (w : World.t) (resize : LaneResize.t) : World.t :=
  if LaneResize.isRoot resize then w
  else
    let el := live (World.registry w) (LaneResize.element resize) in
    if negb (Num.opt_eqb (Some (LaneResize.height resize)) (Element.height el)) then
      issue (ResizeShape (Element.id el)
               {| Bounds.x := Element.x el ?? 0;
                  Bounds.y := LaneResize.y resize;
                  Bounds.width := Element.width el ?? 0;
                  Bounds.height := LaneResize.height resize |}) w
    else if negb (Num.opt_eqb (Some (LaneResize.y resize)) (Element.y el)) then
      issue (MoveElements [Element.id el]
               (Point.mk 0 (LaneResize.y resize - (Element.y el ?? 0))) None) w
    else w.

(** Body of [for (const pos of nodePositions)] *)
Definition applyNodePosition (nodeMap : JsMap.t string LayoutNode.t)
    (laneData : JsMap.t string LaneMeta.t) (laneById : JsMap.t string Element.t)
    (w : World.t) (pos : NodePosition.t) : World.t :=
  match JsMap.get nodeMap (NodePosition.nodeId pos) with
  | None => w
  | Some node =>
      match JsMap.get laneData (NodePosition.laneId pos) with
      | None => w
      | Some meta =>
          let dx := NodePosition.dx pos in
          let dy := NodePosition.dy pos in
          if Num.gtb (Qabs dx) 1 || Num.gtb (Qabs dy) 1 then
            let parent :=
              JsMap.get laneById (NodePosition.laneId pos) ?? LaneMeta.element meta in
            issue (MoveElements [FlowElement.id (LayoutNode.element node)]
                     (Point.mk dx dy) (Some (Element.id parent))) w
          else w
      end
  end.

(** Body of [for (const conn of connections)] in [rerouteConnections];
    [conn], its source and its target are read as they are now. *)
Definition rerouteConnection (w : World.t) (connId : string) : World.t :=
  match findElement (World.registry w) connId with
  | None => w
  | Some conn =>
      let resolve := fun ref =>
        match ref with
        | Some id => findElement (World.registry w) id
        | None => None
        end in
      match resolve (Element.source conn), resolve (Element.target conn) with
      | Some source, Some target =>
          let waypoints :=
            computeManhattanWaypoints
              (Element.x source ?? 0) (Element.y source ?? 0)
              (Element.width source ?? 0) (Element.height source ?? 0)
              (Element.x target ?? 0) (Element.y target ?? 0)
              (Element.width target ?? 0) (Element.height target ?? 0) in
          issue (UpdateWaypoints connId waypoints) w
      | _, _ => w
      end
  end.

Definition rerouteConnections (w : World.t) (elements : list Element.t) : World.t :=
  let connections :=
    fold_left
      (fun connections el =>
         match Element.outgoing (live (World.registry w) el) with
         | Some out => fold_left set_add out connections
         | None => connections
         end)
      elements [] in
  fold_left rerouteConnection connections w.

Definition autoLayout (fuel : nat) (context : Context.t)
    (constants : LayoutConstants.t) : outcome World.t :=
  let registry := Context.elementRegistry context in
  let w := World.mk registry [] in
  let lanes := getLanes registry in
  let elements := getFlowElements registry in
  if (length lanes =? 0)%nat || (length elements =? 0)%nat then Done w
  else
    match allSome (map (asFlowElement registry) elements) with
    | None => IllTyped
    | Some flowElements =>
        let g := buildGraphFromElements flowElements in
        let adjacency := Graph.adjacency g in
        outcome_bind (assignRanks fuel (Graph.nodeMap g) adjacency) (fun nodeMap =>
        let laneInput := map laneInputOf lanes in
        let '(laneData, maxGlobalRank) := buildLaneData laneInput nodeMap in
        let laneData := computeLaneHeights laneData maxGlobalRank constants in
        let rankWidths := computeRankWidths laneData maxGlobalRank in
        let rootId := Context.rootElement context in
        match computeLayout laneData nodeMap rankWidths constants rootId with
        | None => Throws
        | Some (nodePositions, laneResizes) =>
            let w := fold_left applyLaneResize laneResizes w in
            let laneById :=
              fold_left (fun m l => JsMap.set m (Element.id l) l) lanes JsMap.empty in
            let w :=
              fold_left (applyNodePosition nodeMap laneData laneById)
                        nodePositions w in
            Done (rerouteConnections w elements)
        end)
    end.

(** [{ id: c.id, waypoints: c.waypoints, source: c.source, target: c.target }] *)
Definition asConnectionLike (c : Element.t) : Connection :=
  {| ConnectionLike.id := Element.id c;
     ConnectionLike.waypoints := Element.waypoints c;
     ConnectionLike.source := Element.source c;
     ConnectionLike.target := Element.target c |}.

(** Body of [for (const conn of connections)] in [resolveEdgeCollisions];
    the flag is [anyUpdated].  The connections' fields are read as they
    are now. *)
Definition resolveConnection (connections : list Element.t)
    (constants : LayoutConstants.t) (st : World.t * bool) (conn : Element.t)
  : World.t * bool :=
  let '(w, anyUpdated) := st in
  let others :=
    List.filter (fun c => negb (String.eqb (Element.id c) (Element.id conn)))
                connections in
  let '(waypoints, updated) :=
    computeResolvedWaypoints localeCompare
      (asConnectionLike (live (World.registry w) conn))
      (map (fun c => asConnectionLike (live (World.registry w) c)) others)
      constants in
  if updated then (issue (UpdateWaypoints (Element.id conn) waypoints) w, true)
  else (w, anyUpdated).

(** [for (let pass = 0; pass < maxPasses; pass++)] with its [break] *)
Fixpoint resolvePasses (maxPasses : nat) (connections : list Element.t)
    (constants : LayoutConstants.t) (w : World.t) : World.t :=
  match maxPasses with
  | O => w
  | S remaining =>
      let '(w, anyUpdated) :=
        fold_left (resolveConnection connections constants) connections (w, false) in
      if negb anyUpdated then w
      else resolvePasses remaining connections constants w
  end.

(** The local [isAdjusting] flag and the timer that resets it are never
    read by the loop and are left out. *)
Definition resolveEdgeCollisions (context : Context.t) (maxPasses : nat)
    (constants : LayoutConstants.t) : World.t :=
  let registry := Context.elementRegistry context in
  let w := World.mk registry [] in
  let connections :=
    registry_filter registry
      (fun e => String.eqb (Element.type e) "bpmn:SequenceFlow") in
  if (length connections =? 0)%nat then w
  else resolvePasses maxPasses connections constants w.

(** The service's read-only [detectCollisions]. *)
Definition allSegmentsOf (connections : list Element.t) : list Segment.t :=
  flat_map (fun conn => extractSegments (Element.id conn) (Element.waypoints conn))
           connections.

Definition service_detectCollisions (context : Context.t) : list CollisionConflict.t :=
  let connections :=
    registry_filter (Context.elementRegistry context)
      (fun e => String.eqb (Element.type e) "bpmn:SequenceFlow") in
  detectCollisions (allSegmentsOf connections)
    (LayoutConstants.collisionThreshold DEFAULT_LAYOUT_CONSTANTS).

End Service.

(** *** A sample editor and sample diagrams for concrete runs *)

Definition withGeometry (e : Element.t) (parent : option string)
    (x y width height : option Q) : Element.t :=
  Element.mk (Element.id e) (Element.type e) parent x y width height
    (Element.outgoing e) (Element.hidden e) (Element.businessObject e)
    (Element.waypoints e) (Element.source e) (Element.target e).

Definition withWaypoints (e : Element.t) (waypoints : list Point.t) : Element.t :=
  Element.mk (Element.id e) (Element.type e) (Element.parent e)
    (Element.x e) (Element.y e) (Element.width e) (Element.height e)
    (Element.outgoing e) (Element.hidden e) (Element.businessObject e)
    waypoints (Element.source e) (Element.target e).

(** An editor that carries out each command on the element named and on
    nothing else. *)
Definition sampleHost (c : Command) (registry : list Element.t) : list Element.t :=
  match c with
  | MoveElements elements delta target =>
      map (fun e =>
             if existsb (String.eqb (Element.id e)) elements then
               withGeometry e
                 (match target with Some t => Some t | None => Element.parent e end)
                 (Some ((Element.x e ?? 0) + Point.x delta))
                 (Some ((Element.y e ?? 0) + Point.y delta))
                 (Element.width e) (Element.height e)
             else e)
          registry
  | ResizeShape shape bounds =>
      map (fun e =>
             if String.eqb (Element.id e) shape then
               withGeometry e (Element.parent e)
                 (Some (Bounds.x bounds)) (Some (Bounds.y bounds))
                 (Some (Bounds.width bounds)) (Some (Bounds.height bounds))
             else e)
          registry
  | UpdateWaypoints connection waypoints =>
      map (fun e =>
             if String.eqb (Element.id e) connection then withWaypoints e waypoints
             else e)
          registry
  end.

Definition sampleShape (id type : string) (parent : option string)
    (x y width height : Q) (outgoing : option (list string)) : Element.t :=
  Element.mk id type parent (Some x) (Some y) (Some width) (Some height)
    outgoing false true [] None None.

Definition sampleFlow (id : string) (source target : string)
    (waypoints : list Point.t) : Element.t :=
  Element.mk id "bpmn:SequenceFlow" (Some "Lane_1") None None None None
    None false true waypoints (Some source) (Some target).

(** Two sequence flows between the same two tasks, routed well apart. *)
Definition twinFlows : Context.t :=
  {| Context.elementRegistry :=
       [ sampleFlow "Flow_1" "Task_A" "Task_B"
           [Point.mk 100 40; Point.mk 150 40; Point.mk 150 140; Point.mk 200 140];
         sampleFlow "Flow_2" "Task_A" "Task_B"
           [Point.mk 100 70; Point.mk 130 70; Point.mk 130 170; Point.mk 200 170] ];
     Context.rootElement := None |}.

(** Two sequence flows with different endpoints, routed well apart. *)
Definition apartFlows : Context.t :=
  {| Context.elementRegistry :=
       [ sampleFlow "Flow_1" "Task_A" "Task_B"
           [Point.mk 100 40; Point.mk 150 40; Point.mk 150 140; Point.mk 200 140];
         sampleFlow "Flow_2" "Task_A" "Task_C"
           [Point.mk 100 70; Point.mk 130 70; Point.mk 130 170; Point.mk 200 170] ];
     Context.rootElement := None |}.

(** A diagram with two tasks and a flow but no lane, participant or
    process. *)
Definition laneless : Context.t :=
  {| Context.elementRegistry :=
       [ sampleShape "Task_A" "bpmn:Task" None 100 100 100 80 (Some ["Flow_1"]);
         sampleShape "Task_B" "bpmn:Task" None 300 100 100 80 None;
         sampleFlow "Flow_1" "Task_A" "Task_B" [Point.mk 200 140; Point.mk 300 140] ];
     Context.rootElement := None |}.

(** A lane without any flow element. *)
Definition emptyLane : Context.t :=
  {| Context.elementRegistry :=
       [ sampleShape "Lane_1" "bpmn:Lane" (Some "Participant_1") 30 0 600 200 None ];
     Context.rootElement := Some "Process_1" |}.

(** A lane with a start event and two tasks in sequence. *)
Definition smallDiagram : Context.t :=
  {| Context.elementRegistry :=
       [ sampleShape "Lane_1" "bpmn:Lane" (Some "Participant_1") 30 0 600 120 None;
         sampleShape "Start_1" "bpmn:StartEvent" (Some "Lane_1") 50 40 36 36
           (Some ["Flow_1"]);
         sampleShape "Task_A" "bpmn:Task" (Some "Lane_1") 60 10 100 80 (Some ["Flow_2"]);
         sampleShape "Task_B" "bpmn:Task" (Some "Lane_1") 70 20 100 80 None;
         sampleFlow "Flow_1" "Start_1" "Task_A" [Point.mk 86 58; Point.mk 60 50];
         sampleFlow "Flow_2" "Task_A" "Task_B" [Point.mk 160 50; Point.mk 70 60] ];
     Context.rootElement := Some "Process_1" |}.

(* ================================================================== *)
(** ** Vocabulary and samples for further statements *)

Definition overlapping (checkCollision : Segment.t -> Segment.t -> bool)
    (p1 p2 q1 q2 : Point.t) : Prop :=
  getOrientation p1 p2 = getOrientation q1 q2
  /\ getOrientation p1 p2 <> diagonal
  /\ checkCollision (Segment.mk "" p1 p2 (getOrientation p1 p2))
                    (Segment.mk "" q1 q2 (getOrientation q1 q2)) = true.

Definition overlapAt (checkCollision : Segment.t -> Segment.t -> bool)
    (waypoints1 waypoints2 : list Point.t) (i j : nat) : Prop :=
  exists p1 p2 q1 q2,
    waypoints1 !! i = Some p1 /\ waypoints1 !! S i = Some p2
    /\ waypoints2 !! j = Some q1 /\ waypoints2 !! S j = Some q2
    /\ overlapping checkCollision p1 p2 q1 q2.

Definition positiveDirection (p1 p2 q1 q2 : Point.t) : bool :=
  match getOrientation p1 p2 with
  | horizontal => Num.geb ((Point.y p1 + Point.y p2) / 2) ((Point.y q1 + Point.y q2) / 2)
  | _ => Num.geb ((Point.x p1 + Point.x p2) / 2) ((Point.x q1 + Point.x q2) / 2)
  end.

(** The node that [buildGraphFromElements] makes of an element. *)
Definition nodeOfElement (el : FlowElement.t) : LayoutNode.t :=
  {| LayoutNode.id := FlowElement.id el;
     LayoutNode.element := el;
     LayoutNode.rank := 0;
     LayoutNode.laneId := FlowElement.parent_id el;
     LayoutNode.width := FlowElement.width el;
     LayoutNode.height := FlowElement.height el |}.

(** The number of times [v] is listed as a neighbour in [adjacency]. *)
Definition incoming (adjacency : JsMap.t string (list string)) (v : string) : nat :=
  length (List.filter (String.eqb v) (flat_map snd adjacency)).

(** What both loops of [buildGraphFromElements] keep true of the in-degree
    table. *)
Definition inDegreeCounts (g : Graph.t) : Prop :=
  forall v, JsMap.get (Graph.inDegree g) v
            = if JsMap.has (Graph.nodeMap g) v
              then Some (Z.of_nat (incoming (Graph.adjacency g) v)) else None.

(** [nodeMap'] holds the nodes of [nodeMap], in the same order, with ranks
    that are at least what they were. *)
Definition ranksRaised (nodeMap nodeMap' : JsMap.t string LayoutNode.t) : Prop :=
  JsMap.keys nodeMap' = JsMap.keys nodeMap
  /\ forall id node', JsMap.get nodeMap' id = Some node' ->
       exists node, JsMap.get nodeMap id = Some node
         /\ node' = LayoutNode.setRank node (LayoutNode.rank node')
         /\ (LayoutNode.rank node <= LayoutNode.rank node')%nat.

(** [n] belongs to the lane [laneId] and has rank [r]. *)
Definition inBucket (laneId : string) (r : nat) (n : LayoutNode.t) : bool :=
  String.eqb (LayoutNode.laneId n) laneId && Nat.eqb (LayoutNode.rank n) r.

(** The nodes of rank [r] recorded for a lane, none when the rank has no
    entry. *)
Definition bucket (meta : LaneMeta.t) (r : nat) : list LayoutNode.t :=
  JsMap.get (LaneMeta.nodesByRank meta) r ?? [].

(** The width that [computeRankWidths] records for rank [r]: the greatest
    width of a node of that rank in any lane, and at least 100. *)
Definition columnWidth (laneData : JsMap.t string LaneMeta.t) (r : nat) : Q :=
  JsMap.forEach laneData
    (fun meta _ maxWidth =>
       let nodes := JsMap.get (LaneMeta.nodesByRank meta) r ?? [] in
       fold_left
         (fun maxWidth n =>
            if Num.gtb (LayoutNode.width n) maxWidth then LayoutNode.width n
            else maxWidth)
         nodes maxWidth)
    100.

(** The lanes in the order in which [computeLayout] places them: by the
    [y] of their elements, ties in map order. *)
Definition lanesByY (laneData : JsMap.t string LaneMeta.t) : list (string * LaneMeta.t) :=
  sort (fun a b => Num.ltb (laneElementY (snd a) - laneElementY (snd b)) 0) laneData.

(** Each lane of [l] but the first begins where the one before it ends. *)
Definition stacked (l : list LaneResize.t) : Prop :=
  forall i a b, l !! i = Some a -> l !! S i = Some b ->
    LaneResize.y b = LaneResize.y a + LaneResize.height a.

(** [resize] is the resize record of the lane [entry]. *)
Definition resizeOf (rootElementId : option string) (entry : string * LaneMeta.t)
    (resize : LaneResize.t) : Prop :=
  LaneResize.laneId resize = LaneMeta.id (snd entry)
  /\ LaneResize.height resize = LaneMeta.height (snd entry)
  /\ LaneResize.element resize = LaneMeta.element (snd entry)
  /\ LaneResize.isRoot resize = isRootLane (snd entry) rootElementId.

(** [meta'] is the lane [meta] with some [y]. *)
Definition placedLane (meta meta' : LaneMeta.t) : Prop :=
  meta' = LaneMeta.setY meta (LaneMeta.y meta').

Definition nonRoot (l : list LaneResize.t) : list LaneResize.t :=
  List.filter (fun r => negb (LaneResize.isRoot r)) l.

(** The left edge of the first column of a lane: [startX] in
    [computeLayout]. *)
Definition laneStartX (meta : LaneMeta.t) (constants : LayoutConstants.t)
    (rootElementId : option string) : Q :=
  if isRootLane meta rootElementId then LayoutConstants.startXOffset constants
  else (Element.x (LaneMeta.element meta) ?? 0) + LayoutConstants.lanePadding constants.

(** The left edge of the column of rank [rank]: [newX] in [computeLayout]. *)
Definition columnX (rankWidths : JsMap.t nat Q) (constants : LayoutConstants.t)
    (startX : Q) (rank : nat) : Q :=
  forRange 0 (Z.of_nat rank)
    (fun i newX =>
       newX + ((JsMap.get rankWidths i ?? 100) + LayoutConstants.colSpacing constants))
    startX.

(** The height of a stack of siblings with the row spacing between them:
    [totalStackHeight] in [computeLayout]. *)
Definition totalStackHeight (constants : LayoutConstants.t)
    (siblings : list LayoutNode.t) : Q :=
  fold_left (fun sum n => sum + LayoutNode.height n) siblings 0
  + Qmax 0 (Num.ofNat (length siblings) - 1) * LayoutConstants.rowSpacing constants.

(** The top of a stack of siblings centred in its lane: [startStackY]. *)
Definition stackTop (meta : LaneMeta.t) (constants : LayoutConstants.t)
    (siblings : list LayoutNode.t) : Q :=
  (LaneMeta.y meta + LaneMeta.height meta / 2)
  - totalStackHeight constants siblings / 2.

(** The distance from the top of the stack to the sibling at [index]:
    [stackOffset]. *)
Definition stackOffsetAt (constants : LayoutConstants.t) (siblings : list LayoutNode.t)
    (index : Z) : Q :=
  forRange 0 index
    (fun i stackOffset =>
       match siblings !! i with
       | Some sibling =>
           stackOffset + (LayoutNode.height sibling
                          + LayoutConstants.rowSpacing constants)
       | None => stackOffset
       end)
    0.

(** The connection that a command reroutes, if it is a waypoint update. *)
Definition updatedConnection (c : Command) : option string :=
  match c with
  | UpdateWaypoints connection _ => Some connection
  | _ => None
  end.

(** The commands of the three stages of [autoLayout]. *)
Definition laneCommand (lanes : list Element.t) (c : Command) : Prop :=
  exists lane, lane ∈ lanes
    /\ ((exists bounds, c = ResizeShape (Element.id lane) bounds
           /\ Element.height lane ?? 0 <= Bounds.height bounds)
        \/ (exists dy, c = MoveElements [Element.id lane] (Point.mk 0 dy) None)).

Definition nodeCommand (c : Command) : Prop :=
  exists id dx dy parent,
    c = MoveElements [id] (Point.mk dx dy) (Some parent)
    /\ (1 < Qabs dx \/ 1 < Qabs dy).

Definition routeCommand (c : Command) : Prop :=
  exists connection waypoints,
    c = UpdateWaypoints connection waypoints /\ length waypoints = 4%nat.

Definition chainDepth (id : string) : nat :=
  if String.eqb id "Task_A" then 1 else if String.eqb id "Task_B" then 2 else 0.

(** The nodes of [chainElements] with their ranks assigned. *)
Definition chainRanked : JsMap.t string LayoutNode.t :=
  let g := buildGraphFromElements chainElements in
  match assignRanks 3 (Graph.nodeMap g) (Graph.adjacency g) with
  | Done nodeMap => nodeMap
  | _ => JsMap.empty
  end.

(** Two tasks of one lane without any connection. *)
Definition pairElements : list FlowElement.t :=
  [ FlowElement.mk "Task_A" "Lane_1" 100 20 100 80 None;
    FlowElement.mk "Task_B" "Lane_1" 100 120 100 60 None ].

Definition sampleLane : Element.t :=
  sampleShape "Lane_1" "bpmn:Lane" (Some "Participant_1") 30 0 600 120 None.

(** Two lanes, the lower one listed first. *)
Definition twoLanes : list Element.t :=
  [ sampleShape "Lane_2" "bpmn:Lane" (Some "Participant_1") 30 120 600 100 None;
    sampleLane ].

(** The lane data that [autoLayout] hands to [computeLayout]. *)
Definition laneDataOf (lanes : list Element.t) (nodeMap : JsMap.t string LayoutNode.t)
    (constants : LayoutConstants.t) : JsMap.t string LaneMeta.t * nat :=
  let '(laneData, maxGlobalRank) := buildLaneData (map laneInputOf lanes) nodeMap in
  (computeLaneHeights laneData maxGlobalRank constants, maxGlobalRank).

(** Two sequence flows with different endpoints whose first segments lie on
    the same line. *)
Definition crossedFlows : Context.t :=
  {| Context.elementRegistry :=
       [ sampleFlow "Flow_1" "Task_A" "Task_B" [Point.mk 100 100; Point.mk 300 100];
         sampleFlow "Flow_2" "Task_C" "Task_D" [Point.mk 150 100; Point.mk 250 100] ];
     Context.rootElement := None |}.

(* ================================================================== *)
(** * Properties *)

(** ** Numbers *)

Lemma ltb_lt (a b : Q) : Num.ltb a b = true <-> a < b.
Proof.
  unfold Num.ltb. rewrite Qlt_alt. destruct (a ?= b); split; congruence.
Qed.

Lemma ltb_ge (a b : Q) : Num.ltb a b = false <-> b <= a.
Proof.
  unfold Num.ltb. rewrite Qle_alt, <- (Qcompare_antisym a b).
  destruct (a ?= b); simpl; split; intros; congruence.
Qed.

Lemma gtb_gt (a b : Q) : Num.gtb a b = true <-> b < a.
Proof. apply ltb_lt. Qed.

Lemma gtb_le (a b : Q) : Num.gtb a b = false <-> a <= b.
Proof. apply ltb_ge. Qed.

(** ** [JsMap] *)

Section JsMapFacts.
Context {K V : Type} `{EqDecision K}.
Implicit Types (m : JsMap.t K V) (k : K) (v : V).

Lemma get_set_eq m k v : JsMap.get (JsMap.set m k v) k = Some v.
Proof.
  induction m as [| [k' v'] m IH]; simpl.
  - by rewrite decide_True.
  - destruct (decide (k = k')) as [-> | Hne]; simpl.
    + by rewrite decide_True.
    + by rewrite decide_False.
Qed.

Lemma get_set_ne m k k' v : k <> k' -> JsMap.get (JsMap.set m k v) k' = JsMap.get m k'.
Proof.
  intros Hne. induction m as [| [k0 v0] m IH]; simpl.
  - by rewrite decide_False.
  - destruct (decide (k = k0)) as [-> | Hne0]; simpl.
    + by rewrite !decide_False.
    + destruct (decide (k' = k0)); [done | apply IH].
Qed.

Lemma get_Some_elem m k v : JsMap.get m k = Some v -> (k, v) ∈ m.
Proof.
  induction m as [| [k' v'] m IH]; simpl; [done |].
  destruct (decide (k = k')) as [-> | Hne].
  - intros [= ->]. apply list_elem_of_here.
  - intros H. apply list_elem_of_further. by apply IH.
Qed.

Lemma set_elem m k v k' v' :
  (k', v') ∈ JsMap.set m k v -> (k', v') ∈ m \/ (k' = k /\ v' = v).
Proof.
  induction m as [| [k0 v0] m IH]; simpl.
  - intros [? | ?%elem_of_nil]%elem_of_cons; [| done]. right. by simplify_eq.
  - destruct (decide (k = k0)) as [-> | Hne].
    + intros [? | ?]%elem_of_cons; [right; by simplify_eq |].
      left. by apply list_elem_of_further.
    + intros [? | H]%elem_of_cons; [left; simplify_eq; apply list_elem_of_here |].
      destruct (IH H) as [? | ?]; [left; by apply list_elem_of_further | by right].
Qed.

Lemma elem_get_is_Some m k v : (k, v) ∈ m -> is_Some (JsMap.get m k).
Proof.
  induction m as [| [k' v'] m IH]; [by intros ?%elem_of_nil |].
  simpl. destruct (decide (k = k')); [eauto |].
  intros [? | ?]%elem_of_cons; [by simplify_eq | by apply IH].
Qed.

Lemma is_Some_get_set m k k' v :
  is_Some (JsMap.get m k') -> is_Some (JsMap.get (JsMap.set m k v) k').
Proof.
  intros H. destruct (decide (k = k')) as [-> | Hne].
  - rewrite get_set_eq. eauto.
  - by rewrite get_set_ne.
Qed.
End JsMapFacts.

(** ** Connector router *)

(** C1, as the code has it: the route has four points, the source's
    right-edge centre, two bend points sharing one abscissa, and the
    target's left-edge centre. *)
Theorem computeManhattanWaypoints_four_points
    (sx sy sw sh tx ty tw th : Q) :
  exists b1 b2 : Point.t,
    computeManhattanWaypoints sx sy sw sh tx ty tw th
      = [ Point.mk (sx + sw) (sy + sh / 2); b1; b2; Point.mk tx (ty + th / 2) ]
    /\ length (computeManhattanWaypoints sx sy sw sh tx ty tw th) = 4%nat
    /\ Point.y b1 = sy + sh / 2
    /\ Point.y b2 = ty + th / 2
    /\ Point.x b1 = Point.x b2
    /\ Point.x b1 =
         (if Num.gtb tx (sx + sw + 20) then (sx + sw + tx) / 2 else tx - 20).
Proof.
  unfold computeManhattanWaypoints.
  destruct (Num.gtb tx (sx + sw + 20)); simpl;
    eexists; eexists; repeat split; reflexivity.
Qed.

(** C1, as stated, fails: no input yields five points. *)
Lemma computeManhattanWaypoints_not_five :
  ~ (forall sx sy sw sh tx ty tw th : Q,
       length (computeManhattanWaypoints sx sy sw sh tx ty tw th) = 5%nat).
Proof.
  intros H. specialize (H 0 0 100 80 300 0 100 80). vm_compute in H. discriminate.
Qed.

(** ** Collision detector *)

(** C6: the four sample classifications, and the vertical test winning
    whenever both coordinate differences are below the epsilon. *)
Theorem getOrientation_classification :
  getOrientation (Point.mk 0 0) (Point.mk 0 5) = vertical
  /\ getOrientation (Point.mk 0 0) (Point.mk 5 0) = horizontal
  /\ getOrientation (Point.mk 0 0) (Point.mk 5 5) = diagonal
  /\ getOrientation (Point.mk 0 0) (Point.mk 1 1) = vertical
  /\ (forall p q : Point.t,
        Qabs (Point.x p - Point.x q) < 2 ->
        Qabs (Point.y p - Point.y q) < 2 ->
        getOrientation p q = vertical).
Proof.
  repeat split; try reflexivity.
  intros p q Hx _. unfold getOrientation.
  apply ltb_lt in Hx. now rewrite Hx.
Qed.

Lemma getOrientation_classification_witness :
  Qabs (Point.x (Point.mk 3 4) - Point.x (Point.mk 4 (11 # 2))) < 2
  /\ Qabs (Point.y (Point.mk 3 4) - Point.y (Point.mk 4 (11 # 2))) < 2
  /\ getOrientation (Point.mk 3 4) (Point.mk 4 (11 # 2)) = vertical.
Proof.
  assert (Hx : Qabs (Point.x (Point.mk 3 4) - Point.x (Point.mk 4 (11 # 2))) < 2)
    by reflexivity.
  assert (Hy : Qabs (Point.y (Point.mk 3 4) - Point.y (Point.mk 4 (11 # 2))) < 2)
    by reflexivity.
  split; [exact Hx | split; [exact Hy |]].
  exact (proj2 (proj2 (proj2 (proj2 getOrientation_classification))) _ _ Hx Hy).
Defined.

Lemma checkIntervalOverlap_spec (min1 max1 min2 max2 : Q) :
  checkIntervalOverlap min1 max1 min2 max2 = true
  <-> 2 < overlapLength min1 max1 min2 max2.
Proof.
  unfold checkIntervalOverlap, overlapLength. rewrite ltb_lt.
  split; intros H; lra.
Qed.

Lemma Orientation_eqb_eq (a b : Orientation) :
  Orientation_eqb a b = true <-> a = b.
Proof. destruct a, b; simpl; split; congruence. Qed.

(** A collision implies equal, non-diagonal orientations, a perpendicular
    distance within the threshold and an overlap of the aligned
    projections of more than two units. *)
Lemma checkSegmentCollision_true (s1 s2 : Segment.t) (threshold : Q) :
  checkSegmentCollision s1 s2 threshold = true ->
  Segment.orientation s1 = Segment.orientation s2
  /\ Segment.orientation s1 <> diagonal
  /\ 2 < overlapLength
           (alignedLow (Segment.orientation s1) s1)
           (alignedHigh (Segment.orientation s1) s1)
           (alignedLow (Segment.orientation s1) s2)
           (alignedHigh (Segment.orientation s1) s2).
Proof.
  unfold checkSegmentCollision.
  destruct (Orientation_eqb _ _) eqn:Ho; simpl; [| discriminate].
  apply Orientation_eqb_eq in Ho.
  destruct (Segment.orientation s1) eqn:E; simpl; try discriminate.
  - destruct (Num.gtb _ _); [discriminate |].
    intros H%checkIntervalOverlap_spec. repeat split; [done | done | exact H].
  - destruct (Num.gtb _ _); [discriminate |].
    intros H%checkIntervalOverlap_spec. repeat split; [done | done | exact H].
Qed.

(** C7: abutting horizontal segments on one line are not a collision, and
    a collision needs equal orientations whose aligned projections overlap
    by strictly more than two units. *)
Theorem checkSegmentCollision_needs_overlap :
  checkSegmentCollision
    (Segment.mk "a" (Point.mk 0 0) (Point.mk 10 0)
                (getOrientation (Point.mk 0 0) (Point.mk 10 0)))
    (Segment.mk "b" (Point.mk 10 0) (Point.mk 20 0)
                (getOrientation (Point.mk 10 0) (Point.mk 20 0)))
    (LayoutConstants.collisionThreshold DEFAULT_LAYOUT_CONSTANTS) = false
  /\ (forall (s1 s2 : Segment.t) (threshold : Q),
        Segment.orientation s1 = horizontal ->
        Segment.orientation s2 = horizontal ->
        Point.y (Segment.p1 s1) == Point.y (Segment.p1 s2) ->
        alignedHigh horizontal s1 <= alignedLow horizontal s2 ->
        checkSegmentCollision s1 s2 threshold = false)
  /\ (forall (s1 s2 : Segment.t) (threshold : Q),
        checkSegmentCollision s1 s2 threshold = true ->
        Segment.orientation s1 = Segment.orientation s2
        /\ 2 < overlapLength
                 (alignedLow (Segment.orientation s1) s1)
                 (alignedHigh (Segment.orientation s1) s1)
                 (alignedLow (Segment.orientation s1) s2)
                 (alignedHigh (Segment.orientation s1) s2)).
Proof.
  split; [reflexivity |]. split.
  - intros s1 s2 threshold H1 H2 _ Habut.
    destruct (checkSegmentCollision s1 s2 threshold) eqn:E; [| reflexivity].
    apply checkSegmentCollision_true in E as (_ & _ & Hov).
    rewrite H1 in Hov. unfold overlapLength in Hov.
    pose proof (Q.le_min_l (alignedHigh horizontal s1) (alignedHigh horizontal s2)).
    pose proof (Q.le_max_r (alignedLow horizontal s1) (alignedLow horizontal s2)).
    lra.
  - intros s1 s2 threshold H.
    apply checkSegmentCollision_true in H as (? & _ & ?). by split.
Qed.

Lemma checkSegmentCollision_needs_overlap_witness :
  let s1 := Segment.mk "a" (Point.mk 0 0) (Point.mk 10 0) horizontal in
  let s2 := Segment.mk "b" (Point.mk 6 3) (Point.mk 20 3) horizontal in
  let s3 := Segment.mk "c" (Point.mk 10 0) (Point.mk 25 0) horizontal in
  checkSegmentCollision s1 s2 5 = true
  /\ 2 < overlapLength (alignedLow horizontal s1) (alignedHigh horizontal s1)
                       (alignedLow horizontal s2) (alignedHigh horizontal s2)
  /\ checkSegmentCollision s1 s3 5 = false.
Proof.
  intros s1 s2 s3.
  assert (Hc : checkSegmentCollision s1 s2 5 = true) by reflexivity.
  split; [exact Hc |]. split.
  - exact (proj2 (proj2 (proj2 checkSegmentCollision_needs_overlap) s1 s2 5 Hc)).
  - apply (proj1 (proj2 checkSegmentCollision_needs_overlap) s1 s3 5);
      [reflexivity | reflexivity | reflexivity | vm_compute; discriminate].
Defined.

(** ** Collision resolver: parallel fan-out *)

Lemma forRange_nil {S : Type} (lo : nat) (hi : Z) (body : nat -> S -> S) (s : S) :
  (hi <= Z.of_nat lo)%Z -> forRange lo hi body s = s.
Proof.
  intros H. unfold forRange. replace (Z.to_nat (hi - Z.of_nat lo)) with 0%nat by lia.
  reflexivity.
Qed.

Lemma fold_alter_lookup {A} (f : A -> A) (idx : list nat) (l : list A) (j : nat) :
  NoDup idx ->
  fold_left (fun w i => alter f i w) idx l !! j
  = if bool_decide (j ∈ idx) then f <$> l !! j else l !! j.
Proof.
  revert l. induction idx as [| i idx IH]; intros l Hnd; cbn [fold_left].
  - case_bool_decide as H; [by apply elem_of_nil in H | done].
  - apply NoDup_cons in Hnd as [Hi Hnd]. rewrite IH by done.
    rewrite (bool_decide_ext (j ∈ i :: idx) (j = i \/ j ∈ idx)) by apply elem_of_cons.
    destruct (decide (j = i)) as [-> | Hne].
    + rewrite list_lookup_alter_eq.
      rewrite (bool_decide_eq_false_2 (i ∈ idx)) by done.
      rewrite bool_decide_eq_true_2 by (by left). done.
    + rewrite list_lookup_alter_ne by done.
      rewrite (bool_decide_ext (j = i ∨ j ∈ idx) (j ∈ idx))
        by (split; [by intros [? | ?] | by right]).
      done.
Qed.

Lemma fold_alter_length {A} (f : A -> A) (idx : list nat) (l : list A) :
  length (fold_left (fun w i => alter f i w) idx l) = length l.
Proof.
  revert l. induction idx as [| i idx IH]; intros l; simpl; [done |].
  by rewrite IH, length_alter.
Qed.

(** The parallel drift moves, in Y only, exactly the waypoints from index 2
    to the second-to-last. *)
Lemma applyDriftToWaypoints_lookup (waypoints : list Point.t) (offset : Q) (i : nat) :
  applyDriftToWaypoints waypoints offset !! i
  = if bool_decide (2 <= i /\ S i < length waypoints)%nat
    then shiftY offset <$> waypoints !! i
    else waypoints !! i.
Proof.
  unfold applyDriftToWaypoints, forRange.
  rewrite fold_alter_lookup by apply NoDup_seq.
  repeat case_bool_decide; try done.
  - exfalso. rewrite elem_of_seq in *. lia.
  - exfalso. rewrite elem_of_seq in *. lia.
Qed.

Lemma applyDriftToWaypoints_length (waypoints : list Point.t) (offset : Q) :
  length (applyDriftToWaypoints waypoints offset) = length waypoints.
Proof. apply fold_alter_length. Qed.

Lemma ref_eqb_sym (a b : option string) : ref_eqb a b = ref_eqb b a.
Proof. destruct a, b; simpl; try done. apply String.eqb_sym. Qed.

Lemma isParallel_sym (c1 c2 : Connection) : isParallel c1 c2 = isParallel c2 c1.
Proof.
  unfold isParallel.
  rewrite (ref_eqb_sym (ConnectionLike.source c1) (ConnectionLike.source c2)),
          (ref_eqb_sym (ConnectionLike.target c1) (ConnectionLike.target c2)),
          (ref_eqb_sym (ConnectionLike.source c1) (ConnectionLike.target c2)),
          (ref_eqb_sym (ConnectionLike.target c1) (ConnectionLike.source c2)).
  f_equal. apply andb_comm.
Qed.

Lemma map_copy_points (waypoints : list Point.t) :
  map (fun w => Point.mk (Point.x w) (Point.y w)) waypoints = waypoints.
Proof. induction waypoints as [| [] ? IH]; simpl; [done | by rewrite IH]. Qed.

Section ResolverFacts.

Variable localeCompare : string -> string -> Z.

Lemma nudge_parallel_only (t : Connection) chk constants others st :
  Forall (fun o => isParallel t o = true) others ->
  fold_left (nudgeAgainst t chk constants) others st = st.
Proof.
  induction 1 as [| o others Ho _ IH]; simpl; [done |].
  destruct st as [w u]. unfold nudgeAgainst at 2. by rewrite Ho.
Qed.

Lemma precedes_ne a b : precedes localeCompare a b -> a <> b.
Proof. intros [H1 H2] ->. lia. Qed.

Ltac order_facts :=
  repeat match goal with
  | H : precedes _ ?a ?b |- _ =>
      let Hne := fresh "Hne" in
      pose proof (precedes_ne _ _ H) as Hne;
      destruct H as [?%Z.ltb_lt ?%Z.lt_le_incl%Z.ltb_ge];
      pose proof (proj2 (String.eqb_neq _ _) Hne);
      pose proof (proj2 (String.eqb_neq _ _) (not_eq_sym Hne))
  end.

Ltac sort_crunch :=
  repeat (cbn beta iota delta [fold_left sort_insert findIndex findIndex_from length];
          match goal with
          | H : ?t = true |- context [?t] => rewrite H
          | H : ?t = false |- context [?t] => rewrite H
          end);
  cbn beta iota delta [fold_left sort_insert findIndex findIndex_from length].

Lemma resolved_of_offset (t : Connection) others constants offset :
  Forall (fun o => isParallel t o = true) others ->
  parallelGroupOffset localeCompare t others constants = Some offset ->
  computeResolvedWaypoints localeCompare t others constants
  = if (Z.of_nat (length (ConnectionLike.waypoints t)) <? 2)%Z
    then (ConnectionLike.waypoints t, false)
    else if Num.gtb (Qabs offset) 1
         then (applyDriftToWaypoints (ConnectionLike.waypoints t) offset, true)
         else (ConnectionLike.waypoints t, false).
Proof.
  intros Hpar Hoff. unfold computeResolvedWaypoints.
  rewrite map_copy_points, Hoff.
  destruct (Z.of_nat _ <? 2)%Z; [done |].
  destruct (Num.gtb _ _); by rewrite nudge_parallel_only.
Qed.

Lemma offsets_of_three (ca cb cc : Connection) (constants : LayoutConstants.t) :
  precedes localeCompare (ConnectionLike.id ca) (ConnectionLike.id cb) ->
  precedes localeCompare (ConnectionLike.id cb) (ConnectionLike.id cc) ->
  precedes localeCompare (ConnectionLike.id ca) (ConnectionLike.id cc) ->
  isParallel ca cb = true -> isParallel cb cc = true -> isParallel ca cc = true ->
  (forall others, others = [cb; cc] \/ others = [cc; cb] ->
     parallelGroupOffset localeCompare ca others constants
     = Some (fanOffset 0 3 constants))
  /\ (forall others, others = [ca; cc] \/ others = [cc; ca] ->
     parallelGroupOffset localeCompare cb others constants
     = Some (fanOffset 1 3 constants))
  /\ (forall others, others = [ca; cb] \/ others = [cb; ca] ->
     parallelGroupOffset localeCompare cc others constants
     = Some (fanOffset 2 3 constants)).
Proof.
  intros Hab Hbc Hac Pab Pbc Pac.
  pose proof Pab as Pba. rewrite isParallel_sym in Pba.
  pose proof Pbc as Pcb. rewrite isParallel_sym in Pcb.
  pose proof Pac as Pca. rewrite isParallel_sym in Pca.
  order_facts.
  assert (Hself : forall s : string, (s =? s)%string = true) by apply String.eqb_refl.
  repeat split; intros others [-> | ->];
    unfold parallelGroupOffset; cbn [List.filter];
    rewrite ?Pab, ?Pac, ?Pba, ?Pbc, ?Pca, ?Pcb;
    unfold sort; sort_crunch; rewrite ?Hself; reflexivity.
Qed.

(** C5: three connectors over one unordered endpoint pair, taken in
    sorted-id order, get the offsets -18, 0 and 18 (for a parallel offset
    of 18), whatever the order of the other two in the list; the applied
    offset moves, in Y only, the waypoints from index 2 to the
    second-to-last and leaves the first two and the last in place. *)
Theorem parallel_fan_out (ca cb cc : Connection) (constants : LayoutConstants.t) :
  LayoutConstants.parallelOffset constants == 18 ->
  precedes localeCompare (ConnectionLike.id ca) (ConnectionLike.id cb) ->
  precedes localeCompare (ConnectionLike.id cb) (ConnectionLike.id cc) ->
  precedes localeCompare (ConnectionLike.id ca) (ConnectionLike.id cc) ->
  isParallel ca cb = true -> isParallel cb cc = true -> isParallel ca cc = true ->
  (forall others, others = [cb; cc] \/ others = [cc; cb] ->
     exists offset, offset == -18 /\
       parallelGroupOffset localeCompare ca others constants = Some offset /\
       ((2 <= length (ConnectionLike.waypoints ca))%nat ->
        computeResolvedWaypoints localeCompare ca others constants
        = (applyDriftToWaypoints (ConnectionLike.waypoints ca) offset, true)))
  /\ (forall others, others = [ca; cc] \/ others = [cc; ca] ->
     exists offset, offset == 0 /\
       parallelGroupOffset localeCompare cb others constants = Some offset /\
       computeResolvedWaypoints localeCompare cb others constants
       = (ConnectionLike.waypoints cb, false))
  /\ (forall others, others = [ca; cb] \/ others = [cb; ca] ->
     exists offset, offset == 18 /\
       parallelGroupOffset localeCompare cc others constants = Some offset /\
       ((2 <= length (ConnectionLike.waypoints cc))%nat ->
        computeResolvedWaypoints localeCompare cc others constants
        = (applyDriftToWaypoints (ConnectionLike.waypoints cc) offset, true)))
  /\ (forall (waypoints : list Point.t) (offset : Q),
        length (applyDriftToWaypoints waypoints offset) = length waypoints
        /\ forall (i : nat) (p : Point.t), waypoints !! i = Some p ->
             applyDriftToWaypoints waypoints offset !! i
             = Some (if bool_decide (2 <= i /\ S i < length waypoints)%nat
                     then Point.mk (Point.x p) (Point.y p + offset)
                     else p)).
Proof.
  intros Hoff Hab Hbc Hac Pab Pbc Pac.
  destruct (offsets_of_three ca cb cc constants Hab Hbc Hac Pab Pbc Pac)
    as (Ha & Hb & Hc).
  pose proof Pab as Pba. rewrite isParallel_sym in Pba.
  pose proof Pbc as Pcb. rewrite isParallel_sym in Pcb.
  pose proof Pac as Pca. rewrite isParallel_sym in Pca.
  split; [| split; [| split]].
  - intros others Ho.
    assert (Hpar : Forall (fun o => isParallel ca o = true) others)
      by (destruct Ho as [-> | ->]; repeat constructor; done).
    exists (fanOffset 0 3 constants).
    assert (Hv : fanOffset 0 3 constants == -18)
      by (unfold fanOffset; rewrite Hoff; reflexivity).
    split; [exact Hv |]. split; [by apply Ha |].
    intros Hlen. rewrite (resolved_of_offset _ _ _ _ Hpar (Ha _ Ho)).
    replace (Z.of_nat _ <? 2)%Z with false by (symmetry; apply Z.ltb_ge; lia).
    replace (Num.gtb _ _) with true; [done |].
    symmetry. apply gtb_gt. rewrite Hv. reflexivity.
  - intros others Ho.
    assert (Hpar : Forall (fun o => isParallel cb o = true) others)
      by (destruct Ho as [-> | ->]; repeat constructor; done).
    exists (fanOffset 1 3 constants).
    assert (Hv : fanOffset 1 3 constants == 0)
      by (unfold fanOffset; rewrite Hoff; reflexivity).
    split; [exact Hv |]. split; [by apply Hb |].
    rewrite (resolved_of_offset _ _ _ _ Hpar (Hb _ Ho)).
    destruct (Z.of_nat _ <? 2)%Z; [done |].
    replace (Num.gtb _ _) with false; [done |].
    symmetry. apply gtb_le. rewrite Hv. discriminate.
  - intros others Ho.
    assert (Hpar : Forall (fun o => isParallel cc o = true) others)
      by (destruct Ho as [-> | ->]; repeat constructor; done).
    exists (fanOffset 2 3 constants).
    assert (Hv : fanOffset 2 3 constants == 18)
      by (unfold fanOffset; rewrite Hoff; reflexivity).
    split; [exact Hv |]. split; [by apply Hc |].
    intros Hlen. rewrite (resolved_of_offset _ _ _ _ Hpar (Hc _ Ho)).
    replace (Z.of_nat _ <? 2)%Z with false by (symmetry; apply Z.ltb_ge; lia).
    replace (Num.gtb _ _) with true; [done |].
    symmetry. apply gtb_gt. rewrite Hv. reflexivity.
  - intros waypoints offset. split; [apply applyDriftToWaypoints_length |].
    intros i p Hp. rewrite applyDriftToWaypoints_lookup, Hp.
    by case_bool_decide.
Qed.

End ResolverFacts.

Lemma parallel_fan_out_witness :
  let route := [Point.mk 0 0; Point.mk 50 0; Point.mk 50 40; Point.mk 100 40;
                Point.mk 100 80] in
  let ca := ConnectionLike.mk "Flow_1" route (Some "Task_A") (Some "Task_B") in
  let cb := ConnectionLike.mk "Flow_2" route (Some "Task_B") (Some "Task_A") in
  let cc := ConnectionLike.mk "Flow_3" route (Some "Task_A") (Some "Task_B") in
  (exists offset, offset == -18 /\
     parallelGroupOffset codeUnitCompare ca [cc; cb] DEFAULT_LAYOUT_CONSTANTS
     = Some offset /\
     computeResolvedWaypoints codeUnitCompare ca [cc; cb] DEFAULT_LAYOUT_CONSTANTS
     = (applyDriftToWaypoints route offset, true))
  /\ applyDriftToWaypoints route (-18) !! 2%nat = Some (Point.mk 50 (40 + -18))
  /\ applyDriftToWaypoints route (-18) !! 4%nat = Some (Point.mk 100 80).
Proof.
  intros route ca cb cc.
  assert (Hthm := parallel_fan_out codeUnitCompare ca cb cc DEFAULT_LAYOUT_CONSTANTS).
  destruct Hthm as (Ha & _ & _ & Hd).
  - reflexivity.
  - split; vm_compute; reflexivity.
  - split; vm_compute; reflexivity.
  - split; vm_compute; reflexivity.
  - reflexivity.
  - reflexivity.
  - reflexivity.
  - split; [| split].
    + destruct (Ha [cc; cb]) as (offset & Hv & Ho & Hr); [by right |].
      exists offset. split; [exact Hv |]. split; [exact Ho |].
      apply Hr. simpl. lia.
    + exact (proj2 (Hd route (-18)) 2%nat (Point.mk 50 40) eq_refl).
    + exact (proj2 (Hd route (-18)) 4%nat (Point.mk 100 80) eq_refl).
Defined.

(** ** Collision resolver: conflict-free diagrams *)

Lemma Orientation_eqb_sym (a b : Orientation) : Orientation_eqb a b = Orientation_eqb b a.
Proof. by destruct a, b. Qed.

Lemma checkIntervalOverlap_sym (min1 max1 min2 max2 : Q) :
  checkIntervalOverlap min1 max1 min2 max2 = checkIntervalOverlap min2 max2 min1 max1.
Proof.
  unfold checkIntervalOverlap, Num.ltb.
  by rewrite (Q.max_comm min1 min2), (Q.min_comm max1 max2).
Qed.

(** Collision symmetry. *)
Lemma checkSegmentCollision_sym (s1 s2 : Segment.t) (threshold : Q) :
  checkSegmentCollision s1 s2 threshold = checkSegmentCollision s2 s1 threshold.
Proof.
  unfold checkSegmentCollision. cbv zeta.
  rewrite (Orientation_eqb_sym (Segment.orientation s2)).
  destruct (Orientation_eqb _ _) eqn:Ho; cbn [negb]; [| done].
  apply Orientation_eqb_eq in Ho. rewrite <- Ho.
  destruct (Segment.orientation s1).
  - rewrite (Qabs_Qminus (Point.y (Segment.p1 s2))).
    destruct (Num.gtb _ _); [done | apply checkIntervalOverlap_sym].
  - rewrite (Qabs_Qminus (Point.x (Segment.p1 s2))).
    destruct (Num.gtb _ _); [done | apply checkIntervalOverlap_sym].
  - done.
Qed.

Lemma detectCollisions_inner_nil (s : Segment.t) (later : list Segment.t) (threshold : Q) :
  detectCollisions_inner s later threshold = [] ->
  forall s2, s2 ∈ later ->
    Segment.connectionId s <> Segment.connectionId s2 ->
    checkSegmentCollision s s2 threshold = false.
Proof.
  induction later as [| s' later IH]; simpl; intros Hnil s2 Hin Hne.
  - by apply elem_of_nil in Hin.
  - destruct (String.eqb_spec (Segment.connectionId s) (Segment.connectionId s'))
      as [Heq | Hneq].
    + apply elem_of_cons in Hin as [-> | Hin]; [done | by apply IH].
    + destruct (checkSegmentCollision s s' threshold) eqn:Hc; [done |].
      apply elem_of_cons in Hin as [-> | Hin]; [done | by apply IH].
Qed.

(** An empty report means that no two segments of different connections
    collide, in either order. *)
Lemma detectCollisions_nil (allSegments : list Segment.t) (threshold : Q) :
  detectCollisions allSegments threshold = [] ->
  forall s1 s2, s1 ∈ allSegments -> s2 ∈ allSegments ->
    Segment.connectionId s1 <> Segment.connectionId s2 ->
    checkSegmentCollision s1 s2 threshold = false.
Proof.
  induction allSegments as [| s later IH]; simpl; intros Hnil s1 s2 H1 H2 Hne.
  - by apply elem_of_nil in H1.
  - apply app_eq_nil in Hnil as [Hinner Hrest].
    apply elem_of_cons in H1 as [-> | H1]; apply elem_of_cons in H2 as [-> | H2].
    + done.
    + by eapply detectCollisions_inner_nil.
    + rewrite checkSegmentCollision_sym. eapply detectCollisions_inner_nil; eauto.
    + by apply IH.
Qed.

Lemma extractSegments_connectionId (id : string) (waypoints : list Point.t) (s : Segment.t) :
  s ∈ extractSegments id waypoints -> Segment.connectionId s = id.
Proof.
  induction waypoints as [| p waypoints IH]; simpl; [by intros ?%elem_of_nil |].
  destruct waypoints as [| q waypoints]; [by intros ?%elem_of_nil |].
  intros [-> | Hin]%elem_of_cons; [done | by apply IH].
Qed.

Lemma overlap_inner_None (i : nat) (p1 p2 : Point.t) (id1 id2 : string)
    (waypoints2 : list Point.t) (threshold : Q) :
  (forall s2, s2 ∈ extractSegments id2 waypoints2 ->
     checkSegmentCollision (Segment.mk id1 p1 p2 (getOrientation p1 p2)) s2 threshold
     = false) ->
  overlap_inner i p1 p2 (getOrientation p1 p2) waypoints2
    (fun s1 s2 => checkSegmentCollision s1 s2 threshold) = None.
Proof.
  induction waypoints2 as [| q1 waypoints2 IH]; [done |].
  destruct waypoints2 as [| q2 waypoints2]; [done |].
  intros Hfree. cbn [overlap_inner].
  assert (Hrest : overlap_inner i p1 p2 (getOrientation p1 p2) (q2 :: waypoints2)
                    (fun s1 s2 => checkSegmentCollision s1 s2 threshold) = None).
  { apply IH. intros s2 Hs2. apply Hfree. cbn [extractSegments].
    by apply list_elem_of_further. }
  destruct (Orientation_eqb _ _); cbn [negb]; [| done].
  replace (checkSegmentCollision (Segment.mk "" p1 p2 (getOrientation p1 p2))
             (Segment.mk "" q1 q2 (getOrientation q1 q2)) threshold)
    with false; [done |].
  symmetry.
  apply (Hfree (Segment.mk id2 q1 q2 (getOrientation q1 q2))).
  cbn [extractSegments]. apply list_elem_of_here.
Qed.

Lemma overlap_outer_None (id1 id2 : string) (waypoints1 waypoints2 : list Point.t)
    (threshold : Q) :
  (forall s1 s2, s1 ∈ extractSegments id1 waypoints1 ->
     s2 ∈ extractSegments id2 waypoints2 ->
     checkSegmentCollision s1 s2 threshold = false) ->
  forall i, overlap_outer i waypoints1 waypoints2
              (fun s1 s2 => checkSegmentCollision s1 s2 threshold) = None.
Proof.
  induction waypoints1 as [| p1 waypoints1 IH]; [done |].
  destruct waypoints1 as [| p2 waypoints1]; [done |].
  intros Hfree i. cbn [overlap_outer].
  rewrite (overlap_inner_None i p1 p2 id1 id2).
  - apply IH. intros s1 s2 H1 H2. apply Hfree; [| done].
    cbn [extractSegments]. by apply list_elem_of_further.
  - intros s2 H2. apply Hfree; [| done].
    cbn [extractSegments]. apply list_elem_of_here.
Qed.

Lemma findElement_self (registry : list Element.t) (e : Element.t) :
  NoDup (map Element.id registry) -> e ∈ registry ->
  findElement registry (Element.id e) = Some e.
Proof.
  unfold findElement.
  induction registry as [| e' registry IH]; simpl; intros Hnd Hin.
  - by apply elem_of_nil in Hin.
  - apply NoDup_cons in Hnd as [Hfresh Hnd].
    apply elem_of_cons in Hin as [-> | Hin].
    + by rewrite String.eqb_refl.
    + destruct (String.eqb_spec (Element.id e') (Element.id e)) as [Heq | Hne].
      * exfalso. apply Hfresh. rewrite Heq. by apply list_elem_of_fmap_2.
      * by apply IH.
Qed.

Lemma live_self (registry : list Element.t) (e : Element.t) :
  NoDup (map Element.id registry) -> e ∈ registry -> live registry e = e.
Proof. intros Hnd Hin. unfold live. by rewrite findElement_self. Qed.

Section ConflictFree.

Variable host : Command -> list Element.t -> list Element.t.
Variable localeCompare : string -> string -> Z.
Variable constants : LayoutConstants.t.
Variable registry : list Element.t.
Variable connections : list Element.t.

Hypothesis registry_ids : NoDup (map Element.id registry).
Hypothesis connections_registered : forall c, c ∈ connections -> c ∈ registry.
Hypothesis no_parallel :
  forall c1 c2, c1 ∈ connections -> c2 ∈ connections ->
    Element.id c1 <> Element.id c2 ->
    isParallel (asConnectionLike c1) (asConnectionLike c2) = false.
Hypothesis conflict_free :
  detectCollisions (allSegmentsOf connections)
    (LayoutConstants.collisionThreshold constants) = [].

Lemma segments_of_connection (c : Element.t) (s : Segment.t) :
  c ∈ connections ->
  s ∈ extractSegments (Element.id c) (Element.waypoints c) ->
  s ∈ allSegmentsOf connections.
Proof.
  intros Hc Hs. unfold allSegmentsOf.
  apply list_elem_of_In, in_flat_map. exists c.
  split; by apply list_elem_of_In.
Qed.

Lemma nudge_conflict_free (conn : Element.t) (others : list Element.t)
    (waypoints : list Point.t) (updated : bool) :
  conn ∈ connections ->
  waypoints = Element.waypoints conn ->
  (forall o, o ∈ others -> o ∈ connections /\ Element.id o <> Element.id conn) ->
  fold_left
    (nudgeAgainst (asConnectionLike conn)
       (fun s1 s2 => checkSegmentCollision s1 s2
                       (LayoutConstants.collisionThreshold constants))
       constants)
    (map asConnectionLike others) (waypoints, updated)
  = (waypoints, updated).
Proof.
  intros Hconn -> Hothers.
  induction others as [| o others IH]; [done |].
  cbn [map fold_left].
  destruct (Hothers o) as [Ho Hne]; [apply list_elem_of_here |].
  unfold nudgeAgainst at 2.
  rewrite no_parallel by done.
  unfold checkConnectionOverlapDetails.
  rewrite (overlap_outer_None (Element.id conn) (Element.id o)).
  - apply IH. intros o' Ho'. apply Hothers. by apply list_elem_of_further.
  - intros s1 s2 H1 H2. simpl in H2.
    apply (detectCollisions_nil _ _ conflict_free).
    + by apply (segments_of_connection conn).
    + by apply (segments_of_connection o).
    + rewrite (extractSegments_connectionId _ _ _ H1),
              (extractSegments_connectionId _ _ _ H2). done.
Qed.

Lemma resolved_conflict_free (conn : Element.t) :
  conn ∈ connections ->
  let others :=
    List.filter (fun c => negb (String.eqb (Element.id c) (Element.id conn)))
                connections in
  computeResolvedWaypoints localeCompare (asConnectionLike conn)
    (map asConnectionLike others) constants
  = (Element.waypoints conn, false).
Proof.
  intros Hconn others.
  assert (Hothers : forall o, o ∈ others ->
                      o ∈ connections /\ Element.id o <> Element.id conn).
  { intros o Ho. apply list_elem_of_In, filter_In in Ho as [Ho Hne].
    split; [by apply list_elem_of_In |].
    intros Heq. rewrite Heq, String.eqb_refl in Hne. done. }
  unfold computeResolvedWaypoints. rewrite map_copy_points.
  cbn [asConnectionLike ConnectionLike.waypoints].
  destruct (Z.of_nat _ <? 2)%Z; [done |].
  assert (Hgroup : List.filter (fun other => isParallel (asConnectionLike conn) other)
                     (map asConnectionLike others) = []).
  { clear -Hothers Hconn no_parallel.
    induction others as [| o others IH]; [done |]. cbn [map List.filter].
    destruct (Hothers o) as [Ho Hne]; [apply list_elem_of_here |].
    rewrite no_parallel by done.
    apply IH. intros o' Ho'. apply Hothers. by apply list_elem_of_further. }
  unfold parallelGroupOffset. rewrite Hgroup. cbn [length Z.of_nat Z.gtb Z.compare].
  by apply nudge_conflict_free.
Qed.

Lemma resolve_pass_conflict_free (w : World.t) (todo : list Element.t) (flag : bool) :
  World.registry w = registry ->
  (forall c, c ∈ todo -> c ∈ connections) ->
  fold_left (resolveConnection host localeCompare connections constants) todo (w, flag)
  = (w, flag).
Proof.
  intros Hreg Htodo. induction todo as [| conn todo IH]; [done |].
  cbn [fold_left]. unfold resolveConnection at 2.
  assert (Hconn : conn ∈ connections) by (apply Htodo, list_elem_of_here).
  rewrite Hreg, live_self by auto.
  erewrite map_ext_in; [rewrite (resolved_conflict_free conn Hconn) |].
  - apply IH. intros c Hc. apply Htodo. by apply list_elem_of_further.
  - intros c [Hc _]%filter_In. cbv beta.
    rewrite live_self; [done | done |].
    by apply connections_registered, list_elem_of_In.
Qed.

Lemma resolvePasses_conflict_free (maxPasses : nat) (w : World.t) :
  World.registry w = registry ->
  resolvePasses host localeCompare maxPasses connections constants w = w.
Proof.
  intros Hreg. destruct maxPasses as [| remaining]; [done |].
  cbn [resolvePasses]. by rewrite resolve_pass_conflict_free.
Qed.

End ConflictFree.

(** C3, as the code has it: when no two sequence flows are parallel and no
    two segments of different flows collide at the resolver's threshold,
    [resolveEdgeCollisions] issues no command and leaves the registry as it
    was. *)
Theorem resolveEdgeCollisions_conflict_free
    (host : Command -> list Element.t -> list Element.t)
    (localeCompare : string -> string -> Z)
    (context : Context.t) (maxPasses : nat) (constants : LayoutConstants.t) :
  let connections :=
    registry_filter (Context.elementRegistry context)
      (fun e => String.eqb (Element.type e) "bpmn:SequenceFlow") in
  NoDup (map Element.id (Context.elementRegistry context)) ->
  (forall c1 c2, c1 ∈ connections -> c2 ∈ connections ->
     Element.id c1 <> Element.id c2 ->
     isParallel (asConnectionLike c1) (asConnectionLike c2) = false) ->
  detectCollisions (allSegmentsOf connections)
    (LayoutConstants.collisionThreshold constants) = [] ->
  resolveEdgeCollisions host localeCompare context maxPasses constants
  = World.mk (Context.elementRegistry context) []
  /\ forall conn, conn ∈ connections ->
       snd (computeResolvedWaypoints localeCompare (asConnectionLike conn)
              (map asConnectionLike
                 (List.filter
                    (fun c => negb (String.eqb (Element.id c) (Element.id conn)))
                    connections))
              constants) = false.
Proof.
  intros connections Hids Hpar Hfree.
  assert (Hreg : forall c, c ∈ connections -> c ∈ Context.elementRegistry context).
  { intros c Hc. apply list_elem_of_In, filter_In in Hc as [Hc _].
    by apply list_elem_of_In. }
  split.
  - unfold resolveEdgeCollisions. fold connections.
    destruct (length connections =? 0)%nat; [done |].
    by apply (resolvePasses_conflict_free host localeCompare constants
                (Context.elementRegistry context) connections).
  - intros conn Hconn.
    by rewrite (resolved_conflict_free localeCompare constants connections Hpar Hfree conn).
Qed.

Lemma resolveEdgeCollisions_conflict_free_witness :
  service_detectCollisions apartFlows = []
  /\ resolveEdgeCollisions sampleHost codeUnitCompare apartFlows 5 DEFAULT_LAYOUT_CONSTANTS
     = World.mk (Context.elementRegistry apartFlows) [].
Proof.
  split; [reflexivity |].
  apply (resolveEdgeCollisions_conflict_free sampleHost codeUnitCompare apartFlows 5
           DEFAULT_LAYOUT_CONSTANTS).
  - simpl. repeat constructor; rewrite ?elem_of_cons, ?elem_of_nil; intuition discriminate.
  - simpl. intros c1 c2 H1 H2 Hne.
    rewrite !elem_of_cons, !elem_of_nil in H1, H2.
    destruct H1 as [-> | [-> | []]], H2 as [-> | [-> | []]]; try done.
  - reflexivity.
Defined.

(** C3, as stated, fails: two flows between the same two tasks whose routes
    collide nowhere are shifted again on every pass. *)
Lemma resolveEdgeCollisions_updates_conflict_free :
  service_detectCollisions twinFlows = []
  /\ length (World.issued
               (resolveEdgeCollisions sampleHost codeUnitCompare twinFlows 5
                  DEFAULT_LAYOUT_CONSTANTS)) = 10%nat
  /\ snd (computeResolvedWaypoints codeUnitCompare
            (asConnectionLike
               (sampleFlow "Flow_1" "Task_A" "Task_B"
                  [Point.mk 100 40; Point.mk 150 40; Point.mk 150 140; Point.mk 200 140]))
            [asConnectionLike
               (sampleFlow "Flow_2" "Task_A" "Task_B"
                  [Point.mk 100 70; Point.mk 130 70; Point.mk 130 170; Point.mk 200 170])]
            DEFAULT_LAYOUT_CONSTANTS) = true.
Proof. vm_compute. done. Qed.

(** ** Collision resolver on the heap *)

Section HeapFacts.

Lemma bind_run {A B} (m : Heap.M A) (k : A -> Heap.M B) (h h' : Heap.t) (a : A) :
  m h = Some (a, h') -> Heap.bind m k h = k a h'.
Proof. intros H. unfold Heap.bind. by rewrite H. Qed.

Lemma extended_length (h : Heap.t) (points : list Point.t) :
  length (Heap.extended h points) = (length h + length points + 1)%nat.
Proof. unfold Heap.extended. rewrite !length_app, length_map. simpl. lia. Qed.

Lemma extended_lookup_old (h : Heap.t) (points : list Point.t) (l : Heap.loc) :
  (l < length h)%nat -> Heap.extended h points !! l = h !! l.
Proof. intros Hl. unfold Heap.extended. by rewrite lookup_app_l. Qed.

Lemma extended_lookup_point (h : Heap.t) (points : list Point.t) (i : nat) (p : Point.t) :
  points !! i = Some p ->
  Heap.extended h points !! (length h + i)%nat = Some (Heap.OPoint p).
Proof.
  intros Hp. unfold Heap.extended.
  rewrite lookup_app_r by lia. replace (length h + i - length h)%nat with i by lia.
  rewrite lookup_app_l by (rewrite length_map; by eapply lookup_lt_Some).
  by rewrite list_lookup_fmap, Hp.
Qed.

Lemma extended_lookup_array (h : Heap.t) (points : list Point.t) :
  Heap.extended h points !! (length h + length points)%nat
  = Some (Heap.OArray (seq (length h) (length points))).
Proof.
  unfold Heap.extended. rewrite lookup_app_r by lia.
  rewrite lookup_app_r by (rewrite length_map; lia).
  rewrite length_map.
  by replace (length h + length points - length h - length points)%nat with 0%nat by lia.
Qed.

Lemma extended_insert_point (h : Heap.t) (points : list Point.t) (i : nat) (q : Point.t) :
  (i < length points)%nat ->
  <[(length h + i)%nat := Heap.OPoint q]> (Heap.extended h points)
  = Heap.extended h (<[i := q]> points).
Proof.
  intros Hi. unfold Heap.extended.
  rewrite insert_app_r_alt by lia. replace (length h + i - length h)%nat with i by lia.
  rewrite insert_app_l by (by rewrite length_map).
  by rewrite list_fmap_insert, length_insert.
Qed.

Lemma getArray_extended (h : Heap.t) (points : list Point.t) :
  Heap.getArray (length h + length points)%nat (Heap.extended h points)
  = Some (seq (length h) (length points), Heap.extended h points).
Proof. unfold Heap.getArray. by rewrite extended_lookup_array. Qed.

Lemma getPoint_extended (h : Heap.t) (points : list Point.t) (i : nat) (p : Point.t) :
  points !! i = Some p ->
  Heap.getPoint (length h + i)%nat (Heap.extended h points) = Some (p, Heap.extended h points).
Proof. intros Hp. unfold Heap.getPoint. by rewrite (extended_lookup_point _ _ _ _ Hp). Qed.

Lemma setPoint_extended (h : Heap.t) (points : list Point.t) (i : nat) (p q : Point.t) :
  points !! i = Some p ->
  Heap.setPoint (length h + i)%nat q (Heap.extended h points)
  = Some (tt, Heap.extended h (<[i := q]> points)).
Proof.
  intros Hp. unfold Heap.setPoint. rewrite (extended_lookup_point _ _ _ _ Hp).
  rewrite extended_insert_point; [done | by eapply lookup_lt_Some].
Qed.

Lemma alter_as_insert {A} (f : A -> A) (l : list A) (i : nat) (a : A) :
  l !! i = Some a -> alter f i l = <[i := f a]> l.
Proof.
  revert i. induction l as [| b l IH]; intros [| i] H; simplify_eq/=; [done |].
  f_equal. by apply IH.
Qed.

Lemma alter_out_of_range {A} (f : A -> A) (l : list A) (i : nat) :
  (length l <= i)%nat -> alter f i l = l.
Proof.
  revert i. induction l as [| b l IH]; intros [| i] H; simpl in *; try done; [lia |].
  f_equal. apply IH. lia.
Qed.

Lemma addY_extended (h : Heap.t) (points : list Point.t) (offset : Q) (i : nat) :
  (i < length points)%nat ->
  Heap.addY offset (length h + i)%nat (Heap.extended h points)
  = Some (tt, Heap.extended h (alter (shiftY offset) i points)).
Proof.
  intros Hi. destruct (lookup_lt_is_Some_2 points i Hi) as [p Hp].
  unfold Heap.addY. rewrite (bind_run _ _ _ _ _ (getPoint_extended h points i p Hp)).
  rewrite (setPoint_extended h points i p _ Hp). by rewrite (alter_as_insert _ _ _ _ Hp).
Qed.

Lemma addX_extended (h : Heap.t) (points : list Point.t) (offset : Q) (i : nat) :
  (i < length points)%nat ->
  Heap.addX offset (length h + i)%nat (Heap.extended h points)
  = Some (tt, Heap.extended h (alter (shiftX offset) i points)).
Proof.
  intros Hi. destruct (lookup_lt_is_Some_2 points i Hi) as [p Hp].
  unfold Heap.addX. rewrite (bind_run _ _ _ _ _ (getPoint_extended h points i p Hp)).
  rewrite (setPoint_extended h points i p _ Hp). by rewrite (alter_as_insert _ _ _ _ Hp).
Qed.

Lemma lookup_seq_at (n k i : nat) :
  seq n k !! i = if decide (i < k)%nat then Some (n + i)%nat else None.
Proof.
  case_decide.
  - by apply lookup_seq_lt.
  - apply lookup_seq_ge. lia.
Qed.

Lemma driftLoop_extended (h : Heap.t) (offset : Q) (k : nat) (indices : list nat) :
  forall points, length points = k ->
    Heap.forEachM (fun i => match seq (length h) k !! i with
                       | Some p => Heap.addY offset p
                       | None => Heap.ret tt
                       end)
             indices (Heap.extended h points)
    = Some (tt, Heap.extended h (fold_left (fun w i => alter (shiftY offset) i w) indices points)).
Proof.
  induction indices as [| i indices IH]; intros points Hlen; [done |].
  cbn [Heap.forEachM fold_left]. rewrite lookup_seq_at. case_decide as Hi.
  - rewrite (bind_run _ _ _ _ _ (addY_extended h points offset i ltac:(lia))).
    apply IH. by rewrite length_alter.
  - unfold Heap.bind at 1, Heap.ret at 1.
    rewrite (alter_out_of_range _ points i) by lia. by apply IH.
Qed.

Lemma applyDriftToWaypoints_extended (h : Heap.t) (points : list Point.t) (offset : Q) :
  Heap.applyDriftToWaypoints (length h + length points)%nat offset
    (Heap.extended h points)
  = Some (tt, Heap.extended h (applyDriftToWaypoints points offset)).
Proof.
  unfold Heap.applyDriftToWaypoints.
  rewrite (bind_run _ _ _ _ _ (getArray_extended h points)).
  rewrite length_seq. by apply driftLoop_extended.
Qed.

Lemma applySegmentDrift_length (waypoints : list Point.t) (segmentIndex : Z)
    (offset : Q) (orientation : Orientation) :
  length (applySegmentDrift waypoints segmentIndex offset orientation)
  = length waypoints.
Proof.
  unfold applySegmentDrift. destruct (_ || _); [done |].
  destruct orientation; by rewrite !length_alter.
Qed.

Lemma applySegmentDrift_extended (h : Heap.t) (points : list Point.t)
    (segmentIndex : Z) (offset : Q) (orientation : Orientation) :
  Heap.applySegmentDrift (length h + length points)%nat segmentIndex offset
    orientation (Heap.extended h points)
  = Some (tt, Heap.extended h
                (applySegmentDrift points segmentIndex offset orientation)).
Proof.
  unfold Heap.applySegmentDrift, applySegmentDrift.
  rewrite (bind_run _ _ _ _ _ (getArray_extended h points)).
  rewrite length_seq.
  destruct ((segmentIndex <? 0)%Z || (segmentIndex >=? Z.of_nat (length points) - 1)%Z)
    eqn:Hguard; [done |].
  apply orb_false_iff in Hguard as [H0%Z.ltb_ge H1].
  rewrite Z.geb_leb in H1. apply Z.leb_gt in H1.
  assert (Hi : (S (Z.to_nat segmentIndex) < length points)%nat)
    by (clear -H0 H1; lia).
  assert (Hi0 : (Z.to_nat segmentIndex < length points)%nat)
    by (clear -Hi; lia).
  rewrite !lookup_seq_at. rewrite !decide_True by done.
  destruct orientation.
  - rewrite (bind_run _ _ _ _ _ (addY_extended h points offset _ Hi0)).
    rewrite addY_extended; [done | by rewrite length_alter].
  - rewrite (bind_run _ _ _ _ _ (addX_extended h points offset _ Hi0)).
    rewrite addX_extended; [done | by rewrite length_alter].
  - rewrite (bind_run _ _ _ _ _ (addX_extended h points offset _ Hi0)).
    rewrite addX_extended; [done | by rewrite length_alter].
Qed.

Lemma bind_Some {A B} (m : Heap.M A) (k : A -> Heap.M B) (h h2 : Heap.t) (b : B) :
  Heap.bind m k h = Some (b, h2) ->
  exists a h1, m h = Some (a, h1) /\ k a h1 = Some (b, h2).
Proof. unfold Heap.bind. destruct (m h) as [[a h1] |]; [eauto | done]. Qed.

Lemma getPoint_Some (l : Heap.loc) (h h' : Heap.t) (p : Point.t) :
  Heap.getPoint l h = Some (p, h') -> h' = h /\ h !! l = Some (Heap.OPoint p).
Proof. unfold Heap.getPoint. destruct (h !! l) as [[q |] |]; naive_solver. Qed.

Lemma getArray_Some (l : Heap.loc) (h h' : Heap.t) (items : list Heap.loc) :
  Heap.getArray l h = Some (items, h') -> h' = h /\ h !! l = Some (Heap.OArray items).
Proof. unfold Heap.getArray. destruct (h !! l) as [[q |] |]; naive_solver. Qed.

Lemma getPoint_lookup (l : Heap.loc) (h : Heap.t) (p : Point.t) :
  h !! l = Some (Heap.OPoint p) -> Heap.getPoint l h = Some (p, h).
Proof. intros H. unfold Heap.getPoint. by rewrite H. Qed.

Lemma getArray_lookup (l : Heap.loc) (h : Heap.t) (items : list Heap.loc) :
  h !! l = Some (Heap.OArray items) -> Heap.getArray l h = Some (items, h).
Proof. intros H. unfold Heap.getArray. by rewrite H. Qed.

(** Reading does not change the heap. *)
Lemma mapM_getPoint_heap (items : list Heap.loc) :
  forall h points h', Heap.mapM Heap.getPoint items h = Some (points, h') -> h' = h.
Proof.
  induction items as [| l items IH]; intros h points h' H; cbn [Heap.mapM] in H.
  - unfold Heap.ret in H. by simplify_eq.
  - apply bind_Some in H as (p & h1 & [-> _]%getPoint_Some & H).
    apply bind_Some in H as (r & h2 & ->%IH & H).
    unfold Heap.ret in H. by simplify_eq.
Qed.

Lemma mapM_getPoint_app (items : list Heap.loc) (h e : Heap.t) (points : list Point.t) :
  Heap.mapM Heap.getPoint items h = Some (points, h) ->
  Heap.mapM Heap.getPoint items (h ++ e) = Some (points, h ++ e).
Proof.
  revert points. induction items as [| l items IH]; intros points H; cbn [Heap.mapM] in *.
  - unfold Heap.ret in *. by simplify_eq.
  - apply bind_Some in H as (p & h1 & [-> Hl]%getPoint_Some & H).
    apply bind_Some in H as (r & h2 & Hr & H).
    pose proof (mapM_getPoint_heap _ _ _ _ Hr) as ->.
    unfold Heap.ret in H. simplify_eq.
    rewrite (bind_run _ _ _ _ _ (getPoint_lookup _ _ _ (lookup_app_l_Some _ _ _ _ Hl))).
    by rewrite (bind_run _ _ _ _ _ (IH _ Hr)).
Qed.

Lemma readWaypoints_app (w : Heap.loc) (h e : Heap.t) (points : list Point.t) :
  Heap.readWaypoints w h = Some (points, h) ->
  Heap.readWaypoints w (h ++ e) = Some (points, h ++ e).
Proof.
  unfold Heap.readWaypoints. intros H.
  apply bind_Some in H as (items & h1 & [-> Hw]%getArray_Some & H).
  rewrite (bind_run _ _ _ _ _ (getArray_lookup _ _ _ (lookup_app_l_Some _ _ _ _ Hw))).
  by apply mapM_getPoint_app.
Qed.

Lemma readWaypoints_extended_old (w : Heap.loc) (h : Heap.t) (points old : list Point.t) :
  Heap.readWaypoints w h = Some (old, h) ->
  Heap.readWaypoints w (Heap.extended h points) = Some (old, Heap.extended h points).
Proof. apply readWaypoints_app. Qed.

Lemma mapM_getPoint_seq (h : Heap.t) (points : list Point.t) :
  forall (done_ todo : list Point.t), points = done_ ++ todo ->
    Heap.mapM Heap.getPoint (seq (length h + length done_) (length todo)) (Heap.extended h points)
    = Some (todo, Heap.extended h points).
Proof.
  intros done_ todo. revert done_.
  induction todo as [| p todo IH]; intros done_ Hsplit; [done |].
  cbn [length seq Heap.mapM].
  rewrite (bind_run _ _ _ _ _ (getPoint_extended h points (length done_) p
             ltac:(subst; by rewrite list_lookup_middle))).
  specialize (IH (done_ ++ [p])). rewrite length_app in IH. simpl in IH.
  replace (S (length h + length done_)) with (length h + (length done_ + 1))%nat by lia.
  rewrite (bind_run _ _ _ _ _ (IH ltac:(by rewrite <- app_assoc))). done.
Qed.

Lemma readWaypoints_extended_new (h : Heap.t) (points : list Point.t) :
  Heap.readWaypoints (length h + length points)%nat (Heap.extended h points)
  = Some (points, Heap.extended h points).
Proof.
  unfold Heap.readWaypoints. rewrite (bind_run _ _ _ _ _ (getArray_extended h points)).
  pose proof (mapM_getPoint_seq h points [] points eq_refl) as H.
  simpl in H. by rewrite Nat.add_0_r in H.
Qed.

(** The copy made by [waypoints.map((w) => ({ x: w.x, y: w.y }))]. *)
Lemma copy_points (items : list Heap.loc) (h : Heap.t) :
  forall (e : Heap.t) (points : list Point.t),
    Heap.mapM Heap.getPoint items h = Some (points, h) ->
    Heap.mapM (fun w => Heap.bind (Heap.getPoint w)
                     (fun p => Heap.newPoint (Point.mk (Point.x p) (Point.y p))))
         items (h ++ e)
    = Some (seq (length h + length e) (length items), h ++ e ++ map Heap.OPoint points).
Proof.
  induction items as [| l items IH]; intros e points H; cbn [Heap.mapM] in *.
  - unfold Heap.ret in *. simplify_eq. simpl. by rewrite app_nil_r.
  - apply bind_Some in H as (p & h1 & [-> Hl]%getPoint_Some & H).
    apply bind_Some in H as (r & h2 & Hr & H).
    pose proof (mapM_getPoint_heap _ _ _ _ Hr) as ->.
    unfold Heap.ret in H. simplify_eq.
    assert (Hnew : Heap.bind (Heap.getPoint l)
                     (fun p => Heap.newPoint (Point.mk (Point.x p) (Point.y p))) (h ++ e)
                   = Some ((length h + length e)%nat, h ++ (e ++ [Heap.OPoint p]))).
    { rewrite (bind_run _ _ _ _ _ (getPoint_lookup _ _ _ (lookup_app_l_Some _ _ _ _ Hl))).
      unfold Heap.newPoint. destruct p. cbn [Point.x Point.y].
      by rewrite length_app, <- app_assoc. }
    rewrite (bind_run _ _ _ _ _ Hnew).
    rewrite (bind_run _ _ _ _ _ (IH (e ++ [Heap.OPoint p]) r Hr)).
    unfold Heap.ret. rewrite length_app. cbn [length map seq].
    replace (length h + (length e + 1))%nat with (S (length h + length e)) by lia.
    by rewrite <- app_assoc.
Qed.

Lemma checkConnectionOverlapDetails_extended (h : Heap.t) (points : list Point.t)
    (other : ConnectionLike.t Heap.loc) (otherPoints : list Point.t)
    (checkCollision : Segment.t -> Segment.t -> bool) :
  Heap.readWaypoints (ConnectionLike.waypoints other) h = Some (otherPoints, h) ->
  Heap.checkConnectionOverlapDetails (length h + length points)%nat other
    checkCollision (Heap.extended h points)
  = Some (checkConnectionOverlapDetails points (Heap.view other otherPoints)
            checkCollision,
          Heap.extended h points).
Proof.
  intros Hother. unfold Heap.checkConnectionOverlapDetails.
  rewrite (bind_run _ _ _ _ _ (readWaypoints_extended_new h points)).
  by rewrite (bind_run _ _ _ _ _ (readWaypoints_extended_old _ h points _ Hother)).
Qed.

(** [view] keeps the identifier and the end points, which is all that the
    parallel grouping looks at. *)
Lemma isParallel_view (c1 c2 : ConnectionLike.t Heap.loc) (points1 points2 : list Point.t) :
  isParallel (Heap.view c1 points1) (Heap.view c2 points2) = isParallel c1 c2.
Proof. done. Qed.

Lemma filter_parallel_view (target : ConnectionLike.t Heap.loc) (targetPoints : list Point.t)
    (others : list (ConnectionLike.t Heap.loc)) (views : list Connection) :
  Forall2 (fun o v => exists points, v = Heap.view o points) others views ->
  Forall2 (fun o v => exists points, v = Heap.view o points)
    (List.filter (fun other => isParallel target other) others)
    (List.filter (fun other => isParallel (Heap.view target targetPoints) other) views).
Proof.
  induction 1 as [| o v others views [points ->] _ IH]; [constructor |].
  cbn [List.filter]. rewrite isParallel_view.
  destruct (isParallel target o); [constructor; eauto | done].
Qed.

Section SortView.

Variable neg : string -> string -> bool.

Lemma sort_insert_view o v sorted sortedViews :
  Heap.viewed o v -> Forall2 Heap.viewed sorted sortedViews ->
  Forall2 Heap.viewed
    (sort_insert (fun a b => neg (ConnectionLike.id a) (ConnectionLike.id b)) o sorted)
    (sort_insert (fun a b => neg (ConnectionLike.id a) (ConnectionLike.id b)) v sortedViews).
Proof.
  intros [points ->]. induction 1 as [| o' v' sorted sortedViews [points' ->] Hrest IH].
  - repeat constructor. by exists points.
  - cbn [sort_insert]. cbn [Heap.view ConnectionLike.id].
    destruct (neg _ _).
    + constructor; [by exists points |]. constructor; [by exists points' | done].
    + constructor; [by exists points' | done].
Qed.

Lemma sort_fold_view l views :
  Forall2 Heap.viewed l views ->
  forall acc accViews, Forall2 Heap.viewed acc accViews ->
    Forall2 Heap.viewed
      (fold_left (fun sorted a =>
                    sort_insert (fun a b => neg (ConnectionLike.id a) (ConnectionLike.id b))
                      a sorted) l acc)
      (fold_left (fun sorted a =>
                    sort_insert (fun a b => neg (ConnectionLike.id a) (ConnectionLike.id b))
                      a sorted) views accViews).
Proof.
  induction 1 as [| o v l views Hov _ IH]; intros acc accViews Hacc; [exact Hacc |].
  cbn [fold_left]. apply IH. by apply sort_insert_view.
Qed.

Lemma sort_view l views :
  Forall2 Heap.viewed l views ->
  Forall2 Heap.viewed
    (sort (fun a b => neg (ConnectionLike.id a) (ConnectionLike.id b)) l)
    (sort (fun a b => neg (ConnectionLike.id a) (ConnectionLike.id b)) views).
Proof. intros H. unfold sort. apply sort_fold_view; [done | constructor]. Qed.

Lemma findIndex_view (id : string) l views :
  Forall2 Heap.viewed l views ->
  forall i, findIndex_from i (fun c => String.eqb (ConnectionLike.id c) id) l
            = findIndex_from i (fun c => String.eqb (ConnectionLike.id c) id) views.
Proof.
  induction 1 as [| o v l views [points ->] _ IH]; intros i; [done |].
  cbn [findIndex_from Heap.view ConnectionLike.id]. destruct (String.eqb _ _); [done | apply IH].
Qed.

End SortView.

Lemma parallelGroupOffset_view (localeCompare : string -> string -> Z)
    (target : ConnectionLike.t Heap.loc) (targetPoints : list Point.t)
    (others : list (ConnectionLike.t Heap.loc)) (views : list Connection)
    (constants : LayoutConstants.t) :
  Forall2 (fun o v => exists points, v = Heap.view o points) others views ->
  parallelGroupOffset localeCompare (Heap.view target targetPoints) views constants
  = parallelGroupOffset localeCompare target others constants.
Proof.
  intros Hviews. unfold parallelGroupOffset.
  pose proof (filter_parallel_view target targetPoints others views Hviews) as Hgroup.
  rewrite <- (Forall2_length _ _ _ Hgroup).
  destruct (Z.of_nat _ >? 0)%Z; [| done].
  assert (Hall : Forall2 (fun o v => exists points, v = Heap.view o points)
                   (target :: List.filter (fun other => isParallel target other) others)
                   (Heap.view target targetPoints
                    :: List.filter (fun other => isParallel (Heap.view target targetPoints) other)
                         views))
    by (constructor; eauto).
  pose proof (sort_view (fun a b => (localeCompare a b <? 0)%Z) _ _ Hall) as Hsorted.
  unfold findIndex.
  rewrite <- (findIndex_view (ConnectionLike.id target) _ _ Hsorted).
  by rewrite <- (Forall2_length _ _ _ Hsorted).
Qed.

Lemma nudgeAgainst_length (target : Connection)
    (checkCollision : Segment.t -> Segment.t -> bool) (constants : LayoutConstants.t)
    (points : list Point.t) (updated : bool) (other : Connection) :
  length (fst (nudgeAgainst target checkCollision constants
                 (points, updated) other)) = length points.
Proof.
  unfold nudgeAgainst. destruct (isParallel target other); [done |].
  destruct (checkConnectionOverlapDetails _ _ _); [| done].
  apply applySegmentDrift_length.
Qed.

Lemma nudgeAgainst_extended (h : Heap.t)
    (target : ConnectionLike.t Heap.loc) (targetPoints : list Point.t)
    (checkCollision : Segment.t -> Segment.t -> bool) (constants : LayoutConstants.t)
    (other : ConnectionLike.t Heap.loc) (otherPoints points : list Point.t) (updated : bool) :
  Heap.readWaypoints (ConnectionLike.waypoints other) h = Some (otherPoints, h) ->
  length points = length targetPoints ->
  Heap.nudgeAgainst target checkCollision constants
    (length h + length targetPoints)%nat updated other (Heap.extended h points)
  = Some (snd (nudgeAgainst (Heap.view target targetPoints) checkCollision constants
                 (points, updated) (Heap.view other otherPoints)),
          Heap.extended h
            (fst (nudgeAgainst (Heap.view target targetPoints) checkCollision
                    constants (points, updated) (Heap.view other otherPoints)))).
Proof.
  intros Hread Hlen.
  unfold Heap.nudgeAgainst, nudgeAgainst.
  rewrite isParallel_view. destruct (isParallel target other); [done |].
  rewrite <- Hlen.
  rewrite (bind_run _ _ _ _ _
             (checkConnectionOverlapDetails_extended h points other otherPoints
                checkCollision Hread)).
  destruct (checkConnectionOverlapDetails points (Heap.view other otherPoints)
              checkCollision) as [overlap |]; [| done].
  by rewrite (bind_run _ _ _ _ _ (applySegmentDrift_extended h points _ _ _)).
Qed.

Lemma nudges_extended (h : Heap.t)
    (target : ConnectionLike.t Heap.loc) (targetPoints : list Point.t)
    (checkCollision : Segment.t -> Segment.t -> bool) (constants : LayoutConstants.t)
    (others : list (ConnectionLike.t Heap.loc)) (views : list Connection) :
  Forall2 (fun o v => exists points,
             Heap.readWaypoints (ConnectionLike.waypoints o) h = Some (points, h)
             /\ v = Heap.view o points) others views ->
  forall (st : list Point.t * bool),
    length (fst st) = length targetPoints ->
    Heap.foldM (Heap.nudgeAgainst target checkCollision constants
             (length h + length targetPoints)%nat)
          others (snd st) (Heap.extended h (fst st))
    = Some (snd (fold_left (nudgeAgainst (Heap.view target targetPoints)
                              checkCollision constants) views st),
            Heap.extended h
              (fst (fold_left (nudgeAgainst (Heap.view target targetPoints)
                                 checkCollision constants) views st))).
Proof.
  induction 1 as [| o v others views (otherPoints & Hread & ->) _ IH];
    intros [points updated] Hlen; [done |].
  cbn [Heap.foldM fold_left fst snd] in *.
  rewrite (bind_run _ _ _ _ _
             (nudgeAgainst_extended h target targetPoints checkCollision constants
                o otherPoints points updated Hread Hlen)).
  apply IH. by rewrite nudgeAgainst_length.
Qed.

Lemma nudges_length (target : Connection)
    (checkCollision : Segment.t -> Segment.t -> bool) (constants : LayoutConstants.t)
    (views : list Connection) :
  forall st : list Point.t * bool,
    length (fst (fold_left (nudgeAgainst target checkCollision constants)
                   views st)) = length (fst st).
Proof.
  induction views as [| v views IH]; intros [points updated]; [done |].
  cbn [fold_left]. rewrite IH. apply nudgeAgainst_length.
Qed.

(** The run on the heap is the run on coordinates: the result is a new
    array of new points behind the old heap, holding what
    [computeResolvedWaypoints] computes from the coordinates read. *)
Lemma computeResolvedWaypoints_extended (localeCompare : string -> string -> Z)
    (h : Heap.t) (target : ConnectionLike.t Heap.loc) (targetPoints : list Point.t)
    (others : list (ConnectionLike.t Heap.loc)) (views : list Connection)
    (constants : LayoutConstants.t) :
  Heap.readWaypoints (ConnectionLike.waypoints target) h = Some (targetPoints, h) ->
  Forall2 (fun o v => exists points,
             Heap.readWaypoints (ConnectionLike.waypoints o) h = Some (points, h)
             /\ v = Heap.view o points) others views ->
  let result :=
    computeResolvedWaypoints localeCompare (Heap.view target targetPoints)
      views constants in
  Heap.computeResolvedWaypoints localeCompare target others constants h
  = Some (((length h + length targetPoints)%nat, snd result), Heap.extended h (fst result))
  /\ length (fst result) = length targetPoints.
Proof.
  intros Htarget Hviews result.
  assert (Hrel : Forall2 (fun o v => exists points, v = Heap.view o points) others views).
  { eapply Forall2_impl; [exact Hviews |]. intros o v (points & _ & ->). eauto. }
  unfold Heap.computeResolvedWaypoints.
  unfold Heap.readWaypoints in Htarget.
  apply bind_Some in Htarget as (items & h1 & [-> Hitems]%getArray_Some & Hpoints).
  rewrite (bind_run _ _ _ _ _ (getArray_lookup _ _ _ Hitems)).
  pose proof (copy_points items h [] targetPoints Hpoints) as Hcopy.
  rewrite app_nil_r in Hcopy. cbn [length app] in Hcopy. rewrite Nat.add_0_r in Hcopy.
  rewrite (bind_run _ _ _ _ _ Hcopy).
  assert (Hlen : length items = length targetPoints).
  { clear -Hpoints. revert h targetPoints Hpoints.
    induction items as [| l items IH]; intros h points H; cbn [Heap.mapM] in H.
    - unfold Heap.ret in H. by simplify_eq.
    - apply bind_Some in H as (p & h1 & [-> _]%getPoint_Some & H).
      apply bind_Some in H as (r & h2 & Hr & H).
      pose proof (mapM_getPoint_heap _ _ _ _ Hr) as ->.
      unfold Heap.ret in H. simplify_eq. cbn [length]. f_equal. by eapply IH. }
  assert (Hnew : Heap.newArray (seq (length h) (length items)) (h ++ map Heap.OPoint targetPoints)
                 = Some ((length h + length targetPoints)%nat, Heap.extended h targetPoints)).
  { unfold Heap.newArray, Heap.extended. rewrite length_app, length_map, Hlen.
    by rewrite <- app_assoc. }
  rewrite (bind_run _ _ _ _ _ Hnew). rewrite length_seq, Hlen.
  subst result. unfold computeResolvedWaypoints.
  rewrite map_copy_points. cbn [Heap.view ConnectionLike.waypoints].
  destruct (Z.of_nat (length targetPoints) <? 2)%Z; [done |].
  set (chk := fun s1 s2 =>
                checkSegmentCollision s1 s2 (LayoutConstants.collisionThreshold constants)).
  rewrite (parallelGroupOffset_view localeCompare target targetPoints others views
             constants Hrel).
  destruct (parallelGroupOffset localeCompare target others constants) as [offset |].
  - destruct (Num.gtb (Qabs offset) 1).
    + rewrite (bind_run _ _ _ _ _
                 (bind_run _ _ _ _ _ (applyDriftToWaypoints_extended h targetPoints offset))).
      unfold Heap.ret at 1.
      pose proof (nudges_extended h target targetPoints chk constants others views Hviews
                    (applyDriftToWaypoints targetPoints offset, true)
                    (applyDriftToWaypoints_length _ _)) as Hn.
      cbn [fst snd] in Hn. rewrite (bind_run _ _ _ _ _ Hn). split; [done |].
      rewrite nudges_length. apply applyDriftToWaypoints_length.
    + pose proof (nudges_extended h target targetPoints chk constants others views Hviews
                    (targetPoints, false) eq_refl) as Hn.
      cbn [fst snd] in Hn. unfold Heap.bind at 1, Heap.ret at 1.
      rewrite (bind_run _ _ _ _ _ Hn). split; [done |]. by rewrite nudges_length.
  - pose proof (nudges_extended h target targetPoints chk constants others views Hviews
                  (targetPoints, false) eq_refl) as Hn.
    cbn [fst snd] in Hn. unfold Heap.bind at 1, Heap.ret at 1.
    rewrite (bind_run _ _ _ _ _ Hn). split; [done |]. by rewrite nudges_length.
Qed.

Lemma readable_views (h : Heap.t) (others : list (ConnectionLike.t Heap.loc)) :
  Forall (Heap.readable h) others ->
  exists views,
    Forall2 (fun o v => exists points,
               Heap.readWaypoints (ConnectionLike.waypoints o) h = Some (points, h)
               /\ v = Heap.view o points) others views.
Proof.
  induction 1 as [| o others [points Ho] _ [views IH]].
  - exists []. constructor.
  - exists (Heap.view o points :: views). constructor; eauto.
Qed.

Lemma readable_allocated (h : Heap.t) (c : ConnectionLike.t Heap.loc) :
  Heap.readable h c -> (ConnectionLike.waypoints c < length h)%nat.
Proof.
  intros [points H]. unfold Heap.readWaypoints in H.
  apply bind_Some in H as (items & h1 & [-> Hw]%getArray_Some & _).
  by eapply lookup_lt_Some.
Qed.

(** C10: a run of [computeResolvedWaypoints] changes no object that was
    there before, neither the waypoint array nor the points of the target
    or of any other connection; the array it returns and its points are new
    objects, and a target with fewer than two waypoints gets back a plain
    copy with [updated = false]. *)
Theorem computeResolvedWaypoints_frame (localeCompare : string -> string -> Z)
    (h : Heap.t) (target : ConnectionLike.t Heap.loc) (others : list (ConnectionLike.t Heap.loc))
    (constants : LayoutConstants.t) :
  Heap.readable h target ->
  Forall (Heap.readable h) others ->
  exists (waypoints : Heap.loc) (updated : bool) (h' : Heap.t),
    Heap.computeResolvedWaypoints localeCompare target others constants h
    = Some ((waypoints, updated), h')
    /\ (forall l, (l < length h)%nat -> h' !! l = h !! l)
    /\ (forall c, c ∈ target :: others ->
          h' !! ConnectionLike.waypoints c = h !! ConnectionLike.waypoints c
          /\ exists points,
               Heap.readWaypoints (ConnectionLike.waypoints c) h = Some (points, h)
               /\ Heap.readWaypoints (ConnectionLike.waypoints c) h' = Some (points, h'))
    /\ (length h <= waypoints)%nat
    /\ (exists items,
          h' !! waypoints = Some (Heap.OArray items)
          /\ NoDup items /\ Forall (fun l => (length h <= l)%nat) items)
    /\ (exists targetPoints result,
          Heap.readWaypoints (ConnectionLike.waypoints target) h = Some (targetPoints, h)
          /\ Heap.readWaypoints waypoints h' = Some (result, h')
          /\ length result = length targetPoints
          /\ ((length targetPoints < 2)%nat -> updated = false /\ result = targetPoints)).
Proof.
  intros Htarget Hothers.
  destruct Htarget as [targetPoints Htarget].
  destruct (readable_views h others Hothers) as [views Hviews].
  destruct (computeResolvedWaypoints_extended localeCompare h target targetPoints
              others views constants Htarget Hviews) as [Hrun Hlen].
  set (result := computeResolvedWaypoints localeCompare
                   (Heap.view target targetPoints) views constants) in *.
  exists (length h + length targetPoints)%nat, (snd result), (Heap.extended h (fst result)).
  split; [exact Hrun |]. split; [| split; [| split; [| split]]].
  - intros l Hl. by apply extended_lookup_old.
  - intros c Hc.
    assert (Hr : Heap.readable h c).
    { apply elem_of_cons in Hc as [-> | Hc]; [by exists targetPoints |].
      by apply (proj1 (Forall_forall _ _) Hothers). }
    split; [apply extended_lookup_old; by apply readable_allocated |].
    destruct Hr as [points Hr]. exists points.
    split; [done | by apply readWaypoints_extended_old].
  - lia.
  - exists (seq (length h) (length (fst result))). rewrite <- Hlen. split; [| split].
    + apply extended_lookup_array.
    + apply NoDup_seq.
    + apply Forall_forall. intros l Hl%elem_of_seq. lia.
  - exists targetPoints, (fst result). split; [done |].
    rewrite <- Hlen at 1. split; [apply readWaypoints_extended_new |].
    split; [done |]. intros Hshort. subst result.
    unfold computeResolvedWaypoints. rewrite map_copy_points.
    cbn [Heap.view ConnectionLike.waypoints].
    by replace (Z.of_nat (length targetPoints) <? 2)%Z with true
      by (symmetry; apply Z.ltb_lt; lia).
Qed.

End HeapFacts.

Lemma computeResolvedWaypoints_frame_witness :
  exists waypoints updated h',
    Heap.computeResolvedWaypoints codeUnitCompare Heap.sharedTarget
      [Heap.sharedOther] DEFAULT_LAYOUT_CONSTANTS Heap.sharedHeap
    = Some ((waypoints, updated), h')
    /\ (forall l, (l < length Heap.sharedHeap)%nat ->
          h' !! l = Heap.sharedHeap !! l)
    /\ (length Heap.sharedHeap <= waypoints)%nat.
Proof.
  destruct (computeResolvedWaypoints_frame codeUnitCompare Heap.sharedHeap
              Heap.sharedTarget [Heap.sharedOther]
              DEFAULT_LAYOUT_CONSTANTS)
    as (waypoints & updated & h' & Hrun & Hframe & _ & Hnew & _).
  - eexists. reflexivity.
  - constructor; [| constructor]. eexists. reflexivity.
  - exists waypoints, updated, h'. split; [exact Hrun |]. split; [exact Hframe | exact Hnew].
Defined.

(** ** Rank assigner: a cycle *)

Lemma cycle_graph :
  buildGraphFromElements cycleElements
  = Graph.mk (cycleNodeMap 0 0) cycleAdjacency [("Task_A", 1%Z); ("Task_B", 1%Z)].
Proof. reflexivity. Qed.

Lemma cycle_step_A (a b : nat) :
  (b <= a)%nat ->
  relaxNeighbors "Task_A" ["Task_B"] (cycleNodeMap a b) []
  = Some (cycleNodeMap a (a + 1), ["Task_B"]).
Proof.
  intros Hle. unfold cycleNodeMap. cbn -[Nat.leb Nat.add].
  repeat (case_decide; try done; cbn -[Nat.leb Nat.add]).
  by rewrite (proj2 (Nat.leb_le b a) Hle).
Qed.

Lemma cycle_step_B (a b : nat) :
  (a <= b)%nat ->
  relaxNeighbors "Task_B" ["Task_A"] (cycleNodeMap a b) []
  = Some (cycleNodeMap (b + 1) b, ["Task_A"]).
Proof.
  intros Hle. unfold cycleNodeMap. cbn -[Nat.leb Nat.add].
  repeat (case_decide; try done; cbn -[Nat.leb Nat.add]).
  by rewrite (proj2 (Nat.leb_le a b) Hle).
Qed.

Lemma cycle_loop_diverges (fuel : nat) :
  forall a b : nat,
    ((b <= a)%nat ->
     assignRanks_loop fuel cycleAdjacency (cycleNodeMap a b) ["Task_A"] = OutOfFuel)
    /\ ((a <= b)%nat ->
     assignRanks_loop fuel cycleAdjacency (cycleNodeMap a b) ["Task_B"] = OutOfFuel).
Proof.
  induction fuel as [| fuel IH]; intros a b; [done |].
  split; intros Hle.
  - change (assignRanks_loop (S fuel) cycleAdjacency (cycleNodeMap a b) ["Task_A"])
      with (match relaxNeighbors "Task_A" ["Task_B"] (cycleNodeMap a b) [] with
            | Some (nm, q) => assignRanks_loop fuel cycleAdjacency nm q
            | None => Throws
            end).
    rewrite cycle_step_A by done. apply IH. lia.
  - change (assignRanks_loop (S fuel) cycleAdjacency (cycleNodeMap a b) ["Task_B"])
      with (match relaxNeighbors "Task_B" ["Task_A"] (cycleNodeMap a b) [] with
            | Some (nm, q) => assignRanks_loop fuel cycleAdjacency nm q
            | None => Throws
            end).
    rewrite cycle_step_B by done. apply IH. lia.
Qed.

(** C2 (the code loops): on two tasks that send work to each other the
    queue never empties, whatever number of iterations is allowed. *)
Theorem assignRanks_diverges_on_cycle :
  let g := buildGraphFromElements cycleElements in
  forall fuel : nat,
    assignRanks fuel (Graph.nodeMap g) (Graph.adjacency g) = OutOfFuel.
Proof.
  intros g fuel. subst g. rewrite cycle_graph. unfold assignRanks.
  change (initialQueue _ _) with ["Task_A"].
  cbn [Graph.nodeMap Graph.adjacency].
  by apply cycle_loop_diverges.
Qed.

(** ** Rank assigner: ranks along edges *)

Section RankFacts.

Variable adjacency : JsMap.t string (list string).

Lemma rankOf_set_eq nodeMap id node :
  rankOf (JsMap.set nodeMap id node) id = LayoutNode.rank node.
Proof. unfold rankOf. by rewrite get_set_eq. Qed.

Lemma rankOf_set_ne nodeMap id id' node :
  id <> id' -> rankOf (JsMap.set nodeMap id node) id' = rankOf nodeMap id'.
Proof. intros. unfold rankOf. by rewrite get_set_ne. Qed.

(** What one run of the neighbour loop guarantees. *)
Lemma relaxNeighbors_spec currId neighbors :
  forall nodeMap queue nodeMap' queue',
    relaxNeighbors currId neighbors nodeMap queue = Some (nodeMap', queue') ->
    (forall u, (rankOf nodeMap u <= rankOf nodeMap' u)%nat)
    /\ (forall u, rankOf nodeMap u <> rankOf nodeMap' u -> u ∈ queue')
    /\ (forall u, u ∈ queue -> u ∈ queue')
    /\ (forall u, is_Some (JsMap.get nodeMap u) -> is_Some (JsMap.get nodeMap' u))
    /\ (neighbors <> [] -> is_Some (JsMap.get nodeMap currId))
    /\ (forall v, v ∈ neighbors -> (rankOf nodeMap currId < rankOf nodeMap' v)%nat).
Proof.
  induction neighbors as [| nextId neighbors IH]; intros nodeMap queue nodeMap' queue' Hrun.
  - simpl in Hrun. injection Hrun as <- <-.
    repeat split; try done. intros v Hv. by apply elem_of_nil in Hv.
  - simpl in Hrun.
    destruct (JsMap.get nodeMap nextId) as [nextNode |] eqn:Hnext; [| done].
    destruct (JsMap.get nodeMap currId) as [currNode |] eqn:Hcurr; [| done].
    assert (Hrn : rankOf nodeMap nextId = LayoutNode.rank nextNode)
      by (unfold rankOf; by rewrite Hnext).
    assert (Hrc : rankOf nodeMap currId = LayoutNode.rank currNode)
      by (unfold rankOf; by rewrite Hcurr).
    destruct (Nat.leb_spec (LayoutNode.rank nextNode) (LayoutNode.rank currNode))
      as [Hle | Hgt].
    + apply IH in Hrun as (M & C & Q & D & _ & L).
      set (nodeMap1 := JsMap.set nodeMap nextId
             (LayoutNode.setRank nextNode (LayoutNode.rank currNode + 1))) in *.
      assert (Hstep : forall u, (rankOf nodeMap u <= rankOf nodeMap1 u)%nat).
      { intros u. subst nodeMap1. destruct (decide (nextId = u)) as [<- | Hne].
        - rewrite rankOf_set_eq. simpl. lia.
        - by rewrite rankOf_set_ne. }
      assert (Hnew : rankOf nodeMap1 nextId = (LayoutNode.rank currNode + 1)%nat)
        by (subst nodeMap1; by rewrite rankOf_set_eq).
      split; [| split; [| split; [| split; [| split]]]].
      * intros u. specialize (M u). specialize (Hstep u). lia.
      * intros u Hu. destruct (decide (rankOf nodeMap1 u = rankOf nodeMap' u)) as [He | Hn].
        -- apply Q. destruct (decide (nextId = u)) as [<- | Hne].
           ++ apply elem_of_app. right. apply list_elem_of_here.
           ++ exfalso. apply Hu. rewrite <- He. subst nodeMap1.
              by rewrite rankOf_set_ne.
        -- by apply C.
      * intros u Hu. apply Q, elem_of_app. by left.
      * intros u Hu. apply D. by apply is_Some_get_set.
      * eauto.
      * intros v [-> | Hv]%elem_of_cons.
        -- specialize (M nextId). lia.
        -- specialize (L v Hv). specialize (Hstep currId). lia.
    + apply IH in Hrun as (M & C & Q & D & _ & L).
      split; [done |]. split; [done |]. split; [done |]. split; [done |].
      split; [eauto |].
      intros v [-> | Hv]%elem_of_cons.
      * specialize (M nextId). lia.
      * by apply L.
Qed.

Variable seeds : list string.

Lemma ranksInvariant_step currId queue nodeMap nodeMap' queue' :
  ranksInvariant adjacency seeds nodeMap (currId :: queue) ->
  relaxNeighbors currId (JsMap.get adjacency currId ?? []) nodeMap queue
    = Some (nodeMap', queue') ->
  ranksInvariant adjacency seeds nodeMap' queue'.
Proof.
  intros Hinv Hrun u Hu.
  apply relaxNeighbors_spec in Hrun as (M & C & Q & D & E & L).
  destruct (decide (rankOf nodeMap u = rankOf nodeMap' u)) as [He | Hn];
    [| left; by apply C].
  rewrite <- He in Hu.
  destruct (Hinv u Hu) as [[-> | Hq]%elem_of_cons | Hs].
  - right. intros v (neighbors & Hadj & Hv). rewrite Hadj in *. simpl in *.
    split.
    + apply D, E. intros ->. by apply elem_of_nil in Hv.
    + rewrite <- He. by apply L.
  - left. by apply Q.
  - right. intros v Hv. destruct (Hs v Hv) as [Hex Hlt]. split; [by apply D |].
    specialize (M v). lia.
Qed.

Lemma assignRanks_loop_invariant fuel :
  forall nodeMap queue nodeMap',
    ranksInvariant adjacency seeds nodeMap queue ->
    assignRanks_loop fuel adjacency nodeMap queue = Done nodeMap' ->
    ranksInvariant adjacency seeds nodeMap' [].
Proof.
  induction fuel as [| fuel IH]; intros nodeMap queue nodeMap' Hinv Hrun.
  - destruct queue; [| done]. by injection Hrun as <-.
  - destruct queue as [| currId queue]; [by injection Hrun as <- |].
    simpl in Hrun.
    destruct (relaxNeighbors _ _ _ _) as [[nodeMap1 queue1] |] eqn:Hrelax; [| done].
    eapply IH; [| exact Hrun]. eapply ranksInvariant_step; eauto.
Qed.

Lemma settled_of_reachable nodeMap u :
  ranksInvariant adjacency seeds nodeMap [] ->
  reachableFrom adjacency seeds u ->
  settled adjacency nodeMap u.
Proof.
  intros Hinv (s & Hs & Hpath).
  assert (Hmark : s ∈ seeds \/ (0 < rankOf nodeMap s)%nat) by (by left).
  clear Hs. induction Hpath as [s | s w u Hsw _ IH].
  - destruct (Hinv s Hmark) as [Hq | Hset]; [by apply elem_of_nil in Hq | done].
  - apply IH. right.
    destruct (Hinv s Hmark) as [Hq | Hset]; [by apply elem_of_nil in Hq |].
    destruct (Hset w Hsw). lia.
Qed.

End RankFacts.

(** C4, as the code has it: when the loop ends, every edge that leaves a
    node reached from the initial queue goes to a strictly greater rank. *)
Theorem assignRanks_monotone_on_reached
    (nodeMap : JsMap.t string LayoutNode.t) (adjacency : JsMap.t string (list string))
    (fuel : nat) (nodeMap' : JsMap.t string LayoutNode.t) (u v : string) :
  (forall id, rankOf nodeMap id = 0%nat) ->
  assignRanks fuel nodeMap adjacency = Done nodeMap' ->
  reachableFrom adjacency (initialQueue nodeMap adjacency) u ->
  edge adjacency u v ->
  exists nodeU nodeV,
    JsMap.get nodeMap' u = Some nodeU /\ JsMap.get nodeMap' v = Some nodeV
    /\ (LayoutNode.rank nodeU < LayoutNode.rank nodeV)%nat.
Proof.
  intros Hzero Hrun Hreach Huv.
  assert (Hinv : ranksInvariant adjacency (initialQueue nodeMap adjacency) nodeMap' []).
  { eapply assignRanks_loop_invariant; [| exact Hrun].
    intros w [Hw | Hw]; [by left | rewrite Hzero in Hw; lia]. }
  destruct (settled_of_reachable _ _ _ _ Hinv Hreach v Huv) as [[nodeU HU] Hlt].
  unfold rankOf in Hlt. rewrite HU in Hlt.
  destruct (JsMap.get nodeMap' v) as [nodeV |] eqn:HV; [| lia].
  by exists nodeU, nodeV.
Qed.

(** Graphs built by [buildGraphFromElements] start with all ranks at 0. *)
Lemma buildGraph_addEdges_nodeMap (el : FlowElement.t) (targets : list string) (g : Graph.t) :
  Graph.nodeMap (fold_left (buildGraph_addEdge el) targets g) = Graph.nodeMap g.
Proof.
  revert g. induction targets as [| t targets IH]; intros g; simpl; [done |].
  rewrite IH. unfold buildGraph_addEdge. by destruct (JsMap.has _ _).
Qed.

Lemma buildGraph_ranks_zero (elements : list FlowElement.t) (id : string) :
  rankOf (Graph.nodeMap (buildGraphFromElements elements)) id = 0%nat.
Proof.
  unfold buildGraphFromElements.
  set (g0 := Graph.mk JsMap.empty JsMap.empty JsMap.empty).
  assert (H0 : rankOf (Graph.nodeMap g0) id = 0%nat) by done.
  generalize dependent g0. intros g0 H0.
  assert (H1 : rankOf (Graph.nodeMap (fold_left buildGraph_addNode elements g0)) id = 0%nat).
  { revert g0 H0. induction elements as [| el elements IH]; intros g0 H0; simpl; [done |].
    apply IH. simpl. destruct (decide (FlowElement.id el = id)) as [<- | Hne].
    - by rewrite rankOf_set_eq.
    - by rewrite rankOf_set_ne. }
  generalize dependent (fold_left buildGraph_addNode elements g0). intros g1 H1.
  generalize elements at 1. intros els. revert g1 H1.
  induction els as [| el els IH]; intros g1 H1; simpl; [done |].
  apply IH. by rewrite buildGraph_addEdges_nodeMap.
Qed.

Lemma assignRanks_monotone_on_reached_witness :
  let g := buildGraphFromElements chainElements in
  exists nodeMap' nodeU nodeV,
    assignRanks 3 (Graph.nodeMap g) (Graph.adjacency g) = Done nodeMap'
    /\ JsMap.get nodeMap' "Task_A" = Some nodeU
    /\ JsMap.get nodeMap' "Task_B" = Some nodeV
    /\ (LayoutNode.rank nodeU < LayoutNode.rank nodeV)%nat.
Proof.
  intros g.
  destruct (assignRanks 3 (Graph.nodeMap g) (Graph.adjacency g)) as [nodeMap' | | |] eqn:Hrun;
    [| discriminate Hrun | discriminate Hrun | discriminate Hrun].
  exists nodeMap'.
  destruct (assignRanks_monotone_on_reached (Graph.nodeMap g) (Graph.adjacency g) 3
              nodeMap' "Task_A" "Task_B") as (nodeU & nodeV & HU & HV & Hlt).
  - apply buildGraph_ranks_zero.
  - exact Hrun.
  - exists "Start_1". split; [apply list_elem_of_here |].
    eapply rtc_l; [| apply rtc_refl].
    exists ["Task_A"]. split; [reflexivity | apply list_elem_of_here].
  - exists ["Task_B"]. split; [reflexivity | apply list_elem_of_here].
  - exists nodeU, nodeV. done.
Defined.

(** C4, as stated, fails: the end event is registered first and becomes the
    only queue entry, so the task feeding it is never visited and both keep
    rank 0, although no path leads from the end event back to the task. *)
Lemma assignRanks_not_monotone_off_cycle :
  ~ (forall (elements : list FlowElement.t) (fuel : nat)
            (nodeMap' : JsMap.t string LayoutNode.t) (u v : string),
       let g := buildGraphFromElements elements in
       assignRanks fuel (Graph.nodeMap g) (Graph.adjacency g) = Done nodeMap' ->
       edge (Graph.adjacency g) u v ->
       ~ rtc (edge (Graph.adjacency g)) v u ->
       (rankOf nodeMap' u < rankOf nodeMap' v)%nat).
Proof.
  intros H.
  specialize (H strandedElements 1%nat
                (Graph.nodeMap (buildGraphFromElements strandedElements))
                "Task_A" "End_1").
  simpl in H.
  assert (Hlt : (0 < 0)%nat); [| lia].
  apply H.
  - reflexivity.
  - exists ["Task_B"; "End_1"]. split; [reflexivity |].
    apply list_elem_of_further, list_elem_of_here.
  - intros Hpath. inversion Hpath as [| ? w ? (neighbors & Hadj & Hw) _]; subst.
    vm_compute in Hadj. injection Hadj as <-. by apply elem_of_nil in Hw.
Qed.

(** ** Rank assigner: termination without cycles *)

Section Termination.

Variable adjacency : JsMap.t string (list string).
Variable depth : string -> nat.
Hypothesis depth_increasing : increasingAlongEdges adjacency depth.

Lemma slack_after_raise (nodeMap : JsMap.t string LayoutNode.t) (id : string)
    (node : LayoutNode.t) (rank : nat) :
  JsMap.get nodeMap id = Some node ->
  (LayoutNode.rank node <= rank)%nat -> (rank <= depth id)%nat ->
  (sum_list (map (fun kn => depth (fst kn) - LayoutNode.rank (snd kn))
               (JsMap.set nodeMap id (LayoutNode.setRank node rank)))
   + (rank - LayoutNode.rank node)
   = sum_list (map (fun kn => depth (fst kn) - LayoutNode.rank (snd kn)) nodeMap))%nat.
Proof.
  intros Hget Hle Hd.
  induction nodeMap as [| [k n] nodeMap IH]; simpl in *; [done |].
  destruct (decide (id = k)) as [-> | Hne]; simpl.
  - simplify_eq. lia.
  - specialize (IH Hget). lia.
Qed.

Lemma relaxNeighbors_potential (currId : string) (neighbors : list string) :
  (forall v, v ∈ neighbors -> (depth currId < depth v)%nat) ->
  forall nodeMap queue nodeMap' queue',
    ranksWithin depth nodeMap ->
    relaxNeighbors currId neighbors nodeMap queue = Some (nodeMap', queue') ->
    ranksWithin depth nodeMap'
    /\ (ranksPotential depth nodeMap' queue' <= ranksPotential depth nodeMap queue)%nat.
Proof.
  induction neighbors as [| nextId neighbors IH];
    intros Hdepth nodeMap queue nodeMap' queue' Hwithin Hrun; simpl in Hrun.
  - by simplify_eq.
  - destruct (JsMap.get nodeMap nextId) as [nextNode |] eqn:Hnext; [| done].
    destruct (JsMap.get nodeMap currId) as [currNode |] eqn:Hcurr; [| done].
    assert (Hrest : forall v, v ∈ neighbors -> (depth currId < depth v)%nat)
      by (intros v Hv; apply Hdepth; by apply list_elem_of_further).
    destruct (Nat.leb_spec (LayoutNode.rank nextNode) (LayoutNode.rank currNode))
      as [Hle | Hgt]; [| by apply (IH Hrest nodeMap queue)].
    pose proof (Hwithin _ _ (get_Some_elem _ _ _ Hcurr)) as Hc.
    pose proof (Hdepth nextId (list_elem_of_here _ _)) as Hn.
    apply IH in Hrun as [Hw Hp]; [| done |].
    + split; [done |].
      pose proof (slack_after_raise nodeMap nextId nextNode
                    (LayoutNode.rank currNode + 1) Hnext ltac:(lia) ltac:(lia)) as Hs.
      unfold ranksPotential in *. rewrite length_app in Hp. simpl in Hp. lia.
    + intros k n [Hold | [-> ->]]%set_elem; [by apply Hwithin | simpl; lia].
Qed.

(** Without cycles the loop ends within [ranksPotential] iterations. *)
Lemma assignRanks_loop_terminates (fuel : nat) :
  forall nodeMap queue,
    ranksWithin depth nodeMap ->
    (ranksPotential depth nodeMap queue <= fuel)%nat ->
    assignRanks_loop fuel adjacency nodeMap queue <> OutOfFuel.
Proof.
  induction fuel as [| fuel IH]; intros nodeMap queue Hwithin Hfuel.
  - destruct queue; [done |]. unfold ranksPotential in Hfuel. simpl in Hfuel. lia.
  - destruct queue as [| currId queue]; [done |]. simpl.
    destruct (relaxNeighbors _ _ _ _) as [[nodeMap' queue'] |] eqn:Hrelax; [| done].
    apply relaxNeighbors_potential in Hrelax as [Hw Hp]; [| | done].
    + apply IH; [done |]. unfold ranksPotential in *. simpl in Hfuel. lia.
    + intros v Hv. apply depth_increasing.
      destruct (JsMap.get adjacency currId) as [neighbors |] eqn:Hadj;
        [| by apply elem_of_nil in Hv].
      by exists neighbors.
Qed.

End Termination.

(** On a graph without cycles, whose ranks start at 0, [assignRanks] ends
    within a number of iterations bounded by the initial queue and the sum
    of the nodes' depths. *)
Lemma assignRanks_terminates_without_cycles
    (nodeMap : JsMap.t string LayoutNode.t) (adjacency : JsMap.t string (list string))
    (depth : string -> nat) :
  increasingAlongEdges adjacency depth ->
  (forall k node, (k, node) ∈ nodeMap -> LayoutNode.rank node = 0%nat) ->
  assignRanks (ranksPotential depth nodeMap (initialQueue nodeMap adjacency))
    nodeMap adjacency <> OutOfFuel.
Proof.
  intros Hdepth Hzero. unfold assignRanks.
  apply (assignRanks_loop_terminates adjacency depth Hdepth); [| done].
  intros k node Hk. rewrite (Hzero _ _ Hk). lia.
Qed.

(** ** Rank assigner: normal completion *)

Section Completion.

Variable adjacency : JsMap.t string (list string).

Lemma relaxNeighbors_closed (currId : string) (neighbors : list string) :
  forall nodeMap queue,
    graphClosed adjacency nodeMap queue ->
    is_Some (JsMap.get nodeMap currId) ->
    (forall v, v ∈ neighbors -> is_Some (JsMap.get nodeMap v)) ->
    exists nodeMap' queue',
      relaxNeighbors currId neighbors nodeMap queue = Some (nodeMap', queue')
      /\ graphClosed adjacency nodeMap' queue'.
Proof.
  induction neighbors as [| nextId neighbors IH]; intros nodeMap queue Hclosed Hcurr Hn.
  - by exists nodeMap, queue.
  - simpl.
    destruct (Hn nextId (list_elem_of_here _ _)) as [nextNode Hnext]. rewrite Hnext.
    destruct Hcurr as [currNode Hcurr]. rewrite Hcurr.
    assert (Hrest : forall v, v ∈ neighbors -> is_Some (JsMap.get nodeMap v))
      by (intros v Hv; apply Hn; by apply list_elem_of_further).
    destruct (LayoutNode.rank nextNode <=? LayoutNode.rank currNode)%nat.
    + apply IH.
      * destruct Hclosed as [He Hq]. split.
        -- intros u v Huv. by apply is_Some_get_set, (He u).
        -- intros u [Hu | ->%list_elem_of_singleton]%elem_of_app;
             apply is_Some_get_set; eauto.
      * apply is_Some_get_set. eauto.
      * intros v Hv. by apply is_Some_get_set, Hrest.
    + apply IH; eauto.
Qed.

Lemma assignRanks_loop_no_throw (fuel : nat) :
  forall nodeMap queue,
    graphClosed adjacency nodeMap queue ->
    assignRanks_loop fuel adjacency nodeMap queue <> Throws.
Proof.
  induction fuel as [| fuel IH]; intros nodeMap queue Hclosed.
  - by destruct queue.
  - destruct queue as [| currId queue]; [done |]. simpl.
    destruct (relaxNeighbors_closed currId (JsMap.get adjacency currId ?? [])
                nodeMap queue) as (nodeMap' & queue' & -> & Hclosed').
    + destruct Hclosed as [He Hq]. split; [done |].
      intros u Hu. by apply Hq, list_elem_of_further.
    + apply Hclosed, list_elem_of_here.
    + intros v Hv. destruct Hclosed as [He _].
      destruct (JsMap.get adjacency currId) as [neighbors |] eqn:Hadj;
        [| by apply elem_of_nil in Hv].
      apply (He currId). by exists neighbors.
    + by apply IH.
Qed.

End Completion.

(** *** Graphs built from elements *)

Lemma initialQueue_nodes (nodeMap : JsMap.t string LayoutNode.t)
    (adjacency : JsMap.t string (list string)) (u : string) :
  keyedById nodeMap ->
  u ∈ initialQueue nodeMap adjacency -> is_Some (JsMap.get nodeMap u).
Proof.
  intros Hkeyed. unfold initialQueue, JsMap.forEach.
  set (inDegree := rankInDegree nodeMap adjacency). clearbody inDegree.
  assert (Hq : forall (todo : JsMap.t string LayoutNode.t) (q : list string),
             (forall k n, (k, n) ∈ todo -> (k, n) ∈ nodeMap) ->
             (forall v, v ∈ q -> is_Some (JsMap.get nodeMap v)) ->
             forall v,
               v ∈ fold_left
                     (fun q kv =>
                        match JsMap.get inDegree (LayoutNode.id (snd kv)) with
                        | Some 0%Z => q ++ [LayoutNode.id (snd kv)]
                        | _ => q
                        end) todo q ->
               is_Some (JsMap.get nodeMap v)).
  { induction todo as [| [k n] todo IH]; intros q Hsub Hqs v Hv; [by apply Hqs |].
    cbn [fold_left] in Hv. eapply IH; [| | exact Hv].
    - intros k' n' H. by apply Hsub, list_elem_of_further.
    - intros w Hw. cbn [snd] in Hw.
      assert (Hn : is_Some (JsMap.get nodeMap (LayoutNode.id n))).
      { pose proof (Hsub k n (list_elem_of_here _ _)) as Hin.
        rewrite (Hkeyed _ _ Hin). by eapply elem_get_is_Some. }
      destruct (JsMap.get inDegree (LayoutNode.id n)) as [[| ? | ?] |];
        try by apply Hqs.
      apply elem_of_app in Hw as [Hw | ->%list_elem_of_singleton]; [by apply Hqs | done]. }
  specialize (Hq nodeMap [] ltac:(done) ltac:(by intros ? ?%elem_of_nil)).
  destruct (fold_left _ nodeMap []) as [| q0 queue] eqn:Hfold.
  - destruct nodeMap as [| [k n] nodeMap]; [by intros ?%elem_of_nil |].
    cbn [JsMap.keys map fst]. intros ->%list_elem_of_singleton.
    simpl. by rewrite decide_True.
  - intros Hu. by apply Hq.
Qed.

Lemma assignRanks_loop_typed (adjacency : JsMap.t string (list string)) (fuel : nat) :
  forall nodeMap queue, assignRanks_loop fuel adjacency nodeMap queue <> IllTyped.
Proof.
  induction fuel as [| fuel IH]; intros nodeMap queue; [by destruct queue |].
  destruct queue as [| currId queue]; [done |]. simpl.
  destruct (relaxNeighbors _ _ _ _) as [[nodeMap' queue'] |]; [apply IH | done].
Qed.

(** The three facts about a graph under construction: nodes are stored
    under their identifier with rank 0, and listed successors are nodes. *)
Lemma buildGraph_nodes (elements : list FlowElement.t) :
  forall g,
    (forall k node, (k, node) ∈ Graph.nodeMap g ->
       LayoutNode.id node = k /\ LayoutNode.rank node = 0%nat) ->
    (forall u neighbors, JsMap.get (Graph.adjacency g) u = Some neighbors ->
       neighbors = []) ->
    let g' := fold_left buildGraph_addNode elements g in
    (forall k node, (k, node) ∈ Graph.nodeMap g' ->
       LayoutNode.id node = k /\ LayoutNode.rank node = 0%nat)
    /\ (forall u neighbors, JsMap.get (Graph.adjacency g') u = Some neighbors ->
          neighbors = []).
Proof.
  induction elements as [| el elements IH]; intros g Hn Ha; [done |].
  cbn [fold_left]. apply IH.
  - intros k node [Hold | [-> ->]]%set_elem; [by apply Hn | done].
  - intros u neighbors. cbn [buildGraph_addNode Graph.adjacency].
    destruct (decide (FlowElement.id el = u)) as [<- | Hne].
    + rewrite get_set_eq. congruence.
    + rewrite get_set_ne by done. apply Ha.
Qed.

Lemma buildGraph_addEdge_closed (el : FlowElement.t) (targetId : string) (g : Graph.t) :
  (forall u v, edge (Graph.adjacency g) u v -> is_Some (JsMap.get (Graph.nodeMap g) v)) ->
  let g' := buildGraph_addEdge el g targetId in
  Graph.nodeMap g' = Graph.nodeMap g
  /\ (forall u v, edge (Graph.adjacency g') u v ->
        is_Some (JsMap.get (Graph.nodeMap g') v)).
Proof.
  intros Hclosed. unfold buildGraph_addEdge, JsMap.has.
  destruct (JsMap.get (Graph.nodeMap g) targetId) as [targetNode |] eqn:Ht; [| done].
  split; [done |]. cbn [Graph.nodeMap Graph.adjacency].
  intros u v (neighbors & Hadj & Hv). unfold pushNeighbor in Hadj.
  destruct (JsMap.get (Graph.adjacency g) (FlowElement.id el)) as [old |] eqn:Hold;
    [| apply (Hclosed u); by exists neighbors].
  destruct (decide (FlowElement.id el = u)) as [<- | Hne].
  - rewrite get_set_eq in Hadj. simplify_eq.
    apply elem_of_app in Hv as [Hv | ->%list_elem_of_singleton]; [| by rewrite Ht].
    apply (Hclosed (FlowElement.id el)). by exists old.
  - rewrite get_set_ne in Hadj by done. apply (Hclosed u). by exists neighbors.
Qed.

Lemma buildGraph_addEdges_closed (el : FlowElement.t) (targets : list string) :
  forall g,
    (forall u v, edge (Graph.adjacency g) u v ->
       is_Some (JsMap.get (Graph.nodeMap g) v)) ->
    let g' := fold_left (buildGraph_addEdge el) targets g in
    Graph.nodeMap g' = Graph.nodeMap g
    /\ (forall u v, edge (Graph.adjacency g') u v ->
          is_Some (JsMap.get (Graph.nodeMap g') v)).
Proof.
  induction targets as [| t targets IH]; intros g Hclosed; [done |].
  cbn [fold_left].
  destruct (buildGraph_addEdge_closed el t g Hclosed) as [Hsame Hc].
  destruct (IH _ Hc) as [Hsame' Hc']. split; [congruence | done].
Qed.

Lemma buildGraph_closed (elements : list FlowElement.t) :
  let g := buildGraphFromElements elements in
  (forall k node, (k, node) ∈ Graph.nodeMap g ->
     LayoutNode.id node = k /\ LayoutNode.rank node = 0%nat)
  /\ (forall u v, edge (Graph.adjacency g) u v ->
        is_Some (JsMap.get (Graph.nodeMap g) v)).
Proof.
  unfold buildGraphFromElements. cbv zeta.
  destruct (buildGraph_nodes elements (Graph.mk JsMap.empty JsMap.empty JsMap.empty))
    as [Hn Ha]; [by intros ? ? ?%elem_of_nil | done |]. cbv zeta in Hn, Ha.
  set (g1 := fold_left buildGraph_addNode elements _) in *. clearbody g1.
  assert (Hc : forall u v, edge (Graph.adjacency g1) u v ->
                 is_Some (JsMap.get (Graph.nodeMap g1) v)).
  { intros u v (neighbors & Hadj & Hv). rewrite (Ha _ _ Hadj) in Hv.
    by apply elem_of_nil in Hv. }
  clear Ha. revert g1 Hn Hc.
  induction elements as [| el els IH]; intros g1 Hn Hc; [by split |].
  cbn [fold_left].
  destruct (buildGraph_addEdges_closed el (FlowElement.outgoing el ?? []) g1 Hc)
    as [Hsame Hc'].
  apply IH; [by rewrite Hsame | done].
Qed.

(** On the graph of a diagram without cycles, [assignRanks] completes
    normally within the iterations that the depths allow. *)
Lemma assignRanks_completes_without_cycles (elements : list FlowElement.t)
    (depth : string -> nat) :
  let g := buildGraphFromElements elements in
  increasingAlongEdges (Graph.adjacency g) depth ->
  exists nodeMap',
    assignRanks
      (ranksPotential depth (Graph.nodeMap g)
         (initialQueue (Graph.nodeMap g) (Graph.adjacency g)))
      (Graph.nodeMap g) (Graph.adjacency g) = Done nodeMap'.
Proof.
  intros g Hdepth. destruct (buildGraph_closed elements) as [Hnodes Hclosed].
  fold g in Hnodes, Hclosed.
  pose proof (assignRanks_terminates_without_cycles (Graph.nodeMap g) (Graph.adjacency g)
                depth Hdepth (fun k n H => proj2 (Hnodes k n H))) as Hfuel.
  assert (Hthrow : assignRanks
                     (ranksPotential depth (Graph.nodeMap g)
                        (initialQueue (Graph.nodeMap g) (Graph.adjacency g)))
                     (Graph.nodeMap g) (Graph.adjacency g) <> Throws).
  { apply assignRanks_loop_no_throw. split; [done |].
    intros u Hu. eapply initialQueue_nodes; [| exact Hu].
    intros k n H. apply (Hnodes k n H). }
  pose proof (assignRanks_loop_typed (Graph.adjacency g)
                (ranksPotential depth (Graph.nodeMap g)
                   (initialQueue (Graph.nodeMap g) (Graph.adjacency g)))
                (Graph.nodeMap g) (initialQueue (Graph.nodeMap g) (Graph.adjacency g)))
    as Htyped.
  unfold assignRanks in *.
  destruct (assignRanks_loop _ _ _ _) as [nodeMap' | | |]; [eauto | done | done | done].
Qed.

(** ** Lane geometry *)

Lemma running_max_ge (f : nat -> Q) (l : list nat) :
  forall m0 : Q,
    let m := fold_left (fun m i => if Num.gtb (f i) m then f i else m) l m0 in
    m0 <= m /\ forall i, i ∈ l -> f i <= m.
Proof.
  induction l as [| a l IH]; intros m0; cbn [fold_left].
  - split; [apply Qle_refl | by intros i ?%elem_of_nil].
  - set (m1 := if Num.gtb (f a) m0 then f a else m0).
    assert (H1 : m0 <= m1 /\ f a <= m1).
    { subst m1. destruct (Num.gtb (f a) m0) eqn:E.
      - apply gtb_gt in E. split; [by apply Qlt_le_weak | apply Qle_refl].
      - apply gtb_le in E. split; [apply Qle_refl | done]. }
    destruct (IH m1) as [Hm Hl]. destruct H1 as [H0 Ha]. split.
    + by eapply Qle_trans.
    + intros i [-> | Hi]%elem_of_cons; [by eapply Qle_trans | by apply Hl].
Qed.

Lemma maxStackHeight_ge (constants : LayoutConstants.t) (meta : LaneMeta.t)
    (maxGlobalRank r : nat) :
  (r <= maxGlobalRank)%nat ->
  stackHeight constants (JsMap.get (LaneMeta.nodesByRank meta) r ?? [])
  <= maxStackHeight constants meta maxGlobalRank.
Proof.
  intros Hr. unfold maxStackHeight, forRange.
  apply (running_max_ge
           (fun r => stackHeight constants (JsMap.get (LaneMeta.nodesByRank meta) r ?? []))).
  apply elem_of_seq. lia.
Qed.

Lemma get_computeLaneHeights (laneData : JsMap.t string LaneMeta.t) (maxGlobalRank : nat)
    (constants : LayoutConstants.t) (laneId : string) :
  JsMap.get (computeLaneHeights laneData maxGlobalRank constants) laneId
  = computeLaneHeight constants maxGlobalRank <$> JsMap.get laneData laneId.
Proof.
  induction laneData as [| [k meta] laneData IH]; simpl; [done |].
  by destruct (decide (laneId = k)).
Qed.

Lemma computeLaneHeight_bounds (constants : LayoutConstants.t) (maxGlobalRank : nat)
    (meta : LaneMeta.t) :
  let meta' := computeLaneHeight constants maxGlobalRank meta in
  LaneMeta.nodesByRank meta' = LaneMeta.nodesByRank meta
  /\ LaneMeta.element meta' = LaneMeta.element meta
  /\ Element.height (LaneMeta.element meta) ?? 0 <= LaneMeta.height meta'
  /\ forall r, (r <= maxGlobalRank)%nat ->
       stackHeight constants (JsMap.get (LaneMeta.nodesByRank meta) r ?? [])
       + 2 * LayoutConstants.lanePadding constants <= LaneMeta.height meta'.
Proof.
  simpl. split; [done |]. split; [done |]. split; [apply Q.le_max_l |].
  intros r Hr. eapply Qle_trans; [| apply Q.le_max_r].
  pose proof (maxStackHeight_ge constants meta maxGlobalRank r Hr). lra.
Qed.

Section LaneDataFacts.

Lemma buildLaneData_addNode_inv (node : LayoutNode.t)
    (laneData : JsMap.t string LaneMeta.t) (maxGlobalRank : nat) :
  heightsFromElements laneData -> ranksBounded laneData maxGlobalRank ->
  let st := buildLaneData_addNode node (laneData, maxGlobalRank) in
  heightsFromElements (fst st) /\ ranksBounded (fst st) (snd st).
Proof.
  intros Hh Hr. unfold buildLaneData_addNode.
  set (mgr := if (maxGlobalRank <? LayoutNode.rank node)%nat
              then LayoutNode.rank node else maxGlobalRank).
  assert (Hmgr : (maxGlobalRank <= mgr /\ LayoutNode.rank node <= mgr)%nat).
  { subst mgr. destruct (Nat.ltb_spec maxGlobalRank (LayoutNode.rank node)); lia. }
  destruct (JsMap.get laneData (LayoutNode.laneId node)) as [meta |] eqn:Hmeta; simpl.
  - split.
    + intros k m Hk. destruct (decide (LayoutNode.laneId node = k)) as [<- | Hne].
      * rewrite get_set_eq in Hk. injection Hk as <-. simpl. by apply (Hh _ _ Hmeta).
      * rewrite get_set_ne in Hk by done. by apply (Hh k).
    + intros k m r nodes Hk Hn.
      destruct (decide (LayoutNode.laneId node = k)) as [<- | Hne].
      * rewrite get_set_eq in Hk. injection Hk as <-. simpl in Hn.
        destruct (decide (LayoutNode.rank node = r)) as [<- | Hner]; [lia |].
        rewrite get_set_ne in Hn by done.
        destruct (JsMap.has _ _).
        -- specialize (Hr _ _ _ _ Hmeta Hn). lia.
        -- rewrite get_set_ne in Hn by done. specialize (Hr _ _ _ _ Hmeta Hn). lia.
      * rewrite get_set_ne in Hk by done. specialize (Hr _ _ _ _ Hk Hn). lia.
  - split; [done |]. intros k m r nodes Hk Hn. specialize (Hr _ _ _ _ Hk Hn). lia.
Qed.

Lemma buildLaneData_inv (lanes : list LaneInput.t) (nodeMap : JsMap.t string LayoutNode.t) :
  (forall lane, lane ∈ lanes ->
     LaneInput.height lane = Element.height (LaneInput.element lane) ?? 0) ->
  heightsFromElements (fst (buildLaneData lanes nodeMap))
  /\ ranksBounded (fst (buildLaneData lanes nodeMap)) (snd (buildLaneData lanes nodeMap)).
Proof.
  intros Hlanes. unfold buildLaneData, JsMap.forEach.
  set (laneData0 := fold_left _ lanes JsMap.empty).
  assert (H0 : heightsFromElements laneData0 /\ ranksBounded laneData0 0).
  { subst laneData0.
    assert (He : heightsFromElements (JsMap.empty : JsMap.t string LaneMeta.t)
                 /\ ranksBounded (JsMap.empty : JsMap.t string LaneMeta.t) 0)
      by (split; intros ?; intros; done).
    revert He. generalize (JsMap.empty : JsMap.t string LaneMeta.t).
    induction lanes as [| lane lanes IH]; intros laneData [Hh Hr]; [done |].
    cbn [fold_left]. apply IH.
    - intros l Hl. apply Hlanes. by apply list_elem_of_further.
    - split.
      + intros k m Hk. destruct (decide (LaneInput.id lane = k)) as [<- | Hne].
        * rewrite get_set_eq in Hk. injection Hk as <-. simpl.
          apply Hlanes, list_elem_of_here.
        * rewrite get_set_ne in Hk by done. by apply (Hh k).
      + intros k m r nodes Hk Hn.
        destruct (decide (LaneInput.id lane = k)) as [<- | Hne].
        * rewrite get_set_eq in Hk. injection Hk as <-. done.
        * rewrite get_set_ne in Hk by done. by apply (Hr k m r nodes). }
  clearbody laneData0. revert H0. generalize 0%nat. revert laneData0.
  induction nodeMap as [| [id node] nodeMap IH]; intros laneData mgr [Hh Hr]; [done |].
  cbn [fold_left fst snd].
  pose proof (buildLaneData_addNode_inv node laneData mgr Hh Hr) as Hstep.
  destruct (buildLaneData_addNode node (laneData, mgr)) as [laneData1 mgr1].
  by apply IH.
Qed.

End LaneDataFacts.

(** C8: after [computeLaneHeights] every lane is at least as high as it
    was, and at least as high as any of its rank stacks plus twice the lane
    padding. *)
Theorem computeLaneHeights_lower_bound :
  (forall (laneData : JsMap.t string LaneMeta.t) (maxGlobalRank : nat)
          (constants : LayoutConstants.t) (laneId : string) (meta : LaneMeta.t),
      JsMap.get laneData laneId = Some meta ->
      exists meta',
        JsMap.get (computeLaneHeights laneData maxGlobalRank constants) laneId = Some meta'
        /\ LaneMeta.nodesByRank meta' = LaneMeta.nodesByRank meta
        /\ Element.height (LaneMeta.element meta) ?? 0 <= LaneMeta.height meta'
        /\ forall r, (r <= maxGlobalRank)%nat ->
             stackHeight constants (JsMap.get (LaneMeta.nodesByRank meta) r ?? [])
             + 2 * LayoutConstants.lanePadding constants <= LaneMeta.height meta')
  /\ (forall (lanes : list Element.t) (nodeMap : JsMap.t string LayoutNode.t)
             (constants : LayoutConstants.t)
             (laneData : JsMap.t string LaneMeta.t) (maxGlobalRank : nat)
             (laneId : string) (meta : LaneMeta.t),
        buildLaneData (map laneInputOf lanes) nodeMap = (laneData, maxGlobalRank) ->
        JsMap.get laneData laneId = Some meta ->
        exists meta',
          JsMap.get (computeLaneHeights laneData maxGlobalRank constants) laneId = Some meta'
          /\ LaneMeta.height meta <= LaneMeta.height meta'
          /\ forall r nodes,
               JsMap.get (LaneMeta.nodesByRank meta') r = Some nodes ->
               stackHeight constants nodes
               + 2 * LayoutConstants.lanePadding constants <= LaneMeta.height meta').
Proof.
  split.
  - intros laneData maxGlobalRank constants laneId meta Hmeta.
    exists (computeLaneHeight constants maxGlobalRank meta).
    rewrite get_computeLaneHeights, Hmeta.
    destruct (computeLaneHeight_bounds constants maxGlobalRank meta) as (Hn & _ & Ho & Hs).
    done.
  - intros lanes nodeMap constants laneData maxGlobalRank laneId meta Hbuild Hmeta.
    destruct (buildLaneData_inv (map laneInputOf lanes) nodeMap) as [Hh Hr].
    { intros lane (l & -> & _)%list_elem_of_fmap. done. }
    rewrite Hbuild in Hh, Hr. simpl in Hh, Hr.
    exists (computeLaneHeight constants maxGlobalRank meta).
    rewrite get_computeLaneHeights, Hmeta.
    destruct (computeLaneHeight_bounds constants maxGlobalRank meta) as (Hn & _ & Ho & Hs).
    split; [done |]. split.
    + rewrite (Hh _ _ Hmeta). exact Ho.
    + intros r nodes Hnodes. rewrite Hn in Hnodes.
      specialize (Hs r (Hr _ _ _ _ Hmeta Hnodes)). by rewrite Hnodes in Hs.
Qed.

Lemma computeLaneHeights_lower_bound_witness :
  let lane := sampleShape "Lane_1" "bpmn:Lane" (Some "Participant_1") 30 0 600 120 None in
  let nodeMap := Graph.nodeMap (buildGraphFromElements chainElements) in
  exists laneData maxGlobalRank meta meta',
    buildLaneData (map laneInputOf [lane]) nodeMap = (laneData, maxGlobalRank)
    /\ JsMap.get laneData "Lane_1" = Some meta
    /\ LaneMeta.height meta == 120
    /\ JsMap.get (computeLaneHeights laneData maxGlobalRank DEFAULT_LAYOUT_CONSTANTS)
         "Lane_1" = Some meta'
    /\ LaneMeta.height meta <= LaneMeta.height meta'
    /\ (forall r nodes,
          JsMap.get (LaneMeta.nodesByRank meta') r = Some nodes ->
          stackHeight DEFAULT_LAYOUT_CONSTANTS nodes
          + 2 * LayoutConstants.lanePadding DEFAULT_LAYOUT_CONSTANTS
          <= LaneMeta.height meta').
Proof.
  intros lane nodeMap.
  destruct (buildLaneData (map laneInputOf [lane]) nodeMap) as [laneData maxGlobalRank] eqn:Hb.
  destruct (JsMap.get laneData "Lane_1") as [meta |] eqn:Hm.
  2: { vm_compute in Hb. injection Hb as <- <-. discriminate Hm. }
  destruct (proj2 computeLaneHeights_lower_bound [lane] nodeMap DEFAULT_LAYOUT_CONSTANTS
              laneData maxGlobalRank "Lane_1" meta Hb Hm) as (meta' & Hg & Hh & Hs).
  exists laneData, maxGlobalRank, meta, meta'.
  split; [reflexivity |]. split; [exact Hm |]. split.
  - vm_compute in Hb. injection Hb as <- <-. injection Hm as <-. reflexivity.
  - split; [exact Hg |]. split; [exact Hh | exact Hs].
Defined.

(** ** Layout orchestrator *)

(** C9: without lanes, or without eligible flow elements, [autoLayout]
    returns at once, for any iteration bound: no command is issued and the
    registry is as it was. *)
Theorem autoLayout_noop
    (host : Command -> list Element.t -> list Element.t)
    (fuel : nat) (context : Context.t) (constants : LayoutConstants.t) :
  getLanes (Context.elementRegistry context) = []
  \/ getFlowElements (Context.elementRegistry context) = [] ->
  autoLayout host fuel context constants
  = Done (World.mk (Context.elementRegistry context) [])
  /\ forall w, autoLayout host fuel context constants = Done w ->
       World.issued w = [].
Proof.
  intros H.
  assert (E : autoLayout host fuel context constants
              = Done (World.mk (Context.elementRegistry context) [])).
  { unfold autoLayout. destruct H as [-> | ->]; simpl; [done |].
    by rewrite orb_true_r. }
  split; [exact E |]. intros w Hw. rewrite E in Hw. by injection Hw as <-.
Qed.

Lemma autoLayout_noop_witness :
  (getLanes (Context.elementRegistry laneless) = []
   /\ autoLayout sampleHost 0 laneless DEFAULT_LAYOUT_CONSTANTS
      = Done (World.mk (Context.elementRegistry laneless) []))
  /\ (getFlowElements (Context.elementRegistry emptyLane) = []
      /\ autoLayout sampleHost 0 emptyLane DEFAULT_LAYOUT_CONSTANTS
         = Done (World.mk (Context.elementRegistry emptyLane) [])).
Proof.
  split; (split; [reflexivity |]).
  - apply (autoLayout_noop sampleHost 0 laneless DEFAULT_LAYOUT_CONSTANTS).
    left. reflexivity.
  - apply (autoLayout_noop sampleHost 0 emptyLane DEFAULT_LAYOUT_CONSTANTS).
    right. reflexivity.
Defined.

(** ** Sample runs *)

Example checkIntervalOverlap_samples :
  checkIntervalOverlap 0 10 10 20 = false
  /\ checkIntervalOverlap 0 10 8 20 = false
  /\ checkIntervalOverlap 0 10 7 20 = true.
Proof. repeat split. Qed.

Example extractSegments_sample :
  map Segment.orientation
    (extractSegments "Flow_1"
       [Point.mk 100 40; Point.mk 150 40; Point.mk 150 140; Point.mk 200 141;
        Point.mk 260 200])
  = [horizontal; vertical; horizontal; diagonal].
Proof. reflexivity. Qed.

Example detectCollisions_sample :
  map CollisionConflict.connections
    (detectCollisions
       (extractSegments "Flow_1" [Point.mk 0 0; Point.mk 100 0; Point.mk 100 50]
        ++ extractSegments "Flow_2" [Point.mk 40 3; Point.mk 160 3; Point.mk 160 50])
       5)
  = [("Flow_1", "Flow_2")].
Proof. reflexivity. Qed.

Example computeManhattanWaypoints_forward :
  computeManhattanWaypoints 100 100 100 80 300 200 100 80
  = [Point.mk (100 + 100) (100 + 80 / 2);
     Point.mk ((100 + 100 + 300) / 2) (100 + 80 / 2);
     Point.mk ((100 + 100 + 300) / 2) (200 + 80 / 2);
     Point.mk 300 (200 + 80 / 2)].
Proof. reflexivity. Qed.

Example computeManhattanWaypoints_backward :
  computeManhattanWaypoints 300 100 100 80 100 200 100 80
  = [Point.mk (300 + 100) (100 + 80 / 2);
     Point.mk (100 - 20) (100 + 80 / 2);
     Point.mk (100 - 20) (200 + 80 / 2);
     Point.mk 100 (200 + 80 / 2)].
Proof. reflexivity. Qed.

Example assignRanks_chain :
  let g := buildGraphFromElements chainElements in
  match assignRanks 3 (Graph.nodeMap g) (Graph.adjacency g) with
  | Done nodeMap => map (fun kn => (fst kn, LayoutNode.rank (snd kn))) nodeMap
  | _ => []
  end = [("Start_1", 0%nat); ("Task_A", 1%nat); ("Task_B", 2%nat)].
Proof. reflexivity. Qed.

Example buildGraph_drops_dangling_edges :
  Graph.adjacency
    (buildGraphFromElements
       [FlowElement.mk "Task_A" "Lane_1" 0 0 100 80 (Some ["Task_B"; "Gone"]);
        FlowElement.mk "Task_B" "Lane_1" 0 0 100 80 None])
  = [("Task_A", ["Task_B"]); ("Task_B", [])].
Proof. reflexivity. Qed.

(** Two parallel connectors get the offsets -9 and 9. *)
Example parallelGroupOffset_pair :
  let c1 := ConnectionLike.mk "Flow_1" ([] : list Point.t) (Some "Task_A") (Some "Task_B") in
  let c2 := ConnectionLike.mk "Flow_2" ([] : list Point.t) (Some "Task_B") (Some "Task_A") in
  (exists o1, parallelGroupOffset codeUnitCompare c1 [c2] DEFAULT_LAYOUT_CONSTANTS = Some o1
              /\ o1 == -9)
  /\ (exists o2, parallelGroupOffset codeUnitCompare c2 [c1] DEFAULT_LAYOUT_CONSTANTS = Some o2
                 /\ o2 == 9).
Proof. split; eexists; (split; [reflexivity | reflexivity]). Qed.

(** The start event and the two tasks of [smallDiagram] end up in columns
    of growing X, and the lane grows from 120 to 240. *)
Example autoLayout_smallDiagram :
  match autoLayout sampleHost 3 smallDiagram DEFAULT_LAYOUT_CONSTANTS with
  | Done w =>
      length (World.issued w) = 6%nat
      /\ (exists lane start taskA taskB xs xa xb hl,
            findElement (World.registry w) "Lane_1" = Some lane
            /\ findElement (World.registry w) "Start_1" = Some start
            /\ findElement (World.registry w) "Task_A" = Some taskA
            /\ findElement (World.registry w) "Task_B" = Some taskB
            /\ Element.height lane = Some hl /\ hl == 240
            /\ Element.x start = Some xs /\ Element.x taskA = Some xa
            /\ Element.x taskB = Some xb /\ xs < xa /\ xa < xb)
  | _ => False
  end.
Proof.
  vm_compute. split; [reflexivity |].
  do 8 eexists. repeat (split; [reflexivity |]). reflexivity.
Qed.

(* ================================================================== *)
(** * Further properties *)

(** ** [JsMap]: keys *)

Section JsMapKeys.
Context {K V : Type} `{EqDecision K}.
Implicit Types (m : JsMap.t K V) (k : K) (v : V).

Lemma is_Some_get_keys m k : is_Some (JsMap.get m k) <-> k ∈ JsMap.keys m.
Proof.
  unfold JsMap.keys. induction m as [| [k' v'] m IH]; simpl.
  - split; [by intros [? ?] | by intros ?%elem_of_nil].
  - destruct (decide (k = k')) as [-> | Hne].
    + split; [intros _; apply list_elem_of_here | eauto].
    + rewrite IH, elem_of_cons. naive_solver.
Qed.

Lemma keys_set m k v :
  JsMap.keys (JsMap.set m k v)
  = if JsMap.has m k then JsMap.keys m else JsMap.keys m ++ [k].
Proof.
  unfold JsMap.keys, JsMap.has. induction m as [| [k' v'] m IH]; simpl; [done |].
  destruct (decide (k = k')) as [-> | Hne]; simpl; [done |].
  rewrite IH. by destruct (JsMap.get m k).
Qed.

Lemma NoDup_keys_set m k v : NoDup (JsMap.keys m) -> NoDup (JsMap.keys (JsMap.set m k v)).
Proof.
  intros Hnd. rewrite keys_set. unfold JsMap.has.
  destruct (JsMap.get m k) eqn:E; [done |].
  apply NoDup_app. split; [done |]. split; [| apply NoDup_singleton].
  intros x Hx ->%list_elem_of_singleton.
  apply is_Some_get_keys in Hx. rewrite E in Hx. by destruct Hx.
Qed.

Lemma elem_get m k v : NoDup (JsMap.keys m) -> (k, v) ∈ m -> JsMap.get m k = Some v.
Proof.
  unfold JsMap.keys. induction m as [| [k' v'] m IH]; simpl; intros Hnd Hin.
  - by apply elem_of_nil in Hin.
  - apply NoDup_cons in Hnd as [Hfresh Hnd].
    apply elem_of_cons in Hin as [[= -> ->] | Hin]; [by rewrite decide_True |].
    destruct (decide (k = k')) as [-> | Hne]; [| by apply IH].
    exfalso. apply Hfresh. apply list_elem_of_fmap. by exists (k', v).
Qed.

Lemma get_set m k k' v :
  JsMap.get (JsMap.set m k v) k' = if decide (k = k') then Some v else JsMap.get m k'.
Proof.
  destruct (decide (k = k')) as [-> | Hne]; [apply get_set_eq | by apply get_set_ne].
Qed.
End JsMapKeys.

(** ** Collision detector: orientation, collisions, segments *)

(** X1: the orientation of a segment does not depend on its direction of
    travel, and a segment of length zero is vertical. *)
Theorem getOrientation_symmetric (p q : Point.t) :
  getOrientation p q = getOrientation q p /\ getOrientation p p = vertical.
Proof.
  unfold getOrientation. split.
  - by rewrite (Qabs_Qminus (Point.x p)), (Qabs_Qminus (Point.y p)).
  - replace (Num.ltb (Qabs (Point.x p - Point.x p)) 2) with true; [done |].
    symmetry. apply ltb_lt.
    assert (H : Point.x p - Point.x p == 0) by ring.
    rewrite H. reflexivity.
Qed.

(** X2: whether two segments collide does not depend on the order in which
    they are given. *)
Theorem checkSegmentCollision_symmetric (seg1 seg2 : Segment.t) (threshold : Q) :
  checkSegmentCollision seg1 seg2 threshold = checkSegmentCollision seg2 seg1 threshold.
Proof. apply checkSegmentCollision_sym. Qed.

(** X3: a collision found at one threshold is found at every larger one. *)
Theorem checkSegmentCollision_monotone (seg1 seg2 : Segment.t) (threshold threshold' : Q) :
  threshold <= threshold' ->
  checkSegmentCollision seg1 seg2 threshold = true ->
  checkSegmentCollision seg1 seg2 threshold' = true.
Proof.
  intros Hle. unfold checkSegmentCollision.
  destruct (negb _); [done |]. cbv zeta.
  destruct (Segment.orientation seg1); [| | done].
  - destruct (Num.gtb _ threshold) eqn:E; [done |]. apply gtb_le in E.
    replace (Num.gtb _ threshold') with false; [done |].
    symmetry. apply gtb_le. by eapply Qle_trans.
  - destruct (Num.gtb _ threshold) eqn:E; [done |]. apply gtb_le in E.
    replace (Num.gtb _ threshold') with false; [done |].
    symmetry. apply gtb_le. by eapply Qle_trans.
Qed.

Lemma checkSegmentCollision_monotone_witness :
  let s1 := Segment.mk "a" (Point.mk 0 0) (Point.mk 10 0) horizontal in
  let s2 := Segment.mk "b" (Point.mk 6 3) (Point.mk 20 3) horizontal in
  checkSegmentCollision s1 s2 3 = true /\ checkSegmentCollision s1 s2 5 = true.
Proof.
  intros s1 s2.
  assert (H : checkSegmentCollision s1 s2 3 = true) by reflexivity.
  split; [exact H |].
  apply (checkSegmentCollision_monotone s1 s2 3 5); [vm_compute; discriminate | exact H].
Defined.

(** X4: [extractSegments] yields one segment per pair of consecutive
    waypoints, none for fewer than two waypoints: the [k]-th segment joins
    waypoints [k] and [k + 1], carries the connection's identifier and the
    orientation of its two points. *)
Theorem extractSegments_lookup (connectionId : string) (waypoints : list Point.t) :
  length (extractSegments connectionId waypoints) = (length waypoints - 1)%nat
  /\ forall (k : nat) (s : Segment.t),
       extractSegments connectionId waypoints !! k = Some s
       <-> exists p q, waypoints !! k = Some p /\ waypoints !! S k = Some q
                       /\ s = Segment.mk connectionId p q (getOrientation p q).
Proof.
  split.
  - induction waypoints as [| p waypoints IH]; [done |].
    destruct waypoints as [| q waypoints]; [done |].
    cbn [extractSegments length] in *. lia.
  - induction waypoints as [| p waypoints IH]; intros k s.
    + split; [done | by intros (? & ? & ? & _)].
    + destruct waypoints as [| q waypoints].
      * split; [done | by intros (? & ? & _ & ? & _)].
      * cbn [extractSegments]. destruct k as [| k].
        -- simpl. split.
           ++ intros [= <-]. by exists p, q.
           ++ intros (p' & q' & [= <-] & [= <-] & ->). done.
        -- change ((?a :: ?l) !! S k) with (l !! k). rewrite IH.
           by change ((p :: q :: waypoints) !! S (S k)) with ((q :: waypoints) !! S k).
Qed.

Lemma detectCollisions_inner_elem (seg1 : Segment.t) (later : list Segment.t)
    (threshold : Q) (c : CollisionConflict.t) :
  c ∈ detectCollisions_inner seg1 later threshold
  <-> exists j seg2, later !! j = Some seg2
        /\ Segment.connectionId seg1 <> Segment.connectionId seg2
        /\ checkSegmentCollision seg1 seg2 threshold = true
        /\ c = CollisionConflict.mk
                 (Segment.connectionId seg1, Segment.connectionId seg2)
                 "Overlap or near-collision detected" seg1 seg2.
Proof.
  induction later as [| s later IH]; cbn [detectCollisions_inner].
  - split; [by intros ?%elem_of_nil | by intros (? & ? & ? & _)].
  - assert (Hshift : (exists j seg2, later !! j = Some seg2
        /\ Segment.connectionId seg1 <> Segment.connectionId seg2
        /\ checkSegmentCollision seg1 seg2 threshold = true
        /\ c = CollisionConflict.mk
                 (Segment.connectionId seg1, Segment.connectionId seg2)
                 "Overlap or near-collision detected" seg1 seg2)
      -> exists j seg2, (s :: later) !! j = Some seg2
        /\ Segment.connectionId seg1 <> Segment.connectionId seg2
        /\ checkSegmentCollision seg1 seg2 threshold = true
        /\ c = CollisionConflict.mk
                 (Segment.connectionId seg1, Segment.connectionId seg2)
                 "Overlap or near-collision detected" seg1 seg2).
    { intros (j & seg2 & H). by exists (S j), seg2. }
    destruct (String.eqb_spec (Segment.connectionId seg1) (Segment.connectionId s))
      as [Heq | Hne].
    + rewrite IH. split; [done |].
      intros ([| j] & seg2 & Hj & Hid & Hc & ->).
      * simpl in Hj. by simplify_eq.
      * by exists j, seg2.
    + destruct (checkSegmentCollision seg1 s threshold) eqn:Hcol.
      * rewrite elem_of_cons, IH. split.
        -- intros [-> | H]; [by exists 0%nat, s | by apply Hshift].
        -- intros ([| j] & seg2 & Hj & Hid & Hc & ->).
           ++ simpl in Hj. simplify_eq. by left.
           ++ right. by exists j, seg2.
      * rewrite IH. split; [done |].
        intros ([| j] & seg2 & Hj & Hid & Hc & ->).
        -- simpl in Hj. simplify_eq. congruence.
        -- by exists j, seg2.
Qed.

Lemma detectCollisions_elem (allSegments : list Segment.t) (threshold : Q)
    (c : CollisionConflict.t) :
  c ∈ detectCollisions allSegments threshold
  <-> exists (i j : nat) (seg1 seg2 : Segment.t),
        (i < j)%nat
        /\ allSegments !! i = Some seg1 /\ allSegments !! j = Some seg2
        /\ Segment.connectionId seg1 <> Segment.connectionId seg2
        /\ checkSegmentCollision seg1 seg2 threshold = true
        /\ c = CollisionConflict.mk
                 (Segment.connectionId seg1, Segment.connectionId seg2)
                 "Overlap or near-collision detected" seg1 seg2.
Proof.
  induction allSegments as [| s later IH]; cbn [detectCollisions].
  - split; [by intros ?%elem_of_nil | by intros (? & ? & ? & ? & _ & ? & _)].
  - rewrite elem_of_app, detectCollisions_inner_elem, IH. split.
    + intros [(j & seg2 & Hj & H) | (i & j & seg1 & seg2 & Hij & Hi & Hj & H)].
      * exists 0%nat, (S j), s, seg2. split; [lia | done].
      * exists (S i), (S j), seg1, seg2. split; [lia | done].
    + intros (i & j & seg1 & seg2 & Hij & Hi & Hj & H).
      destruct j as [| j]; [lia |]. destruct i as [| i].
      * left. simpl in Hi. simplify_eq. by exists j, seg2.
      * right. exists i, j, seg1, seg2. split; [lia | done].
Qed.

(** X5: [detectCollisions] reports exactly the pairs of segments, the first
    before the second in the list, that belong to different connections
    and collide; a conflict names the two connections in that order. *)
Theorem detectCollisions_reports (allSegments : list Segment.t) (threshold : Q)
    (c : CollisionConflict.t) :
  c ∈ detectCollisions allSegments threshold
  <-> exists (i j : nat) (seg1 seg2 : Segment.t),
        (i < j)%nat
        /\ allSegments !! i = Some seg1 /\ allSegments !! j = Some seg2
        /\ Segment.connectionId seg1 <> Segment.connectionId seg2
        /\ checkSegmentCollision seg1 seg2 threshold = true
        /\ c = CollisionConflict.mk
                 (Segment.connectionId seg1, Segment.connectionId seg2)
                 "Overlap or near-collision detected" seg1 seg2.
Proof. apply detectCollisions_elem. Qed.

(** X6: the segment drift does nothing for an index that is negative or
    beyond the last segment; otherwise it moves the two end points of that
    segment, in Y for a horizontal segment and in X otherwise, and leaves
    every other waypoint as it was. *)
Theorem applySegmentDrift_moves_one_segment (waypoints : list Point.t)
    (segmentIndex : Z) (offset : Q) (orientation : Orientation) :
  length (applySegmentDrift waypoints segmentIndex offset orientation)
  = length waypoints
  /\ ((segmentIndex < 0 \/ Z.of_nat (length waypoints) - 1 <= segmentIndex)%Z ->
      applySegmentDrift waypoints segmentIndex offset orientation = waypoints)
  /\ ((0 <= segmentIndex < Z.of_nat (length waypoints) - 1)%Z ->
      forall i : nat,
        applySegmentDrift waypoints segmentIndex offset orientation !! i
        = if bool_decide (i = Z.to_nat segmentIndex \/ i = S (Z.to_nat segmentIndex))
          then match orientation with
               | horizontal => shiftY offset
               | _ => shiftX offset
               end <$> waypoints !! i
          else waypoints !! i).
Proof.
  split; [apply applySegmentDrift_length |]. unfold applySegmentDrift. split.
  - intros H.
    replace ((segmentIndex <? 0)%Z || (segmentIndex >=? Z.of_nat (length waypoints) - 1)%Z)
      with true; [done |].
    symmetry. apply orb_true_iff. rewrite Z.ltb_lt, Z.geb_leb, Z.leb_le. lia.
  - intros H i.
    replace ((segmentIndex <? 0)%Z || (segmentIndex >=? Z.of_nat (length waypoints) - 1)%Z)
      with false.
    2: { symmetry. apply orb_false_iff. rewrite Z.ltb_ge, Z.geb_leb, Z.leb_gt. lia. }
    set (k := Z.to_nat segmentIndex).
    assert (Hlook : forall f : Point.t -> Point.t,
              alter f (S k) (alter f k waypoints) !! i
              = if bool_decide (i = k \/ i = S k) then f <$> waypoints !! i
                else waypoints !! i).
    { intros f. case_bool_decide as Hi.
      - destruct Hi as [-> | ->].
        + rewrite list_lookup_alter_ne by lia. apply list_lookup_alter_eq.
        + rewrite list_lookup_alter_eq. by rewrite list_lookup_alter_ne by lia.
      - rewrite !list_lookup_alter_ne by lia. done. }
    destruct orientation; apply Hlook.
Qed.

Lemma applySegmentDrift_moves_one_segment_witness :
  let route := [Point.mk 0 0; Point.mk 50 0; Point.mk 50 40; Point.mk 100 40] in
  applySegmentDrift route 4 18 horizontal = route
  /\ applySegmentDrift route 1 18 vertical !! 1%nat = Some (Point.mk (50 + 18) 0)
  /\ applySegmentDrift route 1 18 vertical !! 3%nat = Some (Point.mk 100 40).
Proof.
  intros route.
  destruct (applySegmentDrift_moves_one_segment route 4 18 horizontal) as (_ & Hout & _).
  destruct (applySegmentDrift_moves_one_segment route 1 18 vertical) as (_ & _ & Hin).
  split; [apply Hout; right; simpl; lia |].
  split; [exact (Hin ltac:(simpl; lia) 1%nat) | exact (Hin ltac:(simpl; lia) 3%nat)].
Defined.

(** ** Collision resolver: the overlap search *)

Lemma overlapping_dec (checkCollision : Segment.t -> Segment.t -> bool)
    (p1 p2 q1 q2 : Point.t) :
  {overlapping checkCollision p1 p2 q1 q2} + {~ overlapping checkCollision p1 p2 q1 q2}.
Proof.
  unfold overlapping.
  destruct (getOrientation p1 p2) eqn:E1, (getOrientation q1 q2) eqn:E2;
    try (right; intros (? & ? & ?); congruence);
    (destruct (checkCollision _ _) eqn:Ec; [left; done | right; intros (? & ? & ?); congruence]).
Qed.

Lemma overlap_inner_spec (checkCollision : Segment.t -> Segment.t -> bool)
    (i : nat) (p1 p2 : Point.t) (waypoints2 : list Point.t) :
  match overlap_inner i p1 p2 (getOrientation p1 p2) waypoints2 checkCollision with
  | Some r =>
      exists j q1 q2,
        waypoints2 !! j = Some q1 /\ waypoints2 !! S j = Some q2
        /\ overlapping checkCollision p1 p2 q1 q2
        /\ r = Overlap.mk (Z.of_nat i) (getOrientation p1 p2)
                 (positiveDirection p1 p2 q1 q2)
        /\ forall j' q1' q2', (j' < j)%nat ->
             waypoints2 !! j' = Some q1' -> waypoints2 !! S j' = Some q2' ->
             ~ overlapping checkCollision p1 p2 q1' q2'
  | None =>
      forall j q1 q2, waypoints2 !! j = Some q1 -> waypoints2 !! S j = Some q2 ->
        ~ overlapping checkCollision p1 p2 q1 q2
  end.
Proof.
  induction waypoints2 as [| q1 waypoints2 IH]; [by intros ? ? ? ? |].
  destruct waypoints2 as [| q2 waypoints2]; [by intros [| ?] ? ? ? ? |].
  cbn [overlap_inner].
  assert (Hhere : ~ overlapping checkCollision p1 p2 q1 q2 ->
            match overlap_inner i p1 p2 (getOrientation p1 p2) (q2 :: waypoints2)
                    checkCollision with
            | Some r =>
                exists j a b,
                  (q1 :: q2 :: waypoints2) !! j = Some a
                  /\ (q1 :: q2 :: waypoints2) !! S j = Some b
                  /\ overlapping checkCollision p1 p2 a b
                  /\ r = Overlap.mk (Z.of_nat i) (getOrientation p1 p2)
                           (positiveDirection p1 p2 a b)
                  /\ forall j' a' b', (j' < j)%nat ->
                       (q1 :: q2 :: waypoints2) !! j' = Some a' ->
                       (q1 :: q2 :: waypoints2) !! S j' = Some b' ->
                       ~ overlapping checkCollision p1 p2 a' b'
            | None =>
                forall j a b, (q1 :: q2 :: waypoints2) !! j = Some a ->
                  (q1 :: q2 :: waypoints2) !! S j = Some b ->
                  ~ overlapping checkCollision p1 p2 a b
            end).
  { intros Hno. revert IH.
    destruct (overlap_inner i p1 p2 (getOrientation p1 p2) (q2 :: waypoints2) checkCollision)
      as [r |]; intros IH.
    - destruct IH as (j & a & b & Ha & Hb & Hov & Hr & Hmin).
      exists (S j), a, b.
      split; [done |]. split; [done |]. split; [done |]. split; [done |].
      intros [| j'] a' b' Hlt Ha' Hb'.
      + simpl in Ha', Hb'. by simplify_eq.
      + apply (Hmin j' a' b'); [lia | done | done].
    - intros [| j] a b Ha Hb.
      + simpl in Ha, Hb. by simplify_eq.
      + by apply (IH j a b). }
  destruct (Orientation_eqb (getOrientation p1 p2) (getOrientation q1 q2)) eqn:Ho;
    cbn [negb].
  2: { apply Hhere. intros (Heq & _). apply Orientation_eqb_eq in Heq. congruence. }
  apply Orientation_eqb_eq in Ho.
  destruct (checkCollision _ _) eqn:Hc; cbn [negb].
  2: { apply Hhere. intros (_ & _ & Hc'). congruence. }
  destruct (getOrientation p1 p2) eqn:Ep.
  - exists 0%nat, q1, q2.
    split; [done |]. split; [done |]. split.
    { unfold overlapping. rewrite Ep. rewrite <- Ho in *. done. }
    split; [unfold positiveDirection; by rewrite Ep | intros; lia].
  - exists 0%nat, q1, q2.
    split; [done |]. split; [done |]. split.
    { unfold overlapping. rewrite Ep. rewrite <- Ho in *. done. }
    split; [unfold positiveDirection; by rewrite Ep | intros; lia].
  - apply Hhere. intros (_ & Hd & _). congruence.
Qed.
Lemma overlap_outer_cons (i : nat) (p1 p2 : Point.t) (rest waypoints2 : list Point.t)
    (checkCollision : Segment.t -> Segment.t -> bool) :
  overlap_outer i (p1 :: p2 :: rest) waypoints2 checkCollision
  = match overlap_inner i p1 p2 (getOrientation p1 p2) waypoints2 checkCollision with
    | Some r => Some r
    | None => overlap_outer (S i) (p2 :: rest) waypoints2 checkCollision
    end.
Proof. reflexivity. Qed.

Lemma overlap_outer_spec (checkCollision : Segment.t -> Segment.t -> bool)
    (waypoints2 : list Point.t) (waypoints1 : list Point.t) :
  forall i0 : nat,
  match overlap_outer i0 waypoints1 waypoints2 checkCollision with
  | Some r =>
      exists i j p1 p2 q1 q2,
        waypoints1 !! i = Some p1 /\ waypoints1 !! S i = Some p2
        /\ waypoints2 !! j = Some q1 /\ waypoints2 !! S j = Some q2
        /\ overlapping checkCollision p1 p2 q1 q2
        /\ r = Overlap.mk (Z.of_nat (i0 + i)) (getOrientation p1 p2)
                 (positiveDirection p1 p2 q1 q2)
        /\ forall i' j', overlapAt checkCollision waypoints1 waypoints2 i' j' ->
             (i < i')%nat \/ (i = i' /\ (j <= j')%nat)
  | None => forall i j, ~ overlapAt checkCollision waypoints1 waypoints2 i j
  end.
Proof.
  induction waypoints1 as [| p1 waypoints1 IH]; intros i0.
  { intros i j (? & ? & ? & ? & ? & _). done. }
  destruct waypoints1 as [| p2 waypoints1].
  { intros i j (? & ? & ? & ? & _ & ? & _). by destruct i. }
  rewrite overlap_outer_cons.
  pose proof (overlap_inner_spec checkCollision i0 p1 p2 waypoints2) as Hin.
  destruct (overlap_inner i0 p1 p2 (getOrientation p1 p2) waypoints2 checkCollision)
    as [r |].
  - destruct Hin as (j & q1 & q2 & Hq1 & Hq2 & Hov & -> & Hmin).
    exists 0%nat, j, p1, p2, q1, q2.
    split; [done |]. split; [done |]. split; [done |]. split; [done |].
    split; [done |]. split; [by rewrite Nat.add_0_r |].
    intros [| i'] j' (a & b & c & d & Ha & Hb & Hc & Hd & Hov'); [| left; lia].
    right. split; [done |]. simpl in Ha, Hb. simplify_eq.
    destruct (Nat.le_gt_cases j j') as [Hle | Hgt]; [done |].
    by destruct (Hmin j' c d Hgt Hc Hd).
  - specialize (IH (S i0)).
    destruct (overlap_outer (S i0) (p2 :: waypoints1) waypoints2 checkCollision) as [r |].
    + destruct IH as (i & j & a & b & q1 & q2 & Ha & Hb & Hq1 & Hq2 & Hov & -> & Hmin).
      exists (S i), j, a, b, q1, q2.
      split; [done |]. split; [done |]. split; [done |]. split; [done |].
      split; [done |]. split; [by rewrite Nat.add_succ_r |].
      intros [| i'] j' (a' & b' & c & d & Ha' & Hb' & Hc & Hd & Hov').
      * simpl in Ha', Hb'. simplify_eq. by destruct (Hin j' c d Hc Hd).
      * destruct (Hmin i' j') as [Hlt | [-> Hle]]; [by exists a', b', c, d | left; lia |].
        right. done.
    + intros [| i] j (a & b & c & d & Ha & Hb & Hc & Hd & Hov).
      * simpl in Ha, Hb. simplify_eq. by destruct (Hin j c d Hc Hd).
      * apply (IH i j). by exists a, b, c, d.
Qed.

Lemma checkConnectionOverlapDetails_first_hit_lemma
    (conn1_waypoints : list Point.t) (conn2 : Connection)
    (checkCollision : Segment.t -> Segment.t -> bool) :
  (forall overlap,
     checkConnectionOverlapDetails conn1_waypoints conn2 checkCollision = Some overlap ->
     exists (i j : nat) (p1 p2 q1 q2 : Point.t),
       conn1_waypoints !! i = Some p1 /\ conn1_waypoints !! S i = Some p2
       /\ ConnectionLike.waypoints conn2 !! j = Some q1
       /\ ConnectionLike.waypoints conn2 !! S j = Some q2
       /\ overlapping checkCollision p1 p2 q1 q2
       /\ overlap = Overlap.mk (Z.of_nat i) (getOrientation p1 p2)
                      (positiveDirection p1 p2 q1 q2)
       /\ forall i' j',
            overlapAt checkCollision conn1_waypoints (ConnectionLike.waypoints conn2) i' j' ->
            (i < i')%nat \/ (i = i' /\ (j <= j')%nat))
  /\ (checkConnectionOverlapDetails conn1_waypoints conn2 checkCollision = None
      <-> forall i j,
            ~ overlapAt checkCollision conn1_waypoints (ConnectionLike.waypoints conn2) i j).
Proof.
  unfold checkConnectionOverlapDetails.
  pose proof (overlap_outer_spec checkCollision (ConnectionLike.waypoints conn2)
                conn1_waypoints 0) as H.
  destruct (overlap_outer 0 conn1_waypoints (ConnectionLike.waypoints conn2) checkCollision)
    as [r |].
  - split.
    + intros overlap [= <-]. exact H.
    + split; [done |]. intros Hnone.
      destruct H as (i & j & p1 & p2 & q1 & q2 & H1 & H2 & H3 & H4 & Hov & _).
      destruct (Hnone i j). by exists p1, p2, q1, q2.
  - split; [done | done].
Qed.

(** X7: [checkConnectionOverlapDetails] returns the first pair of segments,
    in the order of the two loops, that have the same non-diagonal
    orientation and collide: its index on the first connection, its
    orientation, and which side of the other segment it lies on.  It
    returns nothing exactly when no such pair exists. *)
Theorem checkConnectionOverlapDetails_first_hit
    (conn1_waypoints : list Point.t) (conn2 : Connection)
    (checkCollision : Segment.t -> Segment.t -> bool) :
  (forall overlap,
     checkConnectionOverlapDetails conn1_waypoints conn2 checkCollision = Some overlap ->
     exists (i j : nat) (p1 p2 q1 q2 : Point.t),
       conn1_waypoints !! i = Some p1 /\ conn1_waypoints !! S i = Some p2
       /\ ConnectionLike.waypoints conn2 !! j = Some q1
       /\ ConnectionLike.waypoints conn2 !! S j = Some q2
       /\ overlapping checkCollision p1 p2 q1 q2
       /\ overlap = Overlap.mk (Z.of_nat i) (getOrientation p1 p2)
                      (positiveDirection p1 p2 q1 q2)
       /\ forall i' j',
            overlapAt checkCollision conn1_waypoints (ConnectionLike.waypoints conn2) i' j' ->
            (i < i')%nat \/ (i = i' /\ (j <= j')%nat))
  /\ (checkConnectionOverlapDetails conn1_waypoints conn2 checkCollision = None
      <-> forall i j,
            ~ overlapAt checkCollision conn1_waypoints (ConnectionLike.waypoints conn2) i j).
Proof. apply checkConnectionOverlapDetails_first_hit_lemma. Qed.

Lemma checkConnectionOverlapDetails_first_hit_witness :
  let chk := fun s1 s2 => checkSegmentCollision s1 s2 5 in
  let w1 := [Point.mk 0 0; Point.mk 0 50; Point.mk 100 50] in
  let c2 := ConnectionLike.mk "Flow_2" [Point.mk 40 52; Point.mk 160 52]
              (Some "Task_C") (Some "Task_D") in
  checkConnectionOverlapDetails w1 c2 chk = Some (Overlap.mk 1 horizontal false)
  /\ exists (i j : nat) (p1 p2 q1 q2 : Point.t),
       w1 !! i = Some p1 /\ w1 !! S i = Some p2
       /\ ConnectionLike.waypoints c2 !! j = Some q1
       /\ ConnectionLike.waypoints c2 !! S j = Some q2
       /\ overlapping chk p1 p2 q1 q2
       /\ Overlap.mk 1 horizontal false
          = Overlap.mk (Z.of_nat i) (getOrientation p1 p2) (positiveDirection p1 p2 q1 q2).
Proof.
  intros chk w1 c2.
  assert (Hrun : checkConnectionOverlapDetails w1 c2 chk
                 = Some (Overlap.mk 1 horizontal false)) by reflexivity.
  split; [exact Hrun |].
  destruct (proj1 (checkConnectionOverlapDetails_first_hit w1 c2 chk) _ Hrun)
    as (i & j & p1 & p2 & q1 & q2 & H1 & H2 & H3 & H4 & H5 & H6 & _).
  by exists i, j, p1, p2, q1, q2.
Defined.

(** ** Collision resolver: what a run changes *)

Lemma nudgeAgainst_unflagged (target : Connection)
    (checkCollision : Segment.t -> Segment.t -> bool) (constants : LayoutConstants.t)
    (st : list Point.t * bool) (other : Connection) :
  snd (nudgeAgainst target checkCollision constants st other) = false ->
  nudgeAgainst target checkCollision constants st other = st /\ snd st = false.
Proof.
  destruct st as [points updated]. unfold nudgeAgainst.
  destruct (isParallel target other); [done |].
  destruct (checkConnectionOverlapDetails _ _ _); [done | done].
Qed.

Lemma nudges_unflagged (target : Connection)
    (checkCollision : Segment.t -> Segment.t -> bool) (constants : LayoutConstants.t)
    (others : list Connection) :
  forall st : list Point.t * bool,
    snd (fold_left (nudgeAgainst target checkCollision constants) others st) = false ->
    fold_left (nudgeAgainst target checkCollision constants) others st = st
    /\ snd st = false.
Proof.
  induction others as [| o others IH]; intros st H; [done |].
  cbn [fold_left] in *. destruct (IH _ H) as [Hfold Hflag].
  destruct (nudgeAgainst_unflagged _ _ _ _ _ Hflag) as [Hstep Hst].
  by rewrite Hfold, Hstep.
Qed.

(** X8: [computeResolvedWaypoints] returns as many waypoints as the target
    connection has; when it reports [updated = false] the waypoints
    returned are those of the target, unchanged; and with no other
    connection it reports [updated = false]. *)
Theorem computeResolvedWaypoints_unchanged_unless_updated
    (localeCompare : string -> string -> Z) (targetConnection : Connection)
    (otherConnections : list Connection) (constants : LayoutConstants.t) :
  length (fst (computeResolvedWaypoints localeCompare targetConnection
                 otherConnections constants))
  = length (ConnectionLike.waypoints targetConnection)
  /\ (snd (computeResolvedWaypoints localeCompare targetConnection
             otherConnections constants) = false ->
      fst (computeResolvedWaypoints localeCompare targetConnection
             otherConnections constants)
      = ConnectionLike.waypoints targetConnection)
  /\ (otherConnections = [] ->
      computeResolvedWaypoints localeCompare targetConnection otherConnections constants
      = (ConnectionLike.waypoints targetConnection, false)).
Proof.
  unfold computeResolvedWaypoints. rewrite map_copy_points.
  destruct (Z.of_nat _ <? 2)%Z; [done |].
  split; [| split].
  - destruct (parallelGroupOffset _ _ _ _) as [offset |];
      [destruct (Num.gtb _ _) |]; rewrite nudges_length; cbn [fst];
      try done. apply applyDriftToWaypoints_length.
  - intros H.
    destruct (parallelGroupOffset _ _ _ _) as [offset |];
      [destruct (Num.gtb _ _) |];
      apply nudges_unflagged in H as [-> H]; done.
  - intros ->. done.
Qed.

Lemma computeResolvedWaypoints_unchanged_unless_updated_witness :
  let route := [Point.mk 100 40; Point.mk 150 40; Point.mk 150 140; Point.mk 200 140] in
  let c1 := ConnectionLike.mk "Flow_1" route (Some "Task_A") (Some "Task_B") in
  let c2 := ConnectionLike.mk "Flow_2"
              [Point.mk 100 70; Point.mk 130 70; Point.mk 130 170; Point.mk 200 170]
              (Some "Task_A") (Some "Task_C") in
  snd (computeResolvedWaypoints codeUnitCompare c1 [c2] DEFAULT_LAYOUT_CONSTANTS) = false
  /\ fst (computeResolvedWaypoints codeUnitCompare c1 [c2] DEFAULT_LAYOUT_CONSTANTS) = route
  /\ computeResolvedWaypoints codeUnitCompare c1 [] DEFAULT_LAYOUT_CONSTANTS = (route, false).
Proof.
  intros route c1 c2.
  assert (H : snd (computeResolvedWaypoints codeUnitCompare c1 [c2]
                     DEFAULT_LAYOUT_CONSTANTS) = false) by reflexivity.
  split; [exact H |]. split.
  - exact (proj1 (proj2 (computeResolvedWaypoints_unchanged_unless_updated
                           codeUnitCompare c1 [c2] DEFAULT_LAYOUT_CONSTANTS)) H).
  - exact (proj2 (proj2 (computeResolvedWaypoints_unchanged_unless_updated
                           codeUnitCompare c1 [] DEFAULT_LAYOUT_CONSTANTS)) eq_refl).
Defined.

Lemma applyDriftToWaypoints_short (waypoints : list Point.t) (offset : Q) :
  (length waypoints <= 3)%nat -> applyDriftToWaypoints waypoints offset = waypoints.
Proof. intros H. unfold applyDriftToWaypoints. apply forRange_nil. lia. Qed.

(** X9: for a connection of two or three waypoints that has parallel
    companions and no other neighbour, a fan-out offset above 1 is reported
    as an update although no waypoint moves: the drift starts at the third
    waypoint and stops before the last. *)
Theorem computeResolvedWaypoints_short_parallel
    (localeCompare : string -> string -> Z) (targetConnection : Connection)
    (otherConnections : list Connection) (constants : LayoutConstants.t) (offset : Q) :
  (2 <= length (ConnectionLike.waypoints targetConnection) <= 3)%nat ->
  Forall (fun other => isParallel targetConnection other = true) otherConnections ->
  parallelGroupOffset localeCompare targetConnection otherConnections constants
  = Some offset ->
  1 < Qabs offset ->
  computeResolvedWaypoints localeCompare targetConnection otherConnections constants
  = (ConnectionLike.waypoints targetConnection, true).
Proof.
  intros Hlen Hpar Hoff Habs.
  rewrite (resolved_of_offset localeCompare _ _ _ _ Hpar Hoff).
  replace (Z.of_nat _ <? 2)%Z with false by (symmetry; apply Z.ltb_ge; lia).
  replace (Num.gtb _ _) with true by (symmetry; by apply gtb_gt).
  rewrite applyDriftToWaypoints_short; [done | lia].
Qed.

Lemma computeResolvedWaypoints_short_parallel_witness :
  let route := [Point.mk 200 140; Point.mk 250 140; Point.mk 300 140] in
  let c1 := ConnectionLike.mk "Flow_1" route (Some "Task_A") (Some "Task_B") in
  let c2 := ConnectionLike.mk "Flow_2" [Point.mk 200 100; Point.mk 300 100]
              (Some "Task_A") (Some "Task_B") in
  computeResolvedWaypoints codeUnitCompare c1 [c2] DEFAULT_LAYOUT_CONSTANTS
  = (route, true).
Proof.
  intros route c1 c2.
  apply (computeResolvedWaypoints_short_parallel codeUnitCompare c1 [c2]
           DEFAULT_LAYOUT_CONSTANTS (fanOffset 0 2 DEFAULT_LAYOUT_CONSTANTS)).
  - simpl. lia.
  - repeat constructor.
  - reflexivity.
  - reflexivity.
Defined.

(** ** Collision resolver: nudges *)

Lemma ltb_proper (a a' b b' : Q) : a == a' -> b == b' -> Num.ltb a b = Num.ltb a' b'.
Proof. intros Ha Hb. unfold Num.ltb. by rewrite Ha, Hb. Qed.

Lemma getOrientation_horizontal (p q : Point.t) :
  getOrientation p q = horizontal -> Qabs (Point.y p - Point.y q) < 2.
Proof.
  unfold getOrientation. destruct (Num.ltb (Qabs (Point.x p - Point.x q)) 2); [done |].
  destruct (Num.ltb (Qabs (Point.y p - Point.y q)) 2) eqn:E; [| done].
  intros _. by apply ltb_lt.
Qed.

Lemma getOrientation_vertical (p q : Point.t) :
  getOrientation p q = vertical -> Qabs (Point.x p - Point.x q) < 2.
Proof.
  unfold getOrientation. destruct (Num.ltb (Qabs (Point.x p - Point.x q)) 2) eqn:E.
  - intros _. by apply ltb_lt.
  - by destruct (Num.ltb (Qabs (Point.y p - Point.y q)) 2).
Qed.

Lemma getOrientation_shiftY (offset : Q) (p q : Point.t) :
  getOrientation (shiftY offset p) (shiftY offset q) = getOrientation p q.
Proof.
  unfold getOrientation, shiftY. cbn [Point.x Point.y].
  rewrite (ltb_proper (Qabs (Point.y p + offset - (Point.y q + offset)))
             (Qabs (Point.y p - Point.y q)) 2 2); [done | | done].
  apply Qabs_wd. ring.
Qed.

Lemma getOrientation_shiftX (offset : Q) (p q : Point.t) :
  getOrientation (shiftX offset p) (shiftX offset q) = getOrientation p q.
Proof.
  unfold getOrientation, shiftX. cbn [Point.x Point.y].
  rewrite (ltb_proper (Qabs (Point.x p + offset - (Point.x q + offset)))
             (Qabs (Point.x p - Point.x q)) 2 2); [done | | done].
  apply Qabs_wd. ring.
Qed.

(** Two nearly level segments, the first pushed by [po] to the side of the
    second one it already lies on, end up more than [po - 2] apart. *)
Lemma pushed_apart (a1 a2 b1 b2 po threshold : Q) :
  Qabs (a1 - a2) < 2 -> Qabs (b1 - b2) < 2 -> threshold + 2 < po ->
  threshold
  < Qabs (a1 + po * (if Num.geb ((a1 + a2) / 2) ((b1 + b2) / 2) then 1 else -1) - b1).
Proof.
  intros [Ha1 Ha2]%Qabs_Qlt_condition [Hb1 Hb2]%Qabs_Qlt_condition Hpo.
  unfold Num.geb. destruct (Qle_bool _ _) eqn:E.
  - apply Qle_bool_iff in E. unfold Qdiv in E. change (/ 2) with (1 # 2) in E.
    eapply Qlt_le_trans; [| apply Qle_Qabs]. lra.
  - assert (E' : (a1 + a2) / 2 < (b1 + b2) / 2).
    { apply Qnot_le_lt. intros H. apply Qle_bool_iff in H. congruence. }
    unfold Qdiv in E'. change (/ 2) with (1 # 2) in E'.
    eapply Qlt_le_trans; [| rewrite <- Qabs_opp; apply Qle_Qabs]. lra.
Qed.

Lemma applySegmentDrift_in_range (waypoints : list Point.t) (k : nat) (offset : Q)
    (orientation : Orientation) (i : nat) :
  (S k < length waypoints)%nat ->
  applySegmentDrift waypoints (Z.of_nat k) offset orientation !! i
  = if bool_decide (i = k \/ i = S k)
    then match orientation with
         | horizontal => shiftY offset
         | _ => shiftX offset
         end <$> waypoints !! i
    else waypoints !! i.
Proof.
  intros Hk. unfold applySegmentDrift.
  replace ((Z.of_nat k <? 0)%Z || (Z.of_nat k >=? Z.of_nat (length waypoints) - 1)%Z)
    with false.
  2: { symmetry. apply orb_false_iff. rewrite Z.ltb_ge, Z.geb_leb, Z.leb_gt. lia. }
  rewrite Nat2Z.id.
  assert (Hlook : forall f : Point.t -> Point.t,
            alter f (S k) (alter f k waypoints) !! i
            = if bool_decide (i = k \/ i = S k) then f <$> waypoints !! i
              else waypoints !! i).
  { intros f. case_bool_decide as Hi.
    - destruct Hi as [-> | ->].
      + rewrite list_lookup_alter_ne by lia. apply list_lookup_alter_eq.
      + rewrite list_lookup_alter_eq. by rewrite list_lookup_alter_ne by lia.
    - rewrite !list_lookup_alter_ne by lia. done. }
  destruct orientation; apply Hlook.
Qed.

(** X10: a nudge settles the collision that caused it.  When the resolver's
    offset exceeds the collision threshold by more than 2, the segment that
    [nudgeAgainst] moves keeps its orientation and no longer collides with
    the segment of the other connection it was found to overlap. *)
Theorem nudgeAgainst_separates (targetConnection other : Connection)
    (constants : LayoutConstants.t) (waypoints : list Point.t) (updated : bool)
    (overlap : Overlap.t) :
  let checkCollision := fun s1 s2 =>
    checkSegmentCollision s1 s2 (LayoutConstants.collisionThreshold constants) in
  LayoutConstants.collisionThreshold constants + 2
  < LayoutConstants.parallelOffset constants ->
  isParallel targetConnection other = false ->
  checkConnectionOverlapDetails waypoints other checkCollision = Some overlap ->
  exists (i j : nat) (p1 p2 q1 q2 p1' p2' : Point.t),
    Overlap.segmentIndex overlap = Z.of_nat i
    /\ waypoints !! i = Some p1 /\ waypoints !! S i = Some p2
    /\ ConnectionLike.waypoints other !! j = Some q1
    /\ ConnectionLike.waypoints other !! S j = Some q2
    /\ overlapping checkCollision p1 p2 q1 q2
    /\ snd (nudgeAgainst targetConnection checkCollision constants
              (waypoints, updated) other) = true
    /\ fst (nudgeAgainst targetConnection checkCollision constants
              (waypoints, updated) other) !! i = Some p1'
    /\ fst (nudgeAgainst targetConnection checkCollision constants
              (waypoints, updated) other) !! S i = Some p2'
    /\ getOrientation p1' p2' = getOrientation p1 p2
    /\ checkCollision (Segment.mk "" p1' p2' (getOrientation p1' p2'))
                      (Segment.mk "" q1 q2 (getOrientation q1 q2)) = false.
Proof.
  intros checkCollision Hpo Hpar Hfound.
  destruct (proj1 (checkConnectionOverlapDetails_first_hit_lemma waypoints other checkCollision)
              overlap Hfound)
    as (i & j & p1 & p2 & q1 & q2 & Hp1 & Hp2 & Hq1 & Hq2 & Hov & -> & _).
  assert (Hlen : (S i < length waypoints)%nat) by (by eapply lookup_lt_Some).
  unfold nudgeAgainst. rewrite Hpar, Hfound.
  cbn [Overlap.segmentIndex Overlap.orientation Overlap.isPositiveDirection fst snd].
  set (offset := LayoutConstants.parallelOffset constants
                 * (if positiveDirection p1 p2 q1 q2 then 1 else -1)).
  destruct Hov as (Hsame & Hnd & Hcol).
  set (f := match getOrientation p1 p2 with
            | horizontal => shiftY offset
            | _ => shiftX offset
            end).
  exists i, j, p1, p2, q1, q2, (f p1), (f p2).
  split; [done |]. split; [done |]. split; [done |]. split; [done |].
  split; [done |]. split; [done |]. split; [done |].
  split.
  { rewrite applySegmentDrift_in_range by done.
    rewrite bool_decide_eq_true_2 by (by left). by rewrite Hp1. }
  split.
  { rewrite applySegmentDrift_in_range by done.
    rewrite bool_decide_eq_true_2 by (by right). by rewrite Hp2. }
  assert (Hkeep : getOrientation (f p1) (f p2) = getOrientation p1 p2).
  { subst f. destruct (getOrientation p1 p2) eqn:Eo; rewrite <- Eo;
      [apply getOrientation_shiftY | apply getOrientation_shiftX | apply getOrientation_shiftX]. }
  split; [exact Hkeep |].
  rewrite Hkeep. subst checkCollision. cbv beta.
  unfold checkSegmentCollision.
  cbn [Segment.orientation Segment.p1 Segment.p2].
  rewrite <- Hsame.
  replace (Orientation_eqb (getOrientation p1 p2) (getOrientation p1 p2)) with true
    by (symmetry; by apply Orientation_eqb_eq).
  cbn [negb]. subst f offset. unfold positiveDirection.
  destruct (getOrientation p1 p2) eqn:Eo; [| | done].
  - replace (Num.gtb _ _) with true; [done |].
    symmetry. apply gtb_gt. cbn [shiftY Point.x Point.y].
    apply pushed_apart; [by apply getOrientation_horizontal | | done].
    apply getOrientation_horizontal. by rewrite <- Hsame.
  - replace (Num.gtb _ _) with true; [done |].
    symmetry. apply gtb_gt. cbn [shiftX Point.x Point.y].
    apply pushed_apart; [by apply getOrientation_vertical | | done].
    apply getOrientation_vertical. by rewrite <- Hsame.
Qed.

Lemma nudgeAgainst_separates_witness :
  let chk := fun s1 s2 =>
    checkSegmentCollision s1 s2
      (LayoutConstants.collisionThreshold DEFAULT_LAYOUT_CONSTANTS) in
  let c1 := ConnectionLike.mk "Flow_1"
              [Point.mk 0 0; Point.mk 0 50; Point.mk 100 50]
              (Some "Task_A") (Some "Task_B") in
  let c2 := ConnectionLike.mk "Flow_2" [Point.mk 40 52; Point.mk 160 52]
              (Some "Task_C") (Some "Task_D") in
  checkConnectionOverlapDetails (ConnectionLike.waypoints c1) c2 chk
  = Some (Overlap.mk 1 horizontal false)
  /\ exists (i j : nat) (q1 q2 p1' p2' : Point.t),
       ConnectionLike.waypoints c2 !! j = Some q1
       /\ ConnectionLike.waypoints c2 !! S j = Some q2
       /\ fst (nudgeAgainst c1 chk DEFAULT_LAYOUT_CONSTANTS
                 (ConnectionLike.waypoints c1, false) c2) !! i = Some p1'
       /\ fst (nudgeAgainst c1 chk DEFAULT_LAYOUT_CONSTANTS
                 (ConnectionLike.waypoints c1, false) c2) !! S i = Some p2'
       /\ chk (Segment.mk "" p1' p2' (getOrientation p1' p2'))
              (Segment.mk "" q1 q2 (getOrientation q1 q2)) = false.
Proof.
  intros chk c1 c2.
  assert (Hrun : checkConnectionOverlapDetails (ConnectionLike.waypoints c1) c2 chk
                 = Some (Overlap.mk 1 horizontal false)) by reflexivity.
  split; [exact Hrun |].
  destruct (nudgeAgainst_separates c1 c2 DEFAULT_LAYOUT_CONSTANTS
              (ConnectionLike.waypoints c1) false (Overlap.mk 1 horizontal false))
    as (i & j & p1 & p2 & q1 & q2 & p1' & p2' & _ & _ & _ & H1 & H2 & _ & _ & H3 & H4 & _ & H5).
  - reflexivity.
  - reflexivity.
  - exact Hrun.
  - by exists i, j, q1, q2, p1', p2'.
Defined.

(** ** Graph construction *)

(** After the first loop of [buildGraphFromElements]. *)
Lemma buildGraph_addNodes_spec (elements : list FlowElement.t) :
  forall g,
    NoDup (JsMap.keys (Graph.adjacency g)) ->
    (forall k, is_Some (JsMap.get (Graph.adjacency g) k)
               <-> is_Some (JsMap.get (Graph.nodeMap g) k)) ->
    let g' := fold_left buildGraph_addNode elements g in
    NoDup (JsMap.keys (Graph.adjacency g'))
    /\ (forall k, is_Some (JsMap.get (Graph.adjacency g') k)
                  <-> is_Some (JsMap.get (Graph.nodeMap g') k))
    /\ (forall k, is_Some (JsMap.get (Graph.nodeMap g') k)
                  <-> is_Some (JsMap.get (Graph.nodeMap g) k)
                      \/ k ∈ map FlowElement.id elements)
    /\ (forall k node, JsMap.get (Graph.nodeMap g') k = Some node ->
          JsMap.get (Graph.nodeMap g) k = Some node
          \/ exists el, el ∈ elements /\ FlowElement.id el = k /\ node = nodeOfElement el).
Proof.
  induction elements as [| el elements IH]; intros g Hnd Hkeys.
  - cbn [fold_left map]. split; [done |]. split; [done |]. split.
    + intros k. split; [by left | by intros [? | ?%elem_of_nil]].
    + intros k node H. by left.
  - cbn [fold_left map].
    destruct (IH (buildGraph_addNode g el)) as (H1 & H2 & H3 & H4).
    { by apply NoDup_keys_set. }
    { intros k. cbn [buildGraph_addNode Graph.adjacency Graph.nodeMap].
      rewrite !get_set. destruct (decide (FlowElement.id el = k)); [| apply Hkeys].
      split; eauto. }
    split; [done |]. split; [done |]. split.
    + intros k. rewrite H3. cbn [buildGraph_addNode Graph.nodeMap].
      rewrite get_set, elem_of_cons.
      destruct (decide (FlowElement.id el = k)) as [<- | Hne]; [| naive_solver].
      split; [intros _; right; by left | eauto].
    + intros k node Hk. destruct (H4 k node Hk) as [Hold | (el' & Hin & Hid & ->)].
      * cbn [buildGraph_addNode Graph.nodeMap] in Hold. rewrite get_set in Hold.
        destruct (decide (FlowElement.id el = k)) as [<- | Hne]; [| by left].
        right. exists el. split; [apply list_elem_of_here |]. split; [done |].
        by injection Hold as <-.
      * right. exists el'. split; [by apply list_elem_of_further | done].
Qed.

Lemma edge_pushNeighbor (adjacency : JsMap.t string (list string))
    (fromId targetId u v : string) :
  is_Some (JsMap.get adjacency fromId) ->
  edge (pushNeighbor adjacency fromId targetId) u v
  <-> edge adjacency u v \/ (u = fromId /\ v = targetId).
Proof.
  intros [old Hold]. unfold pushNeighbor, edge. rewrite Hold.
  split.
  - intros (neighbors & Hget & Hv). rewrite get_set in Hget.
    destruct (decide (fromId = u)) as [<- | Hne].
    + injection Hget as <-.
      apply elem_of_app in Hv as [Hv | ->%list_elem_of_singleton]; [| by right].
      left. by exists old.
    + left. by exists neighbors.
  - intros [(neighbors & Hget & Hv) | [-> ->]].
    + destruct (decide (fromId = u)) as [<- | Hne].
      * exists (old ++ [targetId]). rewrite get_set_eq. split; [done |].
        apply elem_of_app. left. congruence.
      * exists neighbors. by rewrite get_set_ne.
    + exists (old ++ [targetId]). rewrite get_set_eq. split; [done |].
      apply elem_of_app. right. apply list_elem_of_here.
Qed.

Lemma keys_pushNeighbor (adjacency : JsMap.t string (list string))
    (fromId targetId : string) :
  JsMap.keys (pushNeighbor adjacency fromId targetId) = JsMap.keys adjacency.
Proof.
  unfold pushNeighbor. destruct (JsMap.get adjacency fromId) eqn:E; [| done].
  rewrite keys_set. unfold JsMap.has. by rewrite E.
Qed.

(** The inner loop of the second loop, for the outgoing connections of
    one element. *)
Lemma buildGraph_addEdges_spec (el : FlowElement.t) (targets : list string) :
  forall g,
    is_Some (JsMap.get (Graph.adjacency g) (FlowElement.id el)) ->
    let g' := fold_left (buildGraph_addEdge el) targets g in
    Graph.nodeMap g' = Graph.nodeMap g
    /\ JsMap.keys (Graph.adjacency g') = JsMap.keys (Graph.adjacency g)
    /\ forall u v,
         edge (Graph.adjacency g') u v
         <-> edge (Graph.adjacency g) u v
             \/ (u = FlowElement.id el /\ v ∈ targets
                 /\ is_Some (JsMap.get (Graph.nodeMap g) v)).
Proof.
  induction targets as [| t targets IH]; intros g Hel.
  - cbn [fold_left]. split; [done |]. split; [done |].
    intros u v. split; [by left | by intros [? | (_ & ?%elem_of_nil & _)]].
  - cbn [fold_left].
    assert (Hstep : Graph.nodeMap (buildGraph_addEdge el g t) = Graph.nodeMap g
              /\ JsMap.keys (Graph.adjacency (buildGraph_addEdge el g t))
                 = JsMap.keys (Graph.adjacency g)
              /\ forall u v,
                   edge (Graph.adjacency (buildGraph_addEdge el g t)) u v
                   <-> edge (Graph.adjacency g) u v
                       \/ (u = FlowElement.id el /\ v = t
                           /\ is_Some (JsMap.get (Graph.nodeMap g) v))).
    { unfold buildGraph_addEdge, JsMap.has.
      destruct (JsMap.get (Graph.nodeMap g) t) as [node |] eqn:Ht.
      - cbn [Graph.nodeMap Graph.adjacency]. split; [done |].
        split; [apply keys_pushNeighbor |].
        intros u v. rewrite edge_pushNeighbor by done.
        split; [intros [? | [-> ->]]; [by left | right; rewrite Ht; eauto] |].
        intros [? | (-> & -> & _)]; [by left | by right].
      - split; [done |]. split; [done |]. intros u v.
        split; [by left |]. intros [? | (_ & -> & Hs)]; [done |].
        rewrite Ht in Hs. by destruct Hs. }
    destruct Hstep as (Hn & Hk & He).
    destruct (IH (buildGraph_addEdge el g t)) as (Hn' & Hk' & He').
    { apply is_Some_get_keys. rewrite Hk. by apply is_Some_get_keys. }
    split; [congruence |]. split; [congruence |].
    intros u v. rewrite He', He, Hn, elem_of_cons. naive_solver.
Qed.

(** The second loop of [buildGraphFromElements]. *)
Lemma buildGraph_allEdges_spec (elements : list FlowElement.t) :
  forall g,
    (forall el, el ∈ elements ->
       is_Some (JsMap.get (Graph.adjacency g) (FlowElement.id el))) ->
    let g' :=
      fold_left
        (fun g el => fold_left (buildGraph_addEdge el) (FlowElement.outgoing el ?? []) g)
        elements g in
    Graph.nodeMap g' = Graph.nodeMap g
    /\ JsMap.keys (Graph.adjacency g') = JsMap.keys (Graph.adjacency g)
    /\ forall u v,
         edge (Graph.adjacency g') u v
         <-> edge (Graph.adjacency g) u v
             \/ exists el, el ∈ elements /\ FlowElement.id el = u
                           /\ v ∈ (FlowElement.outgoing el ?? [])
                           /\ is_Some (JsMap.get (Graph.nodeMap g) v).
Proof.
  induction elements as [| el elements IH]; intros g Hels.
  - cbn [fold_left]. split; [done |]. split; [done |].
    intros u v. split; [by left | by intros [? | (? & ?%elem_of_nil & _)]].
  - cbn [fold_left].
    destruct (buildGraph_addEdges_spec el (FlowElement.outgoing el ?? []) g)
      as (Hn & Hk & He); [apply Hels, list_elem_of_here |].
    set (g1 := fold_left (buildGraph_addEdge el) (FlowElement.outgoing el ?? []) g) in *.
    destruct (IH g1) as (Hn' & Hk' & He').
    { intros el' Hin. apply is_Some_get_keys. rewrite Hk. apply is_Some_get_keys.
      by apply Hels, list_elem_of_further. }
    split; [congruence |]. split; [congruence |].
    intros u v. rewrite He', He, Hn. split.
    + intros [[? | (-> & Hv & Hs)] | (el' & Hin & Hid & Hv & Hs)].
      * by left.
      * right. exists el. split; [apply list_elem_of_here | done].
      * right. exists el'. split; [by apply list_elem_of_further | done].
    + intros [? | (el' & [-> | Hin]%elem_of_cons & Hid & Hv & Hs)].
      * left. by left.
      * left. right. done.
      * right. by exists el'.
Qed.

Lemma buildGraph_structure (elements : list FlowElement.t) :
  let g := buildGraphFromElements elements in
  NoDup (JsMap.keys (Graph.adjacency g))
  /\ (forall k, is_Some (JsMap.get (Graph.adjacency g) k)
                <-> is_Some (JsMap.get (Graph.nodeMap g) k))
  /\ (forall k, is_Some (JsMap.get (Graph.nodeMap g) k)
                <-> k ∈ map FlowElement.id elements)
  /\ (forall k node, JsMap.get (Graph.nodeMap g) k = Some node ->
        exists el, el ∈ elements /\ FlowElement.id el = k /\ node = nodeOfElement el)
  /\ (forall u v,
        edge (Graph.adjacency g) u v
        <-> exists el, el ∈ elements /\ FlowElement.id el = u
                       /\ v ∈ (FlowElement.outgoing el ?? [])
                       /\ v ∈ map FlowElement.id elements).
Proof.
  unfold buildGraphFromElements. cbv zeta.
  destruct (buildGraph_addNodes_spec elements (Graph.mk JsMap.empty JsMap.empty JsMap.empty))
    as (Hnd & Hsame & Hkeys & Hnodes);
    [apply NoDup_nil_2 | intros k; simpl; split; by intros [? ?] |].
  destruct (buildGraph_nodes elements (Graph.mk JsMap.empty JsMap.empty JsMap.empty))
    as [_ Hempty]; [by intros ? ? ?%elem_of_nil | done |]. cbv zeta in Hempty.
  set (g1 := fold_left buildGraph_addNode elements _) in *. clearbody g1.
  destruct (buildGraph_allEdges_spec elements g1) as (Hn & Hk & He).
  { intros el Hin. apply Hsame, Hkeys. right. by apply list_elem_of_fmap_2. }
  set (g2 := fold_left _ elements g1) in *. clearbody g2.
  assert (Hk1 : forall k, is_Some (JsMap.get (Graph.nodeMap g1) k)
                          <-> k ∈ map FlowElement.id elements).
  { intros k. rewrite Hkeys. split; [by intros [[? ?] | ?] | by right]. }
  split; [by rewrite Hk |]. split.
  { intros k. rewrite Hn, <- Hsame, !is_Some_get_keys. by rewrite Hk. }
  split; [intros k; by rewrite Hn |]. split.
  { intros k node. rewrite Hn. intros Hk'. by destruct (Hnodes k node Hk'). }
  intros u v. rewrite He. split.
  - intros [(neighbors & Hget & Hv) | (el & Hin & Hid & Hv & Hs)].
    + rewrite (Hempty _ _ Hget) in Hv. by apply elem_of_nil in Hv.
    + exists el. by rewrite <- Hk1.
  - intros (el & Hin & Hid & Hv & Hs). right. exists el. by rewrite Hk1.
Qed.

(** X11: [buildGraphFromElements] makes one node per element identifier, of
    rank 0, in the lane of the element's parent and with its size, and
    keeps an outgoing connection as an edge exactly when its target is one
    of the elements; connections to anything else are dropped. *)
Theorem buildGraphFromElements_nodes_and_edges (elements : list FlowElement.t) :
  let g := buildGraphFromElements elements in
  (forall id, is_Some (JsMap.get (Graph.nodeMap g) id)
              <-> id ∈ map FlowElement.id elements)
  /\ (forall id node, JsMap.get (Graph.nodeMap g) id = Some node ->
        exists el, el ∈ elements /\ FlowElement.id el = id
          /\ node = LayoutNode.mk (FlowElement.id el) el 0 (FlowElement.parent_id el)
                      (FlowElement.width el) (FlowElement.height el))
  /\ (forall u v,
        edge (Graph.adjacency g) u v
        <-> exists el, el ∈ elements /\ FlowElement.id el = u
                       /\ v ∈ (FlowElement.outgoing el ?? [])
                       /\ v ∈ map FlowElement.id elements).
Proof.
  intros g. destruct (buildGraph_structure elements) as (_ & _ & H1 & H2 & H3).
  done.
Qed.

Lemma buildGraphFromElements_nodes_and_edges_witness :
  let g := buildGraphFromElements
             [ FlowElement.mk "Task_A" "Lane_1" 0 0 100 80 (Some ["Task_B"; "Gone"]);
               FlowElement.mk "Task_B" "Lane_1" 0 0 100 80 None ] in
  edge (Graph.adjacency g) "Task_A" "Task_B"
  /\ ~ edge (Graph.adjacency g) "Task_A" "Gone"
  /\ exists node, JsMap.get (Graph.nodeMap g) "Task_B" = Some node
                  /\ LayoutNode.rank node = 0%nat.
Proof.
  intros g.
  destruct (buildGraphFromElements_nodes_and_edges
              [ FlowElement.mk "Task_A" "Lane_1" 0 0 100 80 (Some ["Task_B"; "Gone"]);
                FlowElement.mk "Task_B" "Lane_1" 0 0 100 80 None ])
    as (Hkeys & Hnodes & Hedges).
  fold g in Hkeys, Hnodes, Hedges.
  split; [| split].
  - apply Hedges. eexists. split; [apply list_elem_of_here |]. split; [reflexivity |].
    split; [apply list_elem_of_here | apply list_elem_of_further, list_elem_of_here].
  - intros (el & _ & _ & _ & Hin)%Hedges. cbn [map FlowElement.id] in Hin.
    rewrite !elem_of_cons, elem_of_nil in Hin. by destruct Hin as [? | [? | []]].
  - destruct (proj2 (Hkeys "Task_B")) as [node Hnode].
    { apply list_elem_of_further, list_elem_of_here. }
    exists node. split; [done |].
    by destruct (Hnodes "Task_B" node Hnode) as (el & _ & _ & ->).
Defined.

Lemma incoming_cons (u : string) (neighbors : list string)
    (adjacency : JsMap.t string (list string)) (v : string) :
  incoming ((u, neighbors) :: adjacency) v
  = (length (List.filter (String.eqb v) neighbors) + incoming adjacency v)%nat.
Proof.
  unfold incoming. cbn [flat_map snd]. by rewrite List.filter_app, length_app.
Qed.

Lemma incoming_pushNeighbor (adjacency : JsMap.t string (list string))
    (fromId targetId v : string) :
  is_Some (JsMap.get adjacency fromId) ->
  incoming (pushNeighbor adjacency fromId targetId) v
  = (incoming adjacency v + if decide (targetId = v) then 1 else 0)%nat.
Proof.
  intros [old Hold]. unfold pushNeighbor. rewrite Hold. revert Hold.
  induction adjacency as [| [k l] adjacency IH]; [done |].
  cbn [JsMap.get JsMap.set].
  destruct (decide (fromId = k)) as [-> | Hne].
  - intros [= ->]. rewrite !incoming_cons, List.filter_app, length_app.
    cbn [List.filter]. destruct (decide (targetId = v)) as [-> | Hd].
    + rewrite String.eqb_refl. cbn [length]. lia.
    + destruct (String.eqb_spec v targetId) as [-> | _]; [done |]. cbn [length]. lia.
  - intros Hold. rewrite !incoming_cons, (IH Hold). lia.
Qed.

Lemma inDegree_counts (neighbors : list string) (v : string) :
  forall m : JsMap.t string Z,
    JsMap.get
      (fold_left (fun m toId => JsMap.set m toId ((JsMap.get m toId ?? 0) + 1)%Z)
                 neighbors m) v
    = match JsMap.get m v, length (List.filter (String.eqb v) neighbors) with
      | None, O => None
      | d, n => Some ((d ?? 0) + Z.of_nat n)%Z
      end.
Proof.
  induction neighbors as [| t neighbors IH]; intros m.
  - cbn [fold_left List.filter length].
    destruct (JsMap.get m v) as [d |]; [| done]. cbn [Num.orElse]. f_equal. lia.
  - cbn [fold_left List.filter]. rewrite IH, get_set.
    destruct (String.eqb_spec v t) as [-> | Hne].
    + rewrite decide_True by done. cbn [length Num.orElse].
      destruct (JsMap.get m t) as [d |]; cbn [Num.orElse]; f_equal; lia.
    + rewrite decide_False by done. done.
Qed.

Lemma rankInDegree_get (nodeMap : JsMap.t string LayoutNode.t)
    (adjacency : JsMap.t string (list string)) (v : string) :
  JsMap.get (rankInDegree nodeMap adjacency) v
  = match JsMap.has nodeMap v, incoming adjacency v with
    | false, O => None
    | _, n => Some (Z.of_nat n)
    end.
Proof.
  unfold rankInDegree, JsMap.forEach.
  assert (H0 : JsMap.get
                 (fold_left (fun (s : JsMap.t string Z) (kv : string * LayoutNode.t) =>
                               JsMap.set s (fst kv) 0%Z) nodeMap JsMap.empty) v
               = if JsMap.has nodeMap v then Some 0%Z else None).
  { assert (Hgen : forall (l : JsMap.t string LayoutNode.t) (m : JsMap.t string Z),
              JsMap.get (fold_left (fun s kv => JsMap.set s (fst kv) 0%Z) l m) v
              = if JsMap.has l v then Some 0%Z else JsMap.get m v).
    { induction l as [| [k n] l IH]; intros m; [done |].
      cbn [fold_left fst]. rewrite IH, get_set. unfold JsMap.has. cbn [JsMap.get].
      destruct (decide (v = k)) as [-> | Hne].
      - rewrite decide_True by done. by destruct (JsMap.get l k).
      - rewrite decide_False by done. done. }
    apply Hgen. }
  revert H0.
  generalize (fold_left (fun (s : JsMap.t string Z) (kv : string * LayoutNode.t) =>
                           JsMap.set s (fst kv) 0%Z) nodeMap JsMap.empty).
  assert (Hgen : forall (adj : JsMap.t string (list string)) (m : JsMap.t string Z),
            JsMap.get
              (fold_left
                 (fun s kv =>
                    fold_left
                      (fun m toId => JsMap.set m toId ((JsMap.get m toId ?? 0) + 1)%Z)
                      (snd kv) s) adj m) v
            = match JsMap.get m v, incoming adj v with
              | None, O => None
              | d, n => Some ((d ?? 0) + Z.of_nat n)%Z
              end).
  { induction adj as [| [u ns] adj IH]; intros m.
    - cbn [fold_left]. unfold incoming. cbn [flat_map List.filter length].
      destruct (JsMap.get m v) as [d |]; [| done]. cbn [Num.orElse]. f_equal. lia.
    - cbn [fold_left snd]. rewrite IH, inDegree_counts, incoming_cons.
      destruct (JsMap.get m v) as [d |], (length (List.filter (String.eqb v) ns)) as [| a],
        (incoming adj v) as [| b]; cbn [Num.orElse Nat.add]; try done; f_equal; lia. }
  intros m Hm. rewrite Hgen, Hm.
  destruct (JsMap.has nodeMap v), (incoming adjacency v); cbn [Num.orElse]; try done.
Qed.

Lemma buildGraph_addNodes_inDegree (elements : list FlowElement.t) :
  forall g,
    Forall (fun kv => snd kv = []) (Graph.adjacency g) ->
    inDegreeCounts g ->
    let g' := fold_left buildGraph_addNode elements g in
    Forall (fun kv => snd kv = []) (Graph.adjacency g') /\ inDegreeCounts g'.
Proof.
  assert (Hzero : forall adjacency : JsMap.t string (list string),
            Forall (fun kv => snd kv = []) adjacency -> forall v, incoming adjacency v = 0%nat).
  { intros adjacency Hall v. induction Hall as [| [k l] adj Hl _ IH]; [done |].
    cbn [snd] in Hl. subst l. by rewrite incoming_cons, IH. }
  assert (Hset : forall (adjacency : JsMap.t string (list string)) k,
            Forall (fun kv => snd kv = []) adjacency ->
            Forall (fun kv => snd kv = []) (JsMap.set adjacency k [])).
  { intros adjacency k Hall. induction Hall as [| [k' l] adj Hl Hall IH].
    - by repeat constructor.
    - cbn [JsMap.set]. destruct (decide (k = k')); constructor; done. }
  induction elements as [| el elements IH]; intros g Hempty Hg; [done |].
  cbn [fold_left]. apply IH.
  - cbn [buildGraph_addNode Graph.adjacency]. by apply Hset.
  - intros v. cbn [buildGraph_addNode Graph.adjacency Graph.nodeMap Graph.inDegree].
    unfold JsMap.has. rewrite !get_set, (Hzero _ (Hset _ _ Hempty)).
    destruct (decide (FlowElement.id el = v)); [done |].
    specialize (Hg v). unfold JsMap.has in Hg. by rewrite Hg, (Hzero _ Hempty).
Qed.

Lemma buildGraph_addEdges_inDegree (el : FlowElement.t) (targets : list string) :
  forall g,
    is_Some (JsMap.get (Graph.adjacency g) (FlowElement.id el)) ->
    inDegreeCounts g ->
    inDegreeCounts (fold_left (buildGraph_addEdge el) targets g).
Proof.
  induction targets as [| t targets IH]; intros g Hel Hg; [done |].
  cbn [fold_left]. apply IH.
  - apply is_Some_get_keys.
    destruct (buildGraph_addEdges_spec el [t] g Hel) as (_ & Hk & _).
    cbn [fold_left] in Hk. rewrite Hk. by apply is_Some_get_keys.
  - unfold buildGraph_addEdge. destruct (JsMap.has (Graph.nodeMap g) t) eqn:Ht; [| done].
    intros v. cbn [Graph.inDegree Graph.nodeMap Graph.adjacency].
    rewrite get_set, incoming_pushNeighbor by done.
    pose proof (Hg t) as Hgt. rewrite Ht in Hgt.
    destruct (decide (t = v)) as [<- | Hne].
    + rewrite Ht, Hgt. cbn [Num.orElse]. f_equal. lia.
    + rewrite Hg. destruct (JsMap.has (Graph.nodeMap g) v); [| done]. f_equal. lia.
Qed.

Lemma buildGraph_inDegree (elements : list FlowElement.t) :
  inDegreeCounts (buildGraphFromElements elements).
Proof.
  unfold buildGraphFromElements.
  destruct (buildGraph_addNodes_inDegree elements
              (Graph.mk JsMap.empty JsMap.empty JsMap.empty)) as (_ & H0);
    [constructor | done |].
  destruct (buildGraph_addNodes_spec elements
              (Graph.mk JsMap.empty JsMap.empty JsMap.empty)) as (_ & Hk & Hn & _);
    [apply NoDup_nil_2 | intros k; simpl; split; by intros [? ?] |].
  set (g0 := fold_left buildGraph_addNode elements
               (Graph.mk JsMap.empty JsMap.empty JsMap.empty)) in *.
  assert (Hels : forall el, el ∈ elements ->
            is_Some (JsMap.get (Graph.adjacency g0) (FlowElement.id el))).
  { intros el Hin. apply Hk, Hn. right. by apply list_elem_of_fmap_2. }
  clearbody g0. clear Hk Hn. revert g0 H0 Hels.
  induction elements as [| el elements IH]; intros g Hg Hels; [done |].
  cbn [fold_left].
  destruct (buildGraph_addEdges_spec el (FlowElement.outgoing el ?? []) g)
    as (_ & Hk & _); [apply Hels, list_elem_of_here |].
  apply IH.
  - apply buildGraph_addEdges_inDegree; [apply Hels, list_elem_of_here | done].
  - intros el' Hin. apply is_Some_get_keys. rewrite Hk. apply is_Some_get_keys.
    by apply Hels, list_elem_of_further.
Qed.

(** X30: the in-degree that [buildGraphFromElements] returns for a node is
    the number of times the node is listed as a neighbour in the adjacency
    map it returns, an identifier that is no node has none, and the table
    that [assignRanks] builds for itself from the node map and the
    adjacency map is the same. *)
Theorem buildGraphFromElements_inDegree (elements : list FlowElement.t) (v : string) :
  let g := buildGraphFromElements elements in
  JsMap.get (Graph.inDegree g) v
  = (if JsMap.has (Graph.nodeMap g) v
     then Some (Z.of_nat (incoming (Graph.adjacency g) v)) else None)
  /\ JsMap.get (rankInDegree (Graph.nodeMap g) (Graph.adjacency g)) v
     = JsMap.get (Graph.inDegree g) v.
Proof.
  intros g. pose proof (buildGraph_inDegree elements v) as Hv. fold g in Hv.
  split; [done |]. rewrite rankInDegree_get, Hv.
  destruct (JsMap.has (Graph.nodeMap g) v) eqn:Hnode; [done |].
  destruct (incoming (Graph.adjacency g) v) as [| n] eqn:Hin; [done |].
  exfalso.
  destruct (buildGraph_structure elements) as (Hnd & _ & H1 & _ & H3).
  fold g in Hnd, H1, H3.
  assert (Hedge : exists u, edge (Graph.adjacency g) u v).
  { unfold incoming in Hin.
    assert (Hmem : v ∈ flat_map snd (Graph.adjacency g)).
    { destruct (List.filter (String.eqb v) (flat_map snd (Graph.adjacency g)))
        as [| t l] eqn:Hf; [done |].
      assert (Ht : In t (List.filter (String.eqb v) (flat_map snd (Graph.adjacency g))))
        by (rewrite Hf; by left).
      apply filter_In in Ht as [Ht ->%String.eqb_eq]. by apply list_elem_of_In. }
    apply list_elem_of_In, in_flat_map in Hmem as ([u ns] & Hu & Hns).
    exists u, ns. split; [| by apply list_elem_of_In].
    by apply elem_get; [| apply list_elem_of_In]. }
  destruct Hedge as [u Hedge].
  apply H3 in Hedge as (el & _ & _ & _ & Hv'). apply H1 in Hv'.
  unfold JsMap.has in Hnode. destruct Hv' as [node Hnode'].
  by rewrite Hnode' in Hnode.
Qed.

(** ** Rank assigner: the least layering *)

(** *** The in-degree table and the initial queue *)

Lemma inDegree_count_targets (neighbors : list string) :
  forall (seen : string -> Prop) (m : JsMap.t string Z),
    (forall v n, JsMap.get m v = Some n -> n <> 0%Z -> seen v) ->
    forall v n,
      JsMap.get
        (fold_left (fun m toId => JsMap.set m toId ((JsMap.get m toId ?? 0) + 1)%Z)
                   neighbors m) v = Some n ->
      n <> 0%Z -> seen v \/ v ∈ neighbors.
Proof.
  induction neighbors as [| t neighbors IH]; intros seen m Hm v n Hget Hn.
  - left. by apply (Hm v n).
  - cbn [fold_left] in Hget.
    assert (Hpre : forall x k,
              JsMap.get (JsMap.set m t ((JsMap.get m t ?? 0) + 1)%Z) x = Some k ->
              k <> 0%Z -> seen x \/ x = t).
    { intros x k. rewrite get_set. destruct (decide (t = x)) as [<- | Hne]; [by right |].
      intros Hx Hk. left. by apply (Hm x k). }
    destruct (IH (fun x => seen x \/ x = t) _ Hpre v n Hget Hn) as [[Hs | ->] | Hin].
    + by left.
    + right. apply list_elem_of_here.
    + right. by apply list_elem_of_further.
Qed.

Lemma rankInDegree_is_Some (nodeMap : JsMap.t string LayoutNode.t)
    (adjacency : JsMap.t string (list string)) (v : string) :
  is_Some (JsMap.get nodeMap v) -> is_Some (JsMap.get (rankInDegree nodeMap adjacency) v).
Proof.
  intros Hv. unfold rankInDegree, JsMap.forEach.
  assert (H0 : is_Some (JsMap.get
                 (fold_left (fun (s : JsMap.t string Z) (kv : string * LayoutNode.t) =>
                               JsMap.set s (fst kv) 0%Z) nodeMap JsMap.empty) v)).
  { apply is_Some_get_keys in Hv.
    assert (Hgen : forall (l : JsMap.t string LayoutNode.t) (m : JsMap.t string Z),
              is_Some (JsMap.get m v) \/ v ∈ JsMap.keys l ->
              is_Some (JsMap.get (fold_left (fun s kv => JsMap.set s (fst kv) 0%Z) l m) v)).
    { induction l as [| [k n] l IH]; intros m H.
      - destruct H as [? | ?%elem_of_nil]; done.
      - cbn [fold_left fst]. apply IH. unfold JsMap.keys in H. cbn [map fst] in H.
        rewrite elem_of_cons in H. destruct H as [H | [-> | H]].
        + left. by apply is_Some_get_set.
        + left. rewrite get_set_eq. eauto.
        + by right. }
    apply Hgen. by right. }
  revert H0. generalize (fold_left (fun (s : JsMap.t string Z) (kv : string * LayoutNode.t) =>
                               JsMap.set s (fst kv) 0%Z) nodeMap JsMap.empty).
  induction adjacency as [| [u ns] adjacency IH]; intros m Hm; [done |].
  cbn [fold_left fst snd]. apply IH. clear IH.
  revert m Hm. induction ns as [| t ns IHn]; intros m Hm; [done |].
  cbn [fold_left]. apply IHn. by apply is_Some_get_set.
Qed.

Lemma rankInDegree_nonzero (nodeMap : JsMap.t string LayoutNode.t)
    (adjacency : JsMap.t string (list string)) (v : string) (n : Z) :
  JsMap.get (rankInDegree nodeMap adjacency) v = Some n -> n <> 0%Z ->
  exists u neighbors, (u, neighbors) ∈ adjacency /\ v ∈ neighbors.
Proof.
  unfold rankInDegree, JsMap.forEach.
  set (m0 := fold_left (fun (s : JsMap.t string Z) (kv : string * LayoutNode.t) =>
                          JsMap.set s (fst kv) 0%Z) nodeMap JsMap.empty).
  assert (H0 : forall x k, JsMap.get m0 x = Some k -> k <> 0%Z -> False).
  { subst m0.
    assert (Hgen : forall (l : JsMap.t string LayoutNode.t) (m : JsMap.t string Z),
              (forall x k, JsMap.get m x = Some k -> k = 0%Z) ->
              forall x k,
                JsMap.get (fold_left (fun s kv => JsMap.set s (fst kv) 0%Z) l m) x = Some k ->
                k = 0%Z).
    { induction l as [| [k0 n0] l IH]; intros m Hm; [done |].
      cbn [fold_left fst]. apply IH. intros x k. rewrite get_set.
      destruct (decide (k0 = x)); [congruence | apply Hm]. }
    intros x k Hx Hk. apply Hk. by apply (Hgen nodeMap JsMap.empty) with x. }
  clearbody m0. intros Hget Hn.
  assert (Hgen : forall (l : JsMap.t string (list string)) (seen : string -> Prop)
                        (m : JsMap.t string Z),
            (forall x k, JsMap.get m x = Some k -> k <> 0%Z -> seen x) ->
            forall x k,
              JsMap.get
                (fold_left
                   (fun s kv =>
                      fold_left (fun m toId => JsMap.set m toId ((JsMap.get m toId ?? 0) + 1)%Z)
                                (snd kv) s) l m) x = Some k ->
              k <> 0%Z ->
              seen x \/ exists u neighbors, (u, neighbors) ∈ l /\ x ∈ neighbors).
  { induction l as [| [u ns] l IH]; intros seen m Hm x k Hx Hk.
    - left. by apply (Hm x k).
    - cbn [fold_left snd] in Hx.
      assert (Hpre : forall y j,
                JsMap.get
                  (fold_left
                     (fun m toId => JsMap.set m toId ((JsMap.get m toId ?? 0) + 1)%Z)
                     ns m) y = Some j ->
                j <> 0%Z -> seen y \/ y ∈ ns).
      { intros y j Hy Hj. by apply (inDegree_count_targets ns seen m Hm y j). }
      destruct (IH (fun y => seen y \/ y ∈ ns) _ Hpre x k Hx Hk)
        as [[Hs | Hin] | (u' & ns' & Hin & Hx')].
      + by left.
      + right. exists u, ns. split; [apply list_elem_of_here | done].
      + right. exists u', ns'. split; [by apply list_elem_of_further | done]. }
  destruct (Hgen adjacency (fun _ => False) m0 H0 v n Hget Hn) as [[] | H]. exact H.
Qed.

Lemma initialQueue_seeds (nodeMap : JsMap.t string LayoutNode.t)
    (adjacency : JsMap.t string (list string)) (k : string) (node : LayoutNode.t) :
  (k, node) ∈ nodeMap ->
  JsMap.get (rankInDegree nodeMap adjacency) (LayoutNode.id node) = Some 0%Z ->
  LayoutNode.id node ∈ initialQueue nodeMap adjacency.
Proof.
  intros Hin Hzero. unfold initialQueue, JsMap.forEach.
  set (inDegree := rankInDegree nodeMap adjacency) in *. clearbody inDegree.
  set (step := fun (q : list string) (kv : string * LayoutNode.t) =>
                 match JsMap.get inDegree (LayoutNode.id (snd kv)) with
                 | Some 0%Z => q ++ [LayoutNode.id (snd kv)]
                 | _ => q
                 end).
  assert (Hgen : forall (l : JsMap.t string LayoutNode.t) (q : list string),
            LayoutNode.id node ∈ q \/ (k, node) ∈ l ->
            LayoutNode.id node ∈ fold_left step l q).
  { induction l as [| [k' n'] l IH]; intros q H.
    - destruct H as [? | ?%elem_of_nil]; done.
    - cbn [fold_left]. apply IH. rewrite elem_of_cons in H.
      destruct H as [H | [[= <- <-] | H]].
      + left. unfold step. cbn [snd].
        destruct (JsMap.get inDegree (LayoutNode.id n')) as [[| ? | ?] |]; try done.
        apply elem_of_app. by left.
      + left. unfold step. cbn [snd]. rewrite Hzero.
        apply elem_of_app. right. apply list_elem_of_here.
      + by right. }
  specialize (Hgen nodeMap [] (or_intror Hin)).
  change (fold_left _ nodeMap []) with (fold_left step nodeMap []).
  destruct (fold_left step nodeMap []) as [| q0 queue]; [by apply elem_of_nil in Hgen |].
  done.
Qed.

Section Reachability.

Variable nodeMap : JsMap.t string LayoutNode.t.
Variable adjacency : JsMap.t string (list string).
Variable depth : string -> nat.

Hypothesis nodes_keyed : keyedById nodeMap.
Hypothesis adjacency_keys : NoDup (JsMap.keys adjacency).
Hypothesis sources_are_nodes :
  forall u, is_Some (JsMap.get adjacency u) -> is_Some (JsMap.get nodeMap u).
Hypothesis depth_increasing : increasingAlongEdges adjacency depth.

(** Without cycles every node can be reached from the initial queue. *)
Lemma nodes_reachable (n : nat) :
  forall u, (depth u <= n)%nat -> is_Some (JsMap.get nodeMap u) ->
    reachableFrom adjacency (initialQueue nodeMap adjacency) u.
Proof.
  induction n as [| n IH]; intros u Hd Hu.
  - destruct (rankInDegree_is_Some nodeMap adjacency u Hu) as [d Hdeg].
    destruct Hu as [node Hnode].
    pose proof (nodes_keyed _ _ (get_Some_elem _ _ _ Hnode)) as Hid.
    destruct (decide (d = 0%Z)) as [-> | Hnz].
    + exists u. split; [| apply rtc_refl].
      rewrite <- Hid. eapply initialQueue_seeds; [by apply get_Some_elem |].
      by rewrite Hid.
    + destruct (rankInDegree_nonzero _ _ _ _ Hdeg Hnz) as (p & ns & Hin & Hv).
      assert (He : edge adjacency p u) by (exists ns; split; [by apply elem_get | done]).
      specialize (depth_increasing _ _ He). lia.
  - destruct (rankInDegree_is_Some nodeMap adjacency u Hu) as [d Hdeg].
    destruct Hu as [node Hnode].
    pose proof (nodes_keyed _ _ (get_Some_elem _ _ _ Hnode)) as Hid.
    destruct (decide (d = 0%Z)) as [-> | Hnz].
    + exists u. split; [| apply rtc_refl].
      rewrite <- Hid. eapply initialQueue_seeds; [by apply get_Some_elem |].
      by rewrite Hid.
    + destruct (rankInDegree_nonzero _ _ _ _ Hdeg Hnz) as (p & ns & Hin & Hv).
      assert (He : edge adjacency p u) by (exists ns; split; [by apply elem_get | done]).
      pose proof (depth_increasing _ _ He) as Hlt.
      destruct (IH p) as (s & Hs & Hpath); [lia | |].
      * apply sources_are_nodes. exists ns. by apply elem_get.
      * exists s. split; [done |]. eapply rtc_r; eauto.
Qed.

Lemma relaxNeighbors_within (currId : string) (neighbors : list string) :
  (forall v, v ∈ neighbors -> (depth currId < depth v)%nat) ->
  forall nodeMap0 queue nodeMap' queue',
    ranksWithin depth nodeMap0 ->
    relaxNeighbors currId neighbors nodeMap0 queue = Some (nodeMap', queue') ->
    ranksWithin depth nodeMap'.
Proof.
  intros Hd nodeMap0 queue nodeMap' queue' Hw Hrun.
  by destruct (relaxNeighbors_potential depth currId neighbors Hd
                 nodeMap0 queue nodeMap' queue' Hw Hrun).
Qed.

Lemma assignRanks_loop_within (fuel : nat) :
  forall nodeMap0 queue nodeMap',
    ranksWithin depth nodeMap0 ->
    assignRanks_loop fuel adjacency nodeMap0 queue = Done nodeMap' ->
    ranksWithin depth nodeMap'.
Proof.
  induction fuel as [| fuel IH]; intros nodeMap0 queue nodeMap' Hw Hrun.
  - destruct queue; [| done]. by injection Hrun as <-.
  - destruct queue as [| currId queue]; [by injection Hrun as <- |].
    simpl in Hrun.
    destruct (relaxNeighbors _ _ _ _) as [[nodeMap1 queue1] |] eqn:Hrelax; [| done].
    eapply IH; [| exact Hrun].
    eapply relaxNeighbors_within; [| exact Hw | exact Hrelax].
    intros v Hv. apply depth_increasing.
    destruct (JsMap.get adjacency currId) as [neighbors |] eqn:Hadj;
      [| by apply elem_of_nil in Hv].
    by exists neighbors.
Qed.

End Reachability.

(** X12: on the graph of a diagram without cycles [assignRanks] completes,
    and the ranks it leaves are the least numbering that grows along every
    edge: each edge goes to a strictly greater rank, and no node is ranked
    above its number in any numbering that grows along the edges. *)
Theorem assignRanks_least_layering (elements : list FlowElement.t)
    (depth : string -> nat) :
  let g := buildGraphFromElements elements in
  increasingAlongEdges (Graph.adjacency g) depth ->
  (exists nodeMap',
     assignRanks
       (ranksPotential depth (Graph.nodeMap g)
          (initialQueue (Graph.nodeMap g) (Graph.adjacency g)))
       (Graph.nodeMap g) (Graph.adjacency g) = Done nodeMap')
  /\ forall (fuel : nat) (nodeMap' : JsMap.t string LayoutNode.t),
       assignRanks fuel (Graph.nodeMap g) (Graph.adjacency g) = Done nodeMap' ->
       (forall u v, edge (Graph.adjacency g) u v ->
          (rankOf nodeMap' u < rankOf nodeMap' v)%nat)
       /\ (forall numbering : string -> nat,
             increasingAlongEdges (Graph.adjacency g) numbering ->
             forall u, (rankOf nodeMap' u <= numbering u)%nat).
Proof.
  intros g Hdepth.
  split; [by apply assignRanks_completes_without_cycles |].
  intros fuel nodeMap' Hrun.
  destruct (buildGraph_structure elements) as (Hnd & Hsame & _ & _ & _).
  destruct (buildGraph_closed elements) as [Hnodes _].
  fold g in Hnd, Hsame, Hnodes.
  split.
  - intros u v Huv.
    assert (Hinv : ranksInvariant (Graph.adjacency g)
                     (initialQueue (Graph.nodeMap g) (Graph.adjacency g)) nodeMap' []).
    { eapply assignRanks_loop_invariant; [| exact Hrun].
      intros w [Hw | Hw]; [by left |].
      unfold g in Hw. rewrite buildGraph_ranks_zero in Hw. lia. }
    assert (Hreach : reachableFrom (Graph.adjacency g)
                       (initialQueue (Graph.nodeMap g) (Graph.adjacency g)) u).
    { apply (nodes_reachable (Graph.nodeMap g) (Graph.adjacency g) depth) with (depth u).
      - intros k n H. apply (Hnodes k n H).
      - done.
      - intros w Hw. by apply Hsame.
      - done.
      - lia.
      - apply Hsame. destruct Huv as (ns & Hget & _). eauto. }
    by destruct (settled_of_reachable _ _ _ _ Hinv Hreach v Huv).
  - intros numbering Hnum u.
    assert (Hw : ranksWithin numbering nodeMap').
    { eapply (assignRanks_loop_within (Graph.adjacency g) numbering Hnum); [| exact Hrun].
      intros k n H. rewrite (proj2 (Hnodes k n H)). lia. }
    unfold rankOf. destruct (JsMap.get nodeMap' u) as [node |] eqn:E; [| lia].
    apply (Hw u node). by apply get_Some_elem.
Qed.

Lemma assignRanks_least_layering_witness :
  let g := buildGraphFromElements chainElements in
  exists nodeMap',
    assignRanks 3 (Graph.nodeMap g) (Graph.adjacency g) = Done nodeMap'
    /\ (rankOf nodeMap' "Start_1" < rankOf nodeMap' "Task_A")%nat
    /\ (rankOf nodeMap' "Task_A" < rankOf nodeMap' "Task_B")%nat
    /\ (rankOf nodeMap' "Task_B" <= 2)%nat.
Proof.
  intros g.
  assert (Hdepth : increasingAlongEdges (Graph.adjacency g) chainDepth).
  { assert (Hadj : Graph.adjacency g
                   = [("Start_1", ["Task_A"]); ("Task_A", ["Task_B"]); ("Task_B", [])])
      by reflexivity.
    intros u v (ns & Hget & Hv). rewrite Hadj in Hget. cbn [JsMap.get] in Hget.
    repeat case_decide; simplify_eq;
      rewrite ?elem_of_cons, ?elem_of_nil in Hv;
      try (by destruct Hv as [-> | []]; vm_compute; lia); done. }
  destruct (assignRanks 3 (Graph.nodeMap g) (Graph.adjacency g)) as [nodeMap' | | |] eqn:Hrun;
    [| vm_compute in Hrun; discriminate Hrun
     | vm_compute in Hrun; discriminate Hrun
     | vm_compute in Hrun; discriminate Hrun].
  exists nodeMap'. split; [reflexivity |].
  destruct (proj2 (assignRanks_least_layering chainElements chainDepth Hdepth)
              3%nat nodeMap' Hrun) as [Hedges Hleast].
  split; [| split].
  - apply Hedges. exists ["Task_A"]. split; [reflexivity | apply list_elem_of_here].
  - apply Hedges. exists ["Task_B"]. split; [reflexivity | apply list_elem_of_here].
  - exact (Hleast chainDepth Hdepth "Task_B").
Defined.

(** ** Rank assigner: what it leaves alone *)

Lemma ranksRaised_refl (nodeMap : JsMap.t string LayoutNode.t) :
  ranksRaised nodeMap nodeMap.
Proof.
  split; [done |]. intros id node Hget. exists node.
  split; [done |]. split; [by destruct node | done].
Qed.

Lemma ranksRaised_trans (m1 m2 m3 : JsMap.t string LayoutNode.t) :
  ranksRaised m1 m2 -> ranksRaised m2 m3 -> ranksRaised m1 m3.
Proof.
  intros [Hk1 H1] [Hk2 H2]. split; [congruence |].
  intros id n3 H3. destruct (H2 id n3 H3) as (n2 & Hn2 & E2 & L2).
  destruct (H1 id n2 Hn2) as (n1 & Hn1 & E1 & L1).
  exists n1. split; [done |]. split; [| lia].
  rewrite E2, E1. by destruct n1.
Qed.

Lemma ranksRaised_set (nodeMap : JsMap.t string LayoutNode.t) (id : string)
    (node : LayoutNode.t) (rank : nat) :
  JsMap.get nodeMap id = Some node -> (LayoutNode.rank node <= rank)%nat ->
  ranksRaised nodeMap (JsMap.set nodeMap id (LayoutNode.setRank node rank)).
Proof.
  intros Hget Hle. split.
  - rewrite keys_set. unfold JsMap.has. by rewrite Hget.
  - intros id' node'. rewrite get_set.
    destruct (decide (id = id')) as [<- | Hne].
    + intros [= <-]. exists node. split; [done |]. split; [by destruct node | done].
    + intros H. exists node'. split; [done |]. split; [by destruct node' | done].
Qed.

Lemma relaxNeighbors_ranksRaised (currId : string) (neighbors : list string) :
  forall nodeMap queue nodeMap' queue',
    relaxNeighbors currId neighbors nodeMap queue = Some (nodeMap', queue') ->
    ranksRaised nodeMap nodeMap'.
Proof.
  induction neighbors as [| nextId neighbors IH]; intros nodeMap queue nodeMap' queue' Hrun.
  - simpl in Hrun. injection Hrun as <- <-. apply ranksRaised_refl.
  - simpl in Hrun.
    destruct (JsMap.get nodeMap nextId) as [nextNode |] eqn:Hnext; [| done].
    destruct (JsMap.get nodeMap currId) as [currNode |] eqn:Hcurr; [| done].
    destruct (Nat.leb_spec (LayoutNode.rank nextNode) (LayoutNode.rank currNode))
      as [Hle | Hgt]; [| by eapply IH].
    eapply ranksRaised_trans; [| eapply IH; exact Hrun].
    apply ranksRaised_set; [done | lia].
Qed.

Lemma assignRanks_loop_ranksRaised (adjacency : JsMap.t string (list string))
    (fuel : nat) :
  forall nodeMap queue nodeMap',
    assignRanks_loop fuel adjacency nodeMap queue = Done nodeMap' ->
    ranksRaised nodeMap nodeMap'.
Proof.
  induction fuel as [| fuel IH]; intros nodeMap queue nodeMap' Hrun.
  - destruct queue; [| done]. injection Hrun as <-. apply ranksRaised_refl.
  - destruct queue as [| currId queue]; [injection Hrun as <-; apply ranksRaised_refl |].
    simpl in Hrun.
    destruct (relaxNeighbors _ _ _ _) as [[nodeMap1 queue1] |] eqn:Hrelax; [| done].
    eapply ranksRaised_trans; [by eapply relaxNeighbors_ranksRaised | by eapply IH].
Qed.

(** X13: [assignRanks] changes ranks only, and only upwards: when it
    completes, the node map has the same identifiers in the same order,
    every node keeps its element, lane and size, and no rank is lower than
    before. *)
Theorem assignRanks_changes_ranks_only (fuel : nat)
    (nodeMap : JsMap.t string LayoutNode.t) (adjacency : JsMap.t string (list string))
    (nodeMap' : JsMap.t string LayoutNode.t) :
  assignRanks fuel nodeMap adjacency = Done nodeMap' ->
  JsMap.keys nodeMap' = JsMap.keys nodeMap
  /\ forall id node', JsMap.get nodeMap' id = Some node' ->
       exists node, JsMap.get nodeMap id = Some node
         /\ LayoutNode.id node' = LayoutNode.id node
         /\ LayoutNode.element node' = LayoutNode.element node
         /\ LayoutNode.laneId node' = LayoutNode.laneId node
         /\ LayoutNode.width node' = LayoutNode.width node
         /\ LayoutNode.height node' = LayoutNode.height node
         /\ (LayoutNode.rank node <= LayoutNode.rank node')%nat.
Proof.
  intros Hrun. apply assignRanks_loop_ranksRaised in Hrun as [Hkeys Hnodes].
  split; [done |]. intros id node' Hget.
  destruct (Hnodes id node' Hget) as (node & Hnode & -> & Hle).
  exists node. by repeat split.
Qed.

Lemma assignRanks_changes_ranks_only_witness :
  let g := buildGraphFromElements chainElements in
  exists nodeMap',
    assignRanks 3 (Graph.nodeMap g) (Graph.adjacency g) = Done nodeMap'
    /\ JsMap.keys nodeMap' = ["Start_1"; "Task_A"; "Task_B"].
Proof.
  intros g.
  destruct (assignRanks 3 (Graph.nodeMap g) (Graph.adjacency g)) as [nodeMap' | | |] eqn:Hrun;
    [| vm_compute in Hrun; discriminate Hrun
     | vm_compute in Hrun; discriminate Hrun
     | vm_compute in Hrun; discriminate Hrun].
  exists nodeMap'. split; [reflexivity |].
  by destruct (assignRanks_changes_ranks_only 3 (Graph.nodeMap g) (Graph.adjacency g)
                 nodeMap' Hrun) as [-> _].
Defined.

(** ** Lane data *)

Lemma buildLaneData_addNode_buckets (node : LayoutNode.t) (processed : list LayoutNode.t)
    (laneData : JsMap.t string LaneMeta.t) (maxGlobalRank : nat) :
  (forall k meta r, JsMap.get laneData k = Some meta ->
     bucket meta r = List.filter (inBucket k r) processed) ->
  let st := buildLaneData_addNode node (laneData, maxGlobalRank) in
  (forall k meta r, JsMap.get (fst st) k = Some meta ->
     bucket meta r = List.filter (inBucket k r) (processed ++ [node]))
  /\ JsMap.keys (fst st) = JsMap.keys laneData
  /\ snd st = Nat.max maxGlobalRank (LayoutNode.rank node).
Proof.
  intros Hinv. unfold buildLaneData_addNode.
  assert (Hmax : (if (maxGlobalRank <? LayoutNode.rank node)%nat
                  then LayoutNode.rank node else maxGlobalRank)
                 = Nat.max maxGlobalRank (LayoutNode.rank node)).
  { destruct (Nat.ltb_spec maxGlobalRank (LayoutNode.rank node)); lia. }
  rewrite Hmax.
  assert (Hother : forall k r, LayoutNode.laneId node <> k ->
            List.filter (inBucket k r) (processed ++ [node])
            = List.filter (inBucket k r) processed).
  { intros k r Hne. rewrite List.filter_app. cbn [List.filter]. unfold inBucket at 2.
    replace (String.eqb (LayoutNode.laneId node) k) with false
      by (symmetry; by apply String.eqb_neq).
    cbn [andb]. by rewrite app_nil_r. }
  destruct (JsMap.get laneData (LayoutNode.laneId node)) as [meta |] eqn:Hmeta;
    cbn [fst snd].
  - split; [| split; [| done]].
    + intros k meta' r. rewrite get_set.
      destruct (decide (LayoutNode.laneId node = k)) as [<- | Hne].
      * intros [= <-]. unfold bucket. cbn [LaneMeta.setNodesByRank LaneMeta.nodesByRank].
        set (nb := LaneMeta.nodesByRank meta).
        set (nb' := if JsMap.has nb (LayoutNode.rank node) then nb
                    else JsMap.set nb (LayoutNode.rank node) []).
        assert (Hnb : forall r', JsMap.get nb' r' ?? [] = JsMap.get nb r' ?? []).
        { intros r'. subst nb'. unfold JsMap.has.
          destruct (JsMap.get nb (LayoutNode.rank node)) eqn:E; [done |].
          rewrite get_set. destruct (decide (LayoutNode.rank node = r')) as [<- | ?];
            [by rewrite E | done]. }
        rewrite get_set, List.filter_app. cbn [List.filter]. unfold inBucket at 2.
        rewrite String.eqb_refl. cbn [andb].
        destruct (decide (LayoutNode.rank node = r)) as [<- | Hner].
        -- rewrite Nat.eqb_refl. cbn [Num.orElse]. rewrite Hnb.
           f_equal. apply (Hinv _ _ _ Hmeta).
        -- replace (LayoutNode.rank node =? r)%nat with false
             by (symmetry; by apply Nat.eqb_neq).
           rewrite app_nil_r, Hnb. apply (Hinv _ _ _ Hmeta).
      * intros Hk. rewrite Hother by done. by apply Hinv.
    + rewrite keys_set. unfold JsMap.has. by rewrite Hmeta.
  - split; [| done]. intros k meta r Hk.
    rewrite Hother; [by apply Hinv |]. intros <-. congruence.
Qed.

Lemma buildLaneData_lanes_keys (lanes : list LaneInput.t) :
  forall laneData0 : JsMap.t string LaneMeta.t,
    let laneData :=
      fold_left
        (fun laneData lane =>
           JsMap.set laneData (LaneInput.id lane)
             {| LaneMeta.id := LaneInput.id lane;
                LaneMeta.element := LaneInput.element lane;
                LaneMeta.maxStack := 1;
                LaneMeta.y := LaneInput.y lane;
                LaneMeta.height := LaneInput.height lane;
                LaneMeta.nodesByRank := JsMap.empty |})
        lanes laneData0 in
    (forall k, is_Some (JsMap.get laneData k)
               <-> is_Some (JsMap.get laneData0 k) \/ k ∈ map LaneInput.id lanes)
    /\ ((forall k meta r, JsMap.get laneData0 k = Some meta -> bucket meta r = []) ->
        forall k meta r, JsMap.get laneData k = Some meta -> bucket meta r = []).
Proof.
  induction lanes as [| lane lanes IH]; intros laneData0.
  - cbn [fold_left map]. split; [| done].
    intros k. split; [by left | by intros [? | ?%elem_of_nil]].
  - cbn [fold_left map]. destruct (IH (JsMap.set laneData0 (LaneInput.id lane)
             {| LaneMeta.id := LaneInput.id lane;
                LaneMeta.element := LaneInput.element lane;
                LaneMeta.maxStack := 1;
                LaneMeta.y := LaneInput.y lane;
                LaneMeta.height := LaneInput.height lane;
                LaneMeta.nodesByRank := JsMap.empty |})) as [Hk He].
    split.
    + intros k. rewrite Hk, get_set, elem_of_cons.
      destruct (decide (LaneInput.id lane = k)) as [<- | Hne]; [| naive_solver].
      split; [intros _; right; by left | eauto].
    + intros H0. apply He. intros k meta r. rewrite get_set.
      destruct (decide (LaneInput.id lane = k)); [by intros [= <-] | apply H0].
Qed.

Lemma buildLaneData_nodes_fold (rest : list (string * LayoutNode.t)) :
  forall (processed : list LayoutNode.t) (laneData : JsMap.t string LaneMeta.t)
         (maxGlobalRank : nat),
    (forall k meta r, JsMap.get laneData k = Some meta ->
       bucket meta r = List.filter (inBucket k r) processed) ->
    let st := fold_left (fun s kv => buildLaneData_addNode (snd kv) s) rest
                        (laneData, maxGlobalRank) in
    (forall k meta r, JsMap.get (fst st) k = Some meta ->
       bucket meta r = List.filter (inBucket k r) (processed ++ map snd rest))
    /\ JsMap.keys (fst st) = JsMap.keys laneData
    /\ snd st = fold_left Nat.max (map (fun kv => LayoutNode.rank (snd kv)) rest)
                          maxGlobalRank.
Proof.
  induction rest as [| [k0 node] rest IH]; intros processed laneData maxGlobalRank Hinv.
  - cbn [fold_left map fst snd]. rewrite app_nil_r. done.
  - cbn [fold_left map snd].
    destruct (buildLaneData_addNode_buckets node processed laneData maxGlobalRank Hinv)
      as (Hb & Hk & Hm).
    destruct (buildLaneData_addNode node (laneData, maxGlobalRank)) as [laneData1 mgr1].
    cbn [fst snd] in Hb, Hk, Hm. subst mgr1.
    destruct (IH (processed ++ [node]) laneData1
                (Nat.max maxGlobalRank (LayoutNode.rank node)) Hb) as (Hb' & Hk' & Hm').
    split; [| split; [congruence | done]].
    intros k meta r Hget. rewrite (Hb' k meta r Hget). by rewrite <- app_assoc.
Qed.

Lemma fold_max_spec (l : list nat) :
  forall m0 : nat,
    let m := fold_left Nat.max l m0 in
    (m0 <= m)%nat /\ (forall x, x ∈ l -> (x <= m)%nat) /\ (m = m0 \/ m ∈ l).
Proof.
  induction l as [| a l IH]; intros m0; cbn [fold_left].
  - split; [done |]. split; [by intros x ?%elem_of_nil | by left].
  - destruct (IH (Nat.max m0 a)) as (H1 & H2 & H3). split; [lia |]. split.
    + intros x [-> | Hx]%elem_of_cons; [lia | by apply H2].
    + destruct H3 as [-> | H3]; [| right; by apply list_elem_of_further].
      destruct (Nat.max_spec m0 a) as [[_ ->] | [_ ->]];
        [right; apply list_elem_of_here | by left].
Qed.

Lemma buildLaneData_structure (lanes : list LaneInput.t)
    (nodeMap : JsMap.t string LayoutNode.t) :
  let laneData := fst (buildLaneData lanes nodeMap) in
  let maxGlobalRank := snd (buildLaneData lanes nodeMap) in
  (forall k, is_Some (JsMap.get laneData k) <-> k ∈ map LaneInput.id lanes)
  /\ (forall k meta r, JsMap.get laneData k = Some meta ->
        bucket meta r = List.filter (inBucket k r) (JsMap.values nodeMap))
  /\ (forall node, node ∈ JsMap.values nodeMap ->
        (LayoutNode.rank node <= maxGlobalRank)%nat)
  /\ (maxGlobalRank = 0%nat
      \/ exists node, node ∈ JsMap.values nodeMap /\ LayoutNode.rank node = maxGlobalRank).
Proof.
  unfold buildLaneData, JsMap.forEach. cbv zeta.
  destruct (buildLaneData_lanes_keys lanes JsMap.empty) as [Hk He]. cbv zeta in Hk, He.
  set (laneData0 := fold_left _ lanes JsMap.empty) in *. clearbody laneData0.
  destruct (buildLaneData_nodes_fold nodeMap [] laneData0 0) as (Hb & Hkeys & Hm).
  { intros k meta r Hget. cbn [List.filter]. by apply (He ltac:(done) k meta r). }
  set (st := fold_left _ nodeMap (laneData0, 0%nat)) in *. clearbody st.
  cbn [app] in Hb.
  split; [| split; [exact Hb |]].
  - intros k. rewrite !is_Some_get_keys, Hkeys, <- is_Some_get_keys, Hk.
    split; [by intros [[? ?] | ?] | by right].
  - rewrite Hm.
    destruct (fold_max_spec (map (fun kv => LayoutNode.rank (snd kv)) nodeMap) 0)
      as (_ & Hle & Hat). split.
    + intros node (kv & -> & Hin)%list_elem_of_fmap. apply Hle.
      apply list_elem_of_fmap. by exists kv.
    + destruct Hat as [? | (kv & Heq & Hin)%list_elem_of_fmap]; [by left |].
      right. exists (snd kv). split; [| done].
      apply list_elem_of_fmap. by exists kv.
Qed.

(** X14: [buildLaneData] makes one entry per lane identifier and files
    every node under its lane and rank, in node-map order: the list kept
    for a lane and a rank holds exactly the nodes of that lane and rank.
    Nodes of unknown lanes are left out, but still count for
    [maxGlobalRank], the greatest rank of any node (0 without nodes). *)
Theorem buildLaneData_buckets (lanes : list LaneInput.t)
    (nodeMap : JsMap.t string LayoutNode.t) :
  let laneData := fst (buildLaneData lanes nodeMap) in
  let maxGlobalRank := snd (buildLaneData lanes nodeMap) in
  (forall laneId, is_Some (JsMap.get laneData laneId)
                  <-> laneId ∈ map LaneInput.id lanes)
  /\ (forall laneId meta r, JsMap.get laneData laneId = Some meta ->
        JsMap.get (LaneMeta.nodesByRank meta) r ?? []
        = List.filter
            (fun n => String.eqb (LayoutNode.laneId n) laneId
                      && Nat.eqb (LayoutNode.rank n) r)
            (JsMap.values nodeMap))
  /\ (forall node, node ∈ JsMap.values nodeMap ->
        (LayoutNode.rank node <= maxGlobalRank)%nat)
  /\ (maxGlobalRank = 0%nat
      \/ exists node, node ∈ JsMap.values nodeMap /\ LayoutNode.rank node = maxGlobalRank).
Proof. apply buildLaneData_structure. Qed.

Lemma buildLaneData_buckets_witness :
  exists meta,
    JsMap.get (fst (buildLaneData (map laneInputOf [sampleLane]) chainRanked)) "Lane_1"
    = Some meta
    /\ map LayoutNode.id (JsMap.get (LaneMeta.nodesByRank meta) 1%nat ?? []) = ["Task_A"]
    /\ snd (buildLaneData (map laneInputOf [sampleLane]) chainRanked) = 2%nat.
Proof.
  destruct (buildLaneData_buckets (map laneInputOf [sampleLane]) chainRanked)
    as (Hkeys & Hbuckets & _).
  destruct (proj2 (Hkeys "Lane_1")) as [meta Hmeta]; [apply list_elem_of_here |].
  exists meta. split; [exact Hmeta |]. split; [| reflexivity].
  rewrite (Hbuckets "Lane_1" meta 1%nat Hmeta). reflexivity.
Defined.

Lemma get_fold_set {V : Type} (f : nat -> V) (l : list nat) :
  forall (m : JsMap.t nat V) (r : nat),
    JsMap.get (fold_left (fun m i => JsMap.set m i (f i)) l m) r
    = if decide (r ∈ l) then Some (f r) else JsMap.get m r.
Proof.
  induction l as [| a l IH]; intros m r; cbn [fold_left].
  - rewrite decide_False; [done | by intros ?%elem_of_nil].
  - rewrite IH, get_set.
    destruct (decide (r ∈ l)) as [Hin | Hnin].
    + rewrite decide_True; [done | by apply list_elem_of_further].
    + destruct (decide (a = r)) as [-> | Hne].
      * rewrite decide_True; [done | apply list_elem_of_here].
      * rewrite decide_False; [done |]. intros [-> | ?]%elem_of_cons; done.
Qed.

Lemma computeRankWidths_get (laneData : JsMap.t string LaneMeta.t)
    (maxGlobalRank r : nat) :
  JsMap.get (computeRankWidths laneData maxGlobalRank) r
  = if (r <=? maxGlobalRank)%nat then Some (columnWidth laneData r) else None.
Proof.
  unfold computeRankWidths, forRange.
  rewrite (get_fold_set (columnWidth laneData)).
  destruct (Nat.leb_spec r maxGlobalRank).
  - rewrite decide_True; [done |]. apply elem_of_seq. lia.
  - rewrite decide_False; [done |]. rewrite elem_of_seq. lia.
Qed.

Lemma running_max_spec {A} (f : A -> Q) (l : list A) :
  forall m0 : Q,
    let m := fold_left (fun m a => if Num.gtb (f a) m then f a else m) l m0 in
    m0 <= m /\ (forall a, a ∈ l -> f a <= m) /\ (m = m0 \/ exists a, a ∈ l /\ m = f a).
Proof.
  induction l as [| a l IH]; intros m0; cbn [fold_left].
  - split; [apply Qle_refl |]. split; [by intros a ?%elem_of_nil | by left].
  - set (m1 := if Num.gtb (f a) m0 then f a else m0).
    assert (H1 : m0 <= m1 /\ f a <= m1 /\ (m1 = m0 \/ m1 = f a)).
    { subst m1. destruct (Num.gtb (f a) m0) eqn:E.
      - apply gtb_gt in E. split; [by apply Qlt_le_weak |]. split; [apply Qle_refl | by right].
      - apply gtb_le in E. split; [apply Qle_refl |]. split; [done | by left]. }
    destruct (IH m1) as (Hm & Hl & Hat). destruct H1 as (H0 & Ha & Hm1).
    split; [by eapply Qle_trans |]. split.
    + intros b [-> | Hb]%elem_of_cons; [by eapply Qle_trans | by apply Hl].
    + destruct Hat as [-> | (b & Hb & ->)].
      * destruct Hm1 as [-> | ->]; [by left |].
        right. exists a. split; [apply list_elem_of_here | done].
      * right. exists b. split; [by apply list_elem_of_further | done].
Qed.

Lemma columnWidth_spec (laneData : JsMap.t string LaneMeta.t) (r : nat) :
  100 <= columnWidth laneData r
  /\ (forall k meta n, (k, meta) ∈ laneData ->
        n ∈ (JsMap.get (LaneMeta.nodesByRank meta) r ?? []) ->
        LayoutNode.width n <= columnWidth laneData r)
  /\ (columnWidth laneData r = 100
      \/ exists k meta n, (k, meta) ∈ laneData
           /\ n ∈ (JsMap.get (LaneMeta.nodesByRank meta) r ?? [])
           /\ columnWidth laneData r = LayoutNode.width n).
Proof.
  unfold columnWidth, JsMap.forEach. cbv zeta.
  generalize (100 : Q).
  induction laneData as [| [k meta] laneData IH]; intros w0; cbn [fold_left fst snd].
  - split; [apply Qle_refl |]. split; [by intros ? ? ? ?%elem_of_nil | by left].
  - destruct (running_max_spec LayoutNode.width
                (JsMap.get (LaneMeta.nodesByRank meta) r ?? []) w0) as (H0 & Hl & Hat).
    cbv zeta in H0, Hl, Hat.
    set (w1 := fold_left _ (JsMap.get (LaneMeta.nodesByRank meta) r ?? []) w0) in *.
    destruct (IH w1) as (I0 & Il & Iat).
    split; [by eapply Qle_trans |]. split.
    + intros k' meta' n [[= -> ->] | Hin]%elem_of_cons Hn.
      * eapply Qle_trans; [by apply Hl | done].
      * by apply (Il k' meta' n).
    + destruct Iat as [-> | (k' & meta' & n & Hin & Hn & ->)].
      * destruct Hat as [-> | (n & Hn & ->)]; [by left |].
        right. exists k, meta, n. split; [apply list_elem_of_here | done].
      * right. exists k', meta', n. split; [by apply list_elem_of_further | done].
Qed.

(** X15: [computeRankWidths] has one entry for every rank from 0 to
    [maxGlobalRank] and none beyond; the width recorded for a rank is at
    least 100 and at least the width of every node of that rank in any
    lane, and it is 100 or the width of one of those nodes. *)
Theorem computeRankWidths_widest (laneData : JsMap.t string LaneMeta.t)
    (maxGlobalRank : nat) :
  let rankWidths := computeRankWidths laneData maxGlobalRank in
  (forall r, (maxGlobalRank < r)%nat -> JsMap.get rankWidths r = None)
  /\ (forall r, (r <= maxGlobalRank)%nat ->
        exists w, JsMap.get rankWidths r = Some w
          /\ 100 <= w
          /\ (forall k meta n, (k, meta) ∈ laneData ->
                n ∈ (JsMap.get (LaneMeta.nodesByRank meta) r ?? []) ->
                LayoutNode.width n <= w)
          /\ (w = 100
              \/ exists k meta n, (k, meta) ∈ laneData
                   /\ n ∈ (JsMap.get (LaneMeta.nodesByRank meta) r ?? [])
                   /\ w = LayoutNode.width n)).
Proof.
  intros rankWidths. subst rankWidths. split.
  - intros r Hr. rewrite computeRankWidths_get.
    by replace (r <=? maxGlobalRank)%nat with false by (symmetry; apply Nat.leb_gt; lia).
  - intros r Hr. exists (columnWidth laneData r). rewrite computeRankWidths_get.
    replace (r <=? maxGlobalRank)%nat with true by (symmetry; apply Nat.leb_le; lia).
    split; [done |]. apply columnWidth_spec.
Qed.

Lemma computeRankWidths_widest_witness :
  let lane := sampleShape "Lane_1" "bpmn:Lane" (Some "Participant_1") 30 0 600 120 None in
  let nodeMap := Graph.nodeMap (buildGraphFromElements chainElements) in
  let laneData := fst (buildLaneData (map laneInputOf [lane]) nodeMap) in
  JsMap.get (computeRankWidths laneData 0) 1%nat = None
  /\ exists w, JsMap.get (computeRankWidths laneData 0) 0%nat = Some w /\ 100 <= w.
Proof.
  intros lane nodeMap laneData.
  destruct (computeRankWidths_widest laneData 0) as [Hnone Hsome].
  split; [apply Hnone; lia |].
  destruct (Hsome 0%nat ltac:(lia)) as (w & Hw & Hle & _).
  exists w. by split.
Defined.

Lemma Qmax_cases (a b : Q) : Qmax a b = a \/ Qmax a b = b.
Proof.
  unfold Qmax, GenericMinMax.gmax. destruct (a ?= b); auto.
Qed.

Lemma maxStackHeight_attained (constants : LayoutConstants.t) (meta : LaneMeta.t)
    (maxGlobalRank : nat) :
  maxStackHeight constants meta maxGlobalRank = 0
  \/ exists r, (r <= maxGlobalRank)%nat
       /\ maxStackHeight constants meta maxGlobalRank
          = stackHeight constants (JsMap.get (LaneMeta.nodesByRank meta) r ?? []).
Proof.
  unfold maxStackHeight, forRange.
  destruct (running_max_spec
              (fun r => stackHeight constants
                          (JsMap.get (LaneMeta.nodesByRank meta) r ?? []))
              (seq 0 (Z.to_nat (Z.of_nat maxGlobalRank + 1 - Z.of_nat 0))) 0)
    as (_ & _ & [H | (r & Hr & H)]).
  - by left.
  - right. exists r. split; [| done]. apply elem_of_seq in Hr. lia.
Qed.

(** X16: [computeLaneHeights] makes no lane higher than needed.  The height
    it gives a lane is the height of the lane's element (0 when it has
    none), or twice the lane padding, or the height of one of the lane's
    rank stacks plus twice the lane padding; it does not depend on the
    height the lane record carried, so a second run changes nothing. *)
Theorem computeLaneHeights_exact (laneData : JsMap.t string LaneMeta.t)
    (maxGlobalRank : nat) (constants : LayoutConstants.t) :
  (forall laneId meta, JsMap.get laneData laneId = Some meta ->
     exists meta',
       JsMap.get (computeLaneHeights laneData maxGlobalRank constants) laneId = Some meta'
       /\ (LaneMeta.height meta' = Element.height (LaneMeta.element meta) ?? 0
           \/ LaneMeta.height meta' = 0 + LayoutConstants.lanePadding constants * 2
           \/ exists r, (r <= maxGlobalRank)%nat
                /\ LaneMeta.height meta'
                   = stackHeight constants
                       (JsMap.get (LaneMeta.nodesByRank meta) r ?? [])
                     + LayoutConstants.lanePadding constants * 2))
  /\ computeLaneHeights (computeLaneHeights laneData maxGlobalRank constants)
       maxGlobalRank constants
     = computeLaneHeights laneData maxGlobalRank constants.
Proof.
  split.
  - intros laneId meta Hmeta. exists (computeLaneHeight constants maxGlobalRank meta).
    rewrite get_computeLaneHeights, Hmeta. split; [done |].
    unfold computeLaneHeight. cbn [LaneMeta.setHeight LaneMeta.height].
    destruct (Qmax_cases (Element.height (LaneMeta.element meta) ?? 0)
                (maxStackHeight constants meta maxGlobalRank
                 + LayoutConstants.lanePadding constants * 2)) as [-> | ->]; [by left |].
    right. destruct (maxStackHeight_attained constants meta maxGlobalRank)
      as [-> | (r & Hr & ->)]; [by left | right; by exists r].
  - unfold computeLaneHeights. rewrite map_map. cbn [fst snd].
    apply map_ext. intros [k meta]. done.
Qed.

Lemma computeLaneHeights_exact_witness :
  exists meta',
    JsMap.get
      (computeLaneHeights
         (fst (buildLaneData (map laneInputOf [sampleLane]) chainRanked)) 2
         DEFAULT_LAYOUT_CONSTANTS) "Lane_1" = Some meta'
    /\ LaneMeta.height meta' == 240.
Proof.
  destruct (JsMap.get (fst (buildLaneData (map laneInputOf [sampleLane]) chainRanked))
              "Lane_1") as [meta |] eqn:Hmeta;
    [| vm_compute in Hmeta; discriminate Hmeta].
  destruct (proj1 (computeLaneHeights_exact
                     (fst (buildLaneData (map laneInputOf [sampleLane]) chainRanked)) 2
                     DEFAULT_LAYOUT_CONSTANTS) "Lane_1" meta Hmeta)
    as (meta' & Hget & _).
  exists meta'. split; [exact Hget |].
  vm_compute in Hget. injection Hget as <-. reflexivity.
Defined.

(** ** Lane and node placement *)

Lemma sort_insert_perm {A} (neg : A -> A -> bool) (a : A) (sorted : list A) :
  sort_insert neg a sorted ≡ₚ a :: sorted.
Proof.
  induction sorted as [| b sorted IH]; cbn [sort_insert]; [done |].
  destruct (neg a b); [done |]. rewrite IH. apply Permutation_swap.
Qed.

Lemma sort_perm {A} (neg : A -> A -> bool) (l : list A) : sort neg l ≡ₚ l.
Proof.
  unfold sort.
  assert (Hgen : forall acc, fold_left (fun sorted a => sort_insert neg a sorted) l acc
                             ≡ₚ acc ++ l).
  { induction l as [| a l IH]; intros acc; cbn [fold_left]; [by rewrite app_nil_r |].
    rewrite IH, sort_insert_perm. cbn [app]. apply Permutation_middle. }
  apply (Hgen []).
Qed.

Lemma placeLanes_spec (rootElementId : option string) (original : JsMap.t string LaneMeta.t)
    (todo : list (string * LaneMeta.t)) :
  forall (laneData : JsMap.t string LaneMeta.t) (laneResizes : list LaneResize.t)
         (currentLaneY : Q),
    (forall entry, entry ∈ todo -> entry ∈ original) ->
    (forall k meta', JsMap.get laneData k = Some meta' ->
       exists meta, (k, meta) ∈ original /\ placedLane meta meta') ->
    exists laneData' new currentLaneY',
      fold_left (computeLayout_placeLane rootElementId) todo
                (laneData, laneResizes, currentLaneY)
      = (laneData', laneResizes ++ new, currentLaneY')
      /\ (forall k, is_Some (JsMap.get laneData k) -> is_Some (JsMap.get laneData' k))
      /\ (forall k meta', JsMap.get laneData' k = Some meta' ->
            exists meta, (k, meta) ∈ original /\ placedLane meta meta')
      /\ (forall k, k ∉ map fst todo -> JsMap.get laneData' k = JsMap.get laneData k)
      /\ (NoDup (map fst todo) ->
          Forall2 (fun entry r =>
                     JsMap.get laneData' (fst entry)
                     = Some (LaneMeta.setY (snd entry) (LaneResize.y r))) todo new)
      /\ Forall2 (resizeOf rootElementId) todo new
      /\ (forall r, r ∈ new -> LaneResize.isRoot r = true -> LaneResize.y r = 0)
      /\ (forall a, head (nonRoot new) = Some a -> LaneResize.y a = currentLaneY)
      /\ stacked (nonRoot new)
      /\ currentLaneY' = match last (nonRoot new) with
                         | Some a => LaneResize.y a + LaneResize.height a
                         | None => currentLaneY
                         end.
Proof.
  induction todo as [| [key meta] todo IH];
    intros laneData laneResizes currentLaneY Hsub Hinv.
  - exists laneData, [], currentLaneY. cbn [fold_left]. rewrite app_nil_r.
    split; [done |]. split; [done |]. split; [done |]. split; [done |].
    split; [constructor |]. split; [constructor |].
    split; [by intros r ?%elem_of_nil |]. split; [done |]. split; [| done].
    intros i a b Ha. done.
  - cbn [fold_left]. unfold computeLayout_placeLane at 2.
    assert (Hrest : forall entry, entry ∈ todo -> entry ∈ original)
      by (intros e He; by apply Hsub, list_elem_of_further).
    assert (Hset : forall y k meta',
              JsMap.get (JsMap.set laneData key (LaneMeta.setY meta y)) k = Some meta' ->
              exists meta0, (k, meta0) ∈ original /\ placedLane meta0 meta').
    { intros y k meta'. rewrite get_set. destruct (decide (key = k)) as [<- | Hne].
      - intros [= <-]. exists meta. split; [apply Hsub, list_elem_of_here | done].
      - apply Hinv. }
    destruct (isRootLane meta rootElementId) eqn:Hroot; cbn [negb].
    + set (r := {| LaneResize.laneId := LaneMeta.id meta; LaneResize.y := 0;
                   LaneResize.height := LaneMeta.height meta;
                   LaneResize.element := LaneMeta.element meta;
                   LaneResize.isRoot := true |}).
      destruct (IH (JsMap.set laneData key (LaneMeta.setY meta 0)) (laneResizes ++ [r])
                  currentLaneY Hrest (Hset 0))
        as (ld' & new & cur' & Hrun & Hk & Hi & Hu & Hp & Hf & Hr & Hh & Hs & Hc).
      exists ld', (r :: new), cur'.
      split; [by rewrite Hrun, <- app_assoc |].
      split; [intros k Hk'; by apply Hk, is_Some_get_set |]. split; [done |].
      split.
      { intros k Hnk. cbn [map fst] in Hnk. rewrite not_elem_of_cons in Hnk.
        destruct Hnk as [Hne Hnk]. rewrite (Hu k Hnk). by rewrite get_set_ne. }
      split.
      { intros [Hfresh Hnd]%NoDup_cons. constructor; [| by apply Hp].
        cbn [fst snd]. rewrite (Hu key Hfresh). by rewrite get_set_eq. }
      split; [constructor; [by repeat split | done] |].
      split; [intros x [-> | Hx]%elem_of_cons; [done | by apply Hr] |].
      done.
    + set (r := {| LaneResize.laneId := LaneMeta.id meta; LaneResize.y := currentLaneY;
                   LaneResize.height := LaneMeta.height meta;
                   LaneResize.element := LaneMeta.element meta;
                   LaneResize.isRoot := false |}).
      destruct (IH (JsMap.set laneData key (LaneMeta.setY meta currentLaneY))
                  (laneResizes ++ [r]) (currentLaneY + LaneMeta.height meta)
                  Hrest (Hset currentLaneY))
        as (ld' & new & cur' & Hrun & Hk & Hi & Hu & Hp & Hf & Hr & Hh & Hs & Hc).
      exists ld', (r :: new), cur'.
      split; [by rewrite Hrun, <- app_assoc |].
      split; [intros k Hk'; by apply Hk, is_Some_get_set |]. split; [done |].
      split.
      { intros k Hnk. cbn [map fst] in Hnk. rewrite not_elem_of_cons in Hnk.
        destruct Hnk as [Hne Hnk]. rewrite (Hu k Hnk). by rewrite get_set_ne. }
      split.
      { intros [Hfresh Hnd]%NoDup_cons. constructor; [| by apply Hp].
        cbn [fst snd]. rewrite (Hu key Hfresh). by rewrite get_set_eq. }
      split; [constructor; [by repeat split | done] |].
      split; [intros x [-> | Hx]%elem_of_cons; [done | by apply Hr] |].
      change (nonRoot (r :: new)) with (r :: nonRoot new).
      split; [by intros a [= <-] |]. split.
      * intros [| i] a b Ha Hb.
        -- cbn in Ha, Hb. injection Ha as <-. apply Hh. by destruct (nonRoot new).
        -- by apply (Hs i).
      * rewrite Hc. destruct (nonRoot new) as [| x l] eqn:E; [done |].
        rewrite last_cons_cons.
        destruct (last (x :: l)) eqn:El; [done |]. by apply last_None in El.
Qed.

Lemma sort_insert_sorted {A} (key : A -> Q) (a : A) (sorted : list A) :
  StronglySorted (fun x y => key x <= key y) sorted ->
  StronglySorted (fun x y => key x <= key y)
    (sort_insert (fun x y => Num.ltb (key x - key y) 0) a sorted).
Proof.
  induction 1 as [| b sorted Hs IH Hb]; cbn [sort_insert].
  - repeat constructor.
  - destruct (Num.ltb (key a - key b) 0) eqn:E.
    + apply ltb_lt in E. constructor; [by constructor |].
      constructor; [lra |].
      eapply Forall_impl; [exact Hb |]. intros c Hc. cbv beta in *. lra.
    + apply ltb_ge in E. constructor; [done |].
      rewrite sort_insert_perm. constructor; [lra | done].
Qed.

Lemma sort_sorted {A} (key : A -> Q) (l : list A) :
  StronglySorted (fun x y => key x <= key y)
    (sort (fun x y => Num.ltb (key x - key y) 0) l).
Proof.
  unfold sort.
  assert (Hgen : forall acc, StronglySorted (fun x y => key x <= key y) acc ->
            StronglySorted (fun x y => key x <= key y)
              (fold_left (fun sorted a =>
                            sort_insert (fun x y => Num.ltb (key x - key y) 0) a sorted)
                         l acc)).
  { induction l as [| a l IH]; intros acc Hacc; cbn [fold_left]; [done |].
    by apply IH, sort_insert_sorted. }
  apply Hgen. constructor.
Qed.

Lemma computeLayout_lanes (laneData : JsMap.t string LaneMeta.t)
    (nodeMap : JsMap.t string LayoutNode.t) (rankWidths : JsMap.t nat Q)
    (constants : LayoutConstants.t) (rootElementId : option string)
    (nodePositions : list NodePosition.t) (laneResizes : list LaneResize.t) :
  computeLayout laneData nodeMap rankWidths constants rootElementId
  = Some (nodePositions, laneResizes) ->
  exists (laneData' : JsMap.t string LaneMeta.t) (first : string * LaneMeta.t),
    head (lanesByY laneData) = Some first
    /\ nodePositions
       = JsMap.forEach nodeMap
           (fun node _ nodePositions =>
              computeLayout_placeNode laneData' rankWidths constants rootElementId
                node nodePositions) []
    /\ (forall k, is_Some (JsMap.get laneData k) -> is_Some (JsMap.get laneData' k))
    /\ (forall k meta', JsMap.get laneData' k = Some meta' ->
          exists meta, (k, meta) ∈ laneData /\ placedLane meta meta')
    /\ (NoDup (JsMap.keys laneData) ->
        Forall2 (fun entry r =>
                   JsMap.get laneData' (fst entry)
                   = Some (LaneMeta.setY (snd entry) (LaneResize.y r)))
                (lanesByY laneData) laneResizes)
    /\ Forall2 (resizeOf rootElementId) (lanesByY laneData) laneResizes
    /\ (forall r, r ∈ laneResizes -> LaneResize.isRoot r = true -> LaneResize.y r = 0)
    /\ (forall a, head (nonRoot laneResizes) = Some a ->
          LaneResize.y a = laneElementY (snd first))
    /\ stacked (nonRoot laneResizes).
Proof.
  unfold computeLayout. fold (lanesByY laneData).
  destruct (lanesByY laneData) as [| first rest] eqn:Hsorted; [done |].
  destruct (placeLanes_spec rootElementId laneData (first :: rest) laneData []
              (laneElementY (snd first)))
    as (ld' & new & cur' & Hrun & Hk & Hi & _ & Hp & Hf & Hr & Hh & Hs & _).
  { intros entry Hin. rewrite <- Hsorted in Hin. unfold lanesByY in Hin.
    by rewrite sort_perm in Hin. }
  { intros k meta Hget. exists meta. split; [by apply get_Some_elem |].
    unfold placedLane. by destruct meta. }
  rewrite Hrun. cbn [app]. intros [= <- <-].
  exists ld', first. split; [done |]. split; [done |]. split; [done |].
  split; [done |]. split; [| done].
  intros Hnd. apply Hp. rewrite <- Hsorted. unfold lanesByY.
  by rewrite sort_perm.
Qed.

Lemma computeLayout_None (laneData : JsMap.t string LaneMeta.t)
    (nodeMap : JsMap.t string LayoutNode.t) (rankWidths : JsMap.t nat Q)
    (constants : LayoutConstants.t) (rootElementId : option string) :
  computeLayout laneData nodeMap rankWidths constants rootElementId = None
  <-> laneData = [].
Proof.
  split.
  - intros Hnone. destruct laneData as [| entry laneData]; [done |]. exfalso.
    unfold computeLayout in Hnone. fold (lanesByY (entry :: laneData)) in Hnone.
    destruct (lanesByY (entry :: laneData)) as [| first rest] eqn:Hsorted.
    + pose proof (sort_perm
                    (fun a b : string * LaneMeta.t =>
                       Num.ltb (laneElementY (snd a) - laneElementY (snd b)) 0)
                    (entry :: laneData)) as Hp.
      unfold lanesByY in Hsorted. rewrite Hsorted in Hp.
      by apply Permutation_nil_cons in Hp.
    + by destruct (fold_left _ _ _) as [[? ?] ?].
  - by intros ->.
Qed.

(** X17: [computeLayout] fails only without lanes.  Otherwise it yields one
    resize per lane, in ascending order of the lanes' present [y]; a root
    lane is put at 0, the first of the other lanes at the [y] of the
    topmost lane, and each further one where the one before it ends. *)
Theorem computeLayout_stacks_lanes (laneData : JsMap.t string LaneMeta.t)
    (nodeMap : JsMap.t string LayoutNode.t) (rankWidths : JsMap.t nat Q)
    (constants : LayoutConstants.t) (rootElementId : option string) :
  (computeLayout laneData nodeMap rankWidths constants rootElementId = None
   <-> laneData = [])
  /\ lanesByY laneData ≡ₚ laneData
  /\ StronglySorted (fun a b => laneElementY (snd a) <= laneElementY (snd b))
       (lanesByY laneData)
  /\ forall nodePositions laneResizes,
       computeLayout laneData nodeMap rankWidths constants rootElementId
       = Some (nodePositions, laneResizes) ->
       Forall2 (resizeOf rootElementId) (lanesByY laneData) laneResizes
       /\ (forall r, r ∈ laneResizes -> LaneResize.isRoot r = true ->
             LaneResize.y r = 0)
       /\ (forall a, head (nonRoot laneResizes) = Some a ->
             exists first, head (lanesByY laneData) = Some first
                           /\ LaneResize.y a = laneElementY (snd first))
       /\ stacked (nonRoot laneResizes).
Proof.
  split; [apply computeLayout_None |].
  split; [apply sort_perm |].
  split; [apply (sort_sorted (fun a => laneElementY (snd a))) |].
  intros nodePositions laneResizes Hrun.
  destruct (computeLayout_lanes _ _ _ _ _ _ _ Hrun)
    as (ld' & first & Hfirst & _ & _ & _ & _ & Hf & Hr & Hh & Hs).
  split; [done |]. split; [done |]. split; [| done].
  intros a Ha. exists first. split; [done | by apply Hh].
Qed.

Lemma computeLayout_stacks_lanes_witness :
  let laneData := fst (laneDataOf twoLanes JsMap.empty DEFAULT_LAYOUT_CONSTANTS) in
  exists nodePositions laneResizes,
    computeLayout laneData JsMap.empty JsMap.empty DEFAULT_LAYOUT_CONSTANTS
      (Some "Process_1") = Some (nodePositions, laneResizes)
    /\ map LaneResize.laneId laneResizes = ["Lane_1"; "Lane_2"]
    /\ stacked (nonRoot laneResizes).
Proof.
  intros laneData.
  destruct (computeLayout laneData JsMap.empty JsMap.empty DEFAULT_LAYOUT_CONSTANTS
              (Some "Process_1")) as [[nodePositions laneResizes] |] eqn:Hrun;
    [| vm_compute in Hrun; discriminate Hrun].
  exists nodePositions, laneResizes. split; [reflexivity |]. split.
  - vm_compute in Hrun. by injection Hrun as <- <-.
  - by destruct (proj2 (proj2 (proj2 (computeLayout_stacks_lanes laneData JsMap.empty
                   JsMap.empty DEFAULT_LAYOUT_CONSTANTS (Some "Process_1"))))
                   nodePositions laneResizes Hrun) as (_ & _ & _ & Hs).
Defined.

Lemma placeNode_position (laneData : JsMap.t string LaneMeta.t)
    (rankWidths : JsMap.t nat Q) (constants : LayoutConstants.t)
    (rootElementId : option string) (node : LayoutNode.t) (meta : LaneMeta.t)
    (nodePositions : list NodePosition.t) :
  JsMap.get laneData (LayoutNode.laneId node) = Some meta ->
  let siblings := JsMap.get (LaneMeta.nodesByRank meta) (LayoutNode.rank node) ?? [] in
  let x := columnX rankWidths constants (laneStartX meta constants rootElementId)
             (LayoutNode.rank node) in
  let y := stackTop meta constants siblings
           + stackOffsetAt constants siblings
               (findIndex (fun n => String.eqb (LayoutNode.id n) (LayoutNode.id node))
                          siblings) in
  computeLayout_placeNode laneData rankWidths constants rootElementId node nodePositions
  = nodePositions
    ++ [ NodePosition.mk (LayoutNode.id node) x y
           (x - FlowElement.x (LayoutNode.element node))
           (y - FlowElement.y (LayoutNode.element node))
           (LayoutNode.laneId node) ].
Proof. intros Hmeta. unfold computeLayout_placeNode. by rewrite Hmeta. Qed.

Lemma placeNode_app (laneData : JsMap.t string LaneMeta.t)
    (rankWidths : JsMap.t nat Q) (constants : LayoutConstants.t)
    (rootElementId : option string) (node : LayoutNode.t)
    (nodePositions : list NodePosition.t) :
  computeLayout_placeNode laneData rankWidths constants rootElementId node nodePositions
  = nodePositions
    ++ computeLayout_placeNode laneData rankWidths constants rootElementId node [].
Proof.
  unfold computeLayout_placeNode.
  destruct (JsMap.get laneData (LayoutNode.laneId node)); [done | by rewrite app_nil_r].
Qed.

Lemma placeNodes_elem (laneData : JsMap.t string LaneMeta.t)
    (rankWidths : JsMap.t nat Q) (constants : LayoutConstants.t)
    (rootElementId : option string) (nodeMap : JsMap.t string LayoutNode.t)
    (pos : NodePosition.t) :
  pos ∈ JsMap.forEach nodeMap
          (fun node _ nodePositions =>
             computeLayout_placeNode laneData rankWidths constants rootElementId
               node nodePositions) []
  <-> exists node, node ∈ JsMap.values nodeMap
        /\ pos ∈ computeLayout_placeNode laneData rankWidths constants rootElementId
                   node [].
Proof.
  unfold JsMap.forEach, JsMap.values.
  assert (Hgen : forall (l : JsMap.t string LayoutNode.t) (acc : list NodePosition.t),
            pos ∈ fold_left
                    (fun s kv =>
                       computeLayout_placeNode laneData rankWidths constants rootElementId
                         (snd kv) s) l acc
            <-> pos ∈ acc
                \/ exists node, node ∈ map snd l
                     /\ pos ∈ computeLayout_placeNode laneData rankWidths constants
                                rootElementId node []).
  { induction l as [| [k n] l IH]; intros acc; cbn [fold_left map snd].
    - split; [by left | by intros [? | (? & ?%elem_of_nil & _)]].
    - rewrite IH, placeNode_app, elem_of_app. split.
      + intros [[? | ?] | (node & Hin & Hp)].
        * by left.
        * right. exists n. split; [apply list_elem_of_here | done].
        * right. exists node. split; [by apply list_elem_of_further | done].
      + intros [? | (node & [-> | Hin]%elem_of_cons & Hp)].
        * left. by left.
        * left. by right.
        * right. by exists node. }
  rewrite Hgen. split; [by intros [?%elem_of_nil | ?] | by right].
Qed.

Lemma forRange_S {S : Type} (n : nat) (body : nat -> S -> S) (s : S) :
  forRange 0 (Z.of_nat (Datatypes.S n)) body s = body n (forRange 0 (Z.of_nat n) body s).
Proof.
  unfold forRange.
  replace (Z.to_nat (Z.of_nat (Datatypes.S n) - Z.of_nat 0)) with (Datatypes.S n) by lia.
  replace (Z.to_nat (Z.of_nat n - Z.of_nat 0)) with n by lia.
  by rewrite seq_S, fold_left_app.
Qed.

Lemma columnX_mono (rankWidths : JsMap.t nat Q) (constants : LayoutConstants.t)
    (startX : Q) (r d : nat) :
  (forall i, 0 <= JsMap.get rankWidths i ?? 100) ->
  0 <= LayoutConstants.colSpacing constants ->
  columnX rankWidths constants startX r <= columnX rankWidths constants startX (r + d).
Proof.
  intros Hw Hc. induction d as [| d IH].
  - rewrite Nat.add_0_r. apply Qle_refl.
  - rewrite Nat.add_succ_r. unfold columnX in *. rewrite forRange_S.
    specialize (Hw (r + d)%nat). lra.
Qed.

Lemma computed_width_bound (laneData : JsMap.t string LaneMeta.t) (maxGlobalRank i : nat) :
  100 <= JsMap.get (computeRankWidths laneData maxGlobalRank) i ?? 100.
Proof.
  rewrite computeRankWidths_get. destruct (i <=? maxGlobalRank)%nat; cbn [Num.orElse].
  - apply columnWidth_spec.
  - apply Qle_refl.
Qed.

(** X18: columns do not run into each other.  With a column spacing that is
    not negative, of two nodes of one lane the one of higher rank is put
    at least the width of the other plus the column spacing further right,
    when widths are those of [computeRankWidths] and the other node is
    filed under its rank. *)
Theorem computeLayout_columns_apart (laneData : JsMap.t string LaneMeta.t)
    (nodeMap : JsMap.t string LayoutNode.t) (maxGlobalRank : nat)
    (constants : LayoutConstants.t) (rootElementId : option string)
    (nodePositions : list NodePosition.t) (laneResizes : list LaneResize.t)
    (n1 n2 : LayoutNode.t) (k : string) (meta : LaneMeta.t) :
  computeLayout laneData nodeMap (computeRankWidths laneData maxGlobalRank)
    constants rootElementId = Some (nodePositions, laneResizes) ->
  0 <= LayoutConstants.colSpacing constants ->
  n1 ∈ JsMap.values nodeMap -> n2 ∈ JsMap.values nodeMap ->
  LayoutNode.laneId n1 = LayoutNode.laneId n2 ->
  is_Some (JsMap.get laneData (LayoutNode.laneId n1)) ->
  (k, meta) ∈ laneData ->
  n1 ∈ (JsMap.get (LaneMeta.nodesByRank meta) (LayoutNode.rank n1) ?? []) ->
  (LayoutNode.rank n1 <= maxGlobalRank)%nat ->
  (LayoutNode.rank n1 < LayoutNode.rank n2)%nat ->
  exists pos1 pos2,
    pos1 ∈ nodePositions /\ pos2 ∈ nodePositions
    /\ NodePosition.nodeId pos1 = LayoutNode.id n1
    /\ NodePosition.nodeId pos2 = LayoutNode.id n2
    /\ NodePosition.x pos1 + LayoutNode.width n1 + LayoutConstants.colSpacing constants
       <= NodePosition.x pos2.
Proof.
  intros Hrun Hcs Hn1 Hn2 Hlane Hknown Hmeta Hbucket Hr1 Hlt.
  destruct (computeLayout_lanes _ _ _ _ _ _ _ Hrun)
    as (ld' & first & _ & -> & Hk & _ & _).
  destruct (Hk _ Hknown) as [meta' Hmeta'].
  set (rw := computeRankWidths laneData maxGlobalRank) in *.
  pose proof (placeNode_position ld' rw constants rootElementId n1 meta' [] Hmeta') as H1.
  rewrite Hlane in Hmeta'.
  pose proof (placeNode_position ld' rw constants rootElementId n2 meta' [] Hmeta') as H2.
  cbv zeta in H1, H2. cbn [app] in H1, H2.
  eexists. eexists.
  split; [apply placeNodes_elem; exists n1; split; [done |];
          rewrite H1; apply list_elem_of_here |].
  split; [apply placeNodes_elem; exists n2; split; [done |];
          rewrite H2; apply list_elem_of_here |].
  split; [done |]. split; [done |]. cbn [NodePosition.x].
  set (startX := laneStartX meta' constants rootElementId).
  replace (LayoutNode.rank n2)
    with (S (LayoutNode.rank n1) + (LayoutNode.rank n2 - S (LayoutNode.rank n1)))%nat by lia.
  eapply Qle_trans;
    [| apply columnX_mono; [intros i; eapply Qle_trans; [| apply computed_width_bound]; done
                           | done]].
  unfold columnX. rewrite forRange_S.
  assert (Hw : LayoutNode.width n1 <= JsMap.get rw (LayoutNode.rank n1) ?? 100).
  { subst rw. rewrite computeRankWidths_get.
    replace (LayoutNode.rank n1 <=? maxGlobalRank)%nat with true
      by (symmetry; by apply Nat.leb_le).
    cbn [Num.orElse]. by apply (proj1 (proj2 (columnWidth_spec laneData _)) k meta). }
  lra.
Qed.

Lemma computeLayout_columns_apart_witness :
  let laneData := fst (laneDataOf [sampleLane] chainRanked DEFAULT_LAYOUT_CONSTANTS) in
  exists nodePositions laneResizes pos1 pos2,
    computeLayout laneData chainRanked (computeRankWidths laneData 2)
      DEFAULT_LAYOUT_CONSTANTS (Some "Process_1") = Some (nodePositions, laneResizes)
    /\ pos1 ∈ nodePositions /\ pos2 ∈ nodePositions
    /\ NodePosition.nodeId pos1 = "Start_1" /\ NodePosition.nodeId pos2 = "Task_A"
    /\ NodePosition.x pos1 + 36 + 80 <= NodePosition.x pos2.
Proof.
  intros laneData.
  destruct (computeLayout laneData chainRanked (computeRankWidths laneData 2)
              DEFAULT_LAYOUT_CONSTANTS (Some "Process_1"))
    as [[nodePositions laneResizes] |] eqn:Hrun; [| vm_compute in Hrun; discriminate Hrun].
  set (n1 := LayoutNode.mk "Start_1"
               (FlowElement.mk "Start_1" "Lane_1" 0 100 36 36 (Some ["Task_A"]))
               0 "Lane_1" 36 36).
  set (n2 := LayoutNode.mk "Task_A"
               (FlowElement.mk "Task_A" "Lane_1" 100 100 100 80 (Some ["Task_B"]))
               1 "Lane_1" 100 80).
  destruct (JsMap.get laneData "Lane_1") as [meta |] eqn:Hmeta;
    [| vm_compute in Hmeta; discriminate Hmeta].
  destruct (computeLayout_columns_apart laneData chainRanked 2 DEFAULT_LAYOUT_CONSTANTS
              (Some "Process_1") nodePositions laneResizes n1 n2 "Lane_1" meta Hrun)
    as (pos1 & pos2 & H1 & H2 & H3 & H4 & H5).
  - vm_compute. discriminate.
  - apply list_elem_of_here.
  - apply list_elem_of_further, list_elem_of_here.
  - reflexivity.
  - cbn [LayoutNode.laneId n1]. rewrite Hmeta. eauto.
  - by apply get_Some_elem.
  - vm_compute in Hmeta. injection Hmeta as <-. apply list_elem_of_here.
  - cbn. lia.
  - cbn. lia.
  - exists nodePositions, laneResizes, pos1, pos2.
    split; [reflexivity |]. split; [exact H1 |]. split; [exact H2 |].
    split; [exact H3 |]. split; [exact H4 | exact H5].
Defined.

Lemma placeNodes_ids (laneData : JsMap.t string LaneMeta.t)
    (rankWidths : JsMap.t nat Q) (constants : LayoutConstants.t)
    (rootElementId : option string) (nodeMap : JsMap.t string LayoutNode.t) :
  map NodePosition.nodeId
    (JsMap.forEach nodeMap
       (fun node _ nodePositions =>
          computeLayout_placeNode laneData rankWidths constants rootElementId
            node nodePositions) [])
  = map LayoutNode.id
      (List.filter (fun n => JsMap.has laneData (LayoutNode.laneId n))
                   (JsMap.values nodeMap)).
Proof.
  unfold JsMap.forEach, JsMap.values.
  assert (Hgen : forall (l : JsMap.t string LayoutNode.t) (acc : list NodePosition.t),
            map NodePosition.nodeId
              (fold_left
                 (fun s kv =>
                    computeLayout_placeNode laneData rankWidths constants rootElementId
                      (snd kv) s) l acc)
            = map NodePosition.nodeId acc
              ++ map LayoutNode.id
                   (List.filter (fun n => JsMap.has laneData (LayoutNode.laneId n))
                                (map snd l))).
  { induction l as [| [k n] l IH]; intros acc; cbn [fold_left map snd List.filter].
    - by rewrite app_nil_r.
    - rewrite IH. unfold JsMap.has.
      destruct (JsMap.get laneData (LayoutNode.laneId n)) as [meta |] eqn:Hmeta.
      + rewrite (placeNode_position _ _ _ _ _ _ _ Hmeta).
        rewrite map_app. cbn [map NodePosition.nodeId]. by rewrite <- app_assoc.
      + unfold computeLayout_placeNode. by rewrite Hmeta. }
  apply (Hgen nodeMap []).
Qed.

(** X28: [computeLayout] places every node whose lane is in the lane map
    exactly once, in node-map order, and no other node; each position
    names the node's lane and gives [dx] and [dy] as the distance from the
    element's present place to the new one. *)
Theorem computeLayout_places_known_nodes (laneData : JsMap.t string LaneMeta.t)
    (nodeMap : JsMap.t string LayoutNode.t) (rankWidths : JsMap.t nat Q)
    (constants : LayoutConstants.t) (rootElementId : option string)
    (nodePositions : list NodePosition.t) (laneResizes : list LaneResize.t) :
  computeLayout laneData nodeMap rankWidths constants rootElementId
  = Some (nodePositions, laneResizes) ->
  map NodePosition.nodeId nodePositions
  = map LayoutNode.id
      (List.filter (fun n => JsMap.has laneData (LayoutNode.laneId n))
                   (JsMap.values nodeMap))
  /\ forall pos, pos ∈ nodePositions ->
       exists node, node ∈ JsMap.values nodeMap
         /\ NodePosition.nodeId pos = LayoutNode.id node
         /\ NodePosition.laneId pos = LayoutNode.laneId node
         /\ NodePosition.dx pos
            = NodePosition.x pos - FlowElement.x (LayoutNode.element node)
         /\ NodePosition.dy pos
            = NodePosition.y pos - FlowElement.y (LayoutNode.element node).
Proof.
  intros Hrun.
  destruct (computeLayout_lanes _ _ _ _ _ _ _ Hrun)
    as (ld' & first & _ & -> & Hk & Hi & _).
  split.
  - rewrite placeNodes_ids. f_equal. apply filter_ext. intros n. unfold JsMap.has.
    destruct (JsMap.get laneData (LayoutNode.laneId n)) as [meta |] eqn:Hmeta.
    + destruct (Hk (LayoutNode.laneId n)) as [meta' ->]; [eauto | done].
    + destruct (JsMap.get ld' (LayoutNode.laneId n)) as [meta' |] eqn:Hmeta'; [| done].
      destruct (Hi _ _ Hmeta') as (meta & Hin & _).
      apply elem_get_is_Some in Hin. rewrite Hmeta in Hin. by destruct Hin.
  - intros pos (node & Hnode & Hpos)%placeNodes_elem. exists node. split; [done |].
    unfold computeLayout_placeNode in Hpos.
    destruct (JsMap.get ld' (LayoutNode.laneId node)); [| by apply elem_of_nil in Hpos].
    cbn [app] in Hpos. apply list_elem_of_singleton in Hpos as ->. done.
Qed.

Lemma computeLayout_places_known_nodes_witness :
  let laneData := fst (laneDataOf [sampleLane] chainRanked DEFAULT_LAYOUT_CONSTANTS) in
  exists nodePositions laneResizes,
    computeLayout laneData chainRanked (computeRankWidths laneData 2)
      DEFAULT_LAYOUT_CONSTANTS (Some "Process_1") = Some (nodePositions, laneResizes)
    /\ map NodePosition.nodeId nodePositions = ["Start_1"; "Task_A"; "Task_B"].
Proof.
  intros laneData.
  destruct (computeLayout laneData chainRanked (computeRankWidths laneData 2)
              DEFAULT_LAYOUT_CONSTANTS (Some "Process_1"))
    as [[nodePositions laneResizes] |] eqn:Hrun; [| vm_compute in Hrun; discriminate Hrun].
  exists nodePositions, laneResizes. split; [reflexivity |].
  rewrite (proj1 (computeLayout_places_known_nodes laneData chainRanked
                    (computeRankWidths laneData 2) DEFAULT_LAYOUT_CONSTANTS
                    (Some "Process_1") nodePositions laneResizes Hrun)).
  vm_compute. reflexivity.
Defined.

Lemma findIndex_from_unique {A} (pred : A -> bool) (l : list A) :
  forall (i0 : Z) (i : nat) (a : A),
    l !! i = Some a -> pred a = true ->
    (forall j b, (j < i)%nat -> l !! j = Some b -> pred b = false) ->
    findIndex_from i0 pred l = (i0 + Z.of_nat i)%Z.
Proof.
  induction l as [| x l IH]; intros i0 i a Hi Ha Hbefore; [done |].
  cbn [findIndex_from]. destruct i as [| i].
  - cbn in Hi. injection Hi as ->. rewrite Ha. lia.
  - rewrite (Hbefore 0%nat x) by (done || lia).
    rewrite (IH (i0 + 1)%Z i a); [lia | done | done |].
    intros j b Hj Hb. apply (Hbefore (S j) b); [lia | done].
Qed.

Lemma findIndex_by_id (siblings : list LayoutNode.t) (i : nat) (a : LayoutNode.t) :
  NoDup (map LayoutNode.id siblings) -> siblings !! i = Some a ->
  findIndex (fun n => String.eqb (LayoutNode.id n) (LayoutNode.id a)) siblings
  = Z.of_nat i.
Proof.
  intros Hnd Hi. unfold findIndex.
  rewrite (findIndex_from_unique _ siblings 0 i a Hi); [lia | apply String.eqb_refl |].
  intros j b Hj Hb. apply String.eqb_neq. intros Heq.
  assert (Hij : j = i); [| lia].
  eapply NoDup_lookup; [exact Hnd | |].
  - rewrite list_lookup_fmap, Hb. done.
  - rewrite list_lookup_fmap, Hi. cbn. by rewrite Heq.
Qed.

Lemma stackOffsetAt_S (constants : LayoutConstants.t) (siblings : list LayoutNode.t)
    (i : nat) (a : LayoutNode.t) :
  siblings !! i = Some a ->
  stackOffsetAt constants siblings (Z.of_nat (S i))
  = stackOffsetAt constants siblings (Z.of_nat i)
    + (LayoutNode.height a + LayoutConstants.rowSpacing constants).
Proof. intros Hi. unfold stackOffsetAt. by rewrite forRange_S, Hi. Qed.

Lemma placedLane_fields (meta meta' : LaneMeta.t) :
  placedLane meta meta' ->
  LaneMeta.nodesByRank meta' = LaneMeta.nodesByRank meta
  /\ LaneMeta.height meta' = LaneMeta.height meta
  /\ LaneMeta.element meta' = LaneMeta.element meta.
Proof. unfold placedLane. intros ->. done. Qed.

(** X19: the nodes of one lane and rank are stacked in the order in which
    they are filed: two neighbours in the list get the same [x], and the
    second is put below the first by the height of the first plus the row
    spacing. *)
Theorem computeLayout_rows_apart (laneData : JsMap.t string LaneMeta.t)
    (nodeMap : JsMap.t string LayoutNode.t) (rankWidths : JsMap.t nat Q)
    (constants : LayoutConstants.t) (rootElementId : option string)
    (nodePositions : list NodePosition.t) (laneResizes : list LaneResize.t)
    (a b : LayoutNode.t) (meta : LaneMeta.t) (i : nat) :
  computeLayout laneData nodeMap rankWidths constants rootElementId
  = Some (nodePositions, laneResizes) ->
  NoDup (JsMap.keys laneData) ->
  a ∈ JsMap.values nodeMap -> b ∈ JsMap.values nodeMap ->
  LayoutNode.laneId b = LayoutNode.laneId a ->
  LayoutNode.rank b = LayoutNode.rank a ->
  JsMap.get laneData (LayoutNode.laneId a) = Some meta ->
  let siblings := JsMap.get (LaneMeta.nodesByRank meta) (LayoutNode.rank a) ?? [] in
  NoDup (map LayoutNode.id siblings) ->
  siblings !! i = Some a -> siblings !! S i = Some b ->
  exists posA posB,
    posA ∈ nodePositions /\ posB ∈ nodePositions
    /\ NodePosition.nodeId posA = LayoutNode.id a
    /\ NodePosition.nodeId posB = LayoutNode.id b
    /\ NodePosition.x posB = NodePosition.x posA
    /\ NodePosition.y posB
       == NodePosition.y posA + LayoutNode.height a
          + LayoutConstants.rowSpacing constants.
Proof.
  intros Hrun Hkeys Ha Hb Hlane Hrank Hmeta siblings Hnd Hia Hib.
  destruct (computeLayout_lanes _ _ _ _ _ _ _ Hrun)
    as (ld' & first & _ & -> & Hk & Hi & _).
  destruct (Hk (LayoutNode.laneId a)) as [meta' Hmeta']; [eauto |].
  destruct (Hi _ _ Hmeta') as (meta0 & Hin & Hplaced).
  rewrite (elem_get _ _ _ Hkeys Hin) in Hmeta. injection Hmeta as ->.
  destruct (placedLane_fields _ _ Hplaced) as (Hnb & _ & _).
  pose proof (placeNode_position ld' rankWidths constants rootElementId a meta' [] Hmeta')
    as HA.
  rewrite <- Hlane in Hmeta'.
  pose proof (placeNode_position ld' rankWidths constants rootElementId b meta' [] Hmeta')
    as HB.
  cbv zeta in HA, HB. cbn [app] in HA, HB.
  rewrite Hrank, Hnb in HB. rewrite Hnb in HA. fold siblings in HA, HB.
  rewrite (findIndex_by_id siblings i a Hnd Hia) in HA.
  rewrite (findIndex_by_id siblings (S i) b Hnd Hib) in HB.
  rewrite (stackOffsetAt_S constants siblings i a Hia) in HB.
  eexists. eexists.
  split; [apply placeNodes_elem; exists a; split; [done |];
          rewrite HA; apply list_elem_of_here |].
  split; [apply placeNodes_elem; exists b; split; [done |];
          rewrite HB; apply list_elem_of_here |].
  split; [done |]. split; [done |]. split; [done |].
  cbn [NodePosition.y]. ring.
Qed.

Lemma computeLayout_rows_apart_witness :
  let nodeMap := Graph.nodeMap (buildGraphFromElements pairElements) in
  let laneData := fst (laneDataOf [sampleLane] nodeMap DEFAULT_LAYOUT_CONSTANTS) in
  exists nodePositions laneResizes posA posB,
    computeLayout laneData nodeMap (computeRankWidths laneData 0)
      DEFAULT_LAYOUT_CONSTANTS (Some "Process_1") = Some (nodePositions, laneResizes)
    /\ posA ∈ nodePositions /\ posB ∈ nodePositions
    /\ NodePosition.nodeId posA = "Task_A" /\ NodePosition.nodeId posB = "Task_B"
    /\ NodePosition.y posB == NodePosition.y posA + 80 + 30.
Proof.
  intros nodeMap laneData.
  destruct (computeLayout laneData nodeMap (computeRankWidths laneData 0)
              DEFAULT_LAYOUT_CONSTANTS (Some "Process_1"))
    as [[nodePositions laneResizes] |] eqn:Hrun; [| vm_compute in Hrun; discriminate Hrun].
  set (a := LayoutNode.mk "Task_A" (FlowElement.mk "Task_A" "Lane_1" 100 20 100 80 None)
              0 "Lane_1" 100 80).
  set (b := LayoutNode.mk "Task_B" (FlowElement.mk "Task_B" "Lane_1" 100 120 100 60 None)
              0 "Lane_1" 100 60).
  destruct (JsMap.get laneData "Lane_1") as [meta |] eqn:Hmeta;
    [| vm_compute in Hmeta; discriminate Hmeta].
  assert (Hsiblings : JsMap.get (LaneMeta.nodesByRank meta) 0%nat ?? [] = [a; b])
    by (vm_compute in Hmeta; by injection Hmeta as <-).
  destruct (computeLayout_rows_apart laneData nodeMap (computeRankWidths laneData 0)
              DEFAULT_LAYOUT_CONSTANTS (Some "Process_1") nodePositions laneResizes
              a b meta 0 Hrun)
    as (posA & posB & H1 & H2 & H3 & H4 & _ & H5).
  - apply NoDup_singleton.
  - apply list_elem_of_here.
  - apply list_elem_of_further, list_elem_of_here.
  - reflexivity.
  - reflexivity.
  - exact Hmeta.
  - cbn [LayoutNode.rank a]. rewrite Hsiblings. cbn [map LayoutNode.id a b].
    apply NoDup_cons. split; [| apply NoDup_singleton].
    by intros ?%list_elem_of_singleton.
  - cbn [LayoutNode.rank a]. by rewrite Hsiblings.
  - cbn [LayoutNode.rank a]. by rewrite Hsiblings.
  - exists nodePositions, laneResizes, posA, posB.
    split; [reflexivity |]. split; [exact H1 |]. split; [exact H2 |].
    split; [exact H3 |]. split; [exact H4 | exact H5].
Defined.

(** X20: a stack of nodes is centred in its lane as the lane is placed: the
    top of the first node of a lane and rank lies half the height of the
    stack above the middle of the lane's resize record. *)
Theorem computeLayout_centres_stacks (laneData : JsMap.t string LaneMeta.t)
    (nodeMap : JsMap.t string LayoutNode.t) (rankWidths : JsMap.t nat Q)
    (constants : LayoutConstants.t) (rootElementId : option string)
    (nodePositions : list NodePosition.t) (laneResizes : list LaneResize.t)
    (a : LayoutNode.t) (meta : LaneMeta.t) :
  computeLayout laneData nodeMap rankWidths constants rootElementId
  = Some (nodePositions, laneResizes) ->
  NoDup (JsMap.keys laneData) ->
  a ∈ JsMap.values nodeMap ->
  JsMap.get laneData (LayoutNode.laneId a) = Some meta ->
  let siblings := JsMap.get (LaneMeta.nodesByRank meta) (LayoutNode.rank a) ?? [] in
  siblings !! 0%nat = Some a ->
  exists pos resize,
    pos ∈ nodePositions /\ resize ∈ laneResizes
    /\ NodePosition.nodeId pos = LayoutNode.id a
    /\ resizeOf rootElementId (LayoutNode.laneId a, meta) resize
    /\ NodePosition.y pos + totalStackHeight constants siblings / 2
       == LaneResize.y resize + LaneResize.height resize / 2.
Proof.
  intros Hrun Hkeys Ha Hmeta siblings Hfirst.
  destruct (computeLayout_lanes _ _ _ _ _ _ _ Hrun)
    as (ld' & first & _ & -> & _ & _ & Hp & Hf & _).
  specialize (Hp Hkeys).
  assert (Hentry : (LayoutNode.laneId a, meta) ∈ lanesByY laneData).
  { unfold lanesByY. rewrite sort_perm. by apply get_Some_elem. }
  apply list_elem_of_lookup in Hentry as [j Hj].
  destruct (Forall2_lookup_l _ _ _ _ _ Hp Hj) as (resize & Hr & Hplaced).
  pose proof (Forall2_lookup_lr _ _ _ _ _ _ Hf Hj Hr) as Hof.
  cbn [fst snd] in Hplaced.
  pose proof (placeNode_position ld' rankWidths constants rootElementId a _ [] Hplaced)
    as HA.
  cbv zeta in HA. cbn [app LaneMeta.setY LaneMeta.nodesByRank] in HA.
  fold siblings in HA.
  assert (Hidx : findIndex (fun n => String.eqb (LayoutNode.id n) (LayoutNode.id a))
                   siblings = 0%Z).
  { destruct siblings as [| x l]; [done |]. cbn in Hfirst. injection Hfirst as ->.
    unfold findIndex. cbn [findIndex_from]. by rewrite String.eqb_refl. }
  rewrite Hidx in HA.
  eexists. exists resize.
  split; [apply placeNodes_elem; exists a; split; [done |];
          rewrite HA; apply list_elem_of_here |].
  split; [by eapply list_elem_of_lookup_2 |].
  split; [done |]. split; [done |].
  cbn [NodePosition.y]. unfold stackTop, stackOffsetAt.
  rewrite forRange_nil by done.
  cbn [LaneMeta.y LaneMeta.height LaneMeta.setY].
  destruct Hof as (_ & -> & _). cbn [snd]. field.
Qed.

Lemma computeLayout_centres_stacks_witness :
  let nodeMap := Graph.nodeMap (buildGraphFromElements pairElements) in
  let laneData := fst (laneDataOf [sampleLane] nodeMap DEFAULT_LAYOUT_CONSTANTS) in
  exists nodePositions laneResizes pos resize,
    computeLayout laneData nodeMap (computeRankWidths laneData 0)
      DEFAULT_LAYOUT_CONSTANTS (Some "Process_1") = Some (nodePositions, laneResizes)
    /\ pos ∈ nodePositions /\ resize ∈ laneResizes
    /\ NodePosition.nodeId pos = "Task_A"
    /\ NodePosition.y pos + (80 + 60 + 30) / 2
       == LaneResize.y resize + LaneResize.height resize / 2.
Proof.
  intros nodeMap laneData.
  destruct (computeLayout laneData nodeMap (computeRankWidths laneData 0)
              DEFAULT_LAYOUT_CONSTANTS (Some "Process_1"))
    as [[nodePositions laneResizes] |] eqn:Hrun; [| vm_compute in Hrun; discriminate Hrun].
  set (a := LayoutNode.mk "Task_A" (FlowElement.mk "Task_A" "Lane_1" 100 20 100 80 None)
              0 "Lane_1" 100 80).
  set (b := LayoutNode.mk "Task_B" (FlowElement.mk "Task_B" "Lane_1" 100 120 100 60 None)
              0 "Lane_1" 100 60).
  destruct (JsMap.get laneData "Lane_1") as [meta |] eqn:Hmeta;
    [| vm_compute in Hmeta; discriminate Hmeta].
  assert (Hsiblings : JsMap.get (LaneMeta.nodesByRank meta) 0%nat ?? [] = [a; b])
    by (vm_compute in Hmeta; by injection Hmeta as <-).
  destruct (computeLayout_centres_stacks laneData nodeMap (computeRankWidths laneData 0)
              DEFAULT_LAYOUT_CONSTANTS (Some "Process_1") nodePositions laneResizes
              a meta Hrun)
    as (pos & resize & H1 & H2 & H3 & _ & H5).
  - apply NoDup_singleton.
  - apply list_elem_of_here.
  - exact Hmeta.
  - cbn [LayoutNode.rank a]. by rewrite Hsiblings.
  - exists nodePositions, laneResizes, pos, resize.
    split; [reflexivity |]. split; [exact H1 |]. split; [exact H2 |].
    split; [exact H3 |].
    cbn [LayoutNode.rank a] in H5. rewrite Hsiblings in H5.
    rewrite <- H5. apply Qplus_comp; [reflexivity |]. reflexivity.
Defined.

(** ** Connector router: orthogonal routes *)

Lemma getOrientation_level (p q : Point.t) :
  Point.y p == Point.y q -> getOrientation p q <> diagonal.
Proof.
  intros Hy. unfold getOrientation.
  destruct (Num.ltb (Qabs (Point.x p - Point.x q)) 2); [done |].
  replace (Num.ltb (Qabs (Point.y p - Point.y q)) 2) with true; [done |].
  symmetry. apply ltb_lt.
  assert (H : Point.y p - Point.y q == 0) by (rewrite Hy; ring).
  rewrite H. reflexivity.
Qed.

Lemma getOrientation_plumb (p q : Point.t) :
  Point.x p == Point.x q -> getOrientation p q = vertical.
Proof.
  intros Hx. unfold getOrientation.
  replace (Num.ltb (Qabs (Point.x p - Point.x q)) 2) with true; [done |].
  symmetry. apply ltb_lt.
  assert (H : Point.x p - Point.x q == 0) by (rewrite Hx; ring).
  rewrite H. reflexivity.
Qed.

(** X21: the route of [computeManhattanWaypoints] is orthogonal for the
    collision detector: it has three segments, the middle one is vertical
    and none is diagonal. *)
Theorem computeManhattanWaypoints_orthogonal (connectionId : string)
    (sx sy sw sh tx ty tw th : Q) :
  exists s1 s2 s3 : Segment.t,
    extractSegments connectionId (computeManhattanWaypoints sx sy sw sh tx ty tw th)
    = [s1; s2; s3]
    /\ Segment.orientation s1 <> diagonal
    /\ Segment.orientation s2 = vertical
    /\ Segment.orientation s3 <> diagonal.
Proof.
  unfold computeManhattanWaypoints.
  destruct (Num.gtb tx (sx + sw + 20)); cbn [app extractSegments];
    eexists; eexists; eexists; (split; [reflexivity |]);
    cbn [Segment.orientation];
    (split; [by apply getOrientation_level |]);
    (split; [by apply getOrientation_plumb | by apply getOrientation_level]).
Qed.

(** ** Service: lanes, commands and completion *)

Lemma filter_nil_length {A} (f : A -> bool) (l : list A) :
  (length (List.filter f l) =? 0)%nat = true <-> List.filter f l = [].
Proof. destruct (List.filter f l); simpl; split; done. Qed.

(** X22: [getLanes] returns the lanes if the registry has any, otherwise the
    participants, otherwise the processes, always in registry order; an
    element it returns is never among the flow elements of
    [getFlowElements]. *)
Theorem getLanes_precedence (registry : list Element.t) :
  let ofType := fun type =>
    List.filter (fun e => String.eqb (Element.type e) type) registry in
  getLanes registry
  = (if (length (ofType "bpmn:Lane") =? 0)%nat
     then if (length (ofType "bpmn:Participant") =? 0)%nat
          then ofType "bpmn:Process"
          else ofType "bpmn:Participant"
     else ofType "bpmn:Lane")
  /\ (forall e, e ∈ getLanes registry ->
        e ∈ registry
        /\ (Element.type e = "bpmn:Lane" \/ Element.type e = "bpmn:Participant"
            \/ Element.type e = "bpmn:Process"))
  /\ (forall e, e ∈ getLanes registry -> e ∉ getFlowElements registry).
Proof.
  intros ofType.
  assert (Heq : getLanes registry
    = (if (length (ofType "bpmn:Lane") =? 0)%nat
       then if (length (ofType "bpmn:Participant") =? 0)%nat
            then ofType "bpmn:Process"
            else ofType "bpmn:Participant"
       else ofType "bpmn:Lane")).
  { unfold getLanes, registry_filter. cbv zeta. fold (ofType "bpmn:Lane").
    fold (ofType "bpmn:Participant"). fold (ofType "bpmn:Process").
    destruct (length (ofType "bpmn:Lane") =? 0)%nat eqn:E1; cbv beta iota;
      [| by rewrite E1].
    by destruct (length (ofType "bpmn:Participant") =? 0)%nat eqn:E2. }
  split; [exact Heq |].
  assert (Htypes : forall e, e ∈ getLanes registry ->
            e ∈ registry
            /\ (Element.type e = "bpmn:Lane" \/ Element.type e = "bpmn:Participant"
                \/ Element.type e = "bpmn:Process")).
  { intros e. rewrite Heq. subst ofType. cbv beta.
    destruct (_ =? 0)%nat; [destruct (_ =? 0)%nat |];
      intros [Hin Ht%String.eqb_eq]%list_elem_of_In%filter_In;
      (split; [by apply list_elem_of_In | tauto]). }
  split; [exact Htypes |].
  intros e He Hflow. destruct (Htypes e He) as [_ Ht].
  unfold getFlowElements, registry_filter in Hflow.
  apply list_elem_of_In, filter_In in Hflow as [_ Hp].
  repeat (apply andb_prop in Hp as [Hp ?]).
  destruct Ht as [Ht | [Ht | Ht]]; rewrite Ht in *; done.
Qed.

Lemma getLanes_precedence_witness :
  getLanes (Context.elementRegistry smallDiagram)
  = [sampleShape "Lane_1" "bpmn:Lane" (Some "Participant_1") 30 0 600 120 None]
  /\ sampleShape "Lane_1" "bpmn:Lane" (Some "Participant_1") 30 0 600 120 None
     ∉ getFlowElements (Context.elementRegistry smallDiagram).
Proof.
  assert (H : getLanes (Context.elementRegistry smallDiagram)
              = [sampleShape "Lane_1" "bpmn:Lane" (Some "Participant_1") 30 0 600 120 None])
    by reflexivity.
  split; [exact H |].
  apply (proj2 (proj2 (getLanes_precedence (Context.elementRegistry smallDiagram)))).
  rewrite H. apply list_elem_of_here.
Defined.

Lemma set_add_elem (s : list string) (c x : string) :
  x ∈ set_add s c <-> x ∈ s \/ x = c.
Proof.
  unfold set_add. destruct (existsb (String.eqb c) s) eqn:E.
  - split; [by left |]. intros [? | ->]; [done |].
    apply existsb_exists in E as (y & Hy & ->%String.eqb_eq). by apply list_elem_of_In.
  - rewrite elem_of_app, list_elem_of_singleton. done.
Qed.

Lemma set_add_NoDup (s : list string) (c : string) : NoDup s -> NoDup (set_add s c).
Proof.
  intros Hnd. unfold set_add. destruct (existsb (String.eqb c) s) eqn:E; [done |].
  apply NoDup_app. split; [done |]. split; [| apply NoDup_singleton].
  intros x Hx ->%list_elem_of_singleton.
  assert (existsb (String.eqb c) s = true); [| congruence].
  apply existsb_exists. exists c. split; [by apply list_elem_of_In | apply String.eqb_refl].
Qed.

Lemma set_adds_NoDup (out : list string) :
  forall s, NoDup s -> NoDup (fold_left set_add out s).
Proof.
  induction out as [| c out IH]; intros s Hs; [done |].
  cbn [fold_left]. by apply IH, set_add_NoDup.
Qed.

Section ServiceFacts.

Variable host : Command -> list Element.t -> list Element.t.

Lemma rerouteConnection_issued (w : World.t) (connId : string) :
  rerouteConnection host w connId = w
  \/ exists waypoints,
       length waypoints = 4%nat
       /\ World.issued (rerouteConnection host w connId)
          = World.issued w ++ [UpdateWaypoints connId waypoints].
Proof.
  unfold rerouteConnection.
  destruct (findElement (World.registry w) connId) as [conn |]; [| by left].
  destruct (match Element.source conn with
            | Some id => findElement (World.registry w) id
            | None => None
            end) as [source |]; [| by left].
  destruct (match Element.target conn with
            | Some id => findElement (World.registry w) id
            | None => None
            end) as [target |]; [| by left].
  right. eexists. split; [| reflexivity].
  unfold computeManhattanWaypoints. by destruct (Num.gtb _ _).
Qed.

Lemma rerouteConnections_fold (connections : list string) :
  forall w, exists cmds,
    World.issued (fold_left (rerouteConnection host) connections w)
    = World.issued w ++ cmds
    /\ Forall (fun c => exists connection waypoints,
                 c = UpdateWaypoints connection waypoints
                 /\ length waypoints = 4%nat) cmds
    /\ sublist (omap updatedConnection cmds) connections.
Proof.
  induction connections as [| connId connections IH]; intros w.
  - exists []. cbn [fold_left]. rewrite app_nil_r. by repeat split.
  - cbn [fold_left]. destruct (IH (rerouteConnection host w connId)) as (cmds & Hi & Hf & Hs).
    destruct (rerouteConnection_issued w connId) as [Hsame | (waypoints & Hlen & Hw)].
    + rewrite Hsame in *.
      exists cmds. split; [done |]. split; [done |]. by apply sublist_cons.
    + exists (UpdateWaypoints connId waypoints :: cmds). split.
      * rewrite Hi, Hw, <- app_assoc. done.
      * split; [constructor; [eauto | done] |]. cbn [omap updatedConnection].
        by apply sublist_skip.
Qed.

(** X23: [rerouteConnections] issues waypoint updates only, each with a
    route of four points, and at most one for any connection, however many
    elements list it as outgoing; what was issued before stays in place. *)
Theorem rerouteConnections_commands (w : World.t) (elements : list Element.t) :
  exists cmds : list Command,
    World.issued (rerouteConnections host w elements) = World.issued w ++ cmds
    /\ Forall (fun c => exists connection waypoints,
                 c = UpdateWaypoints connection waypoints
                 /\ length waypoints = 4%nat) cmds
    /\ NoDup (omap updatedConnection cmds).
Proof.
  unfold rerouteConnections.
  set (connections := fold_left _ elements []).
  destruct (rerouteConnections_fold connections w) as (cmds & Hi & Hf & Hs).
  exists cmds. split; [done |]. split; [done |].
  eapply sublist_NoDup; [| exact Hs]. subst connections.
  assert (Hgen : forall (els : list Element.t) (s : list string),
            NoDup s ->
            NoDup (fold_left
                     (fun connections el =>
                        match Element.outgoing (live (World.registry w) el) with
                        | Some out => fold_left set_add out connections
                        | None => connections
                        end) els s)).
  { induction els as [| el els IH]; intros s Hnd; [done |].
    cbn [fold_left]. apply IH.
    destruct (Element.outgoing _); [by apply set_adds_NoDup | done]. }
  apply Hgen, NoDup_nil_2.
Qed.

Variable localeCompare : string -> string -> Z.

Lemma resolveConnection_issued (connections : list Element.t)
    (constants : LayoutConstants.t) (w : World.t) (flag : bool) (conn : Element.t) :
  let st := resolveConnection host localeCompare connections constants (w, flag) conn in
  fst st = w
  \/ exists waypoints,
       World.issued (fst st)
       = World.issued w ++ [UpdateWaypoints (Element.id conn) waypoints].
Proof.
  unfold resolveConnection.
  destruct (computeResolvedWaypoints _ _ _ _) as [waypoints updated].
  destruct updated; [right; by exists waypoints | by left].
Qed.

Lemma resolve_pass_issued (connections : list Element.t) (constants : LayoutConstants.t)
    (todo : list Element.t) :
  forall (w : World.t) (flag : bool), exists cmds,
    World.issued
      (fst (fold_left (resolveConnection host localeCompare connections constants)
              todo (w, flag)))
    = World.issued w ++ cmds
    /\ (length cmds <= length todo)%nat
    /\ Forall (fun c => exists conn waypoints,
                 c = UpdateWaypoints (Element.id conn) waypoints /\ conn ∈ todo) cmds.
Proof.
  induction todo as [| conn todo IH]; intros w flag.
  - exists []. cbn [fold_left fst]. rewrite app_nil_r. by repeat split.
  - cbn [fold_left].
    pose proof (resolveConnection_issued connections constants w flag conn) as Hstep.
    destruct (resolveConnection host localeCompare connections constants (w, flag) conn)
      as [w1 flag1].
    destruct (IH w1 flag1) as (cmds & Hi & Hl & Hf).
    assert (Hmore : Forall (fun c => exists conn0 waypoints,
                      c = UpdateWaypoints (Element.id conn0) waypoints
                      /\ conn0 ∈ conn :: todo) cmds).
    { eapply Forall_impl; [exact Hf |]. intros c (c0 & wp & -> & Hin).
      exists c0, wp. split; [done | by apply list_elem_of_further]. }
    cbn [fst] in Hstep. destruct Hstep as [Hsame | (waypoints & Hw)].
    + rewrite Hsame in *. exists cmds. split; [done |]. split; [cbn [length]; lia | done].
    + exists (UpdateWaypoints (Element.id conn) waypoints :: cmds). split.
      * rewrite Hi, Hw, <- app_assoc. done.
      * split; [cbn [length]; lia |]. constructor; [| done].
        exists conn, waypoints. split; [done | apply list_elem_of_here].
Qed.

Lemma resolvePasses_issued (connections : list Element.t) (constants : LayoutConstants.t)
    (maxPasses : nat) :
  forall w : World.t, exists cmds,
    World.issued (resolvePasses host localeCompare maxPasses connections constants w)
    = World.issued w ++ cmds
    /\ (length cmds <= maxPasses * length connections)%nat
    /\ Forall (fun c => exists conn waypoints,
                 c = UpdateWaypoints (Element.id conn) waypoints
                 /\ conn ∈ connections) cmds.
Proof.
  induction maxPasses as [| remaining IH]; intros w.
  - exists []. cbn [resolvePasses]. rewrite app_nil_r. by repeat split.
  - cbn [resolvePasses].
    destruct (resolve_pass_issued connections constants connections w false)
      as (cmds & Hi & Hl & Hf).
    destruct (fold_left _ connections (w, false)) as [w1 anyUpdated].
    cbn [fst] in Hi. destruct anyUpdated; cbn [negb].
    + destruct (IH w1) as (cmds' & Hi' & Hl' & Hf').
      exists (cmds ++ cmds'). split; [by rewrite Hi', Hi, app_assoc |].
      split; [rewrite length_app; lia | by apply Forall_app].
    + exists cmds. split; [done |]. split; [lia | done].
Qed.

(** X24: [resolveEdgeCollisions] issues waypoint updates of sequence flows
    of the registry and nothing else, at most one per flow and pass, so at
    most [maxPasses] times the number of sequence flows. *)
Theorem resolveEdgeCollisions_commands (context : Context.t) (maxPasses : nat)
    (constants : LayoutConstants.t) :
  let connections :=
    registry_filter (Context.elementRegistry context)
      (fun e => String.eqb (Element.type e) "bpmn:SequenceFlow") in
  let w := resolveEdgeCollisions host localeCompare context maxPasses constants in
  (length (World.issued w) <= maxPasses * length connections)%nat
  /\ Forall (fun c => exists conn waypoints,
               c = UpdateWaypoints (Element.id conn) waypoints
               /\ conn ∈ Context.elementRegistry context
               /\ Element.type conn = "bpmn:SequenceFlow") (World.issued w).
Proof.
  intros connections w. subst w. unfold resolveEdgeCollisions. fold connections.
  destruct (length connections =? 0)%nat.
  - cbn [World.issued length]. split; [lia | constructor].
  - destruct (resolvePasses_issued connections constants maxPasses
                (World.mk (Context.elementRegistry context) [])) as (cmds & -> & Hl & Hf).
    cbn [World.issued app]. split; [done |].
    eapply Forall_impl; [exact Hf |]. intros c (conn & wp & -> & Hin).
    exists conn, wp. split; [done |].
    apply list_elem_of_In, filter_In in Hin as [Hin Ht].
    split; [by apply list_elem_of_In | by apply String.eqb_eq].
Qed.

End ServiceFacts.

Section Settling.

Variable host : Command -> list Element.t -> list Element.t.
Variable localeCompare : string -> string -> Z.

Lemma resolve_pass_flag (connections : list Element.t) (constants : LayoutConstants.t)
    (todo : list Element.t) :
  forall (w : World.t) (flag : bool),
    let st := fold_left (resolveConnection host localeCompare connections constants)
                todo (w, flag) in
    World.issued w `prefix_of` World.issued (fst st)
    /\ (snd st = true -> flag = false -> World.issued (fst st) <> World.issued w)
    /\ (snd st = false -> fst st = w /\ flag = false).
Proof.
  induction todo as [| conn todo IH]; intros w flag; cbn [fold_left fst snd].
  - split; [done |]. split; [congruence | done].
  - assert (Hstep : exists w1 flag1,
              resolveConnection host localeCompare connections constants (w, flag) conn
              = (w1, flag1)
              /\ ((w1 = w /\ flag1 = flag)
                  \/ (flag1 = true
                      /\ exists c, World.issued w1 = World.issued w ++ [c]))).
    { unfold resolveConnection.
      destruct (computeResolvedWaypoints _ _ _ _) as [waypoints updated].
      destruct updated.
      - eexists _, _. split; [done |]. right. split; [done |]. by eexists.
      - eexists _, _. split; [done |]. by left. }
    destruct Hstep as (w1 & flag1 & -> & Hstep).
    destruct (IH w1 flag1) as (Hp & Ht & Hf).
    destruct Hstep as [[-> ->] | (-> & c & Hc)]; [done |].
    split; [| split].
    + etrans; [| exact Hp]. rewrite Hc. by apply prefix_app_r.
    + intros _ _ Heq. rewrite Hc in Hp. rewrite Heq in Hp.
      apply prefix_length in Hp. rewrite length_app in Hp. cbn [length] in Hp. lia.
    + intros Hs. by destruct (Hf Hs).
Qed.

Lemma resolvePasses_prefix (connections : list Element.t) (constants : LayoutConstants.t)
    (n : nat) :
  forall w : World.t,
    World.issued w
    `prefix_of` World.issued (resolvePasses host localeCompare n connections constants w)
    /\ World.issued (resolvePasses host localeCompare n connections constants w)
       `prefix_of`
       World.issued (resolvePasses host localeCompare (S n) connections constants w).
Proof.
  induction n as [| n IH]; intros w.
  - cbn [resolvePasses].
    pose proof (resolve_pass_flag connections constants connections w false) as (Hp & _).
    destruct (fold_left _ connections (w, false)) as [w1 f]. cbn [fst] in Hp.
    split; [done |]. by destruct (negb f).
  - pose proof (resolve_pass_flag connections constants connections w false) as (Hp & _).
    change (resolvePasses host localeCompare (S (S n)) connections constants w)
      with (let '(w1, anyUpdated) :=
              fold_left (resolveConnection host localeCompare connections constants)
                connections (w, false) in
            if negb anyUpdated then w1
            else resolvePasses host localeCompare (S n) connections constants w1).
    change (resolvePasses host localeCompare (S n) connections constants w)
      with (let '(w1, anyUpdated) :=
              fold_left (resolveConnection host localeCompare connections constants)
                connections (w, false) in
            if negb anyUpdated then w1
            else resolvePasses host localeCompare n connections constants w1).
    destruct (fold_left _ connections (w, false)) as [w1 f]. cbn [fst] in Hp.
    destruct (IH w1) as (H1 & H2).
    destruct f; cbn [negb]; [| done].
    split; [by etrans | done].
Qed.

Lemma resolvePasses_settled (connections : list Element.t) (constants : LayoutConstants.t)
    (n : nat) :
  forall w : World.t,
    World.issued (resolvePasses host localeCompare (S n) connections constants w)
    = World.issued (resolvePasses host localeCompare n connections constants w) ->
    forall m, (n <= m)%nat ->
      resolvePasses host localeCompare m connections constants w
      = resolvePasses host localeCompare n connections constants w.
Proof.
  induction n as [| n IH]; intros w Heq m Hm.
  - cbn [resolvePasses] in Heq |- *.
    pose proof (resolve_pass_flag connections constants connections w false)
      as (_ & Ht & Hf).
    destruct m as [| m]; [done |]. cbn [resolvePasses].
    destruct (fold_left _ connections (w, false)) as [w1 f]. cbn [fst snd] in *.
    destruct f; cbn [negb] in *.
    + by destruct (Ht eq_refl eq_refl).
    + by destruct (Hf eq_refl).
  - destruct m as [| m]; [lia |].
    revert Heq.
    change (resolvePasses host localeCompare (S (S n)) connections constants w)
      with (let '(w1, anyUpdated) :=
              fold_left (resolveConnection host localeCompare connections constants)
                connections (w, false) in
            if negb anyUpdated then w1
            else resolvePasses host localeCompare (S n) connections constants w1).
    cbn [resolvePasses].
    destruct (fold_left _ connections (w, false)) as [w1 f].
    destruct f; cbn [negb]; [| done].
    intros Heq. apply IH; [done | lia].
Qed.

(** X29: more passes of [resolveEdgeCollisions] only add commands to those of
    fewer passes, and a run that gains nothing from one more pass has
    settled: every longer run issues the same commands and ends with the
    same registry. *)
Theorem resolveEdgeCollisions_settles (context : Context.t) (maxPasses : nat)
    (constants : LayoutConstants.t) :
  let run passes := resolveEdgeCollisions host localeCompare context passes constants in
  World.issued (run maxPasses) `prefix_of` World.issued (run (S maxPasses))
  /\ (World.issued (run (S maxPasses)) = World.issued (run maxPasses) ->
      forall passes, (maxPasses <= passes)%nat -> run passes = run maxPasses).
Proof.
  intros run. subst run. cbv beta. unfold resolveEdgeCollisions.
  destruct (length _ =? 0)%nat; [done |]. split.
  - apply resolvePasses_prefix.
  - apply resolvePasses_settled.
Qed.

End Settling.

Lemma resolveEdgeCollisions_settles_witness :
  length (World.issued
            (resolveEdgeCollisions sampleHost codeUnitCompare crossedFlows 1
               DEFAULT_LAYOUT_CONSTANTS)) = 1%nat
  /\ forall passes, (1 <= passes)%nat ->
       resolveEdgeCollisions sampleHost codeUnitCompare crossedFlows passes
         DEFAULT_LAYOUT_CONSTANTS
       = resolveEdgeCollisions sampleHost codeUnitCompare crossedFlows 1
           DEFAULT_LAYOUT_CONSTANTS.
Proof.
  split; [vm_compute; reflexivity |].
  apply (proj2 (resolveEdgeCollisions_settles sampleHost codeUnitCompare crossedFlows 1
                  DEFAULT_LAYOUT_CONSTANTS)).
  vm_compute. reflexivity.
Defined.

Lemma allSegmentsOf_elem (connections : list Element.t) (s : Segment.t) :
  s ∈ allSegmentsOf connections
  <-> exists conn, conn ∈ connections
        /\ s ∈ extractSegments (Element.id conn) (Element.waypoints conn).
Proof.
  unfold allSegmentsOf. rewrite list_elem_of_In, in_flat_map.
  split; intros (conn & H1 & H2); exists conn;
    (split; [by apply list_elem_of_In | by apply list_elem_of_In]).
Qed.

(** X25: the service's [detectCollisions] reports only pairs of different
    sequence flows of the registry: each conflict holds a segment of each
    of the two flows it names, and the two collide at the default
    threshold.  A flow is never reported against itself, and elements
    that are not sequence flows play no part. *)
Theorem service_detectCollisions_pairs (context : Context.t) (c : CollisionConflict.t) :
  c ∈ service_detectCollisions context ->
  exists conn1 conn2 : Element.t,
    conn1 ∈ Context.elementRegistry context
    /\ conn2 ∈ Context.elementRegistry context
    /\ Element.type conn1 = "bpmn:SequenceFlow"
    /\ Element.type conn2 = "bpmn:SequenceFlow"
    /\ CollisionConflict.connections c = (Element.id conn1, Element.id conn2)
    /\ Element.id conn1 <> Element.id conn2
    /\ CollisionConflict.segment1 c
       ∈ extractSegments (Element.id conn1) (Element.waypoints conn1)
    /\ CollisionConflict.segment2 c
       ∈ extractSegments (Element.id conn2) (Element.waypoints conn2)
    /\ checkSegmentCollision (CollisionConflict.segment1 c) (CollisionConflict.segment2 c)
         (LayoutConstants.collisionThreshold DEFAULT_LAYOUT_CONSTANTS) = true.
Proof.
  unfold service_detectCollisions, registry_filter.
  intros (i & j & seg1 & seg2 & _ & H1 & H2 & Hne & Hcol & ->)%detectCollisions_elem.
  apply list_elem_of_lookup_2, allSegmentsOf_elem in H1 as (conn1 & Hc1 & Hs1).
  apply list_elem_of_lookup_2, allSegmentsOf_elem in H2 as (conn2 & Hc2 & Hs2).
  apply list_elem_of_In, filter_In in Hc1 as [Hc1 Ht1%String.eqb_eq].
  apply list_elem_of_In, filter_In in Hc2 as [Hc2 Ht2%String.eqb_eq].
  pose proof (extractSegments_connectionId _ _ _ Hs1) as Hid1.
  pose proof (extractSegments_connectionId _ _ _ Hs2) as Hid2.
  exists conn1, conn2. cbn [CollisionConflict.connections CollisionConflict.segment1
                            CollisionConflict.segment2].
  rewrite Hid1, Hid2 in *.
  repeat split; try done; by apply list_elem_of_In.
Qed.

Lemma service_detectCollisions_pairs_witness :
  let crossing :=
    Context.mk
      [ sampleFlow "Flow_1" "Task_A" "Task_B" [Point.mk 0 0; Point.mk 100 0; Point.mk 100 50];
        sampleShape "Task_A" "bpmn:Task" None 0 0 100 80 None;
        sampleFlow "Flow_2" "Task_C" "Task_D"
          [Point.mk 40 3; Point.mk 160 3; Point.mk 160 50] ] None in
  exists c conn1 conn2,
    service_detectCollisions crossing = [c]
    /\ conn1 ∈ Context.elementRegistry crossing
    /\ conn2 ∈ Context.elementRegistry crossing
    /\ CollisionConflict.connections c = (Element.id conn1, Element.id conn2)
    /\ Element.id conn1 <> Element.id conn2.
Proof.
  intros crossing.
  destruct (service_detectCollisions crossing) as [| c [| c' l]] eqn:Hrun;
    [discriminate Hrun | | discriminate Hrun].
  destruct (service_detectCollisions_pairs crossing c)
    as (conn1 & conn2 & H1 & H2 & _ & _ & Hc & Hne & _).
  { rewrite Hrun. apply list_elem_of_here. }
  by exists c, conn1, conn2.
Defined.

Lemma findElement_id (registry : list Element.t) (id : string) (e : Element.t) :
  findElement registry id = Some e -> Element.id e = id.
Proof.
  unfold findElement. intros H. apply find_some in H as [_ H]. by apply String.eqb_eq.
Qed.

Lemma live_id (registry : list Element.t) (e : Element.t) :
  Element.id (live registry e) = Element.id e.
Proof.
  unfold live. destruct (findElement registry (Element.id e)) eqn:E; [| done].
  cbn [Num.orElse]. by eapply findElement_id.
Qed.

Lemma buildLaneData_addNode_elements (node : LayoutNode.t)
    (laneData : JsMap.t string LaneMeta.t) (maxGlobalRank : nat) (k : string)
    (meta' : LaneMeta.t) :
  (k, meta') ∈ fst (buildLaneData_addNode node (laneData, maxGlobalRank)) ->
  exists meta, (k, meta) ∈ laneData /\ LaneMeta.element meta' = LaneMeta.element meta.
Proof.
  unfold buildLaneData_addNode.
  destruct (JsMap.get laneData (LayoutNode.laneId node)) as [meta |] eqn:Hmeta;
    cbn [fst]; [| eauto].
  intros [Hold | [-> ->]]%set_elem; [eauto |].
  exists meta. split; [by apply get_Some_elem | done].
Qed.

Lemma buildLaneData_elements (lanes : list LaneInput.t)
    (nodeMap : JsMap.t string LayoutNode.t) (k : string) (meta : LaneMeta.t) :
  (k, meta) ∈ fst (buildLaneData lanes nodeMap) ->
  exists lane, lane ∈ lanes /\ LaneMeta.element meta = LaneInput.element lane.
Proof.
  unfold buildLaneData, JsMap.forEach.
  set (laneData0 := fold_left _ lanes JsMap.empty).
  assert (H0 : forall k meta, (k, meta) ∈ laneData0 ->
            exists lane, lane ∈ lanes /\ LaneMeta.element meta = LaneInput.element lane).
  { subst laneData0.
    assert (Hgen : forall (ls : list LaneInput.t) (m0 : JsMap.t string LaneMeta.t),
              (forall k meta, (k, meta) ∈ m0 ->
                 exists lane, lane ∈ lanes
                   /\ LaneMeta.element meta = LaneInput.element lane) ->
              (forall lane, lane ∈ ls -> lane ∈ lanes) ->
              forall k meta,
                (k, meta) ∈ fold_left
                  (fun laneData lane =>
                     JsMap.set laneData (LaneInput.id lane)
                       {| LaneMeta.id := LaneInput.id lane;
                          LaneMeta.element := LaneInput.element lane;
                          LaneMeta.maxStack := 1;
                          LaneMeta.y := LaneInput.y lane;
                          LaneMeta.height := LaneInput.height lane;
                          LaneMeta.nodesByRank := JsMap.empty |}) ls m0 ->
                exists lane, lane ∈ lanes
                  /\ LaneMeta.element meta = LaneInput.element lane).
    { induction ls as [| l ls IH]; intros m0 Hm Hsub k0 meta0; cbn [fold_left];
        [apply (Hm k0) |].
      apply IH; [| intros lane Hl; by apply Hsub, list_elem_of_further].
      intros k1 meta1 [Hold | [-> ->]]%set_elem; [by apply (Hm k1) |].
      exists l. split; [apply Hsub, list_elem_of_here | done]. }
    apply Hgen; [by intros ? ? ?%elem_of_nil | done]. }
  clearbody laneData0. revert laneData0 H0. generalize 0%nat.
  induction nodeMap as [| [id node] nodeMap IH]; intros mgr laneData H0;
    cbn [fold_left fst snd]; [apply (H0 k) |].
  destruct (buildLaneData_addNode node (laneData, mgr)) as [laneData1 mgr1] eqn:Hstep.
  apply IH. intros k1 meta1 Hin.
  destruct (buildLaneData_addNode_elements node laneData mgr k1 meta1) as (m & Hm & ->).
  { by rewrite Hstep. }
  by apply (H0 k1).
Qed.

Section Orchestrator.

Variable host : Command -> list Element.t -> list Element.t.

Lemma applyLaneResize_issued (w : World.t) (resize : LaneResize.t) :
  applyLaneResize host w resize = w
  \/ exists c,
       World.issued (applyLaneResize host w resize) = World.issued w ++ [c]
       /\ ((exists bounds,
              c = ResizeShape (Element.id (LaneResize.element resize)) bounds
              /\ Bounds.height bounds = LaneResize.height resize)
           \/ (exists dy,
                 c = MoveElements [Element.id (LaneResize.element resize)]
                       (Point.mk 0 dy) None)).
Proof.
  unfold applyLaneResize. destruct (LaneResize.isRoot resize); [by left |].
  rewrite !live_id.
  destruct (negb (Num.opt_eqb _ _)).
  - right. eexists. split; [reflexivity |]. left. eexists. split; [reflexivity | done].
  - destruct (negb (Num.opt_eqb _ _)); [| by left].
    right. eexists. split; [reflexivity |]. right. by eexists.
Qed.

Lemma applyLaneResizes_issued (shape : Command -> Prop) (laneResizes : list LaneResize.t) :
  (forall resize c, resize ∈ laneResizes ->
     (exists bounds,
        c = ResizeShape (Element.id (LaneResize.element resize)) bounds
        /\ Bounds.height bounds = LaneResize.height resize)
     \/ (exists dy,
           c = MoveElements [Element.id (LaneResize.element resize)]
                 (Point.mk 0 dy) None) ->
     shape c) ->
  forall w, exists cmds,
    World.issued (fold_left (applyLaneResize host) laneResizes w) = World.issued w ++ cmds
    /\ Forall shape cmds.
Proof.
  induction laneResizes as [| r rs IH]; intros Hshape w.
  - exists []. cbn [fold_left]. by rewrite app_nil_r.
  - cbn [fold_left].
    destruct (IH (fun resize c Hin => Hshape resize c (list_elem_of_further _ _ _ Hin))
                (applyLaneResize host w r)) as (cmds & Hi & Hf).
    destruct (applyLaneResize_issued w r) as [Hsame | (c & Hc & Hs)].
    + rewrite Hsame in *. by exists cmds.
    + exists (c :: cmds). split; [by rewrite Hi, Hc, <- app_assoc |].
      constructor; [| done]. apply (Hshape r c); [apply list_elem_of_here | done].
Qed.

Lemma applyNodePositions_issued (nodeMap : JsMap.t string LayoutNode.t)
    (laneData : JsMap.t string LaneMeta.t) (laneById : JsMap.t string Element.t)
    (nodePositions : list NodePosition.t) :
  forall w, exists cmds,
    World.issued (fold_left (applyNodePosition host nodeMap laneData laneById)
                    nodePositions w)
    = World.issued w ++ cmds
    /\ Forall nodeCommand cmds.
Proof.
  induction nodePositions as [| pos positions IH]; intros w.
  - exists []. cbn [fold_left]. by rewrite app_nil_r.
  - cbn [fold_left].
    destruct (IH (applyNodePosition host nodeMap laneData laneById w pos))
      as (cmds & Hi & Hf).
    unfold applyNodePosition in *.
    destruct (JsMap.get nodeMap (NodePosition.nodeId pos)) as [node |]; [| by exists cmds].
    destruct (JsMap.get laneData (NodePosition.laneId pos)) as [meta |]; [| by exists cmds].
    destruct (Num.gtb (Qabs (NodePosition.dx pos)) 1 || Num.gtb (Qabs (NodePosition.dy pos)) 1)
      eqn:Hmove; [| by exists cmds].
    eexists (_ :: cmds). split; [rewrite Hi; cbn [issue World.issued];
                                 by rewrite <- app_assoc |].
    constructor; [| done]. do 4 eexists. split; [reflexivity |].
    apply orb_true_iff in Hmove as [H | H]; apply gtb_gt in H; tauto.
Qed.

Lemma rerouteConnections_issued (w : World.t) (elements : list Element.t) :
  exists cmds : list Command,
    World.issued (rerouteConnections host w elements) = World.issued w ++ cmds
    /\ Forall routeCommand cmds
    /\ NoDup (omap updatedConnection cmds).
Proof.
  unfold rerouteConnections.
  set (connections := fold_left _ elements []).
  destruct (rerouteConnections_fold host connections w) as (cmds & Hi & Hf & Hs).
  exists cmds. split; [done |]. split; [done |].
  eapply sublist_NoDup; [| exact Hs]. subst connections.
  assert (Hgen : forall (els : list Element.t) (s : list string),
            NoDup s ->
            NoDup (fold_left
                     (fun connections el =>
                        match Element.outgoing (live (World.registry w) el) with
                        | Some out => fold_left set_add out connections
                        | None => connections
                        end) els s)).
  { induction els as [| el els IH]; intros s Hnd; [done |].
    cbn [fold_left]. apply IH.
    destruct (Element.outgoing _); [by apply set_adds_NoDup | done]. }
  apply Hgen, NoDup_nil_2.
Qed.

(** X26: what [autoLayout] asks of the editor, in this order: resizes and
    vertical moves of lanes, then moves of flow elements, then one
    four-point route per connection.  A lane is never resized below the
    height of its element, and a flow element is moved only when it is
    more than one unit away from its place. *)
Theorem autoLayout_commands (fuel : nat) (context : Context.t)
    (constants : LayoutConstants.t) (w : World.t) :
  autoLayout host fuel context constants = Done w ->
  exists laneCmds nodeCmds routeCmds : list Command,
    World.issued w = laneCmds ++ nodeCmds ++ routeCmds
    /\ Forall (laneCommand (getLanes (Context.elementRegistry context))) laneCmds
    /\ Forall nodeCommand nodeCmds
    /\ Forall routeCommand routeCmds
    /\ NoDup (omap updatedConnection routeCmds).
Proof.
  unfold autoLayout.
  set (registry := Context.elementRegistry context).
  set (lanes := getLanes registry). set (elements := getFlowElements registry).
  destruct ((length lanes =? 0)%nat || (length elements =? 0)%nat).
  { intros [= <-]. exists [], [], []. cbn [World.issued app].
    repeat split; constructor. }
  destruct (allSome (map (asFlowElement registry) elements)) as [flowElements |]; [| done].
  destruct (assignRanks fuel _ _) as [nodeMap | | |]; cbn [outcome_bind]; try done.
  destruct (buildLaneData (map laneInputOf lanes) nodeMap) as [laneData0 maxGlobalRank]
    eqn:Hbuild.
  set (laneData := computeLaneHeights laneData0 maxGlobalRank constants).
  destruct (computeLayout laneData nodeMap _ constants _)
    as [[nodePositions laneResizes] |] eqn:Hlayout; [| done].
  intros [= <-].
  destruct (computeLayout_lanes _ _ _ _ _ _ _ Hlayout)
    as (_ & _ & _ & _ & _ & _ & _ & Hof & _).
  destruct (applyLaneResizes_issued (laneCommand lanes) laneResizes)
    with (w := World.mk registry []) as (laneCmds & Hl & Hlf).
  { intros resize c Hin Hc.
    apply list_elem_of_lookup in Hin as [j Hj].
    destruct (Forall2_lookup_r _ _ _ _ _ Hof Hj) as ([k meta] & Hentry & Hres).
    destruct Hres as (_ & Hh & He & _). cbn [snd] in Hh, He.
    assert (Hin : (k, meta) ∈ laneData).
    { apply list_elem_of_lookup_2 in Hentry. unfold lanesByY in Hentry.
      by rewrite sort_perm in Hentry. }
    unfold laneData, computeLaneHeights in Hin.
    apply list_elem_of_fmap in Hin as ([k0 meta0] & [= -> ->] & Hin0).
    destruct (buildLaneData_elements (map laneInputOf lanes) nodeMap k0 meta0)
      as (input & (lane & -> & Hlane)%list_elem_of_fmap & Helem).
    { by rewrite Hbuild. }
    cbn [fst snd] in *.
    destruct (computeLaneHeight_bounds constants maxGlobalRank meta0) as (_ & He' & Hge & _).
    cbn [laneInputOf LaneInput.element] in Helem.
    exists lane. split; [done |]. rewrite He, He', Helem in Hc.
    destruct Hc as [(bounds & -> & Hb) | (dy & ->)]; [left | right; by exists dy].
    exists bounds. split; [done |]. rewrite Hb, Hh. by rewrite Helem in Hge. }
  set (w1 := fold_left (applyLaneResize host) laneResizes (World.mk registry [])) in *.
  destruct (applyNodePositions_issued nodeMap laneData
              (fold_left (fun m l => JsMap.set m (Element.id l) l) lanes JsMap.empty)
              nodePositions w1) as (nodeCmds & Hn & Hnf).
  set (w2 := fold_left _ nodePositions w1) in *.
  destruct (rerouteConnections_issued w2 elements) as (routeCmds & Hr & Hrf & Hnd).
  exists laneCmds, nodeCmds, routeCmds.
  rewrite Hr, Hn, Hl. cbn [World.issued app]. by rewrite <- app_assoc.
Qed.

End Orchestrator.

Lemma autoLayout_commands_witness :
  exists w laneCmds nodeCmds routeCmds,
    autoLayout sampleHost 3 smallDiagram DEFAULT_LAYOUT_CONSTANTS = Done w
    /\ World.issued w = laneCmds ++ nodeCmds ++ routeCmds
    /\ Forall (laneCommand (getLanes (Context.elementRegistry smallDiagram))) laneCmds
    /\ Forall nodeCommand nodeCmds
    /\ Forall routeCommand routeCmds.
Proof.
  destruct (autoLayout sampleHost 3 smallDiagram DEFAULT_LAYOUT_CONSTANTS)
    as [w | | |] eqn:Hrun;
    [| vm_compute in Hrun; discriminate Hrun
     | vm_compute in Hrun; discriminate Hrun
     | vm_compute in Hrun; discriminate Hrun].
  destruct (autoLayout_commands sampleHost 3 smallDiagram DEFAULT_LAYOUT_CONSTANTS w Hrun)
    as (laneCmds & nodeCmds & routeCmds & H1 & H2 & H3 & H4 & _).
  exists w, laneCmds, nodeCmds, routeCmds.
  split; [reflexivity |]. split; [exact H1 |]. split; [exact H2 |].
  split; [exact H3 | exact H4].
Defined.

(** X27: [autoLayout] completes on a diagram without cycles whose flow
    elements have a parent, a position and a size: no endless loop and no
    [TypeError], within the iterations that the depths allow. *)
Theorem autoLayout_completes (host : Command -> list Element.t -> list Element.t)
    (context : Context.t) (constants : LayoutConstants.t)
    (flowElements : list FlowElement.t) (depth : string -> nat) :
  let registry := Context.elementRegistry context in
  let g := buildGraphFromElements flowElements in
  allSome (map (asFlowElement registry) (getFlowElements registry)) = Some flowElements ->
  increasingAlongEdges (Graph.adjacency g) depth ->
  exists w,
    autoLayout host
      (ranksPotential depth (Graph.nodeMap g)
         (initialQueue (Graph.nodeMap g) (Graph.adjacency g)))
      context constants = Done w.
Proof.
  intros registry g Htyped Hdepth. unfold autoLayout. fold registry.
  destruct (length (getLanes registry) =? 0)%nat eqn:Hlanes; [eauto |].
  destruct (length (getFlowElements registry) =? 0)%nat; [eauto |].
  cbn [orb]. rewrite Htyped. fold g.
  destruct (assignRanks_completes_without_cycles flowElements depth Hdepth)
    as [nodeMap' Hranks].
  fold g in Hranks. rewrite Hranks. cbn [outcome_bind].
  destruct (buildLaneData (map laneInputOf (getLanes registry)) nodeMap')
    as [laneData0 maxGlobalRank] eqn:Hbuild.
  destruct (computeLayout _ nodeMap' _ constants _) as [[nodePositions laneResizes] |]
    eqn:Hlayout; [eauto |].
  exfalso. apply computeLayout_None in Hlayout.
  destruct (getLanes registry) as [| lane lanes] eqn:Hl; [done |].
  destruct (proj1 (buildLaneData_structure (map laneInputOf (lane :: lanes)) nodeMap')
              (Element.id lane)) as [_ Hkey].
  rewrite Hbuild in Hkey. cbn [fst] in Hkey.
  destruct Hkey as [meta Hmeta]; [apply list_elem_of_here |].
  apply get_Some_elem in Hmeta.
  unfold computeLaneHeights in Hlayout. apply map_eq_nil in Hlayout.
  rewrite Hlayout in Hmeta. by apply elem_of_nil in Hmeta.
Qed.

Lemma autoLayout_completes_witness :
  exists w, autoLayout sampleHost 4 smallDiagram DEFAULT_LAYOUT_CONSTANTS = Done w.
Proof.
  destruct (autoLayout_completes sampleHost smallDiagram DEFAULT_LAYOUT_CONSTANTS
              [ FlowElement.mk "Start_1" "Lane_1" 50 40 36 36 (Some ["Task_A"]);
                FlowElement.mk "Task_A" "Lane_1" 60 10 100 80 (Some ["Task_B"]);
                FlowElement.mk "Task_B" "Lane_1" 70 20 100 80 None ]
              chainDepth) as [w Hw].
  - reflexivity.
  - assert (Hadj : Graph.adjacency (buildGraphFromElements
              [ FlowElement.mk "Start_1" "Lane_1" 50 40 36 36 (Some ["Task_A"]);
                FlowElement.mk "Task_A" "Lane_1" 60 10 100 80 (Some ["Task_B"]);
                FlowElement.mk "Task_B" "Lane_1" 70 20 100 80 None ])
             = [("Start_1", ["Task_A"]); ("Task_A", ["Task_B"]); ("Task_B", [])])
      by reflexivity.
    intros u v (ns & Hget & Hv). rewrite Hadj in Hget. cbn [JsMap.get] in Hget.
    repeat case_decide; simplify_eq;
      rewrite ?elem_of_cons, ?elem_of_nil in Hv;
      try (by destruct Hv as [-> | []]; vm_compute; lia); done.
  - assert (Hfuel : ranksPotential chainDepth
                      (Graph.nodeMap (buildGraphFromElements
                         [ FlowElement.mk "Start_1" "Lane_1" 50 40 36 36 (Some ["Task_A"]);
                           FlowElement.mk "Task_A" "Lane_1" 60 10 100 80 (Some ["Task_B"]);
                           FlowElement.mk "Task_B" "Lane_1" 70 20 100 80 None ]))
                      (initialQueue
                         (Graph.nodeMap (buildGraphFromElements
                            [ FlowElement.mk "Start_1" "Lane_1" 50 40 36 36 (Some ["Task_A"]);
                              FlowElement.mk "Task_A" "Lane_1" 60 10 100 80 (Some ["Task_B"]);
                              FlowElement.mk "Task_B" "Lane_1" 70 20 100 80 None ]))
                         (Graph.adjacency (buildGraphFromElements
                            [ FlowElement.mk "Start_1" "Lane_1" 50 40 36 36 (Some ["Task_A"]);
                              FlowElement.mk "Task_A" "Lane_1" 60 10 100 80 (Some ["Task_B"]);
                              FlowElement.mk "Task_B" "Lane_1" 70 20 100 80 None ])))
                    = 4%nat) by (vm_compute; reflexivity).
    rewrite Hfuel in Hw. exists w. exact Hw.
Defined.
